(* ===== verification/_CoqProject ===== *)
-Q . S2P
Prelude.v
GoStrings.v
Lane.v
LaneProofs.v
LaneTheorems.v
LaneServed.v
UnloadPolicy.v
FamilySwitch.v
Float64.v
SchedulingCost.v
OffloadQueue.v
OffloadQueueProofs.v
OffloadPlan.v
OffloadPlanProofs.v
Lending.v
LendingProofs.v
ClusterRegistry.v
ClusterRegistryProofs.v
