(* ===== verification/Prelude.v ===== *)
(** * tensors-router: verification library

    PLACEHOLDER HEADER *)

From stdpp Require Import gmap strings list sorting.
From Stdlib Require Import Bool ZArith Lia.

Create HintDb router.
Create Rewrite HintDb router.

(** ** Results of fallible operations

    A Go function that returns [(value, error)] is modelled as a [result]: the
    error component carries a value of the component's own error type. *)
Inductive result (E A : Type) : Type :=
| Ok (a : A)
| Err (e : E).
Arguments Ok {E A} _.
Arguments Err {E A} _.

Definition result_bind {E A B} (m : result E A) (k : A → result E B) : result E B :=
  match m with Ok a => k a | Err e => Err e end.

Declare Scope go_scope.
Delimit Scope go_scope with go.
Notation "'let?' x ':=' m 'in' k" := (result_bind m (fun x => k))
  (at level 10, x pattern, m at level 100, k at level 200) : go_scope.

Definition is_ok {E A} (m : result E A) : bool :=
  match m with Ok _ => true | Err _ => false end.

Lemma result_bind_ok {E A B} (m : result E A) (k : A → result E B) b :
  result_bind m k = Ok b ↔ ∃ a, m = Ok a ∧ k a = Ok b.
Proof. destruct m; simpl; split; [eauto| by intros (?&[=->]&?) | done | by intros (?&[=]&?)]. Qed.

(** ** Machine integers *)

Definition u64_modulus : Z := 2 ^ 64.

(** [x++] on a [uint64]. *)
Definition u64_succ (n : Z) : Z := (n + 1) `mod` u64_modulus.

Lemma u64_succ_small n : (0 ≤ n)%Z → (n + 1 < u64_modulus)%Z → u64_succ n = (n + 1)%Z.
Proof. intros. unfold u64_succ. by rewrite Z.mod_small by lia. Qed.

Lemma u64_succ_range n : (0 ≤ u64_succ n < u64_modulus)%Z.
Proof. unfold u64_succ. apply Z.mod_pos_bound. reflexivity. Qed.

Definition int64_min : Z := - 2 ^ 63.
Definition int64_max : Z := 2 ^ 63 - 1.

(** Two's-complement wrap-around of a 64-bit signed result. *)
Definition int64_wrap (n : Z) : Z := (n + 2 ^ 63) `mod` 2 ^ 64 - 2 ^ 63.

Lemma int64_wrap_small n : (int64_min ≤ n ≤ int64_max)%Z → int64_wrap n = n.
Proof. unfold int64_wrap, int64_min, int64_max. intros. rewrite Z.mod_small; lia. Qed.

Lemma int64_wrap_range n : (int64_min ≤ int64_wrap n ≤ int64_max)%Z.
Proof.
  unfold int64_wrap, int64_min, int64_max.
  pose proof (Z.mod_pos_bound (n + 2 ^ 63) (2 ^ 64) eq_refl). lia.
Qed.

(** ** [sort.Slice]

    Go's [sort.Slice] promises a permutation of its input in which no element
    is less than the one before it, provided the comparison is a strict weak
    order, and it is not stable. The components that sort are written against
    this interface, so their theorems hold for every such implementation;
    [insertion_sort] discharges it for evaluation. *)
Definition strict_weak {A} (less : A → A → bool) : Prop :=
  (∀ a b, less a b = true → less b a = false) ∧
  (∀ a b c, less a b = false → less b c = false → less a c = false).

Class GoSort : Type := {
  sort_slice : ∀ {A : Type}, (A → A → bool) → list A → list A;
  sort_slice_perm : ∀ {A : Type} (less : A → A → bool) (l : list A),
    sort_slice less l ≡ₚ l;
  sort_slice_sorted : ∀ {A : Type} (less : A → A → bool) (l : list A),
    strict_weak less → StronglySorted (λ a b, less b a = false) (sort_slice less l)
}.

Section insertion.
Context {A : Type} (less : A → A → bool).

Fixpoint insert_sorted (x : A) (l : list A) : list A :=
  match l with
  | [] => [x]
  | y :: ys => if less x y then x :: y :: ys else y :: insert_sorted x ys
  end.

Definition insertion_sort (l : list A) : list A :=
  fold_left (λ acc x, insert_sorted x acc) l [].

Lemma insert_sorted_perm x l : insert_sorted x l ≡ₚ x :: l.
Proof.
  induction l as [|y l IH]; [done|]; simpl. case_match; [done|].
  rewrite IH. apply Permutation_swap.
Qed.

Lemma fold_insert_perm l acc :
  fold_left (λ acc x, insert_sorted x acc) l acc ≡ₚ l ++ acc.
Proof.
  revert acc. induction l as [|x l IH]; intros acc; [done|]; simpl.
  rewrite IH, insert_sorted_perm. by rewrite <-Permutation_middle.
Qed.

Lemma insertion_sort_perm l : insertion_sort l ≡ₚ l.
Proof. unfold insertion_sort. by rewrite fold_insert_perm, app_nil_r. Qed.

Context (Hless : strict_weak less).

Lemma insert_sorted_sorted x l :
  StronglySorted (λ a b, less b a = false) l →
  StronglySorted (λ a b, less b a = false) (insert_sorted x l).
Proof using Hless.
  destruct Hless as [Hasym Htrans].
  induction 1 as [|y l Hl IH Hy]; simpl; [repeat constructor|].
  destruct (less x y) eqn:Hxy.
  - constructor; [by constructor|]. constructor; [by apply Hasym|].
    eapply Forall_impl; [exact Hy|]. simpl. intros z Hz.
    eapply Htrans; [exact Hz|]. by apply Hasym.
  - constructor; [done|]. rewrite insert_sorted_perm. by constructor.
Qed.

Lemma insertion_sort_sorted l :
  StronglySorted (λ a b, less b a = false) (insertion_sort l).
Proof using Hless.
  unfold insertion_sort. assert (StronglySorted (λ a b, less b a = false) []) as H by constructor.
  revert H. generalize (@nil A). induction l as [|x l IH]; intros acc Hacc; [done|].
  simpl. by apply IH, insert_sorted_sorted.
Qed.
End insertion.

#[export] Instance insertion_go_sort : GoSort := {|
  sort_slice := @insertion_sort;
  sort_slice_perm := @insertion_sort_perm;
  sort_slice_sorted A less l H := insertion_sort_sorted less H l
|}.

(** *** Orders on strings and keys *)

Lemma string_ltb_leb a b : String.ltb a b = negb (String.leb b a).
Proof.
  unfold String.ltb, String.leb. rewrite (String.compare_antisym b a).
  by destruct (String.compare a b).
Qed.

Lemma string_leb_trans a b c :
  String.leb a b = true → String.leb b c = true → String.leb a c = true.
Proof.
  intros H1 H2. assert (String.le a c) as H; [|by apply Is_true_true].
  etrans; apply Is_true_true; [exact H1 | exact H2].
Qed.

Lemma string_ltb_asym a b : String.ltb a b = true → String.ltb b a = false.
Proof.
  rewrite !string_ltb_leb. intros H%negb_true_iff. apply negb_false_iff.
  destruct (String.leb_total a b); congruence.
Qed.

Lemma string_ltb_negtrans a b c :
  String.ltb a b = false → String.ltb b c = false → String.ltb a c = false.
Proof.
  rewrite !string_ltb_leb, !negb_false_iff. intros. by eapply string_leb_trans.
Qed.

Lemma string_ltb_irrefl a : String.ltb a a = false.
Proof. destruct (String.ltb a a) eqn:E; [|done]. by rewrite (string_ltb_asym _ _ E) in E. Qed.

Lemma string_ltb_total a b :
  String.ltb a b = false → String.ltb b a = false → a = b.
Proof. rewrite !string_ltb_leb, !negb_false_iff. intros. by apply String.leb_antisym. Qed.

(** A comparison through a string key is a strict weak order, and so is the
    lexicographic combination of two strict weak orders. *)
Lemma strict_weak_key {A} (key : A → string) :
  strict_weak (λ a b, String.ltb (key a) (key b)).
Proof. split; intros *; [apply string_ltb_asym | apply string_ltb_negtrans]. Qed.

Definition lex_less {A} (first second : A → A → bool) (a b : A) : bool :=
  if first a b then true else if first b a then false else second a b.

Lemma strict_weak_lex {A} (first second : A → A → bool) :
  strict_weak first → strict_weak second → strict_weak (lex_less first second).
Proof.
  intros [Ha1 Ht1] [Ha2 Ht2]. unfold lex_less. split.
  - intros a b. specialize (Ha1 a b). specialize (Ha2 a b).
    destruct (first a b), (first b a); naive_solver.
  - intros a b c.
    pose proof (Ht1 a b c). pose proof (Ht1 b c a). pose proof (Ht1 c a b).
    pose proof (Ht1 b a c). pose proof (Ht1 c b a). pose proof (Ht1 a c b).
    pose proof (Ha1 a b). pose proof (Ha1 b c). pose proof (Ha1 a c).
    pose proof (Ht2 a b c).
    destruct (first a b), (first b a), (first b c), (first c b), (first a c), (first c a);
      naive_solver.
Qed.

#[export] Hint Resolve strict_weak_key strict_weak_lex : router.

(** The extensional reading of [less]: functions that agree sort alike. *)
Lemma strict_weak_ext {A} (f g : A → A → bool) :
  (∀ a b, f a b = g a b) → strict_weak g → strict_weak f.
Proof. intros E [H1 H2]. split; intros *; rewrite !E; [apply H1|apply H2]. Qed.

(** ** Transition systems

    Concurrent components are step relations between states in which one step
    is one critical section of the Go code. *)
Section reachability.
Context {St : Type} (init : St → Prop) (step : St → St → Prop).

Inductive reachable : St → Prop :=
| reachable_init s : init s → reachable s
| reachable_step s s' : reachable s → step s s' → reachable s'.

(** Rule induction, for an invariant [I] that may assume an upward-closed
    side condition [G] of the later state. *)
Lemma reachable_invariant (G I : St → Prop) :
  (∀ s s', step s s' → G s' → G s) →
  (∀ s, init s → G s → I s) →
  (∀ s s', reachable s → I s → step s s' → G s → G s' → I s') →
  ∀ s, reachable s → G s → I s.
Proof. intros HG Hi Hs s Hr. induction Hr; eauto. Qed.
End reachability.

(** ** Counting the entries of a map *)

Definition count_map {V} (P : V → bool) (M : gmap nat V) : Z :=
  Z.of_nat (size (filter (λ kv : nat * V, P kv.2 = true) M)).

Definition indicator (b : bool) : Z := if b then 1 else 0.

Lemma count_map_insert {V} (P : V → bool) (M : gmap nat V) k v :
  count_map P (<[k := v]> M) =
  (count_map P M + indicator (P v) - match M !! k with Some w => indicator (P w) | None => 0 end)%Z.
Proof.
  unfold count_map. set (F := filter _ M).
  assert (HF : ∀ w, M !! k = Some w → P w = true → size F ≠ 0%nat).
  { intros w Hw HP E. apply map_size_empty_iff in E.
    assert (F !! k = Some w) as Hk by (by apply map_lookup_filter_Some).
    by rewrite E, lookup_empty in Hk. }
  assert (Hin : ∀ w, M !! k = Some w → P w = true → F !! k = Some w)
    by (intros; by apply map_lookup_filter_Some).
  assert (Hout : (∀ w, M !! k = Some w → P w = false) → F !! k = None).
  { intros Hn. apply map_lookup_filter_None. destruct (M !! k) as [w|]; [right|by left].
    intros w' [= <-]. simpl. rewrite (Hn w eq_refl). done. }
  destruct (P v) eqn:Hv; simpl.
  - rewrite map_filter_insert_True by done. fold F.
    destruct (M !! k) as [w|] eqn:Hk; [destruct (P w) eqn:Hw|]; simpl.
    + rewrite map_size_insert_Some by eauto. lia.
    + rewrite map_size_insert_None; [lia|]. apply Hout. intros ? [= <-]. done.
    + rewrite map_size_insert_None; [lia|]. by apply Hout.
  - rewrite map_filter_insert_False by (simpl; congruence). rewrite map_filter_delete. fold F.
    destruct (M !! k) as [w|] eqn:Hk; [destruct (P w) eqn:Hw|]; simpl.
    + specialize (HF w eq_refl Hw). rewrite map_size_delete_Some by eauto. lia.
    + rewrite delete_id; [lia|]. apply Hout. intros ? [= <-]. done.
    + rewrite delete_id; [lia|]. by apply Hout.
Qed.

Lemma count_map_nonneg {V} (P : V → bool) (M : gmap nat V) : (0 ≤ count_map P M)%Z.
Proof. unfold count_map. lia. Qed.

Lemma count_map_pos {V} (P : V → bool) (M : gmap nat V) k v :
  M !! k = Some v → P v = true → (0 < count_map P M)%Z.
Proof.
  intros Hk Hv. unfold count_map. destruct (size _) eqn:E; [exfalso|lia].
  apply map_size_empty_iff in E.
  assert (filter (λ kv : nat * V, P kv.2 = true) M !! k = Some v) as Hf
    by (by apply map_lookup_filter_Some).
  by rewrite E, lookup_empty in Hf.
Qed.

Lemma count_map_zero {V} (P : V → bool) (M : gmap nat V) :
  (count_map P M ≤ 0)%Z → ∀ k v, M !! k = Some v → P v = false.
Proof.
  intros H k v Hk. destruct (P v) eqn:E; [|done]. pose proof (count_map_pos P M k v Hk E). lia.
Qed.

(** ** Tactics shared by the components *)

(** Split every boolean conjunction, disjunction and comparison in sight. *)
Ltac bool_simpl :=
  repeat match goal with
  | H : (_ && _)%bool = true |- _ => apply andb_true_iff in H as [? ?]
  | H : (_ || _)%bool = false |- _ => apply orb_false_iff in H as [? ?]
  | H : negb _ = true |- _ => apply negb_true_iff in H
  | H : negb _ = false |- _ => apply negb_false_iff in H
  | H : bool_decide _ = true |- _ => apply bool_decide_eq_true in H
  | H : bool_decide _ = false |- _ => apply bool_decide_eq_false in H
  | H : String.eqb _ _ = true |- _ => apply String.eqb_eq in H
  | H : String.eqb _ _ = false |- _ => apply String.eqb_neq in H
  | H : Z.eqb _ _ = true |- _ => apply Z.eqb_eq in H
  | H : Z.eqb _ _ = false |- _ => apply Z.eqb_neq in H
  | H : Z.ltb _ _ = true |- _ => apply Z.ltb_lt in H
  | H : Z.ltb _ _ = false |- _ => apply Z.ltb_ge in H
  | H : Z.leb _ _ = true |- _ => apply Z.leb_le in H
  | H : Z.leb _ _ = false |- _ => apply Z.leb_gt in H
  end.

(** Case analysis on the first [match]/[if] of the goal or of a hypothesis. *)
Ltac split_match :=
  match goal with
  | |- context [ match ?x with _ => _ end ] => destruct x eqn:?
  | H : context [ match ?x with _ => _ end ] |- _ => destruct x eqn:?
  end.

(** ** Functional update of record fields

    A record type opts in with an [Eta] instance that rebuilds a value from its
    projections; [r <| f := v |>] is then [r] with the field [f] replaced. *)
Class Eta (R : Type) : Type := eta : R → R.

Class Update {R F : Type} (proj : R → F) : Type := update : (F → F) → R → R.
Arguments update {R F} proj {_} _ _ /.

Ltac solve_update :=
  lazymatch goal with
  | |- @Update ?R ?F ?p =>
      let e := eval hnf in (@eta R _) in
      lazymatch (eval pattern p in e) with
      | ?h _ => let t := eval cbv beta in (fun (g : F -> F) => h (fun r : R => g (p r))) in
                exact t
      end
  end.

#[export] Hint Extern 1 (Update _) => solve_update : typeclass_instances.

Notation "r <| p := v |>" := (update p (fun _ => v) r)
  (at level 1, left associativity, p at level 99, v at level 200) : go_scope.
