(* ===== verification/GoStrings.v ===== *)
(** * The functions of Go's [strings] package that the source uses

    Go strings are byte strings, here [string]. [TrimSpace] strips the UTF-8
    encodings of every rune that [unicode.IsSpace] accepts. [ToLower] maps ASCII
    letters and the two non-ASCII runes whose lower case is ASCII (U+0130 and
    U+212A); other non-ASCII runes are left alone, which no comparison with an
    ASCII constant can tell from their lower case. *)

From stdpp Require Import gmap strings list.
From Stdlib Require Import Ascii Bool ZArith Lia.
From S2P Require Import Prelude.
#[local] Arguments String.append : simpl nomatch.

Definition byte_of (n : nat) : ascii := Ascii.ascii_of_nat n.

Fixpoint of_bytes (l : list nat) : string :=
  match l with [] => "" | b :: l => String (byte_of b) (of_bytes l) end.

Fixpoint sdrop (n : nat) (s : string) : string :=
  match n, s with
  | O, _ => s
  | S _, EmptyString => ""
  | S n, String _ s => sdrop n s
  end.

Fixpoint stake (n : nat) (s : string) : string :=
  match n, s with
  | O, _ => ""
  | S _, EmptyString => ""
  | S n, String c s => String c (stake n s)
  end.

Fixpoint srev_onto (s acc : string) : string :=
  match s with EmptyString => acc | String c s => srev_onto s (String c acc) end.
Definition srev (s : string) : string := srev_onto s "".

Definition HasPrefix (s prefix : string) : bool := String.prefix prefix s.
Definition HasSuffix (s suffix : string) : bool := String.prefix (srev suffix) (srev s).

Definition TrimPrefix (s prefix : string) : string :=
  if HasPrefix s prefix then sdrop (String.length prefix) s else s.
Definition TrimSuffix (s suffix : string) : string :=
  if HasSuffix s suffix then stake (String.length s - String.length suffix) s else s.

Definition CutPrefix (s prefix : string) : string * bool :=
  if HasPrefix s prefix then (sdrop (String.length prefix) s, true) else (s, false).

(** [strings.Index] of a non-empty separator, and the functions over it. *)
Fixpoint Index (s sep : string) : option nat :=
  if String.prefix sep s then Some 0%nat
  else match s with
       | EmptyString => None
       | String _ s => S <$> Index s sep
       end.

Definition Contains (s sep : string) : bool :=
  match Index s sep with Some _ => true | None => false end.

Definition Cut (s sep : string) : string * string * bool :=
  match Index s sep with
  | Some i => (stake i s, sdrop (i + String.length sep) s, true)
  | None => (s, "", false)
  end.

(** *** White space *)

Definition space_runes : list string :=
  of_bytes <$> [[9]; [10]; [11]; [12]; [13]; [32]; [194; 133]; [194; 160];
    [225; 154; 128]; [226; 128; 128]; [226; 128; 129]; [226; 128; 130];
    [226; 128; 131]; [226; 128; 132]; [226; 128; 133]; [226; 128; 134];
    [226; 128; 135]; [226; 128; 136]; [226; 128; 137]; [226; 128; 138];
    [226; 128; 168]; [226; 128; 169]; [226; 128; 175]; [226; 129; 159];
    [227; 128; 128]].

(** Strip from the front every prefix listed in [runes]. *)
Fixpoint strip_front (runes : list string) (fuel : nat) (s : string) : string :=
  match fuel with
  | O => s
  | S fuel =>
      match List.find (λ r, String.prefix r s) runes with
      | Some r => strip_front runes fuel (sdrop (String.length r) s)
      | None => s
      end
  end.

Definition TrimLeftSpace (s : string) : string := strip_front space_runes (String.length s) s.
Definition TrimRightSpace (s : string) : string :=
  srev (strip_front (srev <$> space_runes) (String.length s) (srev s)).
Definition TrimSpace (s : string) : string := TrimRightSpace (TrimLeftSpace s).

(** *** Case *)

Definition ascii_lower (c : ascii) : ascii :=
  let n := Ascii.nat_of_ascii c in
  if (65 <=? n)%nat && (n <=? 90)%nat then byte_of (n + 32) else c.

Definition dotted_capital_i : string := of_bytes [196; 176].
Definition kelvin_sign : string := of_bytes [226; 132; 170].

Fixpoint lower (fuel : nat) (s : string) : string :=
  match fuel with
  | O => s
  | S fuel =>
      if String.prefix dotted_capital_i s then String "i" (lower fuel (sdrop 2 s))
      else if String.prefix kelvin_sign s then String "k" (lower fuel (sdrop 3 s))
      else match s with
           | EmptyString => ""
           | String c s => String (ascii_lower c) (lower fuel s)
           end
  end.
Definition ToLower (s : string) : string := lower (String.length s) s.

(** [strings.EqualFold] against an ASCII constant: simple folding takes the
    Kelvin sign to [k] and the long s to [s], and U+0130 to nothing in ASCII. *)
Definition long_s : string := of_bytes [197; 191].

Fixpoint fold_case (fuel : nat) (s : string) : string :=
  match fuel with
  | O => s
  | S fuel =>
      if String.prefix kelvin_sign s then String "k" (fold_case fuel (sdrop 3 s))
      else if String.prefix long_s s then String "s" (fold_case fuel (sdrop 2 s))
      else match s with
           | EmptyString => ""
           | String c s => String (ascii_lower c) (fold_case fuel s)
           end
  end.

Definition EqualFold (s constant : string) : bool :=
  String.eqb (fold_case (String.length s) s) (fold_case (String.length constant) constant).

(** *** Paths ([path/filepath] on a system whose separator is the slash) *)

Fixpoint drop_leading (c : ascii) (s : string) : string :=
  match s with
  | String d s' => if Ascii.eqb c d then drop_leading c s' else s
  | EmptyString => ""
  end.

(** The part of [s] before the first [c], and whether there is one. *)
Fixpoint before_byte (c : ascii) (s : string) : string * bool :=
  match s with
  | EmptyString => ("", false)
  | String d s => if Ascii.eqb c d then ("", true)
                  else let '(t, found) := before_byte c s in (String d t, found)
  end.

Definition filepath_Base (s : string) : string :=
  if String.eqb s "" then "."
  else let trimmed := drop_leading "/" (srev s) in
       if String.eqb trimmed "" then "/" else srev (before_byte "/" trimmed).1.

Definition filepath_Ext (s : string) : string :=
  let name := srev (before_byte "/" (srev s)).1 in
  let '(ext, found) := before_byte "." (srev name) in
  if found then String "." (srev ext) else "".

(** *** Examples *)

Example trim_ex : TrimSpace "  a b	" = "a b". Proof. reflexivity. Qed.
Example lower_ex : ToLower "KobOLD" = "kobold". Proof. reflexivity. Qed.
Example cut_ex : Cut "family:vllm" ":" = ("family", "vllm", true). Proof. reflexivity. Qed.
Example base_ex : filepath_Base "a/b.kcpps//" = "b.kcpps". Proof. reflexivity. Qed.
Example ext_ex : filepath_Ext "x.y/b.kcpps" = ".kcpps". Proof. reflexivity. Qed.
Example no_ext_ex : filepath_Ext "x.y/b" = "". Proof. reflexivity. Qed.
Example suffix_ex : TrimSuffix "a.kcpps" ".kcpps" = "a". Proof. reflexivity. Qed.

(** *** Facts *)

Lemma string_app_nil_r s : (s +:+ "")%string = s.
Proof. induction s as [|c s IH]; simpl; [done|by rewrite IH]. Qed.

Lemma string_app_assoc a b c : (a +:+ (b +:+ c) = (a +:+ b) +:+ c)%string.
Proof. induction a as [|d a IH]; simpl; [done|by rewrite IH]. Qed.

Lemma string_app_length a b : String.length (a +:+ b) = (String.length a + String.length b)%nat.
Proof. induction a as [|d a IH]; simpl; [done|by rewrite IH]. Qed.

Lemma srev_onto_app s acc : srev_onto s acc = (srev s +:+ acc)%string.
Proof.
  unfold srev. revert acc. induction s as [|c s IH]; intros acc; [done|]; simpl.
  rewrite (IH (String c acc)), (IH (String c "")). by rewrite <-string_app_assoc.
Qed.

Lemma srev_cons c s : srev (String c s) = (srev s +:+ String c "")%string.
Proof. unfold srev at 1. simpl. by rewrite srev_onto_app. Qed.

Lemma srev_app a b : srev (a +:+ b) = (srev b +:+ srev a)%string.
Proof.
  induction a as [|c a IH]; simpl; [by rewrite string_app_nil_r|].
  by rewrite !srev_cons, IH, string_app_assoc.
Qed.

Lemma srev_involutive s : srev (srev s) = s.
Proof. induction s as [|c s IH]; [done|]. by rewrite srev_cons, srev_app, IH. Qed.

Lemma srev_length s : String.length (srev s) = String.length s.
Proof. induction s; [done|]. rewrite srev_cons, string_app_length. simpl. lia. Qed.

Lemma prefix_app p s : String.prefix p s = true ↔ ∃ t, s = (p +:+ t)%string.
Proof.
  revert s. induction p as [|c p IH]; intros s; simpl.
  - split; [by exists s|]. by destruct s.
  - destruct s as [|d s]; simpl.
    + split; [discriminate|]. intros [t Ht]. discriminate.
    + destruct (Ascii.ascii_dec c d) as [<-|Hne].
      * rewrite IH. split; intros [t Ht]; exists t; congruence.
      * split; [discriminate|]. intros [t Ht]. congruence.
Qed.

Lemma sdrop_app a b : sdrop (String.length a) (a +:+ b) = b.
Proof. by induction a. Qed.

Lemma stake_app a b : stake (String.length a) (a +:+ b) = a.
Proof. induction a as [|d a IH]; simpl; [done|by rewrite IH]. Qed.

Lemma stake_sdrop n s : (stake n s +:+ sdrop n s = s)%string.
Proof. revert s. induction n as [|n IH]; intros [|c s]; simpl; [done..|by rewrite IH]. Qed.

Lemma HasPrefix_app s p : HasPrefix s p = true ↔ ∃ t, s = (p +:+ t)%string.
Proof. apply prefix_app. Qed.

Lemma HasSuffix_app s p : HasSuffix s p = true ↔ ∃ t, s = (t +:+ p)%string.
Proof.
  unfold HasSuffix. rewrite prefix_app. split; intros [t Ht].
  - exists (srev t). by rewrite <-(srev_involutive s), Ht, srev_app, srev_involutive.
  - exists (srev t). by rewrite Ht, srev_app.
Qed.

Lemma CutPrefix_true s p t : CutPrefix s p = (t, true) ↔ s = (p +:+ t)%string.
Proof.
  unfold CutPrefix. destruct (HasPrefix s p) eqn:E.
  - apply HasPrefix_app in E as [u ->]. rewrite sdrop_app. split; [by intros [= ->]|].
    intros ?%(inj (String.app p)). by subst.
  - split; [naive_solver|]. intros ->.
    assert (HasPrefix (p +:+ t) p = true) by (apply HasPrefix_app; eauto). congruence.
Qed.

Section strip.
Context (runes : list string) (Hne : Forall (λ r, r ≠ "") runes).

Definition no_front (s : string) : Prop := Forall (λ r, String.prefix r s = false) runes.

Lemma strip_front_id fuel s : no_front s → strip_front runes fuel s = s.
Proof.
  intros Hs. destruct fuel as [|fuel]; [done|]; simpl.
  destruct (List.find _ runes) as [r|] eqn:E; [|done].
  apply List.find_some in E as [Hin Hp]. apply list_elem_of_In in Hin.
  unfold no_front in Hs. rewrite Forall_forall in Hs. by rewrite Hs in Hp.
Qed.

Lemma strip_front_clean fuel s :
  (String.length s ≤ fuel)%nat → no_front (strip_front runes fuel s).
Proof using Hne.
  rewrite Forall_forall in Hne. unfold no_front.
  revert s. induction fuel as [|fuel IH]; intros s Hlen; simpl.
  - destruct s; simpl in *; [|lia]. apply Forall_forall. intros r Hr.
    destruct r; [|done]. by destruct (Hne _ Hr).
  - destruct (List.find _ runes) as [r|] eqn:E.
    + apply List.find_some in E as [Hin Hp]. apply list_elem_of_In in Hin.
      apply prefix_app in Hp as [t ->]. rewrite sdrop_app. apply IH.
      rewrite string_app_length in Hlen. destruct r; [by destruct (Hne _ Hin)|].
      simpl in Hlen. lia.
    + apply Forall_forall. intros r Hr. apply (List.find_none _ _ E), list_elem_of_In, Hr.
Qed.

Lemma strip_front_suffix fuel s : ∃ t, s = (t +:+ strip_front runes fuel s)%string.
Proof.
  revert s. induction fuel as [|fuel IH]; intros s; simpl; [by exists ""|].
  destruct (List.find _ runes) as [r|] eqn:E; [|by exists ""].
  apply List.find_some in E as [_ [t ->]%prefix_app]. rewrite sdrop_app.
  destruct (IH t) as [u Hu]. exists (r +:+ u)%string. by rewrite <-string_app_assoc, <-Hu.
Qed.
End strip.

Lemma space_runes_nonempty : Forall (λ r, r ≠ "") space_runes.
Proof. unfold space_runes. simpl. repeat constructor; discriminate. Qed.

Lemma space_runes_rev_nonempty : Forall (λ r, r ≠ "") (srev <$> space_runes).
Proof. unfold space_runes. simpl. repeat constructor; discriminate. Qed.

Lemma TrimRightSpace_prefix s : ∃ t, s = (TrimRightSpace s +:+ t)%string.
Proof.
  unfold TrimRightSpace.
  destruct (strip_front_suffix (srev <$> space_runes) (String.length s) (srev s)) as [t Ht].
  exists (srev t). by rewrite <-srev_app, <-Ht, srev_involutive.
Qed.

Lemma no_front_prefix runes s t :
  no_front runes (s +:+ t) → no_front runes s.
Proof.
  unfold no_front. rewrite !Forall_forall. intros H r Hr.
  destruct (String.prefix r s) eqn:E; [|done]. apply prefix_app in E as [u ->].
  specialize (H r Hr). rewrite <-string_app_assoc in H.
  assert (String.prefix r (r +:+ (u +:+ t)) = true) by (apply prefix_app; eauto). congruence.
Qed.

(** A trimmed string has no white space left at either end. *)
Lemma TrimSpace_clean s :
  no_front space_runes (TrimSpace s) ∧ no_front (srev <$> space_runes) (srev (TrimSpace s)).
Proof.
  split.
  - unfold TrimSpace. destruct (TrimRightSpace_prefix (TrimLeftSpace s)) as [t Ht].
    eapply (no_front_prefix _ _ t). rewrite <-Ht.
    apply strip_front_clean; [apply space_runes_nonempty|done].
  - unfold TrimSpace, TrimRightSpace. rewrite srev_involutive.
    apply strip_front_clean; [apply space_runes_rev_nonempty|]. by rewrite srev_length.
Qed.

Lemma TrimSpace_id s :
  no_front space_runes s → no_front (srev <$> space_runes) (srev s) → TrimSpace s = s.
Proof.
  intros Hl Hr. unfold TrimSpace, TrimLeftSpace. rewrite strip_front_id by done.
  unfold TrimRightSpace. rewrite strip_front_id by done. apply srev_involutive.
Qed.

Lemma TrimSpace_idemp s : TrimSpace (TrimSpace s) = TrimSpace s.
Proof. destruct (TrimSpace_clean s). by apply TrimSpace_id. Qed.

(** *** Lowering *)

Lemma lower_fuel n m s :
  (String.length s ≤ n)%nat → (String.length s ≤ m)%nat → lower n s = lower m s.
Proof.
  revert m s. induction n as [|n IH]; intros m s Hn Hm.
  - destruct s; simpl in *; [|lia]. by destruct m.
  - destruct m as [|m]; [by destruct s; simpl in *; [|lia]|]. cbn [lower].
    destruct (String.prefix dotted_capital_i s) eqn:E1.
    { apply prefix_app in E1 as [t ->]. change 2%nat with (String.length dotted_capital_i).
      rewrite string_app_length in *. rewrite sdrop_app. simpl in *. f_equal. apply IH; lia. }
    destruct (String.prefix kelvin_sign s) eqn:E2.
    { apply prefix_app in E2 as [t ->]. change 3%nat with (String.length kelvin_sign).
      rewrite string_app_length in *. rewrite sdrop_app. simpl in *. f_equal. apply IH; lia. }
    destruct s; [done|]. simpl in *. f_equal. apply IH; lia.
Qed.

(** The four ways in which [ToLower] takes a step. *)
Lemma ToLower_step s :
  (s = "" ∧ ToLower s = "") ∨
  (∃ t, s = dotted_capital_i +:+ t ∧ ToLower s = String "i" (ToLower t)) ∨
  (∃ t, s = kelvin_sign +:+ t ∧ ToLower s = String "k" (ToLower t)) ∨
  (∃ c t, s = String c t ∧ String.prefix dotted_capital_i s = false ∧
     String.prefix kelvin_sign s = false ∧ ToLower s = String (ascii_lower c) (ToLower t)).
Proof.
  destruct s as [|c s]; [by left|right].
  unfold ToLower. cbn [String.length lower].
  destruct (String.prefix dotted_capital_i (String c s)) eqn:E1.
  { left. apply prefix_app in E1 as [t Ht]. exists t. split; [done|].
    assert (sdrop 2 (String c s) = t) as -> by (rewrite Ht; apply (sdrop_app dotted_capital_i)).
    f_equal. apply lower_fuel; [|done]. apply (f_equal String.length) in Ht.
    rewrite string_app_length in Ht. simpl in Ht. lia. }
  destruct (String.prefix kelvin_sign (String c s)) eqn:E2.
  { right; left. apply prefix_app in E2 as [t Ht]. exists t. split; [done|].
    assert (sdrop 3 (String c s) = t) as -> by (rewrite Ht; apply (sdrop_app kelvin_sign)).
    f_equal. apply lower_fuel; [|done]. apply (f_equal String.length) in Ht.
    rewrite string_app_length in Ht. simpl in Ht. lia. }
  right; right. exists c, s. by unfold ToLower.
Qed.

Lemma string_length_ind (P : string → Prop) :
  (∀ s, (∀ t, (String.length t < String.length s)%nat → P t) → P s) → ∀ s, P s.
Proof.
  intros Hstep s. assert (∀ n t, (String.length t < n)%nat → P t) as H; [|apply (H (S (String.length s))); lia].
  induction n as [|n IH]; intros t Ht; [lia|]. apply Hstep. intros u Hu. apply IH. lia.
Qed.

Definition is_lower_letter (c : ascii) : bool :=
  let n := Ascii.nat_of_ascii c in (97 <=? n)%nat && (n <=? 122)%nat.

Fixpoint no_lower_letters (s : string) : bool :=
  match s with
  | EmptyString => true
  | String c s => negb (is_lower_letter c) && no_lower_letters s
  end.

Lemma ascii_lower_id c : is_lower_letter (ascii_lower c) = false → ascii_lower c = c.
Proof. by destruct c as [[] [] [] [] [] [] [] []]; vm_compute. Qed.

Lemma ascii_lower_idemp c : ascii_lower (ascii_lower c) = ascii_lower c.
Proof. by destruct c as [[] [] [] [] [] [] [] []]; vm_compute. Qed.

Lemma ToLower_dotted t : ToLower (dotted_capital_i +:+ t) = String "i" (ToLower t).
Proof.
  destruct (ToLower_step (dotted_capital_i +:+ t))
    as [[[=] _]|[(u&Hu&->)|[(u&[=]&_)|(c&u&_&E&_)]]].
  - by apply (inj (String.app dotted_capital_i)) in Hu as ->.
  - assert (String.prefix dotted_capital_i (dotted_capital_i +:+ t) = true); [|congruence].
    apply prefix_app. eauto.
Qed.

Lemma ToLower_kelvin t : ToLower (kelvin_sign +:+ t) = String "k" (ToLower t).
Proof.
  destruct (ToLower_step (kelvin_sign +:+ t))
    as [[[=] _]|[(u&[=]&_)|[(u&Hu&->)|(c&u&_&_&E&_)]]].
  - by apply (inj (String.app kelvin_sign)) in Hu as ->.
  - assert (String.prefix kelvin_sign (kelvin_sign +:+ t) = true); [|congruence].
    apply prefix_app. eauto.
Qed.

(** A suffix of the lowered string without lower-case letters was there before. *)
Lemma ToLower_suffix s t p :
  no_lower_letters p = true → ToLower s = (t +:+ p)%string →
  ∃ u, s = (u +:+ p)%string ∧ ToLower u = t.
Proof.
  intros Hp. revert t. induction s as [s IH] using string_length_ind. intros t Ht.
  destruct (decide (t = "")) as [->|Hne].
  - simpl in Ht. exists "". simpl. split; [|done]. clear IH.
    revert p Hp Ht. induction s as [s IH] using string_length_ind. intros p Hp Ht.
    destruct (ToLower_step s) as [[-> E]|[(u&->&E)|[(u&->&E)|(c&u&->&_&_&E)]]]; rewrite E in Ht.
    + by subst.
    + by subst p.
    + by subst p.
    + subst p. simpl in Hp. apply andb_true_iff in Hp as [Hc Hp]. apply negb_true_iff in Hc.
      rewrite ascii_lower_id by done. f_equal. apply IH; simpl; [lia|done|done].
  - destruct t as [|d t]; [done|]. simpl in Ht.
    destruct (ToLower_step s) as [[-> E]|[(u&->&E)|[(u&->&E)|(c&u&->&E1&E2&E)]]]; rewrite E in Ht;
      simplify_eq.
    + destruct (IH u) with (t := t) as (v&->&Hv); [simpl; lia|done|].
      exists (dotted_capital_i +:+ v)%string. split; [done|]. by rewrite ToLower_dotted, Hv.
    + destruct (IH u) with (t := t) as (v&->&Hv); [simpl; lia|done|].
      exists (kelvin_sign +:+ v)%string. split; [done|]. by rewrite ToLower_kelvin, Hv.
    + destruct (IH u) with (t := t) as (v&->&Hv); [simpl; lia|done|].
      exists (String c v). split; [done|].
      destruct (ToLower_step (String c v)) as [[[=] _]|[(w&Hw&_)|[(w&Hw&_)|(c'&w&[= <- <-]&_&_&->)]]].
      * assert (String.prefix dotted_capital_i (String c (v +:+ p)) = true); [|congruence].
        apply prefix_app. exists (w +:+ p)%string.
        change (String c (v +:+ p)) with (String c v +:+ p)%string. by rewrite Hw, string_app_assoc.
      * assert (String.prefix kelvin_sign (String c (v +:+ p)) = true); [|congruence].
        apply prefix_app. exists (w +:+ p)%string.
        change (String c (v +:+ p)) with (String c v +:+ p)%string. by rewrite Hw, string_app_assoc.
      * by rewrite Hv.
Qed.

Lemma ToLower_prefix s p q :
  no_lower_letters p = true → ToLower s = (p +:+ q)%string → ∃ u, s = (p +:+ u)%string.
Proof.
  revert s. induction p as [|c p IH]; intros s Hp Ht; [by exists s|]. simpl in Hp, Ht.
  apply andb_true_iff in Hp as [Hc Hp]. apply negb_true_iff in Hc.
  destruct (ToLower_step s) as [[-> E]|[(u&->&E)|[(u&->&E)|(d&u&->&_&_&E)]]]; rewrite E in Ht;
    simplify_eq; try done.
  rewrite ascii_lower_id by done. match goal with H : ToLower u = _ |- _ => destruct (IH u Hp H) as [v ->] end. by exists v.
Qed.

Lemma ToLower_idemp s : ToLower (ToLower s) = ToLower s.
Proof.
  induction s as [s IH] using string_length_ind.
  destruct (ToLower_step s) as [[-> E]|[(u&->&E)|[(u&->&E)|(d&u&->&E1&E2&E)]]].
  - done.
  - rewrite E. change (String "i" (ToLower (ToLower u)) = String "i" (ToLower u)).
    rewrite IH; [done|]. rewrite string_app_length. simpl. lia.
  - rewrite E. change (String "k" (ToLower (ToLower u)) = String "k" (ToLower u)).
    rewrite IH; [done|]. rewrite string_app_length. simpl. lia.
  - assert (Hno : ∀ p, no_lower_letters p = true → String.prefix p (String d u) = false →
      String.prefix p (ToLower (String d u)) = false).
    { intros p Hp Hn. destruct (String.prefix p (ToLower _)) eqn:Hpre; [|done].
      apply prefix_app in Hpre as [q Hq]. destruct (ToLower_prefix _ _ _ Hp Hq) as [v Hv].
      rewrite <-Hn. symmetry. apply prefix_app. eauto. }
    pose proof (Hno dotted_capital_i eq_refl E1) as H1. pose proof (Hno kelvin_sign eq_refl E2) as H2.
    rewrite E in H1, H2 |- *.
    destruct (ToLower_step (String (ascii_lower d) (ToLower u)))
      as [[[=] _]|[(w&Hw&_)|[(w&Hw&_)|(c'&w&[= <- <-]&_&_&->)]]].
    + rewrite Hw in H1. rewrite (proj2 (prefix_app _ _)) in H1 by eauto. done.
    + rewrite Hw in H2. rewrite (proj2 (prefix_app _ _)) in H2 by eauto. done.
    + rewrite ascii_lower_idemp, IH; [done|simpl; lia].
Qed.

Lemma runes_no_letters : Forall (λ r, no_lower_letters r = true) space_runes.
Proof. unfold space_runes. simpl. repeat constructor. Qed.

Lemma trimmed_ToLower s :
  no_front space_runes s ∧ no_front (srev <$> space_runes) (srev s) →
  no_front space_runes (ToLower s) ∧ no_front (srev <$> space_runes) (srev (ToLower s)).
Proof.
  unfold no_front. rewrite !Forall_forall. intros [Hf Hb]. pose proof runes_no_letters as Hn.
  rewrite Forall_forall in Hn. split.
  - intros r Hr. destruct (String.prefix r (ToLower s)) eqn:E; [|done].
    apply prefix_app in E as [q Hq]. destruct (ToLower_prefix s r q (Hn r Hr) Hq) as [u ->].
    rewrite <-(Hf r Hr). symmetry. apply prefix_app. eauto.
  - intros r Hr. destruct (String.prefix r (srev (ToLower s))) eqn:E; [|done].
    rewrite <-(Hb r Hr). symmetry. apply prefix_app in E as [q Hq].
    apply list_elem_of_fmap in Hr as (r0&->&Hr).
    assert (ToLower s = (srev q +:+ r0)%string) as Hq'
      by (rewrite <-(srev_involutive (ToLower s)), Hq, srev_app, srev_involutive; done).
    destruct (ToLower_suffix s _ _ (Hn r0 Hr) Hq') as (u&->&_).
    rewrite srev_app. apply prefix_app. eauto.
Qed.

(** Lowering a trimmed string leaves nothing to trim. *)
Lemma TrimSpace_ToLower s : TrimSpace s = s → TrimSpace (ToLower s) = ToLower s.
Proof.
  intros <-. destruct (trimmed_ToLower (TrimSpace s) (TrimSpace_clean s)). by apply TrimSpace_id.
Qed.

(** A string that folds to plain ASCII without [k] and [s] also lowers to it. *)
Definition plain (c : ascii) : bool :=
  (Ascii.nat_of_ascii c <? 128)%nat && negb (Ascii.eqb c "k") && negb (Ascii.eqb c "s").

Fixpoint all_plain (s : string) : bool :=
  match s with EmptyString => true | String c s => plain c && all_plain s end.

Lemma plain_lower c : plain (ascii_lower c) = true → Ascii.eqb c (byte_of 196) = false ∧
  Ascii.eqb c (byte_of 226) = false.
Proof. by destruct c as [[] [] [] [] [] [] [] []]; vm_compute. Qed.

Lemma fold_lower fuel s :
  (String.length s ≤ fuel)%nat → all_plain (fold_case fuel s) = true → ToLower s = fold_case fuel s.
Proof.
  revert s. induction fuel as [|fuel IH]; intros s Hlen Hp; [by destruct s; simpl in *; [|lia]|].
  cbn [fold_case] in *. destruct (String.prefix kelvin_sign s); [done|].
  destruct (String.prefix long_s s); [done|]. destruct s as [|c s]; [done|].
  simpl in Hp, Hlen. apply andb_true_iff in Hp as [Hc Hp]. destruct (plain_lower c Hc) as [H1 H2].
  apply Ascii.eqb_neq in H1, H2.
  destruct (ToLower_step (String c s)) as [[[=] _]|[(w&[= Hw]&_)|[(w&[= Hw]&_)|(c'&w&[= <- <-]&_&_&->)]]];
    [done|done|]. f_equal. apply IH; [lia|done].
Qed.

Lemma EqualFold_lower s constant :
  all_plain constant = true → ToLower constant = constant →
  fold_case (String.length constant) constant = constant →
  EqualFold s constant = true → ToLower s = constant.
Proof.
  intros Hp Hl Hf He. unfold EqualFold in He. apply String.eqb_eq in He. rewrite Hf in He.
  rewrite <-He. apply fold_lower; [done|]. by rewrite He.
Qed.

(** *** Cutting at a byte *)

Fixpoint byte_free (c : ascii) (s : string) : bool :=
  match s with EmptyString => true | String d s => negb (Ascii.eqb c d) && byte_free c s end.

Lemma Index_byte c s :
  match Index s (String c "") with
  | Some i => ∃ t, s = (stake i s +:+ String c t)%string ∧ byte_free c (stake i s) = true
               ∧ sdrop (i + 1) s = t
  | None => byte_free c s = true
  end.
Proof.
  induction s as [|d s IH]; [done|]. cbn [Index String.prefix].
  destruct (Ascii.ascii_dec c d) as [<-|Hne].
  - destruct s; simpl; eauto.
  - destruct (Index s (String c "")) as [i|]; simpl.
    + destruct IH as (t&Hs&Hf&Hd). exists t. simpl in Hd. split_and!; [|simpl|done].
      * by rewrite <-Hs.
      * rewrite Hf. by apply Ascii.eqb_neq in Hne as ->.
    + rewrite IH. by apply Ascii.eqb_neq in Hne as ->.
Qed.

Lemma Cut_byte c a b :
  byte_free c a = true → Cut (a +:+ String c b) (String c "") = (a, b, true).
Proof.
  intros Ha. unfold Cut.
  assert (Index (a +:+ String c b) (String c "") = Some (String.length a)) as ->.
  { induction a as [|d a IH]; simpl.
    - destruct (Ascii.ascii_dec c c); [|done]. by destruct b.
    - simpl in Ha. apply andb_true_iff in Ha as [Hd Ha]. apply negb_true_iff, Ascii.eqb_neq in Hd.
      destruct (Ascii.ascii_dec c d); [done|]. by rewrite IH. }
  rewrite stake_app. f_equal. f_equal.
  change (String.length a + String.length (String c ""))%nat with (String.length a + 1)%nat.
  clear Ha. induction a as [|d a IH]; [done|exact IH].
Qed.

Lemma Cut_byte_none c s : byte_free c s = true → Cut s (String c "") = (s, "", false).
Proof.
  intros Hs. unfold Cut. pose proof (Index_byte c s) as H.
  destruct (Index s (String c "")) as [i|]; [|done]. destruct H as (t&Ht&_&_). exfalso.
  rewrite Ht in Hs. clear Ht. induction (stake i s) as [|d u IH]; simpl in Hs.
  - by rewrite Ascii.eqb_refl in Hs.
  - apply andb_true_iff in Hs as [_ Hs]. auto.
Qed.

Lemma byte_free_lower c s :
  ascii_lower c = c → byte_free c (ToLower s) = true → Ascii.eqb c (byte_of 196) = false →
  Ascii.eqb c (byte_of 176) = false → Ascii.eqb c (byte_of 226) = false →
  Ascii.eqb c (byte_of 132) = false → Ascii.eqb c (byte_of 170) = false → byte_free c s = true.
Proof.
  intros Hc Hf H1 H2 H3 H4 H5. induction s as [s IH] using string_length_ind.
  destruct (ToLower_step s) as [[-> E]|[(u&->&E)|[(u&->&E)|(d&u&->&_&_&E)]]]; rewrite E in Hf;
    simpl in Hf; [done|..].
  - simpl. apply andb_true_iff in Hf as [_ Hf]. rewrite H1, H2. simpl. apply IH; [simpl; lia|done].
  - simpl. apply andb_true_iff in Hf as [_ Hf]. rewrite H3, H4, H5. simpl.
    apply IH; [simpl; lia|done].
  - simpl. apply andb_true_iff in Hf as [Hd Hf]. rewrite IH by (simpl; done || lia).
    destruct (Ascii.eqb_spec c d) as [<-|]; [|done]. rewrite Hc, Ascii.eqb_refl in Hd. done.
Qed.

#[export] Hint Rewrite TrimSpace_idemp srev_involutive : router.
