(* ===== verification/Lane.v ===== *)
(** * The lane core: one backend runtime shared by many requests

    Model of [internal/proxy/lane.go], [lane_acquire.go], [lane_waiters.go] and
    [lane_own_work.go]: the state of one backend runtime ([activeConfigState]),
    the critical sections that acquire, reuse, switch, reload, unload and release
    it, and the transition system in which any number of goroutines interleave
    them. The theorems about it are in [LaneProofs]. *)

From stdpp Require Import gmap strings list.
From Stdlib Require Import Bool ZArith Lia.
From S2P Require Import Prelude.
From S2P Require Import GoStrings.
Open Scope go_scope.
Open Scope Z_scope.

(** ** Data *)

Inductive backendReadiness : Type :=
| readinessText | readinessEmbeddings | readinessImage
| readinessSpeech | readinessTranscription | readinessMusic.

#[export] Instance backendReadiness_eq_dec : EqDecision backendReadiness.
Proof. solve_decision. Defined.

(** The chat-template profile of a config. [kwargs] is the decoded
    [jinja_kwargs] object, by its keys; [None] stands for a raw message that does
    not decode to an object. *)
Record ChatTemplateProfile : Type := mkProfile {
  kwargs : option (list string);
  configured : bool;
  valid : bool;
  physicalLoadFingerprint : string;
  fingerprintExcludesRequestSettings : bool
}.

#[export] Instance ChatTemplateProfile_eq_dec : EqDecision ChatTemplateProfile.
Proof. solve_decision. Defined.

Definition emptyProfile : ChatTemplateProfile := mkProfile None false false "" false.

Definition PhysicalLoadFingerprint (profile : ChatTemplateProfile) : string :=
  physicalLoadFingerprint profile.

Definition HasConfiguredKwargs (profile : ChatTemplateProfile) : bool :=
  if negb (valid profile) || negb (configured profile) then false
  else match kwargs profile with
       | Some object => (0 <? Z.of_nat (length object))
       | None => false
       end.

Definition ServableBySiblingRuntime (profile : ChatTemplateProfile) : bool :=
  let everyRequestCarriesItsJinjaKwargs := HasConfiguredKwargs profile in
  valid profile && negb (String.eqb (physicalLoadFingerprint profile) "")
  && (everyRequestCarriesItsJinjaKwargs || fingerprintExcludesRequestSettings profile).

Record runtimeLease : Type := mkLease {
  lease_modelID : string;
  lease_borrowed : bool;
  lease_since : Z
}.

Record waitingRequest : Type := mkWaitingRequest {
  waiting_modelID : string;
  waiting_borrowed : bool;
  waiting_arrived : Z
}.

Definition emptyWaitingRequest : waitingRequest := mkWaitingRequest "" false 0.

Record modelConfigAcquireOptions : Type := mkOptions {
  forceReload : bool;
  exactPhysicalConfig : bool
}.

(** The two closures a waiter is registered with: [neverSatisfied], and the
    [satisfiedBy] that [acquireUnlessPreempted] builds from its arguments. *)
Inductive satisfier : Type :=
| neverSatisfied
| satisfiedByConfig (configFilename : string) (profile : ChatTemplateProfile)
                    (options : modelConfigAcquireOptions).

Record switchWaiter : Type := mkWaiter {
  satisfiedBy : satisfier;
  waiter_request : waitingRequest
}.

Record switchQueue : Type := mkQueue {
  lastTicket : Z;
  windowTicket : Z;
  waiters : gmap Z switchWaiter
}.
#[export] Instance eta_switchQueue : Eta switchQueue :=
  λ q, mkQueue (lastTicket q) (windowTicket q) (waiters q).

(** [changed] counts how often the notification channel was closed and
    replaced: a goroutine that read epoch [n] is woken once [changed] exceeds
    [n]. Times are nanoseconds. *)
Record activeConfigState : Type := mkState {
  changed : nat;
  filename : string;
  physicalFilename : string;
  physicalFingerprint : string;
  physicalShareable : bool;
  physicalAttemptID : string;
  physicalReadiness : backendReadiness;
  pendingFilename : string;
  pendingProfile : ChatTemplateProfile;
  users : Z;
  borrowedUsers : Z;
  ownIdleSince : Z;
  switching : bool;
  switchingForBorrowed : bool;
  queue : switchQueue;
  vramBaselineMB : Z;
  vramTotalMB : Z;
  vramBaselineValid : bool;
  memoryLoadedMB : Z;
  modelID : string;
  generation : Z;
  leases : gmap Z runtimeLease
}.
#[export] Instance eta_activeConfigState : Eta activeConfigState :=
  λ s, mkState (changed s) (filename s) (physicalFilename s) (physicalFingerprint s)
    (physicalShareable s) (physicalAttemptID s) (physicalReadiness s)
    (pendingFilename s) (pendingProfile s) (users s) (borrowedUsers s)
    (ownIdleSince s) (switching s) (switchingForBorrowed s) (queue s)
    (vramBaselineMB s) (vramTotalMB s) (vramBaselineValid s) (memoryLoadedMB s)
    (modelID s) (generation s) (leases s).

Definition newActiveConfigState : activeConfigState :=
  mkState 0 "" "" "" false "" readinessText "" emptyProfile 0 0 0 false false
    (mkQueue 0 0 ∅) 0 0 false 0 "" 0 ∅.

(** ** Notification, physical profile and load measurement *)

Definition notifyActiveConfigLocked (state : activeConfigState) : activeConfigState :=
  state <| changed := S (changed state) |>.

Definition applyPhysicalLoadProfileLocked (state : activeConfigState) (configFilename : string)
    (profile : ChatTemplateProfile) (readiness : backendReadiness) : activeConfigState :=
  state <| physicalFilename := configFilename |>
        <| physicalReadiness := readiness |>
        <| physicalFingerprint := PhysicalLoadFingerprint profile |>
        <| physicalShareable := ServableBySiblingRuntime profile |>.

Definition clearPhysicalLoadProfileLocked (state : activeConfigState) : activeConfigState :=
  state <| physicalFilename := "" |> <| physicalFingerprint := "" |>
        <| physicalAttemptID := "" |> <| physicalShareable := false |>.

(** What a load measured: the memory readings before and after with the kind of
    memory they count, and the VRAM baseline (used, total) when analytics took
    one. *)
Record modelLoadMeasurement : Type := mkMeasurement {
  baseline : option (Z * Z);
  memoryBefore : option (string * Z);
  memoryAfter : option (string * Z)
}.

Definition memoryFootprintMB (measurement : modelLoadMeasurement) : Z :=
  match memoryBefore measurement, memoryAfter measurement with
  | Some (kindBefore, usedBefore), Some (kindAfter, usedAfter) =>
      if negb (String.eqb kindBefore kindAfter) then 0
      else Z.max 0 (usedAfter - usedBefore)
  | _, _ => 0
  end.

Definition clearLoadMeasurementLocked (state : activeConfigState) : activeConfigState :=
  state <| vramBaselineValid := false |> <| vramBaselineMB := 0 |>
        <| vramTotalMB := 0 |> <| memoryLoadedMB := 0 |>.

Definition applyLoadMeasurementLocked (state : activeConfigState)
    (measurement : modelLoadMeasurement) : activeConfigState :=
  let state := clearLoadMeasurementLocked state in
  let state := state <| memoryLoadedMB := memoryFootprintMB measurement |> in
  match baseline measurement with
  | None => state
  | Some (usedMB, totalMB) =>
      state <| vramBaselineValid := true |> <| vramBaselineMB := usedMB |>
            <| vramTotalMB := totalMB |>
  end.

Definition clearPendingConfigLocked (state : activeConfigState) : activeConfigState :=
  state <| pendingFilename := "" |> <| pendingProfile := emptyProfile |>.

(** ** Which configs the loaded model serves *)

Definition activeConfigMatchesProfile (state : activeConfigState) (configFilename : string)
    (profile : ChatTemplateProfile) : bool :=
  if String.eqb (filename state) configFilename then true
  else physicalShareable state && ServableBySiblingRuntime profile
       && String.eqb (physicalFingerprint state) (PhysicalLoadFingerprint profile).

Definition activeConfigMatchesAcquireOptions (state : activeConfigState) (configFilename : string)
    (profile : ChatTemplateProfile) (options : modelConfigAcquireOptions) : bool :=
  if exactPhysicalConfig options then String.eqb (physicalFilename state) configFilename
  else activeConfigMatchesProfile state configFilename profile.

Definition pendingConfigMatchesProfileLocked (state : activeConfigState) (configFilename : string)
    (profile : ChatTemplateProfile) : bool :=
  if String.eqb (pendingFilename state) "" then false
  else if String.eqb (pendingFilename state) configFilename then true
  else let fingerprint := PhysicalLoadFingerprint profile in
       ServableBySiblingRuntime profile
       && ServableBySiblingRuntime (pendingProfile state)
       && String.eqb (PhysicalLoadFingerprint (pendingProfile state)) fingerprint.

(** [runtime == nil] is [None]. *)
Definition activeRuntimeSupportsConfig (runtime : option activeConfigState)
    (configFilename : string) (profile : ChatTemplateProfile) : bool :=
  match runtime with
  | None => false
  | Some state =>
      if switching state then pendingConfigMatchesProfileLocked state configFilename profile
      else if String.eqb (filename state) "" then false
      else activeConfigMatchesProfile state configFilename profile
  end.

Definition satisfied (sat : satisfier) (state : activeConfigState) : bool :=
  match sat with
  | neverSatisfied => false
  | satisfiedByConfig configFilename profile options =>
      negb (forceReload options)
      && activeConfigMatchesAcquireOptions state configFilename profile options
  end.

(** ** The ticket queue *)

Definition takeTicketLocked (state : activeConfigState) : activeConfigState * Z :=
  let ticket := u64_succ (lastTicket (queue state)) in
  (state <| queue := (queue state) <| lastTicket := ticket |> |>, ticket).

Definition joinQueueLocked (state : activeConfigState) (ticket : Z) (sat : satisfier)
    (request : waitingRequest) : activeConfigState :=
  state <| queue := (queue state)
    <| waiters := <[ticket := mkWaiter sat request]> (waiters (queue state)) |> |>.

Definition leaveQueueLocked (state : activeConfigState) (ticket : Z) : activeConfigState :=
  match waiters (queue state) !! ticket with
  | None => state
  | Some _ =>
      notifyActiveConfigLocked
        (state <| queue := (queue state) <| waiters := delete ticket (waiters (queue state)) |> |>)
  end.

Definition queuedWaitersLocked (state : activeConfigState) : Z :=
  Z.of_nat (size (waiters (queue state))).

Definition waitingRequestsLocked (state : activeConfigState) : list waitingRequest :=
  filter (λ request, waiting_modelID request ≠ "")
    (waiter_request <$> (map_to_list (waiters (queue state))).*2).

Definition openLeaseWindowLocked (state : activeConfigState) : activeConfigState :=
  state <| queue := (queue state) <| windowTicket := u64_succ (lastTicket (queue state)) |> |>.

(** The loop over the waiters: the least ticket of a waiter the current model
    does not satisfy. *)
Definition oldestSwitchWaiterLocked (state : activeConfigState) : option Z :=
  map_fold (λ ticket waiter oldest,
      if satisfied (satisfiedBy waiter) state then oldest
      else match oldest with
           | None => Some ticket
           | Some o => if ticket <? o then Some ticket else Some o
           end)
    None (waiters (queue state)).

Definition admitsLeaseLocked (state : activeConfigState) (ticket : Z) : bool :=
  if ticket <? windowTicket (queue state) then true
  else match oldestSwitchWaiterLocked state with
       | None => true
       | Some oldest => ticket <? oldest
       end.

Definition maySwitchLocked (state : activeConfigState) (ticket : Z) : bool :=
  match oldestSwitchWaiterLocked state with
  | None => false
  | Some oldest => oldest =? ticket
  end.

(** ** Switches and leases *)

Definition beginRuntimeSwitchLocked (state : activeConfigState) (borrowed : bool)
  : activeConfigState :=
  state <| switching := true |> <| switchingForBorrowed := borrowed |>.

Definition endRuntimeSwitchLocked (state : activeConfigState) (now : Z) : activeConfigState :=
  let state := if negb (switchingForBorrowed state)
               then state <| ownIdleSince := now |> else state in
  state <| switching := false |> <| switchingForBorrowed := false |>.

Definition busyWithOwnWorkLocked (state : activeConfigState) : bool :=
  (0 <? users state - borrowedUsers state)
  || (switching state && negb (switchingForBorrowed state)).

(** The lease tag comes from the service-wide counter [nextRuntimeLease]. *)
Definition addRuntimeLeaseLocked (nextRuntimeLease : Z) (state : activeConfigState)
    (leaseModelID : string) (borrowed : bool) (now : Z) : activeConfigState * Z :=
  let state := state <| users := users state + 1 |> in
  let state := if borrowed then state <| borrowedUsers := borrowedUsers state + 1 |> else state in
  let leaseTag := u64_succ nextRuntimeLease in
  (state <| leases := <[leaseTag := mkLease leaseModelID borrowed now]> (leases state) |>,
   leaseTag).

Definition releaseActiveConfigUserLocked (state : activeConfigState) (borrowed : bool) (now : Z)
  : activeConfigState :=
  let state := state <| users := users state - 1 |> in
  let state := if borrowed && (0 <? borrowedUsers state)
               then state <| borrowedUsers := borrowedUsers state - 1 |> else state in
  let state := if negb borrowed && (users state =? borrowedUsers state)
               then state <| ownIdleSince := now |> else state in
  if users state =? 0 then notifyActiveConfigLocked state else state.

(** The body that a release closure runs once. *)
Definition releaseActiveConfigLease (state : activeConfigState) (leaseTag : Z) (borrowed : bool)
    (now : Z) : activeConfigState :=
  let state := if negb (leaseTag =? 0)
               then state <| leases := delete leaseTag (leases state) |> else state in
  if 0 <? users state then releaseActiveConfigUserLocked state borrowed now else state.

(** ** Preemption of borrowed requests ([offload_preemption.go]) *)

Record borrowedPreemption : Type := mkPreemption { started : bool; preempted : bool }.

(** A nil preemption is [None]. *)
Definition claimStart (preemption : option borrowedPreemption)
  : option borrowedPreemption * bool :=
  match preemption with
  | None => (None, true)
  | Some p => if preempted p then (Some p, false) else (Some (mkPreemption true (preempted p)), true)
  end.

Definition preemptUnlessStarted (preemption : option borrowedPreemption)
  : option borrowedPreemption :=
  match preemption with
  | None => None
  | Some p => if started p || preempted p then Some p else Some (mkPreemption (started p) true)
  end.

Definition wasPreempted (preemption : option borrowedPreemption) : bool :=
  match preemption with None => false | Some p => preempted p end.

(** ** Acquiring: [acquireUnlessPreempted] and what it calls *)

Record configAcquisition : Type := mkAcquisition {
  req_modelID : string;
  req_configFilename : string;
  req_readiness : backendReadiness;
  req_profile : ChatTemplateProfile;
  req_borrowed : bool;
  req_options : modelConfigAcquireOptions
}.

Definition req_satisfier (request : configAcquisition) : satisfier :=
  satisfiedByConfig (req_configFilename request) (req_profile request) (req_options request).

(** [chatTemplateProfileForConfig]: the first catalog entry with the file name.
    A catalog is [None] when the service has none, and an error value when it
    cannot be listed. *)
Definition chatTemplateProfileForConfig
    (catalog : option (result string (list (string * ChatTemplateProfile))))
    (configFilename : string) : ChatTemplateProfile :=
  match catalog with
  | None => emptyProfile
  | Some listing =>
      if String.eqb configFilename "" then emptyProfile
      else match listing with
           | Err _ => emptyProfile
           | Ok models =>
               match List.find (λ model, String.eqb model.1 configFilename) models with
               | Some model => model.2
               | None => emptyProfile
               end
           end
  end.

(** What the service does besides changing the runtime state: the writes to the
    load-capture and analytics stores, and the runtime-changed notification.
    Log lines are left out. [RecordLoadReuse] takes effect where a load-capture
    store is configured. *)
Inductive laneEffect : Type :=
| RecordLoadReuse (physicalAttempt : string)
| RecordLoad (loadedModel loadedConfig : string) (readiness : backendReadiness)
| RuntimeChanged.

Definition recordLoadReuse (attemptID : string) : list laneEffect :=
  if String.eqb (TrimSpace attemptID) "" then [] else [RecordLoadReuse attemptID].

Record reuseResult : Type := mkReuse {
  reuse_state : activeConfigState;
  reuse_tag : Z;
  reuse_effects : list laneEffect
}.

Definition reuseActiveConfigLocked (nextRuntimeLease : Z) (state : activeConfigState) (ticket : Z)
    (request : configAcquisition) (now : Z) : reuseResult :=
  let state := leaveQueueLocked state ticket in
  let logicalConfigChanged := negb (String.eqb (filename state) (req_configFilename request)) in
  let logicalModelChanged := negb (String.eqb (modelID state) (req_modelID request)) in
  let state := state <| filename := req_configFilename request |>
                     <| modelID := req_modelID request |> in
  let state := if logicalConfigChanged || logicalModelChanged
               then state <| generation := u64_succ (generation state) |> else state in
  let '(state, tag) :=
    addRuntimeLeaseLocked nextRuntimeLease state (req_modelID request) (req_borrowed request) now in
  mkReuse state tag
    (recordLoadReuse (physicalAttemptID state)
     ++ if logicalConfigChanged then [RuntimeChanged] else []).

(** One pass of the acquire loop, from holding the lock to giving it up. *)
Inductive acquireTurn : Type :=
| TurnReused (reuse : reuseResult)
| TurnReturned
| TurnWait (epoch : nat)
| TurnSwitch.

Definition acquireTurnLocked (nextRuntimeLease : Z) (state : activeConfigState) (ticket : Z)
    (queued : bool) (request : configAcquisition) (preemption : option borrowedPreemption)
    (now : Z) : activeConfigState * option borrowedPreemption * acquireTurn :=
  let sat := req_satisfier request in
  if satisfied sat state && negb (switching state) && admitsLeaseLocked state ticket then
    let '(preemption, claimed) := claimStart preemption in
    if negb claimed then (leaveQueueLocked state ticket, preemption, TurnReturned)
    else
      let reuse := reuseActiveConfigLocked nextRuntimeLease state ticket request now in
      (reuse_state reuse, preemption, TurnReused reuse)
  else
    let state := if queued then state
                 else joinQueueLocked state ticket sat
                        (mkWaitingRequest (req_modelID request) (req_borrowed request) now) in
    if satisfied sat state || switching state || (0 <? users state)
       || negb (maySwitchLocked state ticket) then
      (state, preemption, TurnWait (changed state))
    else
      let state := leaveQueueLocked state ticket in
      let state := beginRuntimeSwitchLocked state (req_borrowed request) in
      (state <| pendingFilename := req_configFilename request |>
             <| pendingProfile := req_profile request |>, preemption, TurnSwitch).

Definition abandonRuntimeSwitch (state : activeConfigState) (now : Z) : activeConfigState :=
  let state := endRuntimeSwitchLocked state now in
  let state := clearPendingConfigLocked state in
  let state := state <| filename := "" |> <| modelID := "" |> <| physicalAttemptID := "" |> in
  let state := clearPhysicalLoadProfileLocked state in
  let state := clearLoadMeasurementLocked state in
  notifyActiveConfigLocked state.

(** The end of [switchRuntimeConfig] after the load succeeded; [capture] is the
    identifier of the load capture when one was begun. The lease is [None] when
    the request was preempted while its model loaded. *)
Definition finishSwitchRuntimeConfig (nextRuntimeLease : Z) (state : activeConfigState)
    (request : configAcquisition) (capture : option string) (measurement : modelLoadMeasurement)
    (startClaimed : bool) (now : Z) : activeConfigState * option Z * list laneEffect :=
  let state := endRuntimeSwitchLocked state now in
  let state := clearPendingConfigLocked state in
  let state := state <| filename := req_configFilename request |>
                     <| modelID := req_modelID request |>
                     <| generation := u64_succ (generation state) |>
                     <| physicalAttemptID := default "" capture |> in
  let state := applyPhysicalLoadProfileLocked state (req_configFilename request)
                 (req_profile request) (req_readiness request) in
  let state := applyLoadMeasurementLocked state measurement in
  let state := openLeaseWindowLocked state in
  let '(state, lease) :=
    if startClaimed then
      let '(state, tag) := addRuntimeLeaseLocked nextRuntimeLease state (req_modelID request)
                             (req_borrowed request) now in
      (state, Some tag)
    else (state, None) in
  (notifyActiveConfigLocked state, lease,
   [RecordLoad (req_modelID request) (req_configFilename request) (req_readiness request);
    RuntimeChanged]).

(** ** Reloading a held config: [reloadHeldModelConfig] *)

Inductive reloadTurn : Type := ReloadWait (epoch : nat) | ReloadSwitch.

Definition reloadJoinLocked (state : activeConfigState) : activeConfigState * Z :=
  let '(state, ticket) := takeTicketLocked state in
  (joinQueueLocked state ticket neverSatisfied emptyWaitingRequest, ticket).

Definition reloadTurnLocked (state : activeConfigState) (ticket : Z) (request : configAcquisition)
  : activeConfigState * reloadTurn :=
  if switching state || (1 <? users state) then (state, ReloadWait (changed state))
  else
    let state := leaveQueueLocked state ticket in
    let state := beginRuntimeSwitchLocked state (req_borrowed request) in
    (state <| pendingFilename := req_configFilename request |>
           <| pendingProfile := req_profile request |>, ReloadSwitch).

Definition reloadFailed (state : activeConfigState) (now : Z) : activeConfigState :=
  let state := endRuntimeSwitchLocked state now in
  let state := clearPendingConfigLocked state in
  let state := state <| filename := "" |> <| modelID := "" |> <| physicalAttemptID := "" |> in
  let state := clearPhysicalLoadProfileLocked state in
  let state := clearLoadMeasurementLocked state in
  notifyActiveConfigLocked state.

Definition reloadSucceeded (state : activeConfigState) (request : configAcquisition)
    (measurement : modelLoadMeasurement) (now : Z) : activeConfigState :=
  let state := endRuntimeSwitchLocked state now in
  let state := clearPendingConfigLocked state in
  let state := state <| filename := req_configFilename request |>
                     <| modelID := req_modelID request |>
                     <| generation := u64_succ (generation state) |> in
  let state := applyPhysicalLoadProfileLocked state (req_configFilename request)
                 (req_profile request) (req_readiness request) in
  let state := applyLoadMeasurementLocked state measurement in
  let state := openLeaseWindowLocked state in
  notifyActiveConfigLocked state.

(** ** Unloading: [claimIdleRuntime] and [finishRuntimeSwitch] *)

Inductive unloadError : Type :=
| errRuntimeGenerationChanged | errRuntimeNoLongerHoldsConfig | contextDone.

(** The [stillUnloadable] closures: [runtimeAlwaysUnloadable], the generation
    check of [unloadRuntimeIfGeneration] and the config check of
    [unloadDisabledRuntime]. *)
Inductive unloadCheck : Type :=
| runtimeAlwaysUnloadable
| whileGeneration (expectedGeneration : Z)
| whileHoldingConfig (configFilename : string).

Definition stillUnloadable (check : unloadCheck) (ctxDone : bool) (state : activeConfigState)
  : option unloadError :=
  let ctxErr := if ctxDone then Some contextDone else None in
  match check with
  | runtimeAlwaysUnloadable => None
  | whileGeneration expectedGeneration =>
      if negb (generation state =? expectedGeneration) || String.eqb (modelID state) ""
      then Some errRuntimeGenerationChanged else ctxErr
  | whileHoldingConfig configFilename =>
      if negb (String.eqb (filename state) configFilename)
      then Some errRuntimeNoLongerHoldsConfig else ctxErr
  end.

Inductive claimTurn : Type :=
| ClaimRefused (reason : unloadError) | ClaimWait (epoch : nat) | ClaimTaken.

Definition claimTurnLocked (state : activeConfigState) (ticket : Z) (check : unloadCheck)
    (ctxDone : bool) : activeConfigState * claimTurn :=
  match stillUnloadable check ctxDone state with
  | Some reason => (leaveQueueLocked state ticket, ClaimRefused reason)
  | None =>
      if switching state || (0 <? users state) || negb (maySwitchLocked state ticket) then
        (state, ClaimWait (changed state))
      else
        let state := state <| modelID := "" |>
                           <| generation := u64_succ (generation state) |> in
        let state := leaveQueueLocked state ticket in
        let state := beginRuntimeSwitchLocked state false in
        let state := state <| filename := "" |> in
        let state := clearPhysicalLoadProfileLocked state in
        let state := clearLoadMeasurementLocked state in
        (notifyActiveConfigLocked state, ClaimTaken)
  end.

Definition finishRuntimeSwitch (state : activeConfigState) (now : Z) : activeConfigState :=
  notifyActiveConfigLocked (endRuntimeSwitchLocked state now).

(** ** The load itself: [loadModelConfig]

    One attempt reloads the backend and waits for its endpoint; it reports
    nothing, that the backend serves no model, or another error. *)
Inductive loadError : Type := errBackendServingNoModel | otherLoadError (message : string).

Definition modelLoadAttempts : nat := 3.

Section load.
Context (attemptLoad : nat → option loadError) (ctxDoneAfter : nat → bool).

(** [attempt] counts from 1; the result is the error, if any, with the number
    of attempts made. *)
Fixpoint loadAttempts (remaining attempt : nat) (lastErr : option loadError)
  : option loadError * nat :=
  match remaining with
  | O => (lastErr, pred attempt)
  | S remaining =>
      match attemptLoad attempt with
      | None => (None, attempt)
      | Some err =>
          if ctxDoneAfter attempt then (Some err, attempt)
          else match err with
               | otherLoadError _ => (Some err, attempt)
               | errBackendServingNoModel => loadAttempts remaining (S attempt) (Some err)
               end
      end
  end.

Definition loadModelConfig : option loadError * nat :=
  loadAttempts modelLoadAttempts 1 None.
End load.

(** ** The transition system

    A goroutine that uses the runtime is a thread. Its program counter says
    which critical section it runs next; [reload] and [unload] threads go through
    the same lock as acquiring ones. [backendHolds] is what the backend process
    physically loaded, which the lane's own fields only describe. [arrivals] and
    [granted] count the tickets taken and the leases granted, without wrap-around;
    the code keeps neither. *)
Inductive programCounter : Type :=
| AcquireParked (request : configAcquisition) (ticket : Z) (epoch : nat)
| AcquireLoading (request : configAcquisition)
| Holding (request : configAcquisition) (tag : Z)
| ReloadParked (request : configAcquisition) (tag ticket : Z) (epoch : nat)
| ReloadLoading (request : configAcquisition) (tag : Z)
| UnloadParked (check : unloadCheck) (ticket : Z) (epoch : nat)
| Unloading
| Finished.

Record thread : Type := mkThread {
  pc : programCounter;
  preemption : option borrowedPreemption
}.
#[export] Instance eta_thread : Eta thread := λ t, mkThread (pc t) (preemption t).

Record system : Type := mkSystem {
  lane : activeConfigState;
  threads : gmap nat thread;
  arrivals : nat;
  granted : nat;
  nextRuntimeLease : Z;
  backendHolds : option (string * ChatTemplateProfile);
  effects : list laneEffect
}.
#[export] Instance eta_system : Eta system :=
  λ s, mkSystem (lane s) (threads s) (arrivals s) (granted s) (nextRuntimeLease s) (backendHolds s) (effects s).

Definition initialSystem : system := mkSystem newActiveConfigState ∅ 0 0 0 None [].

Definition set_pc (tid : nat) (th : thread) (next : programCounter) (s : system) : system :=
  s <| threads := <[tid := th <| pc := next |>]> (threads s) |>.

(** Record what one turn of the acquire loop decided. *)
Definition settleAcquire (s : system) (tid : nat) (request : configAcquisition) (ticket : Z)
    (turn : activeConfigState * option borrowedPreemption * acquireTurn) : system :=
  let '(state, preemption, outcome) := turn in
  let s := s <| lane := state |> in
  let thread next := <[tid := mkThread next preemption]> (threads s) in
  match outcome with
  | TurnReused reuse =>
      s <| threads := thread (Holding request (reuse_tag reuse)) |>
        <| nextRuntimeLease := reuse_tag reuse |>
        <| granted := S (granted s) |>
        <| effects := effects s ++ reuse_effects reuse |>
  | TurnReturned => s <| threads := thread Finished |>
  | TurnWait epoch => s <| threads := thread (AcquireParked request ticket epoch) |>
  | TurnSwitch =>
      s <| threads := thread (AcquireLoading request) |>
        <| backendHolds := None |>
  end.

Definition settleReload (s : system) (tid : nat) (th : thread) (request : configAcquisition)
    (tag ticket : Z) (turn : activeConfigState * reloadTurn) : system :=
  let s := s <| lane := turn.1 |> in
  match turn.2 with
  | ReloadWait epoch => set_pc tid th (ReloadParked request tag ticket epoch) s
  | ReloadSwitch =>
      set_pc tid th (ReloadLoading request tag) s <| backendHolds := None |>
  end.

Definition settleUnload (s : system) (tid : nat) (check : unloadCheck) (ticket : Z)
    (turn : activeConfigState * claimTurn) : system :=
  let s := s <| lane := turn.1 |> in
  let thread next := <[tid := mkThread next None]> (threads s) in
  match turn.2 with
  | ClaimRefused _ => s <| threads := thread Finished |>
  | ClaimWait epoch => s <| threads := thread (UnloadParked check ticket epoch) |>
  | ClaimTaken => s <| threads := thread Unloading |> <| backendHolds := None |>
  end.

Inductive event : Type :=
| EvAcquire (request : configAcquisition) (preemptible : bool) (now : Z)
| EvWake (tid : nat) (ctxDone : bool) (now : Z)
| EvCancel (tid : nat)
| EvLoadFailed (tid : nat) (now : Z)
| EvLoaded (tid : nat) (capture : option string) (measurement : modelLoadMeasurement) (now : Z)
| EvRelease (tid : nat) (now : Z)
| EvReload (tid : nat)
| EvUnload (check : unloadCheck) (ctxDone : bool)
| EvUnloaded (tid : nat) (now : Z)
| EvPreempt (tid : nat).

(** One event: [None] when it cannot happen in this state. A parked goroutine
    wakes only after the channel it read was closed. *)
Definition exec (ev : event) (s : system) : option system :=
  match ev with
  | EvAcquire request preemptible now =>
      let tid := arrivals s in
      let '(state, ticket) := takeTicketLocked (lane s) in
      let preemption := if preemptible && req_borrowed request
                        then Some (mkPreemption false false) else None in
      Some (settleAcquire (s <| arrivals := S tid |>) tid request ticket
              (acquireTurnLocked (nextRuntimeLease s) state ticket false request preemption now))
  | EvWake tid ctxDone now =>
      th ← threads s !! tid;
      match pc th with
      | AcquireParked request ticket epoch =>
          if (epoch <? changed (lane s))%nat then
            Some (settleAcquire s tid request ticket
                    (acquireTurnLocked (nextRuntimeLease s) (lane s) ticket true request
                       (preemption th) now))
          else None
      | ReloadParked request tag ticket epoch =>
          if (epoch <? changed (lane s))%nat then
            Some (settleReload s tid th request tag ticket
                    (reloadTurnLocked (lane s) ticket request))
          else None
      | UnloadParked check ticket epoch =>
          if (epoch <? changed (lane s))%nat then
            Some (settleUnload s tid check ticket (claimTurnLocked (lane s) ticket check ctxDone))
          else None
      | _ => None
      end
  | EvCancel tid =>
      th ← threads s !! tid;
      match pc th with
      | AcquireParked _ ticket _ | UnloadParked _ ticket _ =>
          Some (set_pc tid th Finished (s <| lane := leaveQueueLocked (lane s) ticket |>))
      | ReloadParked request tag ticket _ =>
          Some (set_pc tid th (Holding request tag)
                  (s <| lane := leaveQueueLocked (lane s) ticket |>))
      | _ => None
      end
  | EvLoadFailed tid now =>
      th ← threads s !! tid;
      match pc th with
      | AcquireLoading _ =>
          Some (set_pc tid th Finished
                  (s <| lane := abandonRuntimeSwitch (lane s) now |>
                     <| effects := effects s ++ [RuntimeChanged] |>))
      | ReloadLoading request tag =>
          Some (set_pc tid th (Holding request tag)
                  (s <| lane := reloadFailed (lane s) now |>
                     <| effects := effects s ++ [RuntimeChanged] |>))
      | _ => None
      end
  | EvLoaded tid capture measurement now =>
      th ← threads s !! tid;
      match pc th with
      | AcquireLoading request =>
          let '(preemption, claimed) := claimStart (preemption th) in
          let '(state, lease, loadEffects) :=
            finishSwitchRuntimeConfig (nextRuntimeLease s) (lane s) request capture measurement
              claimed now in
          let next := match lease with Some tag => Holding request tag | None => Finished end in
          Some (s <| lane := state |>
                  <| threads := <[tid := mkThread next preemption]> (threads s) |>
                  <| nextRuntimeLease := default (nextRuntimeLease s) lease |>
                  <| granted := match lease with Some _ => S (granted s) | None => granted s end |>
                  <| backendHolds := Some (req_configFilename request, req_profile request) |>
                  <| effects := effects s ++ loadEffects |>)
      | ReloadLoading request tag =>
          Some (set_pc tid th (Holding request tag)
                  (s <| lane := reloadSucceeded (lane s) request measurement now |>
                     <| backendHolds := Some (req_configFilename request, req_profile request) |>
                     <| effects := effects s ++
                          [RecordLoad (req_modelID request) (req_configFilename request)
                             (req_readiness request); RuntimeChanged] |>))
      | _ => None
      end
  | EvRelease tid now =>
      th ← threads s !! tid;
      match pc th with
      | Holding request tag =>
          Some (set_pc tid th Finished
                  (s <| lane := releaseActiveConfigLease (lane s) tag (req_borrowed request) now |>))
      | _ => None
      end
  | EvReload tid =>
      th ← threads s !! tid;
      match pc th with
      | Holding request tag =>
          let '(state, ticket) := reloadJoinLocked (lane s) in
          Some (settleReload (s <| arrivals := S (arrivals s) |>) tid th request tag ticket
                  (reloadTurnLocked state ticket request))
      | _ => None
      end
  | EvUnload check ctxDone =>
      let tid := arrivals s in
      let '(state, ticket) := takeTicketLocked (lane s) in
      let state := joinQueueLocked state ticket neverSatisfied emptyWaitingRequest in
      Some (settleUnload (s <| arrivals := S tid |>) tid check ticket
              (claimTurnLocked state ticket check ctxDone))
  | EvUnloaded tid now =>
      th ← threads s !! tid;
      match pc th with
      | Unloading =>
          Some (set_pc tid th Finished
                  (s <| lane := finishRuntimeSwitch (lane s) now |>
                     <| effects := effects s ++ [RuntimeChanged] |>))
      | _ => None
      end
  | EvPreempt tid =>
      th ← threads s !! tid;
      Some (s <| threads := <[tid := mkThread (pc th) (preemptUnlessStarted (preemption th))]>
                              (threads s) |>)
  end.

Definition step (s s' : system) : Prop := ∃ ev, exec ev s = Some s'.

(** Run a list of events from the initial state. *)
Fixpoint run (events : list event) (s : system) : option system :=
  match events with
  | [] => Some s
  | ev :: events => s' ← exec ev s; run events s'
  end.
