(* ===== verification/LaneProofs.v ===== *)
(** * Theorems about the lane core

    The invariant of every interleaving ([lane_inv]), and what follows from it:
    no lease is cut off by a switch, waiters are served in ticket order, no
    waiter sleeps through the wake-up that lets it run, and the place where the
    code does lose one. *)

From stdpp Require Import gmap strings list.
From Stdlib Require Import Bool ZArith Lia.
From S2P Require Import Prelude.
From S2P Require Import GoStrings.
From S2P Require Import Lane.
Open Scope go_scope.
Open Scope Z_scope.

Create Rewrite HintDb lane.

(** ** Resources owned by threads

    A finite map of resources (waiters by ticket, leases by tag, the one right to
    switch) in which every key belongs to exactly one thread. *)
Section owned.
Context {K V : Type} `{Countable K}.
Context (own : programCounter → option K) (fits : programCounter → V → Prop).

Record owned (ths : gmap nat thread) (M : gmap K V) : Prop := {
  owned_thread : ∀ k v, M !! k = Some v →
    ∃ tid th, ths !! tid = Some th ∧ own (pc th) = Some k ∧ fits (pc th) v;
  owned_resource : ∀ tid th k, ths !! tid = Some th → own (pc th) = Some k →
    ∃ v, M !! k = Some v ∧ fits (pc th) v;
  owned_unique : ∀ tid1 tid2 th1 th2 k, ths !! tid1 = Some th1 → ths !! tid2 = Some th2 →
    own (pc th1) = Some k → own (pc th2) = Some k → tid1 = tid2
}.

Definition own_of (o : option thread) : option K := th ← o; own (pc th).

(** Replace thread [tid], giving up its old key and taking the new one. *)
Lemma owned_update ths M M' tid th' :
  owned ths M →
  (∀ k, own (pc th') = Some k → own_of (ths !! tid) ≠ Some k → M !! k = None) →
  (∀ k, own (pc th') = Some k → ∃ v, M' !! k = Some v ∧ fits (pc th') v) →
  (∀ k, own (pc th') ≠ Some k → own_of (ths !! tid) = Some k → M' !! k = None) →
  (∀ k, own (pc th') ≠ Some k → own_of (ths !! tid) ≠ Some k → M' !! k = M !! k) →
  owned (<[tid := th']> ths) M'.
Proof.
  intros [Hthread Hres Huniq] Hfresh Hnew Hold Hother.
  assert (Hfreshtid : ∀ k, own (pc th') = Some k → ∀ tid2 th2, tid2 ≠ tid →
    ths !! tid2 = Some th2 → own (pc th2) = Some k → False).
  { intros k Hk tid2 th2 Hne H2 Hk2.
    destruct (decide (own_of (ths !! tid) = Some k)) as [Ho|Ho].
    - unfold own_of in Ho. destruct (ths !! tid) as [th|] eqn:Ht; [|done]. simpl in Ho.
      by apply Hne, (Huniq tid2 tid th2 th k).
    - destruct (Hres tid2 th2 k H2 Hk2) as (v&Hv&_). rewrite (Hfresh k Hk Ho) in Hv. done. }
  split.
  - intros k v Hv. destruct (decide (own (pc th') = Some k)) as [Hk|Hk].
    + exists tid, th'. rewrite lookup_insert_eq. destruct (Hnew k Hk) as (v'&Hv'&?).
      rewrite Hv in Hv'. by simplify_eq.
    + destruct (decide (own_of (ths !! tid) = Some k)) as [Ho|Ho].
      * by rewrite (Hold k Hk Ho) in Hv.
      * rewrite (Hother k Hk Ho) in Hv. destruct (Hthread k v Hv) as (tid2&th2&H2&Hk2&?).
        exists tid2, th2. rewrite lookup_insert_ne; [done|]. intros ->.
        by rewrite H2 in Ho.
  - intros tid2 th2 k H2 Hk2. destruct (decide (tid = tid2)) as [<-|Hne].
    + rewrite lookup_insert_eq in H2. simplify_eq. by apply Hnew.
    + rewrite lookup_insert_ne in H2 by done.
      assert (own (pc th') ≠ Some k) by (intros Hk; eapply Hfreshtid; eauto).
      destruct (Hres tid2 th2 k H2 Hk2) as (v&Hv&Hf). exists v. split; [|done].
      rewrite Hother; [done|done|]. intros Ho. unfold own_of in Ho.
      destruct (ths !! tid) as [th|] eqn:Ht; [|done]. simpl in Ho.
      by apply Hne, (Huniq tid tid2 th th2 k).
  - intros tid1 tid2 th1 th2 k H1 H2 Hk1 Hk2.
    destruct (decide (tid = tid1)) as [<-|Hne1]; destruct (decide (tid = tid2)) as [<-|Hne2];
      rewrite ?lookup_insert_eq, ?lookup_insert_ne in H1 by done;
      rewrite ?lookup_insert_eq, ?lookup_insert_ne in H2 by done; simplify_eq.
    + done.
    + by destruct (Hfreshtid k Hk1 tid2 th2).
    + by destruct (Hfreshtid k Hk2 tid1 th1).
    + by eapply Huniq.
Qed.

Lemma owned_empty : owned ∅ ∅.
Proof. split; intros *; rewrite ?lookup_empty; discriminate. Qed.
End owned.

Definition parked_ticket (c : programCounter) : option Z :=
  match c with
  | AcquireParked _ t _ | ReloadParked _ _ t _ | UnloadParked _ t _ => Some t
  | _ => None
  end.

Definition parked_epoch (c : programCounter) : option nat :=
  match c with
  | AcquireParked _ _ e | ReloadParked _ _ _ e | UnloadParked _ _ e => Some e
  | _ => None
  end.

Definition waiter_fits (c : programCounter) (w : switchWaiter) : Prop :=
  satisfiedBy w = match c with
                  | AcquireParked request _ _ => req_satisfier request
                  | _ => neverSatisfied
                  end.

Definition lease_tag (c : programCounter) : option Z :=
  match c with
  | Holding _ tag | ReloadParked _ tag _ _ | ReloadLoading _ tag => Some tag
  | _ => None
  end.

Definition lease_request (c : programCounter) : option configAcquisition :=
  match c with
  | Holding r _ | ReloadParked r _ _ _ | ReloadLoading r _ => Some r
  | _ => None
  end.

Definition lease_fits (c : programCounter) (l : runtimeLease) : Prop :=
  ∀ r, lease_request c = Some r → lease_borrowed l = req_borrowed r.

Definition switch_right (c : programCounter) : option unit :=
  match c with AcquireLoading _ | ReloadLoading _ _ | Unloading => Some tt | _ => None end.

Definition switch_map (switching : bool) : gmap unit unit :=
  if switching then {[tt := tt]} else ∅.

(** How one resource map changes when one thread moves. *)
Section change.
Context {K V : Type} `{Countable K}.
Context (own : programCounter → option K) (fits : programCounter → V → Prop).

Inductive change (old : option thread) (th' : thread) (M M' : gmap K V) : Prop :=
| change_same :
    own_of own old = own (pc th') →
    (∀ th v, old = Some th → fits (pc th) v → fits (pc th') v) →
    M' = M → change old th' M M'
| change_drop k :
    own_of own old = Some k → own (pc th') = None → M' = delete k M → change old th' M M'
| change_take k v :
    own_of own old = None → own (pc th') = Some k → M !! k = None → fits (pc th') v →
    M' = <[k := v]> M → change old th' M M'.

Lemma owned_change ths tid th' M M' :
  change (ths !! tid) th' M M' → owned own fits ths M →
  owned own fits (<[tid := th']> ths) M'.
Proof.
  intros Hch HM. destruct Hch as [Heq Hfit ->|k Ho Hn ->|k v Ho Hn Hfr Hfit ->].
  - eapply owned_update; [exact HM|congruence| |congruence|done].
    intros k Hk. rewrite <-Heq in Hk. unfold own_of in Hk.
    destruct (ths !! tid) as [th|] eqn:E; [|done]. simpl in Hk.
    destruct (owned_resource _ _ _ _ HM tid th k E Hk) as (v&?&?). eauto.
  - eapply owned_update; [exact HM|congruence|congruence| |].
    + intros k' _ Hk'. rewrite Ho in Hk'. simplify_eq. apply lookup_delete_eq.
    + intros k' _ Hk'. apply lookup_delete_ne. congruence.
  - eapply owned_update; [exact HM| | |congruence|].
    + intros k' Hk' _. by simplify_eq.
    + intros k' Hk'. simplify_eq. exists v. by rewrite lookup_insert_eq.
    + intros k' Hk' _. apply lookup_insert_ne. congruence.
Qed.
End change.

Arguments change_drop {K V _ _ own fits old th' M M'} k _ _ _.
Arguments change_take {K V _ _ own fits old th' M M'} k v _ _ _ _ _.

(** ** What the critical sections do to the fields the invariant reads *)

(** Each branching critical section as one record update, its branches pushed
    into the fields they change. *)
Ltac lane_eq := intros; repeat (case_match; simpl in *); subst; try reflexivity.

Lemma leaveQueueLocked_eq st t :
  leaveQueueLocked st t =
  st <| queue := (queue st) <| waiters := delete t (waiters (queue st)) |> |>
     <| changed := match waiters (queue st) !! t with
                   | Some _ => S (changed st) | None => changed st end |>.
Proof.
  unfold leaveQueueLocked. destruct (waiters (queue st) !! t) eqn:E; [done|].
  simpl. rewrite delete_id by done. by destruct st as [? ? ? ? ? ? ? ? ? ? ? ? ? ? [] ? ? ? ? ? ? ?].
Qed.

Lemma endRuntimeSwitchLocked_eq st now :
  endRuntimeSwitchLocked st now =
  st <| ownIdleSince := if negb (switchingForBorrowed st) then now else ownIdleSince st |>
     <| switching := false |> <| switchingForBorrowed := false |>.
Proof. unfold endRuntimeSwitchLocked. destruct st; simpl. by case_match. Qed.

Lemma applyLoadMeasurementLocked_eq st m :
  applyLoadMeasurementLocked st m =
  st <| vramBaselineValid := bool_decide (is_Some (baseline m)) |>
     <| vramBaselineMB := (default (0, 0) (baseline m)).1 |>
     <| vramTotalMB := (default (0, 0) (baseline m)).2 |>
     <| memoryLoadedMB := memoryFootprintMB m |>.
Proof. unfold applyLoadMeasurementLocked. by destruct st, (baseline m) as [[]|]. Qed.

Lemma addRuntimeLeaseLocked_eq next st mid b now :
  addRuntimeLeaseLocked next st mid b now =
  (st <| users := users st + 1 |>
      <| borrowedUsers := borrowedUsers st + if b then 1 else 0 |>
      <| leases := <[u64_succ next := mkLease mid b now]> (leases st) |>, u64_succ next).
Proof. unfold addRuntimeLeaseLocked. destruct st, b; simpl; by rewrite ?Z.add_0_r. Qed.

Lemma releaseActiveConfigLease_eq st tag b now :
  tag ≠ 0 → 0 < users st → (b = true → 0 < borrowedUsers st) →
  releaseActiveConfigLease st tag b now =
  st <| leases := delete tag (leases st) |>
     <| users := users st - 1 |>
     <| borrowedUsers := borrowedUsers st - if b then 1 else 0 |>
     <| ownIdleSince := if negb b && (users st - 1 =? borrowedUsers st) then now
                        else ownIdleSince st |>
     <| changed := if users st - 1 =? 0 then S (changed st) else changed st |>.
Proof.
  intros Htag Hu Hb. unfold releaseActiveConfigLease, releaseActiveConfigUserLocked.
  apply Z.eqb_neq in Htag. rewrite Htag. destruct st; simpl in *.
  apply Z.ltb_lt in Hu. rewrite Hu. destruct b; simpl.
  - specialize (Hb eq_refl). apply Z.ltb_lt in Hb. rewrite Hb. simpl. by case_match.
  - rewrite Z.sub_0_r. destruct (users - 1 =? borrowedUsers); simpl; by destruct (users - 1 =? 0).
Qed.

#[export] Hint Rewrite leaveQueueLocked_eq endRuntimeSwitchLocked_eq
  applyLoadMeasurementLocked_eq addRuntimeLeaseLocked_eq : lane.

(** ** The invariant *)

Definition own_lease (c : programCounter) : Z :=
  match lease_tag c with Some _ => 1 | None => 0 end.
Definition own_borrowed (c : programCounter) : Z :=
  match lease_request c with Some r => if req_borrowed r then 1 else 0 | None => 0 end.
Definition count_of (f : programCounter → Z) (o : option thread) : Z :=
  match o with Some th => f (pc th) | None => 0 end.

Definition borrowed_leases (M : gmap Z runtimeLease) : gmap Z runtimeLease :=
  filter (λ kv, lease_borrowed kv.2 = true) M.

Record lane_inv (s : system) : Prop := {
  inv_ticket : lastTicket (queue (lane s)) = Z.of_nat (arrivals s);
  inv_granted : nextRuntimeLease s = Z.of_nat (granted s);
  inv_tid : ∀ tid, is_Some (threads s !! tid) → (tid < arrivals s)%nat;
  inv_waiters : owned parked_ticket waiter_fits (threads s) (waiters (queue (lane s)));
  inv_leases : owned lease_tag lease_fits (threads s) (leases (lane s));
  inv_switch : owned switch_right (λ _ _, True) (threads s) (switch_map (switching (lane s)));
  inv_ticket_range : ∀ t, is_Some (waiters (queue (lane s)) !! t) →
    0 < t ≤ lastTicket (queue (lane s));
  inv_tag_range : ∀ g, is_Some (leases (lane s) !! g) → 0 < g ≤ nextRuntimeLease s;
  inv_users : users (lane s) = Z.of_nat (size (leases (lane s)));
  inv_borrowed : borrowedUsers (lane s) = Z.of_nat (size (borrowed_leases (leases (lane s))));
  inv_exclusive : ∀ tid th, threads s !! tid = Some th → switch_right (pc th) = Some tt →
    ∀ g, is_Some (leases (lane s) !! g) → lease_tag (pc th) = Some g;
  inv_window : 0 ≤ windowTicket (queue (lane s)) ≤ lastTicket (queue (lane s)) + 1
}.

Definition no_wrap (s : system) : Prop :=
  Z.of_nat (arrivals s) < u64_modulus ∧ Z.of_nat (granted s) < u64_modulus.

Lemma lane_inv_init : lane_inv initialSystem.
Proof.
  split; simpl; try done; try apply owned_empty.
  - intros ? [? H]. by rewrite lookup_empty in H.
  - intros ? [? H]. by rewrite lookup_empty in H.
  - intros ? [? H]. by rewrite lookup_empty in H.
Qed.

(** The counters follow the leases when a thread takes or drops one. *)
Lemma lease_change_size old th' M M' ths tid :
  ths !! tid = old → owned lease_tag lease_fits ths M →
  change lease_tag lease_fits old th' M M' →
  Z.of_nat (size M') = Z.of_nat (size M) + own_lease (pc th') - count_of own_lease old.
Proof.
  intros Hold HM Hch. unfold own_lease, count_of.
  destruct Hch as [Heq _ ->|k Ho Hn ->|k v Ho Hn Hfr _ ->]; unfold own_of in *.
  - rewrite <-Heq. destruct old as [th|]; simpl; destruct (lease_tag _) eqn:?; simplify_eq/=; lia.
  - rewrite Hn. destruct old as [th|]; [|done]. simpl in Ho. rewrite Ho.
    destruct (owned_resource _ _ _ _ HM tid th k) as (v&Hv&_); [done..|].
    assert (size M ≠ 0%nat) by (intros ?%map_size_empty_iff; simplify_map_eq).
    rewrite map_size_delete_Some by eauto. lia.
  - rewrite Hn, map_size_insert_None by done. destruct old as [th|]; simpl in *; [rewrite Ho|]; lia.
Qed.

Lemma borrowed_change_size old th' M M' ths tid :
  ths !! tid = old → owned lease_tag lease_fits ths M →
  change lease_tag lease_fits old th' M M' →
  own_borrowed (pc th') = count_of own_borrowed old ∨ own_lease (pc th') ≠ count_of own_lease old →
  Z.of_nat (size (borrowed_leases M')) =
  Z.of_nat (size (borrowed_leases M)) + own_borrowed (pc th') - count_of own_borrowed old.
Proof.
  intros Hold HM Hch Hside. unfold borrowed_leases.
  assert (Htag : ∀ c, lease_tag c = None → own_borrowed c = 0) by (intros []; done).
  assert (Hreq : ∀ c k, lease_tag c = Some k → ∃ r, lease_request c = Some r)
    by (intros [] ? ?; simplify_eq/=; eauto).
  destruct Hch as [Heq _ ->|k Ho Hn ->|k v Ho Hn Hfr Hfit ->]; unfold own_of in *.
  - destruct Hside as [->|Hne]; [lia|]. exfalso. apply Hne. unfold own_lease, count_of.
    destruct old; simpl in *; by rewrite <-Heq.
  - rewrite (Htag _ Hn). destruct old as [th|]; [|done]. simpl in *.
    destruct (owned_resource _ _ _ _ HM tid th k) as (v&Hv&Hf); [done..|].
    destruct (Hreq _ _ Ho) as [r Hr]. specialize (Hf r Hr). unfold own_borrowed. rewrite Hr, <-Hf.
    rewrite map_filter_delete. destruct (lease_borrowed v) eqn:Hb.
    + assert (filter (λ kv : Z * runtimeLease, lease_borrowed kv.2 = true) M !! k = Some v) as Hk.
      { apply map_lookup_filter_Some. split; [exact Hv|exact Hb]. }
      assert (size (filter (λ kv : Z * runtimeLease, lease_borrowed kv.2 = true) M) ≠ 0%nat)
        by (intros E%map_size_empty_iff; by rewrite E, lookup_empty in Hk).
      rewrite map_size_delete_Some by eauto. lia.
    + rewrite delete_id; [lia|]. apply map_lookup_filter_None. right. intros ? ?. simplify_eq/=.
      congruence.
  - assert (count_of own_borrowed old = 0) as ->
      by (destruct old; simpl in *; [by apply Htag|done]).
    destruct (Hreq _ _ Hn) as [r Hr]. specialize (Hfit r Hr). unfold own_borrowed. rewrite Hr, <-Hfit.
    destruct (lease_borrowed v) eqn:Hb.
    + rewrite map_filter_insert_True by done. rewrite map_size_insert_None; [lia|].
      apply map_lookup_filter_None. by left.
    + rewrite map_filter_insert_not' by (simpl; congruence || naive_solver). lia.
Qed.

Lemma change_range {K V} `{Countable K} own fits (P : K → Prop) old th' (M M' : gmap K V) :
  change own fits old th' M M' →
  (∀ k, is_Some (M !! k) → P k) → (∀ k, own (pc th') = Some k → P k) →
  ∀ k, is_Some (M' !! k) → P k.
Proof.
  intros Hch HM Hnew k Hk.
  destruct Hch as [_ _ ->|k0 _ _ ->|k0 v _ Hn _ _ ->]; [by apply HM| |].
  - apply HM. destruct Hk as [v Hv]. apply lookup_delete_Some in Hv as [_ Hv]. eauto.
  - destruct (decide (k0 = k)) as [<-|]; [by apply Hnew|].
    rewrite lookup_insert_ne in Hk by done. by apply HM.
Qed.

(** One thread moves from [threads s !! tid] to [th']. *)
Record moves (s s' : system) (tid : nat) (th' : thread) : Prop := {
  mv_threads : threads s' = <[tid := th']> (threads s);
  mv_tid : (tid < arrivals s')%nat;
  mv_arrivals : (arrivals s ≤ arrivals s')%nat;
  mv_ticket : lastTicket (queue (lane s')) = Z.of_nat (arrivals s');
  mv_granted : nextRuntimeLease s' = Z.of_nat (granted s');
  mv_granted_le : (granted s ≤ granted s')%nat;
  mv_waiters : change parked_ticket waiter_fits (threads s !! tid) th'
                 (waiters (queue (lane s))) (waiters (queue (lane s')));
  mv_own_ticket : ∀ t, parked_ticket (pc th') = Some t → 0 < t ≤ lastTicket (queue (lane s'));
  mv_leases : change lease_tag lease_fits (threads s !! tid) th'
                (leases (lane s)) (leases (lane s'));
  mv_own_tag : ∀ g, lease_tag (pc th') = Some g → 0 < g ≤ nextRuntimeLease s';
  mv_own_borrowed : own_borrowed (pc th') = count_of own_borrowed (threads s !! tid) ∨
                    own_lease (pc th') ≠ count_of own_lease (threads s !! tid);
  mv_switch : change switch_right (λ _ _, True) (threads s !! tid) th'
                (switch_map (switching (lane s))) (switch_map (switching (lane s')));
  mv_users : users (lane s') =
             users (lane s) + own_lease (pc th') - count_of own_lease (threads s !! tid);
  mv_borrowed : borrowedUsers (lane s') =
    borrowedUsers (lane s) + own_borrowed (pc th') - count_of own_borrowed (threads s !! tid);
  mv_exclusive : switch_right (pc th') = Some tt →
    ∀ g, is_Some (leases (lane s') !! g) → lease_tag (pc th') = Some g;
  mv_no_new_lease : switching (lane s) = true → own_of switch_right (threads s !! tid) = None →
    ∀ g, is_Some (leases (lane s') !! g) → is_Some (leases (lane s) !! g);
  mv_window : 0 ≤ windowTicket (queue (lane s')) ≤ lastTicket (queue (lane s')) + 1
}.

Lemma moves_inv s s' tid th' : lane_inv s → moves s s' tid th' → lane_inv s'.
Proof.
  intros [] []. split; try done.
  - rewrite mv_threads0. intros tid2 H. destruct (decide (tid = tid2)) as [<-|]; [done|].
    rewrite lookup_insert_ne in H by done. specialize (inv_tid0 _ H). lia.
  - rewrite mv_threads0. by eapply owned_change.
  - rewrite mv_threads0. by eapply owned_change.
  - rewrite mv_threads0. by eapply owned_change.
  - eapply change_range; [exact mv_waiters0| |exact mv_own_ticket0].
    intros t Ht. specialize (inv_ticket_range0 _ Ht). lia.
  - eapply change_range; [exact mv_leases0| |exact mv_own_tag0].
    intros t Ht. specialize (inv_tag_range0 _ Ht). lia.
  - rewrite mv_users0, inv_users0. symmetry. by eapply lease_change_size.
  - rewrite mv_borrowed0, inv_borrowed0. symmetry. by eapply borrowed_change_size.
  - rewrite mv_threads0. intros tid2 th2 H2 Hsw g Hg.
    destruct (decide (tid = tid2)) as [<-|Hne].
    { rewrite lookup_insert_eq in H2. simplify_eq. by apply mv_exclusive0. }
    rewrite lookup_insert_ne in H2 by done.
    destruct (owned_resource _ _ _ _ inv_switch0 tid2 th2 tt H2 Hsw) as (u&Hu&_).
    apply (inv_exclusive0 tid2 th2); [done..|]. apply mv_no_new_lease0; [| |done].
    + unfold switch_map in Hu. by destruct (switching (lane s)).
    + destruct (own_of switch_right (threads s !! tid)) as [[]|] eqn:E; [|done].
      unfold own_of in E. destruct (threads s !! tid) as [th|] eqn:Ht; [|done]. simpl in E.
      exfalso. apply Hne. by eapply (owned_unique _ _ _ _ inv_switch0).
Qed.

(** ** Every event preserves the invariant *)

Lemma u64_succ_nat n : Z.of_nat (S n) < u64_modulus → u64_succ (Z.of_nat n) = Z.of_nat (S n).
Proof. intros. rewrite u64_succ_small; lia. Qed.

Lemma lane_inv_take_ticket s :
  lane_inv s → Z.of_nat (S (arrivals s)) < u64_modulus →
  lane_inv (s <| arrivals := S (arrivals s) |> <| lane := (takeTicketLocked (lane s)).1 |>).
Proof.
  intros [] Hw. split; simpl; try done.
  - by rewrite inv_ticket0, u64_succ_nat.
  - intros tid H. specialize (inv_tid0 _ H). lia.
  - intros t Ht. specialize (inv_ticket_range0 _ Ht). rewrite inv_ticket0, u64_succ_nat in * by done.
    lia.
  - rewrite inv_ticket0, u64_succ_nat in * by done. lia.
Qed.

Lemma ticket_fresh s :
  lane_inv s → Z.of_nat (S (arrivals s)) < u64_modulus →
  waiters (queue (lane s)) !! (takeTicketLocked (lane s)).2 = None ∧
  (takeTicketLocked (lane s)).2 = Z.of_nat (S (arrivals s)).
Proof.
  intros [] Hw. simpl. rewrite inv_ticket0, u64_succ_nat by done. split; [|done].
  apply eq_None_not_Some. intros Ht. specialize (inv_ticket_range0 _ Ht). lia.
Qed.

Lemma thread_fresh s tid : lane_inv s → (arrivals s ≤ tid)%nat → threads s !! tid = None.
Proof.
  intros [] H. apply eq_None_not_Some. intros Ht. specialize (inv_tid0 _ Ht). lia.
Qed.

Lemma tag_fresh s :
  lane_inv s → Z.of_nat (S (granted s)) < u64_modulus →
  u64_succ (nextRuntimeLease s) = Z.of_nat (S (granted s)) ∧
  leases (lane s) !! u64_succ (nextRuntimeLease s) = None.
Proof.
  intros [] Hw. rewrite inv_granted0, u64_succ_nat by done. split; [done|].
  apply eq_None_not_Some. intros Ht. specialize (inv_tag_range0 _ Ht). lia.
Qed.

(** With no users there is no lease, and with at most one user only one. *)
Lemma no_users_no_leases s : lane_inv s → users (lane s) ≤ 0 → leases (lane s) = ∅.
Proof. intros [] H. apply map_size_empty_iff. lia. Qed.

Lemma sole_user_sole_lease s tag l :
  lane_inv s → users (lane s) ≤ 1 → leases (lane s) !! tag = Some l →
  leases (lane s) = {[tag := l]}.
Proof.
  intros [] Hu Hl. rewrite <-(insert_delete_id (leases (lane s)) tag l Hl).
  assert (size (delete tag (leases (lane s))) = 0%nat) as ->%map_size_empty_iff; [|done].
  rewrite map_size_delete_Some by eauto. lia.
Qed.

Lemma switch_map_false b : b = false → switch_map b !! tt = None.
Proof. by intros ->. Qed.

(** What an acquiring thread is before a turn: parked with its ticket, or new. *)
Definition acquire_ready (s : system) (tid : nat) (request : configAcquisition) (ticket : Z)
    (queued : bool) : Prop :=
  if queued then ∃ th e, threads s !! tid = Some th ∧ pc th = AcquireParked request ticket e
  else threads s !! tid = None ∧ waiters (queue (lane s)) !! ticket = None.

Lemma acquire_ready_leaves s tid request ticket queued th' W :
  acquire_ready s tid request ticket queued → parked_ticket (pc th') = None →
  W = delete ticket (waiters (queue (lane s))) →
  change parked_ticket waiter_fits (threads s !! tid) th' (waiters (queue (lane s))) W.
Proof.
  intros Hr Hn ->. destruct queued; simpl in Hr.
  - destruct Hr as (th&e&->&Hpc). apply (change_drop ticket); simpl; by rewrite ?Hpc.
  - destruct Hr as [-> Hfr]. apply change_same; simpl; [done|naive_solver|by apply delete_id].
Qed.

Lemma acquire_ready_unleased s tid request ticket queued :
  acquire_ready s tid request ticket queued →
  own_of lease_tag (threads s !! tid) = None ∧
  own_of switch_right (threads s !! tid) = None ∧
  count_of own_lease (threads s !! tid) = 0 ∧ count_of own_borrowed (threads s !! tid) = 0.
Proof.
  destruct queued; simpl; [intros (th&e&->&Hpc)|intros [-> _]]; [|done].
  unfold own_of, count_of, own_lease, own_borrowed; simpl. by rewrite Hpc.
Qed.

Lemma reuseActiveConfigLocked_fields next st ticket request now :
  let reuse := reuseActiveConfigLocked next st ticket request now in
  let st' := reuse_state reuse in
  reuse_tag reuse = u64_succ next ∧
  waiters (queue st') = delete ticket (waiters (queue st)) ∧
  lastTicket (queue st') = lastTicket (queue st) ∧
  windowTicket (queue st') = windowTicket (queue st) ∧
  leases st' = <[u64_succ next := mkLease (req_modelID request) (req_borrowed request) now]> (leases st) ∧
  users st' = users st + 1 ∧
  borrowedUsers st' = borrowedUsers st + (if req_borrowed request then 1 else 0) ∧
  switching st' = switching st.
Proof.
  unfold reuseActiveConfigLocked. autorewrite with lane. simpl.
  split_and!; repeat case_match; done.
Qed.

(** A turn that leaves leases and the switch alone. *)
Lemma acquire_ready_moves s s' tid request ticket queued th' :
  lane_inv s → acquire_ready s tid request ticket queued →
  (tid < arrivals s)%nat →
  threads s' = <[tid := th']> (threads s) →
  arrivals s' = arrivals s → granted s' = granted s → nextRuntimeLease s' = nextRuntimeLease s →
  lastTicket (queue (lane s')) = lastTicket (queue (lane s)) →
  windowTicket (queue (lane s')) = windowTicket (queue (lane s)) →
  leases (lane s') = leases (lane s) → users (lane s') = users (lane s) →
  borrowedUsers (lane s') = borrowedUsers (lane s) →
  lease_tag (pc th') = None →
  change parked_ticket waiter_fits (threads s !! tid) th'
    (waiters (queue (lane s))) (waiters (queue (lane s'))) →
  (∀ t, parked_ticket (pc th') = Some t → 0 < t ≤ lastTicket (queue (lane s))) →
  change switch_right (λ _ _, True) (threads s !! tid) th'
    (switch_map (switching (lane s))) (switch_map (switching (lane s'))) →
  (switch_right (pc th') = Some tt → leases (lane s) = ∅) →
  moves s s' tid th'.
Proof.
  intros Hinv Hr Htid Hth Harr Hgr Hnext Hlast Hwin Hleases Husers Hborrowed Htag Hw Hown Hsw Hex.
  destruct (acquire_ready_unleased _ _ _ _ _ Hr) as (Hl&Hs&Hcl&Hcb).
  assert (own_lease (pc th') = 0) as Hol by (unfold own_lease; by rewrite Htag).
  assert (own_borrowed (pc th') = 0) as Hob by (by destruct (pc th')).
  split; rewrite ?Harr, ?Hgr, ?Hnext, ?Hlast, ?Hwin, ?Hleases, ?Husers, ?Hborrowed, ?Hol, ?Hob,
    ?Hcl, ?Hcb; try done; try lia.
  - by destruct Hinv.
  - by destruct Hinv.
  - apply change_same; [by rewrite Hl, Htag| |done].
    intros th v _ _ r Hrq. by destruct (pc th').
  - by rewrite Htag.
  - intros Hr' g [l Hg]. by rewrite (Hex Hr'), lookup_empty in Hg.
  - by destruct Hinv.
Qed.

Lemma switch_same s tid request ticket queued th' :
  acquire_ready s tid request ticket queued → switch_right (pc th') = None →
  change switch_right (λ _ _, True) (threads s !! tid) th'
    (switch_map (switching (lane s))) (switch_map (switching (lane s))).
Proof.
  intros Hr Hn. destruct (acquire_ready_unleased _ _ _ _ _ Hr) as (_&Hs&_).
  apply change_same; [by rewrite Hs, Hn|done|done].
Qed.

Lemma acquire_turn_inv s tid request ticket queued preemption now :
  lane_inv s → acquire_ready s tid request ticket queued →
  (tid < arrivals s)%nat → 0 < ticket ≤ lastTicket (queue (lane s)) →
  let s' := settleAcquire s tid request ticket
    (acquireTurnLocked (nextRuntimeLease s) (lane s) ticket queued request preemption now) in
  Z.of_nat (granted s') < u64_modulus → lane_inv s'.
Proof.
  intros Hinv Hr Htid Hticket. unfold acquireTurnLocked.
  destruct (satisfied _ _ && _ && _) eqn:Hok.
  { destruct (claimStart preemption) as [p' claimed]. destruct claimed; cbn [negb].
    - (* a lease is handed out *)
      bool_simpl.
      destruct (reuseActiveConfigLocked_fields (nextRuntimeLease s) (lane s) ticket request now)
        as (Htag&Hwt&Hlast&Hwin&Hls&Hu&Hb&Hsw).
      destruct (acquire_ready_unleased _ _ _ _ _ Hr) as (Hl&Hs&Hcl&Hcb).
      revert Htag Hwt Hlast Hwin Hls Hu Hb Hsw.
      generalize (reuseActiveConfigLocked (nextRuntimeLease s) (lane s) ticket request now).
      simpl. intros reuse Htag Hwt Hlast Hwin Hls Hu Hb Hsw Hw.
      destruct (tag_fresh s Hinv Hw) as [Hg Hfr].
      eapply (moves_inv s _ tid (mkThread (Holding request (u64_succ (nextRuntimeLease s))) p'));
        [done|].
      split; simpl; rewrite ?Htag, ?Hwt, ?Hlast, ?Hwin, ?Hls, ?Hu, ?Hb, ?Hsw, ?Hcl, ?Hcb;
        try done; try lia; try (by destruct Hinv).
      + by eapply acquire_ready_leaves.
      + eapply (change_take (u64_succ (nextRuntimeLease s))); [exact Hl|done|done| |done].
        by intros r [= <-].
      + intros g [= <-]. rewrite Hg. lia.
      + right. unfold own_lease; simpl. lia.
      + by eapply switch_same.
      + unfold own_lease; simpl. lia.
      + unfold own_borrowed; simpl. destruct (req_borrowed request); lia.
      + intros Hsw' _ g Hg'. congruence.
    - simpl. intros _. eapply (moves_inv s _ tid (mkThread Finished p')); [done|].
      autorewrite with lane. eapply acquire_ready_moves; simpl; try done.
      + by eapply acquire_ready_leaves.
      + by eapply switch_same. }
  set (st := if queued then lane s else _).
  assert (Hst : st = lane s ∧ queued = true ∨
    st = joinQueueLocked (lane s) ticket (req_satisfier request)
           (mkWaitingRequest (req_modelID request) (req_borrowed request) now) ∧ queued = false)
    by (unfold st; destruct queued; [left|right]; done).
  assert (Hjoin : change parked_ticket waiter_fits (threads s !! tid)
      (mkThread (AcquireParked request ticket (changed st)) preemption)
      (waiters (queue (lane s))) (waiters (queue st))).
  { destruct Hst as [[-> ->]|[-> ->]]; simpl in Hr.
    - destruct Hr as (th&e&->&Hpc). apply change_same; simpl; [by rewrite Hpc| |done].
      intros th0 v [= <-]. unfold waiter_fits. by rewrite Hpc.
    - destruct Hr as [-> Hfr]. by eapply (change_take ticket (mkWaiter (req_satisfier request) _)). }
  destruct (satisfied _ _ || _ || _ || _) eqn:Hwait; simpl; intros _.
  { eapply (moves_inv s _ tid (mkThread (AcquireParked request ticket (changed st)) preemption));
      [done|].
    assert (switching st = switching (lane s)) by (by destruct Hst as [[-> _]|[-> _]]).
    eapply acquire_ready_moves; simpl; try done; try (by destruct Hst as [[-> _]|[-> _]]).
    - by intros ? [= <-].
    - rewrite H. by eapply switch_same. }
  bool_simpl.
  assert (switching (lane s) = false) as Hoff by (by destruct Hst as [[-> _]|[-> _]]).
  assert (users (lane s) ≤ 0) as Hidle by (by destruct Hst as [[-> _]|[-> _]]).
  autorewrite with lane.
  eapply (moves_inv s _ tid (mkThread (AcquireLoading request) preemption)); [done|].
  destruct (acquire_ready_unleased _ _ _ _ _ Hr) as (Hl&Hs&Hcl&Hcb).
  eapply acquire_ready_moves; simpl; try done; try (by destruct Hst as [[-> _]|[-> _]]).
  - eapply acquire_ready_leaves; [exact Hr|done|].
    destruct Hst as [[-> ->]|[-> ->]]; simpl; [done|]. by rewrite delete_insert_eq.
  - rewrite Hoff. by eapply (change_take tt tt).
  - intros _. by apply no_users_no_leases.
Qed.

(** Reloading and unloading threads join the queue before their first turn. *)
Definition enqueued (s : system) (ticket : Z) (queued : bool) : activeConfigState :=
  if queued then lane s else joinQueueLocked (lane s) ticket neverSatisfied emptyWaitingRequest.

Definition reload_ready (s : system) (tid : nat) (th : thread) (request : configAcquisition)
    (tag ticket : Z) (queued : bool) : Prop :=
  threads s !! tid = Some th ∧
  if queued then ∃ e, pc th = ReloadParked request tag ticket e
  else pc th = Holding request tag ∧ waiters (queue (lane s)) !! ticket = None.

Definition unload_ready (s : system) (tid : nat) (check : unloadCheck) (ticket : Z)
    (queued : bool) : Prop :=
  if queued then ∃ th e, threads s !! tid = Some th ∧ pc th = UnloadParked check ticket e
  else threads s !! tid = None ∧ waiters (queue (lane s)) !! ticket = None.

(** A thread that keeps what it holds of the leases and their counters. *)
Lemma same_lease_moves s s' tid th' :
  lane_inv s →
  (tid < arrivals s)%nat →
  threads s' = <[tid := th']> (threads s) →
  arrivals s' = arrivals s → granted s' = granted s → nextRuntimeLease s' = nextRuntimeLease s →
  lastTicket (queue (lane s')) = lastTicket (queue (lane s)) →
  (windowTicket (queue (lane s')) = windowTicket (queue (lane s)) ∨
   windowTicket (queue (lane s')) = u64_succ (lastTicket (queue (lane s)))) →
  leases (lane s') = leases (lane s) → users (lane s') = users (lane s) →
  borrowedUsers (lane s') = borrowedUsers (lane s) →
  (lease_request <$> (pc <$> threads s !! tid)) ≫= id = lease_request (pc th') →
  own_of lease_tag (threads s !! tid) = lease_tag (pc th') →
  change parked_ticket waiter_fits (threads s !! tid) th'
    (waiters (queue (lane s))) (waiters (queue (lane s'))) →
  (∀ t, parked_ticket (pc th') = Some t → 0 < t ≤ lastTicket (queue (lane s))) →
  change switch_right (λ _ _, True) (threads s !! tid) th'
    (switch_map (switching (lane s))) (switch_map (switching (lane s'))) →
  (switch_right (pc th') = Some tt →
    ∀ g, is_Some (leases (lane s) !! g) → lease_tag (pc th') = Some g) →
  moves s s' tid th'.
Proof.
  intros Hinv Htid Hth Harr Hgr Hnext Hlast Hwin Hleases Husers Hborrowed Hreq Htag Hw Hown Hsw Hex.
  assert (own_lease (pc th') = count_of own_lease (threads s !! tid)) as Hol.
  { unfold own_lease, count_of. unfold own_of in Htag. rewrite <-Htag. by destruct (threads s !! tid). }
  assert (own_borrowed (pc th') = count_of own_borrowed (threads s !! tid)) as Hob.
  { unfold own_borrowed, count_of. rewrite <-Hreq. by destruct (threads s !! tid). }
  split; rewrite ?Harr, ?Hgr, ?Hnext, ?Hlast, ?Hleases, ?Husers, ?Hborrowed, ?Hol, ?Hob;
    try done; try lia.
  - by destruct Hinv.
  - by destruct Hinv.
  - apply change_same; [done| |done].
    intros th v Ho Hf r Hr. rewrite Ho in Hreq. simpl in Hreq. apply Hf. by rewrite <-Hr.
  - intros g Hg. rewrite Hg in Htag. unfold own_of in Htag.
    destruct (threads s !! tid) as [th|] eqn:Ht; [|done]. simpl in Htag. destruct Hinv.
    destruct (owned_resource _ _ _ _ inv_leases0 tid th g Ht Htag) as (l&Hl&_). eauto.
  - destruct Hinv. destruct Hwin as [->| ->]; [done|].
    pose proof (u64_succ_range (lastTicket (queue (lane s)))).
    unfold u64_succ in *. pose proof (Z.mod_le (lastTicket (queue (lane s)) + 1) u64_modulus).
    specialize (H0 ltac:(lia) ltac:(done)). lia.
Qed.

Lemma enqueued_leaves s tid th' ticket (queued : bool) old :
  threads s !! tid = old →
  (if queued then own_of parked_ticket old = Some ticket
   else own_of parked_ticket old = None ∧ waiters (queue (lane s)) !! ticket = None) →
  parked_ticket (pc th') = None →
  change parked_ticket waiter_fits old th' (waiters (queue (lane s)))
    (delete ticket (waiters (queue (enqueued s ticket queued)))).
Proof.
  intros Hold Hr Hn. unfold enqueued. destruct queued.
  - by apply (change_drop ticket).
  - destruct Hr as [Ho Hfr]. simpl. rewrite delete_insert_id by done.
    apply change_same; [by rewrite Hn| |done].
    intros th v -> Hf. unfold own_of in Ho. simpl in Ho. unfold waiter_fits in *.
    destruct (pc th), (pc th'); done.
Qed.

Lemma enqueued_parks s tid th' ticket (queued : bool) old :
  threads s !! tid = old →
  (if queued then own_of parked_ticket old = Some ticket
     ∧ (∀ th v, old = Some th → waiter_fits (pc th) v → waiter_fits (pc th') v)
   else own_of parked_ticket old = None ∧ waiters (queue (lane s)) !! ticket = None) →
  parked_ticket (pc th') = Some ticket →
  waiter_fits (pc th') (mkWaiter neverSatisfied emptyWaitingRequest) →
  change parked_ticket waiter_fits old th' (waiters (queue (lane s)))
    (waiters (queue (enqueued s ticket queued))).
Proof.
  intros Hold Hr Hn Hf. unfold enqueued. destruct queued.
  - destruct Hr as [Ho Hfit]. apply change_same; [congruence|exact Hfit|done].
  - destruct Hr as [Ho Hfr]. by eapply change_take.
Qed.

Lemma enqueued_fields s ticket queued :
  let st := enqueued s ticket queued in
  lastTicket (queue st) = lastTicket (queue (lane s)) ∧
  windowTicket (queue st) = windowTicket (queue (lane s)) ∧
  leases st = leases (lane s) ∧ users st = users (lane s) ∧
  borrowedUsers st = borrowedUsers (lane s) ∧ switching st = switching (lane s) ∧
  generation st = generation (lane s) ∧ modelID st = modelID (lane s) ∧
  filename st = filename (lane s).
Proof. by destruct queued. Qed.

Lemma reload_turn_inv s tid th request tag ticket queued :
  lane_inv s → reload_ready s tid th request tag ticket queued →
  (tid < arrivals s)%nat → 0 < ticket ≤ lastTicket (queue (lane s)) →
  lane_inv (settleReload s tid th request tag ticket
              (reloadTurnLocked (enqueued s ticket queued) ticket request)).
Proof.
  intros Hinv [Hth Hr] Htid Hticket. unfold reloadTurnLocked.
  destruct (enqueued_fields s ticket queued) as (Hlast&Hwin&Hls&Hu&Hb&Hsw&_).
  assert (lease_tag (pc th) = Some tag ∧ lease_request (pc th) = Some request ∧
          switch_right (pc th) = None) as (Htag&Hreq&Hright)
    by (destruct queued; [destruct Hr as [e ->]|destruct Hr as [-> _]]; done).
  destruct (switching _ || _) eqn:Hwait; unfold settleReload; cbn [fst snd].
  - eapply (moves_inv s _ tid (th <| pc := ReloadParked request tag ticket
      (changed (enqueued s ticket queued)) |>)); [done|].
    eapply same_lease_moves; simpl; rewrite ?Hth, ?Hlast, ?Hwin, ?Hls, ?Hu, ?Hb, ?Hsw; simpl;
      try done; auto.
    + eapply enqueued_parks; [exact Hth| |done|done].
      destruct queued; unfold own_of; simpl; [destruct Hr as [e Hpc]|destruct Hr as [-> ?]]; [|done].
      rewrite Hpc. split; [done|]. intros ? v [= <-]. by rewrite Hpc.
    + by intros t [= <-].
    + apply change_same; [by unfold own_of; simpl; rewrite Hright|done|done].
  - bool_simpl. autorewrite with lane.
    eapply (moves_inv s _ tid (th <| pc := ReloadLoading request tag |>)); [done|].
    eapply same_lease_moves; simpl; rewrite ?Hth, ?Hlast, ?Hwin, ?Hls, ?Hu, ?Hb; simpl;
      try done; auto.
    + eapply enqueued_leaves; [exact Hth| |done].
      destruct queued; unfold own_of; simpl; [destruct Hr as [e ->]|destruct Hr as [-> ?]]; done.
    + rewrite Hsw in H. rewrite H. apply (change_take tt tt); [|done..].
      unfold own_of; simpl. by rewrite Hright.
    + intros _ g [l Hg].
      destruct (owned_resource _ _ _ _ (inv_leases _ Hinv) tid th tag Hth Htag) as (l'&Hl'&_).
      rewrite Hu in H0. rewrite (sole_user_sole_lease s tag l' Hinv) in Hg by (done || lia).
      apply lookup_singleton_Some in Hg as [-> _]. done.
Qed.

Lemma unload_turn_inv s tid check ticket queued ctxDone :
  lane_inv s → unload_ready s tid check ticket queued →
  (tid < arrivals s)%nat → 0 < ticket ≤ lastTicket (queue (lane s)) →
  lane_inv (settleUnload s tid check ticket
              (claimTurnLocked (enqueued s ticket queued) ticket check ctxDone)).
Proof.
  intros Hinv Hr Htid Hticket.
  destruct (enqueued_fields s ticket queued) as (Hlast&Hwin&Hls&Hu&Hb&Hsw&_).
  assert (Hold : own_of lease_tag (threads s !! tid) = None ∧
    own_of switch_right (threads s !! tid) = None ∧
    (lease_request <$> (pc <$> threads s !! tid)) ≫= id = None ∧
    if queued then own_of parked_ticket (threads s !! tid) = Some ticket ∧
        (∀ th v, threads s !! tid = Some th → waiter_fits (pc th) v → satisfiedBy v = neverSatisfied)
    else own_of parked_ticket (threads s !! tid) = None ∧ waiters (queue (lane s)) !! ticket = None).
  { unfold own_of. destruct queued; simpl in Hr.
    - destruct Hr as (th&e&->&Hpc). simpl. rewrite Hpc. split_and!; try done.
      intros ? v [= <-]. by rewrite Hpc.
    - by destruct Hr as [-> Hfr]. }
  destruct Hold as (Hl&Hs&Hrq&Hq).
  assert (Hleave : ∀ th', parked_ticket (pc th') = None →
    change parked_ticket waiter_fits (threads s !! tid) th' (waiters (queue (lane s)))
      (delete ticket (waiters (queue (enqueued s ticket queued))))).
  { intros th' Hn. eapply enqueued_leaves; [done| |done]. by destruct queued, Hq. }
  assert (Hstay : ∀ th', switch_right (pc th') = None →
    change switch_right (λ _ _, True) (threads s !! tid) th'
      (switch_map (switching (lane s))) (switch_map (switching (lane s)))).
  { intros th' Hn. apply change_same; [by rewrite Hs, Hn|done|done]. }
  unfold claimTurnLocked. destruct (stillUnloadable _ _ _); [|destruct (_ || _ || _) eqn:Hwait].
  - unfold settleUnload; cbn [fst snd]. autorewrite with lane.
    eapply (moves_inv s _ tid (mkThread Finished None)); [done|].
    eapply same_lease_moves; simpl; rewrite ?Hlast, ?Hwin, ?Hls, ?Hu, ?Hb, ?Hsw; auto; done.
  - unfold settleUnload; cbn [fst snd].
    eapply (moves_inv s _ tid (mkThread (UnloadParked check ticket _) None)); [done|].
    eapply same_lease_moves; simpl; rewrite ?Hlast, ?Hwin, ?Hls, ?Hu, ?Hb, ?Hsw; auto; try done.
    + eapply enqueued_parks; [done| |done|done]. destruct queued, Hq; auto.
    + by intros t [= <-].
  - unfold settleUnload; cbn [fst snd]. autorewrite with lane. bool_simpl.
    eapply (moves_inv s _ tid (mkThread Unloading None)); [done|].
    eapply same_lease_moves; simpl; rewrite ?Hlast, ?Hwin, ?Hls, ?Hu, ?Hb; auto; try done.
    + rewrite Hsw in H. rewrite H. by apply (change_take tt tt).
    + intros _ g Hg. rewrite (no_users_no_leases s Hinv) in Hg by lia.
      destruct Hg as [? Hg]. by rewrite lookup_empty in Hg.
Qed.

(** A thread that gives up its parked ticket, or its right to switch. *)
Lemma settle_moves s s' tid th th' :
  lane_inv s → threads s !! tid = Some th →
  threads s' = <[tid := th']> (threads s) →
  arrivals s' = arrivals s → granted s' = granted s → nextRuntimeLease s' = nextRuntimeLease s →
  lastTicket (queue (lane s')) = lastTicket (queue (lane s)) →
  (windowTicket (queue (lane s')) = windowTicket (queue (lane s)) ∨
   windowTicket (queue (lane s')) = u64_succ (lastTicket (queue (lane s)))) →
  leases (lane s') = leases (lane s) → users (lane s') = users (lane s) →
  borrowedUsers (lane s') = borrowedUsers (lane s) →
  lease_request (pc th) = lease_request (pc th') → lease_tag (pc th) = lease_tag (pc th') →
  parked_ticket (pc th') = None → switch_right (pc th') = None →
  waiters (queue (lane s')) =
    match parked_ticket (pc th) with
    | Some t => delete t (waiters (queue (lane s))) | None => waiters (queue (lane s)) end →
  switching (lane s') =
    match switch_right (pc th) with Some _ => false | None => switching (lane s) end →
  lane_inv s'.
Proof.
  intros Hinv Hth Hth' Harr Hgr Hnext Hlast Hwin Hleases Husers Hborrowed Hreq Htag Hp Hs Hw Hsw.
  eapply (moves_inv s s' tid th'); [done|].
  eapply same_lease_moves; rewrite ?Hth; try done.
  - apply Hinv. eauto.
  - rewrite Hw. destruct (parked_ticket (pc th)) as [t|] eqn:Ht.
    + by apply (change_drop t).
    + apply change_same; [unfold own_of; simpl; congruence| |done].
      intros ? v [= <-] Hf. unfold waiter_fits in *. by destruct (pc th), (pc th').
  - by rewrite Hp.
  - rewrite Hsw. destruct (switch_right (pc th)) as [[]|] eqn:Hr.
    + apply (change_drop tt); [done|done|].
      destruct (switching (lane s)); simpl; [by rewrite delete_singleton_eq|by rewrite delete_empty].
    + apply change_same; [unfold own_of; simpl; congruence|done|done].
  - by rewrite Hs.
Qed.

Lemma load_finished_inv s tid th request capture measurement claimed now p :
  lane_inv s → threads s !! tid = Some th → pc th = AcquireLoading request →
  let fin := finishSwitchRuntimeConfig (nextRuntimeLease s) (lane s) request capture measurement
               claimed now in
  Z.of_nat (if claimed then S (granted s) else granted s) < u64_modulus →
  ∀ s',
    lane s' = fin.1.1 → arrivals s' = arrivals s →
    nextRuntimeLease s' = default (nextRuntimeLease s) fin.1.2 →
    granted s' = (match fin.1.2 with Some _ => S (granted s) | None => granted s end) →
    threads s' = <[tid := mkThread
        (match fin.1.2 with Some tag => Holding request tag | None => Finished end) p]> (threads s) →
  lane_inv s'.
Proof.
  intros Hinv Hth Hpc fin Hw s' Hlane Harr Hnext Hgr Hths. unfold fin, finishSwitchRuntimeConfig in *.
  clear fin. autorewrite with lane in *. simpl in *.
  assert (leases (lane s) = ∅) as Hempty.
  { apply map_eq. intros g. rewrite lookup_empty. apply eq_None_not_Some. intros Hg.
    pose proof (inv_exclusive _ Hinv tid th Hth) as Hex. rewrite Hpc in Hex.
    by specialize (Hex eq_refl g Hg). }
  destruct claimed; simpl in *.
  - destruct (tag_fresh s Hinv Hw) as [Hg Hfr].
    eapply (moves_inv s s' tid); [done|].
    split; [exact Hths|..]; rewrite ?Hlane, ?Harr, ?Hnext, ?Hgr, ?Hth; simpl; try done; try lia;
      try (by apply Hinv).
    + by apply change_same; [unfold own_of; simpl; rewrite Hpc|intros ? ? [= <-]; rewrite Hpc|].
    + eapply (change_take (u64_succ (nextRuntimeLease s)));
        [unfold own_of; simpl; by rewrite Hpc|done|done| |done]. by intros r [= <-].
    + intros g [= <-]. lia.
    + right. unfold own_lease; simpl. rewrite Hpc. simpl. lia.
    + apply (change_drop tt); [unfold own_of; simpl; by rewrite Hpc|done|].
      destruct (switching (lane s)); simpl; [by rewrite delete_singleton_eq|by rewrite delete_empty].
    + unfold own_lease; simpl. rewrite Hpc. simpl. lia.
    + unfold own_borrowed; simpl. rewrite Hpc. simpl. lia.
    + unfold own_of; simpl. by rewrite Hpc.
    + pose proof (u64_succ_range (lastTicket (queue (lane s)))).
      unfold u64_succ in *. destruct Hinv.
      pose proof (Z.mod_le (lastTicket (queue (lane s)) + 1) u64_modulus).
      specialize (H0 ltac:(lia) ltac:(done)). lia.
  - eapply (settle_moves s s' tid th (mkThread Finished p)); rewrite ?Hlane, ?Hpc; simpl; eauto.
Qed.

Lemma release_inv s tid th request tag now :
  lane_inv s → threads s !! tid = Some th → pc th = Holding request tag →
  lane_inv (set_pc tid th Finished
    (s <| lane := releaseActiveConfigLease (lane s) tag (req_borrowed request) now |>)).
Proof.
  intros Hinv Hth Hpc.
  destruct (owned_resource _ _ _ _ (inv_leases _ Hinv) tid th tag Hth) as (l&Hl&Hf); [by rewrite Hpc|].
  assert (0 < tag) as Htag by (apply (inv_tag_range _ Hinv tag); eauto).
  assert (0 < size (leases (lane s)))%nat as Hsz.
  { destruct (size (leases (lane s))) eqn:E; [|lia]. apply map_size_empty_iff in E.
    by rewrite E, lookup_empty in Hl. }
  assert (0 < users (lane s)) as Hu by (rewrite (inv_users _ Hinv); lia).
  assert (req_borrowed request = true → 0 < borrowedUsers (lane s)) as Hb.
  { intros Hb. rewrite (inv_borrowed _ Hinv).
    assert (borrowed_leases (leases (lane s)) !! tag = Some l) as Hk.
    { apply map_lookup_filter_Some. split; [done|]. simpl. rewrite (Hf request); [done|].
      by rewrite Hpc. }
    destruct (size (borrowed_leases _)) eqn:E; [|lia]. apply map_size_empty_iff in E.
    by rewrite E, lookup_empty in Hk. }
  rewrite releaseActiveConfigLease_eq by (done || lia).
  eapply (moves_inv s _ tid (th <| pc := Finished |>)); [done|].
  split; simpl; rewrite ?Hth; simpl; try done; try lia; try (by apply Hinv).
  - apply change_same; [unfold own_of; simpl; by rewrite Hpc| |done].
    intros ? v [= <-]. by rewrite Hpc.
  - apply (change_drop tag); [unfold own_of; simpl; by rewrite Hpc|done|done].
  - right. unfold own_lease; simpl. rewrite Hpc. simpl. lia.
  - apply change_same; [unfold own_of; simpl; by rewrite Hpc|done|done].
  - unfold own_lease; simpl. rewrite Hpc. simpl. lia.
  - unfold own_borrowed; simpl. rewrite Hpc. simpl. lia.
  - intros _ _ g [v Hg]. apply lookup_delete_Some in Hg as [_ Hg]. eauto.
Qed.

Lemma preempt_inv s tid th p :
  lane_inv s → threads s !! tid = Some th →
  lane_inv (s <| threads := <[tid := mkThread (pc th) p]> (threads s) |>).
Proof.
  intros Hinv Hth. eapply (moves_inv s _ tid (mkThread (pc th) p)); [done|].
  eapply same_lease_moves; simpl; rewrite ?Hth; try done; auto.
  - apply Hinv. eauto.
  - apply change_same; [done| |done]. by intros ? v [= <-].
  - intros t Ht. apply (inv_ticket_range _ Hinv).
    destruct (owned_resource _ _ _ _ (inv_waiters _ Hinv) tid th t Hth Ht) as (w&Hw&_). eauto.
  - apply change_same; [done|done|done].
  - intros Hr g Hg. by apply (inv_exclusive _ Hinv tid th).
Qed.

Lemma settle_pc_inv s s' tid th next :
  lane_inv s → threads s !! tid = Some th →
  threads s' = <[tid := th <| pc := next |>]> (threads s) →
  arrivals s' = arrivals s → granted s' = granted s → nextRuntimeLease s' = nextRuntimeLease s →
  lastTicket (queue (lane s')) = lastTicket (queue (lane s)) →
  (windowTicket (queue (lane s')) = windowTicket (queue (lane s)) ∨
   windowTicket (queue (lane s')) = u64_succ (lastTicket (queue (lane s)))) →
  leases (lane s') = leases (lane s) → users (lane s') = users (lane s) →
  borrowedUsers (lane s') = borrowedUsers (lane s) →
  lease_request (pc th) = lease_request next → lease_tag (pc th) = lease_tag next →
  parked_ticket next = None → switch_right next = None →
  waiters (queue (lane s')) =
    match parked_ticket (pc th) with
    | Some t => delete t (waiters (queue (lane s))) | None => waiters (queue (lane s)) end →
  switching (lane s') =
    match switch_right (pc th) with Some _ => false | None => switching (lane s) end →
  lane_inv s'.
Proof. intros. by eapply (settle_moves s s' tid th (th <| pc := next |>)). Qed.

Lemma no_wrap_step s s' : step s s' → no_wrap s' → no_wrap s.
Proof.
  intros [ev Hev]. unfold no_wrap.
  assert (arrivals s ≤ arrivals s' ∧ granted s ≤ granted s')%nat; [|lia].
  destruct ev; simpl in Hev.
  all: repeat match goal with
    | H : context [settleAcquire _ _ _ _ ?t] |- _ =>
        destruct t as [[? ?] []]; unfold settleAcquire in H; simpl in H
    | H : context [settleReload _ _ _ _ _ _ ?t] |- _ =>
        destruct t as [? []]; unfold settleReload in H; simpl in H
    | H : context [settleUnload _ _ _ _ ?t] |- _ =>
        destruct t as [? []]; unfold settleUnload in H; simpl in H
    | H : context [finishSwitchRuntimeConfig ?a ?b ?c ?d ?e ?f ?g] |- _ =>
        destruct (finishSwitchRuntimeConfig a b c d e f g) as [[? []] ?]; simpl in H
    | H : context [claimStart ?a] |- _ => destruct (claimStart a); simpl in H
    | H : (_ ← ?o; _) = Some _ |- _ => destruct o; simpl in H; [|done]
    | H : match ?o with _ => _ end = Some _ |- _ => destruct o; simpl in H; try done
    | H : (if ?o then _ else _) = Some _ |- _ => destruct o; simpl in H; try done
    end.
  all: simplify_eq; simpl; lia.
Qed.

(** An arriving thread takes a fresh ticket and a fresh thread identifier. *)
Definition arrived (s : system) : system :=
  s <| arrivals := S (arrivals s) |> <| lane := (takeTicketLocked (lane s)).1 |>.

Lemma arrived_inv s :
  lane_inv s → Z.of_nat (S (arrivals s)) < u64_modulus →
  lane_inv (arrived s) ∧ threads s !! arrivals s = None ∧
  waiters (queue (lane s)) !! (takeTicketLocked (lane s)).2 = None ∧
  0 < (takeTicketLocked (lane s)).2 ≤ lastTicket (queue (lane (arrived s))).
Proof.
  intros Hinv Hw. pose proof (lane_inv_take_ticket s Hinv Hw) as Hinv1.
  destruct (ticket_fresh s Hinv Hw) as [Hfr Hval]. split_and!; [done|by apply thread_fresh|done|lia|].
  pose proof (inv_ticket _ Hinv1) as Hlast. unfold arrived. rewrite Hlast. simpl in *. lia.
Qed.

Lemma lane_inv_step s s' : lane_inv s → step s s' → no_wrap s' → lane_inv s'.
Proof.
  intros Hinv [ev Hev] Hw. pose proof (no_wrap_step s s' (ex_intro _ ev Hev) Hw) as Hw0.
  assert (Htid : ∀ tid th, threads s !! tid = Some th → (tid < arrivals s)%nat)
    by (intros; apply (inv_tid _ Hinv); eauto).
  assert (Hparked : ∀ tid th t, threads s !! tid = Some th → parked_ticket (pc th) = Some t →
    0 < t ≤ lastTicket (queue (lane s))).
  { intros tid th t Hth Ht. apply (inv_ticket_range _ Hinv).
    destruct (owned_resource _ _ _ _ (inv_waiters _ Hinv) tid th t Hth Ht) as (w&Hw'&_). eauto. }
  destruct Hw as [Hwa Hwg].
  destruct ev; cbn [exec] in Hev;
    try (destruct (threads s !! tid) as [th|] eqn:Hth; cbn [mbind option_bind] in Hev; [|done]).
  - (* EvAcquire *)
    apply (inj Some) in Hev.
    assert (arrivals s' = S (arrivals s)) as Harr.
    { subst s'. unfold settleAcquire. by destruct (acquireTurnLocked _ _ _ _ _ _ _) as [[? ?] []]. }
    rewrite Harr in Hwa. destruct (arrived_inv s Hinv Hwa) as (Hinv1&Hnew&Hfr&Hval).
    subst s'. eapply (acquire_turn_inv (arrived s)); [done|done|simpl; lia|done|exact Hwg].
  - (* EvWake *)
    destruct (pc th) as [request ticket epoch| |? ?|request tag ticket epoch|? ?
      |check ticket epoch| |] eqn:Hpc; try done; (destruct (_ <? _)%nat; [|done]);
      apply (inj Some) in Hev; subst s'.
    + eapply acquire_turn_inv; [exact Hinv|by exists th, epoch|by eapply Htid| |exact Hwg].
      eapply Hparked; [exact Hth|by rewrite Hpc].
    + apply (reload_turn_inv s tid th request tag ticket true); [done| |by eapply Htid|].
      * split; [done|]. by exists epoch.
      * eapply Hparked; [exact Hth|by rewrite Hpc].
    + apply (unload_turn_inv s tid check ticket true); [done|by exists th, epoch|by eapply Htid|].
      eapply Hparked; [exact Hth|by rewrite Hpc].
  - (* EvCancel *)
    destruct (pc th) eqn:Hpc; try done; apply (inj Some) in Hev; subst s'; autorewrite with lane;
      (eapply settle_pc_inv; [exact Hinv|exact Hth|..]; rewrite ?Hpc; simpl; eauto).
  - (* EvLoadFailed *)
    destruct (pc th) eqn:Hpc; try done; apply (inj Some) in Hev; subst s';
      unfold abandonRuntimeSwitch, reloadFailed; autorewrite with lane;
      (eapply settle_pc_inv; [exact Hinv|exact Hth|..]; rewrite ?Hpc; simpl; eauto).
  - (* EvLoaded *)
    destruct (pc th) eqn:Hpc; try done.
    + destruct (claimStart (preemption th)) as [p claimed].
      pose proof (load_finished_inv s tid th request capture measurement claimed now p Hinv Hth Hpc)
        as Hfin. simpl in Hfin.
      destruct (finishSwitchRuntimeConfig _ _ _ _ _ _ _) as [[st lease] eff] eqn:Hf.
      apply (inj Some) in Hev. subst s'. apply Hfin; [|done..].
      destruct Hw0 as [_ Hg]. simpl in Hwg. destruct claimed; [|exact Hg].
      unfold finishSwitchRuntimeConfig in Hf. rewrite addRuntimeLeaseLocked_eq in Hf.
      simplify_eq. exact Hwg.
    + apply (inj Some) in Hev; subst s'. unfold reloadSucceeded; autorewrite with lane.
      eapply settle_pc_inv; [exact Hinv|exact Hth|..]; rewrite ?Hpc; simpl; eauto.
  - (* EvRelease *)
    destruct (pc th) eqn:Hpc; try done. apply (inj Some) in Hev; subst s'.
    by apply release_inv.
  - (* EvReload *)
    destruct (pc th) eqn:Hpc; try done. apply (inj Some) in Hev.
    assert (arrivals s' = S (arrivals s)) as Harr.
    { subst s'. unfold settleReload. by destruct (reloadTurnLocked _ _ _) as [? []]. }
    rewrite Harr in Hwa. destruct (arrived_inv s Hinv Hwa) as (Hinv1&Hnew&Hfr&Hval).
    subst s'. apply (reload_turn_inv (arrived s) tid th request tag _ false); [done|done| |done].
    simpl. eapply Nat.lt_trans; [by eapply Htid|lia].
  - (* EvUnload *)
    apply (inj Some) in Hev.
    assert (arrivals s' = S (arrivals s)) as Harr.
    { subst s'. unfold settleUnload. by destruct (claimTurnLocked _ _ _ _) as [? []]. }
    rewrite Harr in Hwa. destruct (arrived_inv s Hinv Hwa) as (Hinv1&Hnew&Hfr&Hval).
    subst s'. apply (unload_turn_inv (arrived s) (arrivals s) check _ false);
      [done|done|simpl; lia|done].
  - (* EvUnloaded *)
    destruct (pc th) eqn:Hpc; try done; apply (inj Some) in Hev; subst s';
      unfold finishRuntimeSwitch; autorewrite with lane;
      (eapply settle_pc_inv; [exact Hinv|exact Hth|..]; rewrite ?Hpc; simpl; eauto).
  - (* EvPreempt *)
    apply (inj Some) in Hev; subst s'. by apply preempt_inv.
Qed.

Lemma lane_inv_reachable s :
  reachable (λ s, s = initialSystem) step s → no_wrap s → lane_inv s.
Proof.
  apply (reachable_invariant (λ s, s = initialSystem) step no_wrap lane_inv).
  - intros *. apply no_wrap_step.
  - intros ? -> _. apply lane_inv_init.
  - intros s0 s' _ Hinv Hstep _ Hw. by eapply lane_inv_step.
Qed.
