(* ===== verification/LaneTheorems.v ===== *)
(** * What the lane guarantees

    The properties of the lane core: who may be handed a lease and who may
    switch, that no lease is ever cut off or served by the wrong model, that an
    idle lane never leaves its waiters asleep, and the two ways in which
    [reloadHeldModelConfig] does. *)

From stdpp Require Import gmap strings list.
From Stdlib Require Import Bool ZArith Lia.
From S2P Require Import Prelude.
From S2P Require Import GoStrings.
From S2P Require Import Lane.
From S2P Require Import LaneProofs.
Open Scope go_scope.
Open Scope Z_scope.

(** ** The ticket queue *)

(** A waiter that only a switch can serve. *)
Definition needs_switch (state : activeConfigState) (ticket : Z) : Prop :=
  ∃ w, waiters (queue state) !! ticket = Some w ∧ satisfied (satisfiedBy w) state = false.

Lemma oldest_spec state :
  match oldestSwitchWaiterLocked state with
  | None => ∀ t, ¬ needs_switch state t
  | Some o => needs_switch state o ∧ ∀ t, needs_switch state t → o ≤ t
  end.
Proof.
  unfold needs_switch, oldestSwitchWaiterLocked.
  apply (map_fold_weak_ind (λ r (M : gmap Z switchWaiter),
    match r with
    | None => ∀ t, ¬ ∃ w, M !! t = Some w ∧ satisfied (satisfiedBy w) state = false
    | Some o => (∃ w, M !! o = Some w ∧ satisfied (satisfiedBy w) state = false) ∧
        ∀ t, (∃ w, M !! t = Some w ∧ satisfied (satisfiedBy w) state = false) → o ≤ t
    end)).
  { intros t (w&Hw&_). by rewrite lookup_empty in Hw. }
  intros k w M r Hk IH. destruct (satisfied (satisfiedBy w) state) eqn:Hsat.
  - assert (Hsame : ∀ t, (∃ w', <[k:=w]> M !! t = Some w' ∧ satisfied (satisfiedBy w') state = false)
      ↔ (∃ w', M !! t = Some w' ∧ satisfied (satisfiedBy w') state = false)).
    { intros t. destruct (decide (k = t)) as [<-|].
      - rewrite lookup_insert_eq, Hk. split; intros (w'&?&?); simplify_eq; congruence.
      - by rewrite lookup_insert_ne. }
    destruct r as [o|]; setoid_rewrite Hsame; exact IH.
  - assert (Hself : ∃ w', <[k:=w]> M !! k = Some w' ∧ satisfied (satisfiedBy w') state = false)
      by (exists w; by rewrite lookup_insert_eq).
    assert (Hother : ∀ t, t ≠ k →
      (∃ w', <[k:=w]> M !! t = Some w' ∧ satisfied (satisfiedBy w') state = false)
      ↔ (∃ w', M !! t = Some w' ∧ satisfied (satisfiedBy w') state = false))
      by (intros; by rewrite lookup_insert_ne).
    destruct r as [o|]; [destruct (Z.ltb_spec k o)|]; (split; [|intros t Ht]).
    + done.
    + destruct (decide (t = k)) as [->|]; [lia|]. apply Hother in Ht; [|done].
      destruct IH as [_ IH]. specialize (IH t Ht). lia.
    + destruct IH as [(w'&Ho&?) _]. exists w'. rewrite lookup_insert_ne; [done|].
      intros ->. congruence.
    + destruct (decide (t = k)) as [->|]; [lia|]. apply Hother in Ht; [|done]. by apply IH.
    + done.
    + destruct (decide (t = k)) as [->|]; [lia|]. apply Hother in Ht; [|done]. by destruct (IH t).
Qed.

(** The two queue questions, read off the waiters. *)
Definition overtakes_nobody (state : activeConfigState) (ticket : Z) : Prop :=
  ticket < windowTicket (queue state) ∨ ∀ t, needs_switch state t → ticket < t.

Definition oldest_in_need (state : activeConfigState) (ticket : Z) : Prop :=
  needs_switch state ticket ∧ ∀ t, needs_switch state t → ticket ≤ t.

Lemma admits_spec state ticket :
  admitsLeaseLocked state ticket = true ↔ overtakes_nobody state ticket.
Proof.
  unfold admitsLeaseLocked, overtakes_nobody. pose proof (oldest_spec state) as Ho.
  destruct (Z.ltb_spec ticket (windowTicket (queue state))); [naive_solver|].
  destruct (oldestSwitchWaiterLocked state) as [o|].
  - destruct Ho as [Hn Hmin]. rewrite Z.ltb_lt. split; [|naive_solver lia].
    intros Hlt. right. intros t Ht. specialize (Hmin t Ht). lia.
  - split; [|done]. intros _. right. intros t Ht. by destruct (Ho t).
Qed.

Lemma may_switch_spec state ticket :
  maySwitchLocked state ticket = true ↔ oldest_in_need state ticket.
Proof.
  unfold maySwitchLocked, oldest_in_need. pose proof (oldest_spec state) as Ho.
  destruct (oldestSwitchWaiterLocked state) as [o|].
  - destruct Ho as [Hn Hmin]. rewrite Z.eqb_eq. split; [intros <-; naive_solver|].
    intros [Hn' Hmin']. specialize (Hmin _ Hn'). specialize (Hmin' _ Hn). lia.
  - split; [done|]. intros [Hn _]. by destruct (Ho ticket).
Qed.

Lemma satisfied_queue sat state q : satisfied sat (state <| queue := q |>) = satisfied sat state.
Proof. by destruct sat. Qed.

Lemma needs_switch_join state ticket request mine t :
  waiters (queue state) !! ticket = None →
  needs_switch (joinQueueLocked state ticket request mine) t ↔
  needs_switch state t ∨ (t = ticket ∧ satisfied request state = false).
Proof.
  intros Hfr. unfold needs_switch, joinQueueLocked. setoid_rewrite satisfied_queue. simpl.
  destruct (decide (t = ticket)) as [->|Hne].
  - rewrite lookup_insert_eq, Hfr. split.
    + intros (w&[= <-]&?). by right.
    + intros [(?&?&_)|[_ ?]]; [done|]. eauto.
  - rewrite lookup_insert_ne by done. naive_solver.
Qed.

(** What a turn of the acquire loop requires of the queue it looks at. *)
Definition turn_ready (state : activeConfigState) (ticket : Z) (queued : bool)
    (request : configAcquisition) : Prop :=
  if queued then ∃ w, waiters (queue state) !! ticket = Some w ∧ satisfiedBy w = req_satisfier request
  else waiters (queue state) !! ticket = None.

Definition turn_allows (state : activeConfigState) (ticket : Z) (request : configAcquisition)
    (preemption : option borrowedPreemption) (outcome : acquireTurn) : Prop :=
  let served := satisfied (req_satisfier request) state in
  match outcome with
  | TurnReused _ => served = true ∧ switching state = false ∧ overtakes_nobody state ticket
                    ∧ wasPreempted preemption = false
  | TurnReturned => served = true ∧ switching state = false ∧ overtakes_nobody state ticket
                    ∧ wasPreempted preemption = true
  | TurnSwitch => served = false ∧ switching state = false ∧ users state ≤ 0
                  ∧ ∀ t, needs_switch state t → ticket ≤ t
  | TurnWait epoch => epoch = changed state ∧
      if served then switching state = true ∨ ¬ overtakes_nobody state ticket
      else switching state = true ∨ 0 < users state ∨ ∃ t, needs_switch state t ∧ t < ticket
  end.

Lemma may_switch_false state ticket :
  needs_switch state ticket → maySwitchLocked state ticket = false →
  ∃ t, needs_switch state t ∧ t < ticket.
Proof.
  intros Hn. unfold maySwitchLocked. pose proof (oldest_spec state) as Ho.
  destruct (oldestSwitchWaiterLocked state) as [o|]; [|by destruct (Ho ticket)].
  destruct Ho as [Hno Hmin]. intros Hne%Z.eqb_neq. exists o. split; [done|].
  specialize (Hmin ticket Hn). lia.
Qed.

(** C1. One turn of the acquire loop grants a lease exactly when the loaded
    model serves the request, no switch is under way and the request overtakes
    no older waiter that needs a switch (or arrived before the last switch
    opened the lease window); it starts a switch exactly when the loaded model
    does not serve it, the runtime is idle and no waiter that needs a switch is
    older; in every other case it waits on the channel of the state it saw. *)
Theorem acquire_turn_spec next state ticket queued request preemption now :
  turn_ready state ticket queued request →
  turn_allows state ticket request preemption
    (acquireTurnLocked next state ticket queued request preemption now).2.
Proof.
  intros Hready. unfold acquireTurnLocked, turn_allows.
  destruct (satisfied (req_satisfier request) state) eqn:Hsat; cbn [andb].
  - destruct (negb (switching state) && admitsLeaseLocked state ticket) eqn:Hok.
    + bool_simpl. rename H0 into Hadmit. apply admits_spec in Hadmit.
      destruct preemption as [[[] []]|]; simpl; auto.
    + set (joined := if queued then state else _).
      assert (satisfied (req_satisfier request) joined = true) as ->
        by (unfold joined; destruct queued; [|unfold joinQueueLocked; rewrite satisfied_queue]; done).
      simpl. split; [by destruct queued|].
      apply andb_false_iff in Hok as [Hok|Hok]; [left; by bool_simpl|right].
      rewrite <-admits_spec. congruence.
  - set (joined := if queued then state else _).
    assert (Hneeds : ∀ t, needs_switch joined t ↔ needs_switch state t ∨ t = ticket).
    { intros t. unfold joined, turn_ready in *. destruct queued.
      - destruct Hready as (w&Hw&Hs). split; [by left|]. intros [?| ->]; [done|].
        exists w. split; [done|]. by rewrite Hs.
      - rewrite needs_switch_join by done. naive_solver. }
    assert (satisfied (req_satisfier request) joined = false ∧ switching joined = switching state ∧
      users joined = users state ∧ changed joined = changed state) as (->&->&->&Hch)
      by (unfold joined; destruct queued; [|unfold joinQueueLocked; rewrite satisfied_queue]; done).
    cbn [orb]. destruct (switching state || (0 <? users state)) eqn:Hbusy.
    { simpl. split; [done|]. apply orb_true_iff in Hbusy as [?|?%Z.ltb_lt]; auto. }
    bool_simpl. destruct (maySwitchLocked joined ticket) eqn:Hmay; simpl.
    + split_and!; try done. apply may_switch_spec in Hmay as [_ Hmin].
      intros t Ht. apply Hmin, Hneeds. by left.
    + split; [done|]. do 2 right. apply may_switch_false in Hmay as (t&Ht&?); [|apply Hneeds; by right].
      exists t. split; [|done]. apply Hneeds in Ht as [?| ->]; [done|lia].
Qed.

(** ** Nobody is cut off *)

(** C2. No switch ever cuts off a lease: whenever a goroutine is loading,
    reloading or unloading the backend, no other goroutine holds a lease on it
    (a reloading one holds its own), and no second one is switching; and the
    user counters of the state are the leases held, in total and on borrowed
    work. *)
Theorem no_lease_cut_off s :
  reachable (λ s, s = initialSystem) step s → no_wrap s →
  (∀ tid th tid' th' tag,
    threads s !! tid = Some th → switch_right (pc th) = Some tt →
    threads s !! tid' = Some th' → lease_tag (pc th') = Some tag → tid' = tid) ∧
  (∀ tid th tid' th',
    threads s !! tid = Some th → switch_right (pc th) = Some tt →
    threads s !! tid' = Some th' → switch_right (pc th') = Some tt → tid' = tid) ∧
  users (lane s) = Z.of_nat (size (leases (lane s))) ∧
  borrowedUsers (lane s) = Z.of_nat (size (borrowed_leases (leases (lane s)))) ∧
  (∀ tag, is_Some (leases (lane s) !! tag) ↔
    ∃ tid th, threads s !! tid = Some th ∧ lease_tag (pc th) = Some tag).
Proof.
  intros Hreach Hw. pose proof (lane_inv_reachable s Hreach Hw) as Hinv.
  pose proof (inv_leases s Hinv) as Hleases.
  split_and!; try (by apply Hinv).
  - intros tid th tid' th' tag Hth Hsw Hth' Htag.
    destruct (owned_resource _ _ _ _ Hleases tid' th' tag Hth' Htag) as (l&Hl&_).
    pose proof (inv_exclusive s Hinv tid th Hth Hsw tag ltac:(eauto)).
    by eapply (owned_unique _ _ _ _ Hleases).
  - intros. by eapply (owned_unique _ _ _ _ (inv_switch s Hinv)).
  - intros tag. split.
    + intros [l Hl]. destruct (owned_thread _ _ _ _ Hleases tag l Hl) as (tid&th&?&?&_). eauto.
    + intros (tid&th&Hth&Htag).
      destruct (owned_resource _ _ _ _ Hleases tid th tag Hth Htag) as (l&Hl&_). eauto.
Qed.

(** ** Nobody sleeps through a wake-up, as long as the lane is idle *)

(** Whether the guard of a parked thread's loop keeps it waiting. *)
Definition turn_waits (state : activeConfigState) (c : programCounter) : bool :=
  match c with
  | AcquireParked request ticket _ =>
      if satisfied (req_satisfier request) state
      then switching state || negb (admitsLeaseLocked state ticket)
      else switching state || (0 <? users state) || negb (maySwitchLocked state ticket)
  | ReloadParked _ _ _ _ => switching state || (1 <? users state)
  | UnloadParked check ticket _ =>
      bool_decide (stillUnloadable check false state = None)
      && (switching state || (0 <? users state) || negb (maySwitchLocked state ticket))
  | _ => false
  end.

Definition idle (state : activeConfigState) : Prop := users state = 0 ∧ switching state = false.

Definition sleeps_soundly (state : activeConfigState) (c : programCounter) : Prop :=
  ∀ e, parked_epoch c = Some e →
    (e ≤ changed state)%nat ∧ (e = changed state → idle state → turn_waits state c = true).

Definition sleep_inv (s : system) : Prop :=
  ∀ tid th, threads s !! tid = Some th → sleeps_soundly (lane s) (pc th).

Lemma sleep_step s s' tid th' :
  sleep_inv s → threads s' = <[tid := th']> (threads s) →
  (changed (lane s) ≤ changed (lane s'))%nat →
  (changed (lane s') = changed (lane s) → idle (lane s') → idle (lane s) ∧
    ∀ tid2 th2, threads s !! tid2 = Some th2 → turn_waits (lane s) (pc th2) = true →
      turn_waits (lane s') (pc th2) = true) →
  sleeps_soundly (lane s') (pc th') →
  sleep_inv s'.
Proof.
  intros Hs Hth Hle Hsame Hown tid2 th2 H2. rewrite Hth in H2.
  destruct (decide (tid = tid2)) as [<-|]; [rewrite lookup_insert_eq in H2; by simplify_eq|].
  rewrite lookup_insert_ne in H2 by done. intros e He. destruct (Hs tid2 th2 H2 e He) as [Hee Hw].
  split; [lia|]. intros -> Hidle. assert (changed (lane s') = changed (lane s)) as Heq by lia.
  destruct (Hsame Heq Hidle) as [Hidle' Hmono]. eapply Hmono; [exact H2|]. by apply Hw.
Qed.

(** A step that wakes everybody, or leaves the lane busy. *)
Lemma sleep_step_busy s s' tid th' :
  sleep_inv s → threads s' = <[tid := th']> (threads s) →
  (changed (lane s) ≤ changed (lane s'))%nat →
  (changed (lane s') = changed (lane s) → ¬ idle (lane s')) →
  parked_epoch (pc th') = None ∨ ¬ idle (lane s') ∧ parked_epoch (pc th') = Some (changed (lane s')) →
  sleep_inv s'.
Proof.
  intros Hs Hth Hle Hbusy Hp. eapply (sleep_step s s'); [done..|naive_solver|].
  intros e He. destruct Hp as [Hp|[Hi Hp]]; [congruence|]. simplify_eq. by split.
Qed.

Lemma turn_waits_join state ticket request mine c :
  waiters (queue state) !! ticket = None →
  (∀ t, parked_ticket c = Some t → t < ticket) →
  turn_waits state c = true → turn_waits (joinQueueLocked state ticket request mine) c = true.
Proof.
  intros Hfr Hlt. set (joined := joinQueueLocked state ticket request mine).
  assert (Hadmit : ∀ t, parked_ticket c = Some t →
    negb (admitsLeaseLocked state t) = true → negb (admitsLeaseLocked joined t) = true).
  { intros t Ht. rewrite !negb_true_iff, <-!not_true_iff_false, !admits_spec. intros Hn Hj. apply Hn.
    destruct Hj as [Hj|Hj]; [by left|right]. intros t' Ht'. apply Hj.
    unfold joined. rewrite needs_switch_join by done. by left. }
  assert (Hmay : ∀ t, parked_ticket c = Some t →
    negb (maySwitchLocked state t) = true → negb (maySwitchLocked joined t) = true).
  { intros t Ht. rewrite !negb_true_iff, <-!not_true_iff_false, !may_switch_spec. intros Hn [Hj Hmin].
    apply Hn. unfold joined in *. split.
    - rewrite needs_switch_join in Hj by done. specialize (Hlt t Ht).
      destruct Hj as [?|[-> _]]; [done|lia].
    - intros t' Ht'. apply Hmin. rewrite needs_switch_join by done. by left. }
  assert (satisfied_same : ∀ sat, satisfied sat joined = satisfied sat state)
    by (intros; apply satisfied_queue).
  assert (switching joined = switching state ∧ users joined = users state ∧
    ∀ check, stillUnloadable check false joined = stillUnloadable check false state)
    as (Hsw&Hus&Hun) by (by split_and!; [..|intros []]).
  clearbody joined. destruct c; cbn [turn_waits parked_ticket] in *;
    rewrite ?Hsw, ?Hus, ?Hun; try done.
  - rewrite satisfied_same. specialize (Hadmit _ eq_refl). specialize (Hmay _ eq_refl).
    destruct (satisfied _ _); rewrite !orb_true_iff.
    + intros [?|?]; auto.
    + intros [[?|?]|?]; auto.
  - specialize (Hmay _ eq_refl). rewrite !andb_true_iff, !orb_true_iff.
    intros [? [[?|?]|?]]; auto.
Qed.

Lemma sleep_take_ticket s : sleep_inv s → sleep_inv (arrived s).
Proof.
  intros Hs tid th Hth e He. destruct (Hs tid th Hth e He) as [Hle Hw].
  split; [exact Hle|]. intros -> Hidle. specialize (Hw eq_refl Hidle).
  destruct (pc th); simpl in *; try done; by rewrite satisfied_queue.
Qed.

Lemma parked_acquire_waits state ticket (queued : bool) request now epoch :
  turn_ready state ticket queued request →
  let joined := if queued then state
                else joinQueueLocked state ticket (req_satisfier request)
                       (mkWaitingRequest (req_modelID request) (req_borrowed request) now) in
  satisfied (req_satisfier request) state && negb (switching state)
    && admitsLeaseLocked state ticket = false →
  satisfied (req_satisfier request) joined || switching joined || (0 <? users joined)
    || negb (maySwitchLocked joined ticket) = true →
  turn_waits joined (AcquireParked request ticket epoch) = true.
Proof.
  intros Hready joined Hno Hwait. cbn [turn_waits].
  assert (satisfied (req_satisfier request) joined = satisfied (req_satisfier request) state ∧
    switching joined = switching state) as [Hsat Hsw]
    by (unfold joined; destruct queued; [|unfold joinQueueLocked; rewrite satisfied_queue]; done).
  rewrite Hsat in *. destruct (satisfied (req_satisfier request) state) eqn:Hs; [|exact Hwait].
  rewrite Hsw. destruct (switching state); [done|]. cbn [andb negb orb] in *. apply negb_true_iff.
  rewrite <-Hno. apply eq_true_iff_eq. rewrite !admits_spec. unfold overtakes_nobody.
  unfold joined, turn_ready in *. destruct queued; [done|].
  setoid_rewrite needs_switch_join; [|done..]. rewrite Hs. naive_solver.
Qed.

Lemma not_idle_switching state : switching state = true → ¬ idle state.
Proof. intros H [_ H']. congruence. Qed.

Lemma not_idle_users state : 0 < users state → ¬ idle state.
Proof. intros H [H' _]. lia. Qed.

Lemma acquire_ready_turn s tid request ticket queued :
  lane_inv s → acquire_ready s tid request ticket queued →
  turn_ready (lane s) ticket queued request.
Proof.
  intros Hinv Hr. destruct queued; simpl in *; [|by destruct Hr].
  destruct Hr as (th&e&Hth&Hpc).
  destruct (owned_resource _ _ _ _ (inv_waiters s Hinv) tid th ticket Hth) as (w&Hw&Hf);
    [by rewrite Hpc|]. exists w. split; [done|]. unfold waiter_fits in Hf. by rewrite Hpc in Hf.
Qed.

Definition newest (s : system) (ticket : Z) : Prop :=
  ∀ t, is_Some (waiters (queue (lane s)) !! t) → t < ticket.

Lemma newest_parked s ticket tid th t :
  lane_inv s → newest s ticket → threads s !! tid = Some th → parked_ticket (pc th) = Some t →
  t < ticket.
Proof.
  intros Hinv Hnew Hth Ht. apply Hnew.
  destruct (owned_resource _ _ _ _ (inv_waiters s Hinv) tid th t Hth Ht) as (w&?&_). eauto.
Qed.

Lemma reuse_changed next st ticket request now :
  (changed st ≤ changed (reuse_state (reuseActiveConfigLocked next st ticket request now)))%nat.
Proof.
  unfold reuseActiveConfigLocked. autorewrite with lane. simpl.
  destruct (waiters (queue st) !! ticket); case_match; simpl; lia.
Qed.

Lemma acquire_turn_sleep s tid request ticket queued preemption now :
  lane_inv s → sleep_inv s → acquire_ready s tid request ticket queued →
  (queued = false → newest s ticket) →
  sleep_inv (settleAcquire s tid request ticket
    (acquireTurnLocked (nextRuntimeLease s) (lane s) ticket queued request preemption now)).
Proof.
  intros Hinv Hs Hr Hnew. pose proof (acquire_ready_turn _ _ _ _ _ Hinv Hr) as Hready.
  pose proof (inv_users s Hinv) as Husers.
  unfold acquireTurnLocked. destruct (satisfied _ _ && _ && _) eqn:Hok.
  { destruct (claimStart preemption) as [p' claimed]. destruct claimed; cbn [negb].
    - destruct (reuseActiveConfigLocked_fields (nextRuntimeLease s) (lane s) ticket request now)
        as (_&_&_&_&_&Hu&_).
      pose proof (reuse_changed (nextRuntimeLease s) (lane s) ticket request now) as Hch.
      revert Hu Hch. generalize (reuseActiveConfigLocked (nextRuntimeLease s) (lane s) ticket request now).
      unfold settleAcquire. intros reuse Hu Hch.
      eapply sleep_step_busy; [exact Hs|reflexivity|exact Hch| |by left].
      intros _. apply not_idle_users. simpl. lia.
    - unfold settleAcquire. destruct queued.
      + destruct Hready as (w&Hw&_).
        eapply sleep_step_busy; [exact Hs|reflexivity|..]; simpl; autorewrite with lane; simpl;
          rewrite ?Hw; [lia|intros ?; lia|by left].
      + unfold turn_ready in Hready.
        eapply sleep_step; [exact Hs|reflexivity|..]; simpl; unfold leaveQueueLocked;
          rewrite Hready; [done|done|by intros ?]. }
  pose proof (parked_acquire_waits (lane s) ticket queued request now) as Hparks. simpl in Hparks.
  set (joined := if queued then lane s else _) in *.
  destruct (satisfied _ joined || _ || _ || _) eqn:Hwait; unfold settleAcquire.
  - eapply sleep_step; [exact Hs|reflexivity|..]; simpl.
    + unfold joined. by destruct queued.
    + intros _ Hidle. unfold joined in *. destruct queued; [done|]. split; [exact Hidle|].
      intros tid2 th2 H2. apply turn_waits_join; [exact Hready|].
      intros t Ht. eapply newest_parked; eauto.
    + intros e [= <-]. split; [done|]. intros _ _. by apply Hparks.
  - autorewrite with lane. simpl.
    eapply sleep_step_busy; [exact Hs|reflexivity|..]; simpl; [|intros _|by left].
    + unfold joined. destruct queued; simpl; split_match; lia.
    + by apply not_idle_switching.
Qed.

Lemma changed_enqueued s ticket queued : changed (enqueued s ticket queued) = changed (lane s).
Proof. by destruct queued. Qed.

Lemma reload_turn_sleep s tid th request tag ticket queued :
  lane_inv s → sleep_inv s → reload_ready s tid th request tag ticket queued →
  sleep_inv (settleReload s tid th request tag ticket
               (reloadTurnLocked (enqueued s ticket queued) ticket request)).
Proof.
  intros Hinv Hs [Hth Hr]. unfold reloadTurnLocked.
  assert (lease_tag (pc th) = Some tag) as Htag
    by (destruct queued; [destruct Hr as [e ->]|destruct Hr as [-> _]]; done).
  assert (0 < users (lane s)) as Hbusy.
  { destruct (owned_resource _ _ _ _ (inv_leases s Hinv) tid th tag Hth Htag) as (l&Hl&_).
    rewrite (inv_users s Hinv). destruct (size (leases (lane s))) eqn:E; [|lia].
    apply map_size_empty_iff in E. by rewrite E, lookup_empty in Hl. }
  assert (0 < users (enqueued s ticket queued)) as Hbusy' by (by destruct queued).
  destruct (switching _ || _); unfold settleReload, set_pc; cbn [fst snd].
  - eapply sleep_step_busy; [exact Hs|reflexivity|..]; simpl; rewrite ?changed_enqueued; [done| |].
    + intros _. by apply not_idle_users.
    + right. split; [by apply not_idle_users|done].
  - autorewrite with lane. eapply sleep_step_busy; [exact Hs|reflexivity|..]; simpl;
      rewrite ?changed_enqueued; [split_match; lia| |by left].
    intros _. by apply not_idle_switching.
Qed.

Lemma stillUnloadable_done check ctxDone state :
  stillUnloadable check ctxDone state = None → stillUnloadable check false state = None.
Proof. by destruct check, ctxDone; simpl; repeat case_match. Qed.

Lemma unload_turn_sleep s tid check ticket queued ctxDone :
  lane_inv s → sleep_inv s → unload_ready s tid check ticket queued →
  (queued = false → newest s ticket) →
  sleep_inv (settleUnload s tid check ticket
               (claimTurnLocked (enqueued s ticket queued) ticket check ctxDone)).
Proof.
  intros Hinv Hs Hr Hnew.
  assert (is_Some (waiters (queue (enqueued s ticket queued)) !! ticket)) as [w Hw].
  { destruct queued; simpl; [|rewrite lookup_insert_eq; eauto].
    destruct Hr as (th&e&Hth&Hpc).
    destruct (owned_resource _ _ _ _ (inv_waiters s Hinv) tid th ticket Hth) as (w&Hw&_);
      [by rewrite Hpc|eauto]. }
  unfold claimTurnLocked. destruct (stillUnloadable _ _ _) eqn:Hun;
    [|destruct (_ || _ || _) eqn:Hwait]; unfold settleUnload; cbn [fst snd]; autorewrite with lane.
  - eapply sleep_step_busy; [exact Hs|reflexivity|..]; simpl; rewrite ?Hw, ?changed_enqueued;
      [lia|intros ?; lia|by left].
  - eapply sleep_step; [exact Hs|reflexivity|..]; simpl; rewrite ?changed_enqueued; [done| |].
    + intros _ Hidle. destruct queued; [done|]. split; [exact Hidle|].
      destruct Hr as [_ Hfr]. intros tid2 th2 H2. apply turn_waits_join; [exact Hfr|].
      intros t Ht. eapply newest_parked; eauto.
    + intros e [= <-]. rewrite changed_enqueued. split; [done|]. intros _ _. cbn [turn_waits].
      rewrite Hwait, bool_decide_eq_true_2; [done|]. by eapply stillUnloadable_done.
  - eapply sleep_step_busy; [exact Hs|reflexivity|..]; simpl; rewrite ?Hw, ?changed_enqueued;
      [lia|intros ?; lia|by left].
Qed.

Lemma sleep_step_wakes s s' tid th' :
  sleep_inv s → threads s' = <[tid := th']> (threads s) →
  (changed (lane s) < changed (lane s'))%nat → parked_epoch (pc th') = None → sleep_inv s'.
Proof. intros. eapply sleep_step_busy; eauto; [lia|intros ?; lia]. Qed.

Lemma newest_arrived s :
  lane_inv s → Z.of_nat (S (arrivals s)) < u64_modulus →
  newest (arrived s) (takeTicketLocked (lane s)).2.
Proof.
  intros Hinv Hw t Ht. destruct (ticket_fresh s Hinv Hw) as [_ ->].
  pose proof (inv_ticket_range s Hinv t Ht). rewrite (inv_ticket s Hinv) in *. lia.
Qed.

Lemma sleep_cancel s tid th t :
  lane_inv s → sleep_inv s → threads s !! tid = Some th → parked_ticket (pc th) = Some t →
  ∀ next, parked_epoch next = None →
  sleep_inv (set_pc tid th next (s <| lane := leaveQueueLocked (lane s) t |>)).
Proof.
  intros Hinv Hs Hth Ht next Hn.
  destruct (owned_resource _ _ _ _ (inv_waiters s Hinv) tid th t Hth Ht) as (w&Hw&_).
  eapply sleep_step_wakes; [exact Hs|reflexivity| |exact Hn].
  autorewrite with lane. simpl. rewrite Hw. lia.
Qed.

Lemma release_sleep s tid th request tag now :
  lane_inv s → sleep_inv s → threads s !! tid = Some th → pc th = Holding request tag →
  sleep_inv (set_pc tid th Finished
    (s <| lane := releaseActiveConfigLease (lane s) tag (req_borrowed request) now |>)).
Proof.
  intros Hinv Hs Hth Hpc. unfold releaseActiveConfigLease, releaseActiveConfigUserLocked.
  assert (0 < users (lane s)) as Hu.
  { destruct (owned_resource _ _ _ _ (inv_leases s Hinv) tid th tag Hth) as (l&Hl&_);
      [by rewrite Hpc|].
    rewrite (inv_users s Hinv). destruct (size (leases (lane s))) eqn:E; [|lia].
    apply map_size_empty_iff in E. by rewrite E, lookup_empty in Hl. }
  apply Z.ltb_lt in Hu.
  eapply sleep_step_busy; [exact Hs|reflexivity|..|by left].
  - destruct (tag =? 0), (req_borrowed request); simpl; rewrite Hu; simpl;
      repeat (split_match; simpl); lia.
  - destruct (tag =? 0), (req_borrowed request); simpl; rewrite Hu; simpl;
      repeat (split_match; simpl); simplify_eq/=; try lia;
      intros _ [Hz _]; simpl in Hz; rewrite Hz in *; done.
Qed.

Lemma sleep_inv_step s s' :
  lane_inv s → sleep_inv s → step s s' → no_wrap s' → sleep_inv s'.
Proof.
  intros Hinv Hs Hstep Hw. destruct Hstep as [ev Hev]. destruct Hw as [Hwa _].
  destruct ev; cbn [exec] in Hev;
    try (destruct (threads s !! tid) as [th|] eqn:Hth; cbn [mbind option_bind] in Hev; [|done]).
  - apply (inj Some) in Hev.
    assert (arrivals s' = S (arrivals s)) as Harr.
    { subst s'. unfold settleAcquire. by destruct (acquireTurnLocked _ _ _ _ _ _ _) as [[? ?] []]. }
    rewrite Harr in Hwa. destruct (arrived_inv s Hinv Hwa) as (Hinv1&Hnew&Hfr&_).
    subst s'. apply (acquire_turn_sleep (arrived s)); [done|by apply sleep_take_ticket|done|].
    intros _. by apply newest_arrived.
  - destruct (pc th) eqn:Hpc; try done; (destruct (_ <? _)%nat; [|done]);
      apply (inj Some) in Hev; subst s'.
    + by apply acquire_turn_sleep; [..|exists th, epoch|].
    + apply (reload_turn_sleep s tid th request tag ticket true); [done..|].
      split; [done|by exists epoch].
    + by apply (unload_turn_sleep s tid check ticket true); [..|exists th, epoch|].
  - destruct (pc th) eqn:Hpc; try done; apply (inj Some) in Hev; subst s';
      (eapply sleep_cancel; [done|done|exact Hth|by rewrite Hpc|done]).
  - destruct (pc th) eqn:Hpc; try done; apply (inj Some) in Hev; subst s';
      unfold abandonRuntimeSwitch, reloadFailed; autorewrite with lane;
      (eapply sleep_step_wakes; [exact Hs|reflexivity|simpl; lia|done]).
  - destruct (pc th) eqn:Hpc; try done.
    + destruct (claimStart (preemption th)) as [p claimed].
      destruct (finishSwitchRuntimeConfig _ _ _ _ _ _ _) as [[st lease] eff] eqn:Hf.
      apply (inj Some) in Hev. subst s'.
      eapply sleep_step_wakes; [exact Hs|reflexivity| |by destruct lease].
      unfold finishSwitchRuntimeConfig in Hf. autorewrite with lane in Hf.
      destruct claimed; simplify_eq/=; lia.
    + apply (inj Some) in Hev; subst s'. unfold reloadSucceeded; autorewrite with lane.
      eapply sleep_step_wakes; [exact Hs|reflexivity|simpl; lia|done].
  - destruct (pc th) eqn:Hpc; try done. apply (inj Some) in Hev; subst s'.
    by apply release_sleep.
  - destruct (pc th) eqn:Hpc; try done. apply (inj Some) in Hev.
    assert (arrivals s' = S (arrivals s)) as Harr.
    { subst s'. unfold settleReload. by destruct (reloadTurnLocked _ _ _) as [? []]. }
    rewrite Harr in Hwa. destruct (arrived_inv s Hinv Hwa) as (Hinv1&Hnew&Hfr&_).
    subst s'. apply (reload_turn_sleep (arrived s) tid th request tag _ false);
      [done|by apply sleep_take_ticket|by split].
  - apply (inj Some) in Hev.
    assert (arrivals s' = S (arrivals s)) as Harr.
    { subst s'. unfold settleUnload. by destruct (claimTurnLocked _ _ _ _) as [? []]. }
    rewrite Harr in Hwa. destruct (arrived_inv s Hinv Hwa) as (Hinv1&Hnew&Hfr&_).
    subst s'. apply (unload_turn_sleep (arrived s) (arrivals s) check _ false);
      [done|by apply sleep_take_ticket|done|]. intros _. by apply newest_arrived.
  - destruct (pc th) eqn:Hpc; try done; apply (inj Some) in Hev; subst s';
      unfold finishRuntimeSwitch; autorewrite with lane;
      (eapply sleep_step_wakes; [exact Hs|reflexivity|simpl; lia|done]).
  - apply (inj Some) in Hev; subst s'.
    eapply sleep_step; [exact Hs|reflexivity|done|done|]. by apply (Hs tid th).
Qed.

Lemma sleep_inv_reachable s :
  reachable (λ s, s = initialSystem) step s → no_wrap s → lane_inv s ∧ sleep_inv s.
Proof.
  apply (reachable_invariant (λ s, s = initialSystem) step no_wrap (λ s, lane_inv s ∧ sleep_inv s)).
  - intros *. apply no_wrap_step.
  - intros ? -> _. split; [apply lane_inv_init|]. intros tid th H. simpl in H. by rewrite lookup_empty in H.
  - intros s0 s' _ [Hinv Hs] Hstep _ Hw. split; [by eapply lane_inv_step|by eapply sleep_inv_step].
Qed.

Lemma awake_turn_proceeds state next c tid s th ctxDone now :
  lane_inv s → threads s !! tid = Some th → pc th = c → lane s = state → nextRuntimeLease s = next →
  turn_waits state c = false → (∃ e, parked_epoch c = Some e ∧ (e < changed state)%nat) →
  ∃ s' th', exec (EvWake tid ctxDone now) s = Some s' ∧ threads s' !! tid = Some th' ∧
    parked_epoch (pc th') = None.
Proof.
  intros Hinv Hth Hpc <- <- Hno (e&He&Hlt). cbn [exec]. rewrite Hth. cbn [mbind option_bind].
  rewrite Hpc. apply Nat.ltb_lt in Hlt. destruct c; simplify_eq/=; rewrite Hlt.
  - assert (turn_allows (lane s) ticket request (preemption th)
      (acquireTurnLocked (nextRuntimeLease s) (lane s) ticket true request (preemption th) now).2)
      as Hspec.
    { apply acquire_turn_spec. apply (acquire_ready_turn s tid request ticket true Hinv).
      by exists th, e. }
    destruct (acquireTurnLocked _ _ _ _ _ _ _) as [[st p] []]; cbn [snd turn_allows] in Hspec;
      unfold settleAcquire.
    1,2,4: do 2 eexists; split_and!; [done|simpl; by rewrite lookup_insert_eq|done].
    exfalso. destruct Hspec as [_ Hspec]. change (turn_waits (lane s) (AcquireParked request ticket e) = false) in Hno.
    cbn [turn_waits] in Hno. destruct (satisfied _ _).
    + bool_simpl. destruct Hspec as [?|Hn]; [congruence|]. apply Hn. by apply admits_spec.
    + bool_simpl. destruct Hspec as [?|[?|(t&Ht&?)]]; [congruence|lia|].
      apply may_switch_spec in H0 as [_ Hmin]. specialize (Hmin t Ht). lia.
  - unfold settleReload, reloadTurnLocked. rewrite Hno. cbn [snd].
    do 2 eexists; split_and!; [done|simpl; by rewrite lookup_insert_eq|done].
  - unfold settleUnload, claimTurnLocked.
    destruct (stillUnloadable check ctxDone (lane s)) eqn:Hun; cbn [snd].
    { do 2 eexists; split_and!; [done|simpl; by rewrite lookup_insert_eq|done]. }
    apply stillUnloadable_done in Hun. rewrite bool_decide_eq_true_2 in Hno by done. simpl in Hno.
    rewrite Hno. cbn [snd]. do 2 eexists; split_and!; [done|simpl; by rewrite lookup_insert_eq|done].
Qed.

(** The waiter an idle lane can serve: the oldest one in need of a switch, or
    any waiter when there is none. *)
Lemma idle_waiter_served s :
  lane_inv s → idle (lane s) → waiters (queue (lane s)) ≠ ∅ →
  ∃ tid th, threads s !! tid = Some th ∧ is_Some (parked_epoch (pc th)) ∧
    turn_waits (lane s) (pc th) = false.
Proof.
  intros Hinv [Hu Hsw] Hne. pose proof (oldest_spec (lane s)) as Ho.
  assert (∃ t w, waiters (queue (lane s)) !! t = Some w ∧
    if satisfied (satisfiedBy w) (lane s) then admitsLeaseLocked (lane s) t = true
    else maySwitchLocked (lane s) t = true) as (t&w&Hw&Hserve).
  { unfold admitsLeaseLocked, maySwitchLocked.
    destruct (oldestSwitchWaiterLocked (lane s)) as [o|].
    - destruct Ho as [(w&Hw&Hn) _]. exists o, w. split; [done|]. rewrite Hn. apply Z.eqb_refl.
    - apply map_choose in Hne as (t&w&Hw). exists t, w. split; [done|].
      destruct (satisfied (satisfiedBy w) (lane s)) eqn:E; [by case_match|].
      by destruct (Ho t); exists w. }
  destruct (owned_thread _ _ _ _ (inv_waiters s Hinv) t w Hw) as (tid&th&Hth&Ht&Hf).
  exists tid, th. split; [done|]. unfold waiter_fits in Hf.
  destruct (pc th) eqn:Hpc; simplify_eq/=; (split; [eauto|]).
  - change (turn_waits (lane s) (AcquireParked request t epoch) = false). cbn [turn_waits].
    rewrite Hf in Hserve. destruct (satisfied _ _); rewrite Hserve, Hsw; [done|]. by rewrite Hu.
  - exfalso. destruct (owned_resource _ _ _ _ (inv_leases s Hinv) tid th tag Hth) as (l&Hl&_);
      [by rewrite Hpc|]. rewrite (no_users_no_leases s Hinv) in Hl by lia.
    by rewrite lookup_empty in Hl.
  - rewrite Hf in Hserve. simpl in Hserve. rewrite Hserve, Hsw, Hu. simpl. apply andb_false_r.
Qed.

(** C3. No lost wake-up on an idle lane: when nobody uses the runtime, no switch
    is under way and somebody waits, then some waiting goroutine has been woken
    and, whenever it runs, takes its lease, starts its switch or gives up,
    rather than parking again. *)
Theorem idle_lane_progress s ctxDone now :
  reachable (λ s, s = initialSystem) step s → no_wrap s →
  users (lane s) = 0 → switching (lane s) = false → waiters (queue (lane s)) ≠ ∅ →
  ∃ tid s' th', exec (EvWake tid ctxDone now) s = Some s' ∧ threads s' !! tid = Some th' ∧
    parked_epoch (pc th') = None.
Proof.
  intros Hreach Hw Hu Hsw Hne. destruct (sleep_inv_reachable s Hreach Hw) as [Hinv Hs].
  destruct (idle_waiter_served s Hinv) as (tid&th&Hth&[e He]&Hno); [by split|done|].
  exists tid. eapply awake_turn_proceeds; [done|done|done|done|done|done|].
  exists e. split; [done|]. destruct (Hs tid th Hth e He) as [Hle Hwaits].
  destruct (decide (e = changed (lane s))) as [->|]; [|lia].
  rewrite Hwaits in Hno by (done || by split). done.
Qed.

(** ** Where the reloading of a held config sleeps forever *)

(** C4. Lost wake-up: two goroutines hold leases and one of them is parked in
    [reloadHeldModelConfig] waiting to be the only user. When the other one
    releases, the reloader's guard is satisfied (its turn would start the reload),
    and yet the release notifies nobody, because it notifies only when the last
    user leaves: the reloader cannot be woken. *)
Theorem release_leaves_reloader_asleep s s' reloader th request tag ticket holder held heldTag p now :
  reachable (λ s, s = initialSystem) step s → no_wrap s →
  threads s !! reloader = Some th →
  pc th = ReloadParked request tag ticket (changed (lane s)) →
  threads s !! holder = Some (mkThread (Holding held heldTag) p) →
  users (lane s) = 2 → switching (lane s) = false →
  exec (EvRelease holder now) s = Some s' →
  threads s' !! reloader = Some th ∧
  (reloadTurnLocked (lane s') ticket request).2 = ReloadSwitch ∧
  ∀ ctxDone now', exec (EvWake reloader ctxDone now') s' = None.
Proof.
  intros Hreach Hw Hr Hpc Hh Hu Hsw. pose proof (lane_inv_reachable s Hreach Hw) as Hinv.
  cbn [exec]. rewrite Hh. cbn [mbind option_bind pc]. intros [= <-].
  assert (holder ≠ reloader) as Hne by (intros ->; rewrite Hr in Hh; by simplify_eq/=).
  assert (heldTag ≠ 0 ∧ (req_borrowed held = true → 0 < borrowedUsers (lane s))) as [Htag Hb].
  { destruct (owned_resource _ _ _ _ (inv_leases s Hinv) holder _ heldTag Hh eq_refl) as (l&Hl&Hf).
    pose proof (inv_tag_range s Hinv heldTag ltac:(eauto)). split; [lia|]. intros Hb.
    rewrite (inv_borrowed s Hinv).
    assert (borrowed_leases (leases (lane s)) !! heldTag = Some l) as Hk.
    { apply map_lookup_filter_Some. split; [done|]. simpl. by rewrite (Hf held). }
    destruct (size (borrowed_leases _)) eqn:E; [|lia]. apply map_size_empty_iff in E.
    by rewrite E, lookup_empty in Hk. }
  rewrite releaseActiveConfigLease_eq by (done || lia). unfold set_pc, reloadTurnLocked. simpl.
  rewrite Hu, Hsw. simpl. rewrite lookup_insert_ne by done. split_and!; [done|done|].
  intros ctxDone now'. simpl. rewrite Hr. simpl.
  by rewrite Hpc, Nat.ltb_irrefl.
Qed.

Definition reload_parked (s : system) (tid : nat) (tag : Z) : Prop :=
  ∃ th request ticket e, threads s !! tid = Some th ∧ pc th = ReloadParked request tag ticket e.

Definition cancels (ev : event) (tid : nat) : bool :=
  match ev with EvCancel t => bool_decide (t = tid) | _ => false end.

(** The one goroutine an event concerns. *)
Definition mover (s : system) (ev : event) : nat :=
  match ev with
  | EvAcquire _ _ _ | EvUnload _ _ => arrivals s
  | EvWake tid _ _ | EvCancel tid | EvLoadFailed tid _ | EvLoaded tid _ _ _
  | EvRelease tid _ | EvReload tid | EvUnloaded tid _ | EvPreempt tid => tid
  end.

Lemma settleAcquire_threads s tid request ticket turn :
  ∃ th', threads (settleAcquire s tid request ticket turn) = <[tid := th']> (threads s).
Proof. destruct turn as [[? ?] []]; simpl; eauto. Qed.

Lemma settleReload_threads s tid th request tag ticket turn :
  ∃ th', threads (settleReload s tid th request tag ticket turn) = <[tid := th']> (threads s).
Proof. destruct turn as [? []]; simpl; eauto. Qed.

Lemma settleUnload_threads s tid check ticket turn :
  ∃ th', threads (settleUnload s tid check ticket turn) = <[tid := th']> (threads s).
Proof. destruct turn as [? []]; simpl; eauto. Qed.

Lemma exec_moves_one s s' ev :
  exec ev s = Some s' → ∃ th', threads s' = <[mover s ev := th']> (threads s).
Proof.
  intros Hev. destruct ev; cbn [exec mover] in *;
    try (destruct (threads s !! tid) as [th|] eqn:Hth; cbn [mbind option_bind] in Hev; [|done]).
  1,8: apply (inj Some) in Hev; subst s';
    first [eapply (settleAcquire_threads (arrived s)) | eapply (settleUnload_threads (arrived s))].
  all: repeat match goal with
    | H : match pc ?o with _ => _ end = Some _ |- _ => destruct (pc o) eqn:?; try done
    | H : (if ?o then _ else _) = Some _ |- _ => destruct o; try done
    | H : Some (settleAcquire _ _ _ _ _) = Some _ |- _ =>
        apply (inj Some) in H; subst s'; apply settleAcquire_threads
    | H : Some (settleReload _ _ _ _ _ _ _) = Some _ |- _ =>
        apply (inj Some) in H; subst s'; apply settleReload_threads
    | H : Some (settleUnload _ _ _ _ _) = Some _ |- _ =>
        apply (inj Some) in H; subst s'; apply settleUnload_threads
    | H : context [finishSwitchRuntimeConfig ?a ?b ?c ?d ?e ?f ?g] |- _ =>
        destruct (finishSwitchRuntimeConfig a b c d e f g) as [[? ?] ?]
    | H : context [claimStart ?a] |- _ => destruct (claimStart a)
    end.
  all: try (apply (inj Some) in Hev; subst s'; eexists; reflexivity).
  apply (inj Some) in Hev. subst s'.
  destruct (settleReload_threads (s <| arrivals := S (arrivals s) |>) tid th request tag
    (reloadJoinLocked (lane s)).2
    (reloadTurnLocked (reloadJoinLocked (lane s)).1 (reloadJoinLocked (lane s)).2 request))
    as [th' E].
  exists th'. exact E.
Qed.

Lemma other_thread_unmoved s s' ev tid th :
  lane_inv s → exec ev s = Some s' → threads s !! tid = Some th →
  is_Some (parked_epoch (pc th)) →
  (∀ ctxDone now, ev ≠ EvWake tid ctxDone now) → ev ≠ EvCancel tid →
  ∃ th', threads s' !! tid = Some th' ∧ pc th' = pc th.
Proof.
  intros Hinv Hev Hth [e He] Hnw Hnc.
  assert (tid < arrivals s)%nat as Htid by (apply (inv_tid s Hinv); eauto).
  destruct (decide (mover s ev = tid)) as [Hm|Hm].
  - destruct ev; simpl in Hm; subst; try lia; try congruence; try (by edestruct Hnw);
      cbn [exec] in Hev; rewrite Hth in Hev; cbn [mbind option_bind] in Hev.
    6: { simplify_eq/=. eexists; split; [by rewrite lookup_insert_eq|done]. }
    all: by destruct (pc th).
  - destruct (exec_moves_one s s' ev Hev) as [th' ->]. exists th. by rewrite lookup_insert_ne.
Qed.

Lemma two_leases s tid1 tid2 th1 th2 tag1 tag2 :
  lane_inv s → tid1 ≠ tid2 → threads s !! tid1 = Some th1 → threads s !! tid2 = Some th2 →
  lease_tag (pc th1) = Some tag1 → lease_tag (pc th2) = Some tag2 → 1 < users (lane s).
Proof.
  intros Hinv Hne H1 H2 Ht1 Ht2. pose proof (inv_leases s Hinv) as Hl.
  destruct (owned_resource _ _ _ _ Hl tid1 th1 tag1 H1 Ht1) as (l1&Hl1&_).
  destruct (owned_resource _ _ _ _ Hl tid2 th2 tag2 H2 Ht2) as (l2&Hl2&_).
  assert (tag1 ≠ tag2) as Hnt by (intros <-; apply Hne; by eapply (owned_unique _ _ _ _ Hl)).
  destruct (Z.le_gt_cases (users (lane s)) 1) as [Hle|]; [|lia].
  rewrite (sole_user_sole_lease s tag1 l1 Hinv Hle Hl1) in Hl2.
  apply lookup_singleton_Some in Hl2 as [? _]. done.
Qed.

Lemma reload_pair_stays s s' ev tid1 tid2 tag1 tag2 :
  lane_inv s → exec ev s = Some s' → tid1 ≠ tid2 → cancels ev tid1 = false →
  reload_parked s tid1 tag1 → reload_parked s tid2 tag2 → reload_parked s' tid1 tag1.
Proof.
  intros Hinv Hev Hne Hc (th1&r1&k1&e1&H1&Hp1) (th2&r2&k2&e2&H2&Hp2).
  assert (1 < users (lane s)) as Hu.
  { eapply two_leases; [exact Hinv|exact Hne|done|done|by rewrite Hp1|by rewrite Hp2]. }
  assert (Hmoved : (∀ ctxDone now, ev ≠ EvWake tid1 ctxDone now) → reload_parked s' tid1 tag1).
  { intros Hnw. destruct (other_thread_unmoved s s' ev tid1 th1) as (th'&Hth'&Hpc'); try done.
    - rewrite Hp1. eauto.
    - intros ->. simpl in Hc. by rewrite bool_decide_eq_true_2 in Hc.
    - exists th', r1, k1, e1. by rewrite Hpc'. }
  destruct ev as [|tid ctxDone now| | | | | | | |]; try (by apply Hmoved).
  destruct (decide (tid = tid1)) as [->|]; [|apply Hmoved; congruence].
  cbn [exec] in Hev. rewrite H1 in Hev. cbn [mbind option_bind] in Hev. rewrite Hp1 in Hev.
  destruct (_ <? _)%nat; [|done]. unfold settleReload, reloadTurnLocked in Hev.
  apply Z.ltb_lt in Hu. rewrite Hu, orb_true_r in Hev. simplify_eq/=. unfold reload_parked, set_pc. simpl.
  do 4 eexists. split; [apply lookup_insert_eq|done].
Qed.

Lemma run_no_wrap events s s' : run events s = Some s' → no_wrap s' → no_wrap s.
Proof.
  revert s. induction events as [|ev events IH]; intros s Hrun Hw; simpl in Hrun; [by simplify_eq|].
  destruct (exec ev s) as [s1|] eqn:E; [|done]. cbn [mbind option_bind] in Hrun.
  apply (no_wrap_step s s1); [by exists ev|]. by eapply IH.
Qed.

Lemma run_reachable events s s' :
  run events s = Some s' → reachable (λ s, s = initialSystem) step s →
  reachable (λ s, s = initialSystem) step s'.
Proof.
  revert s. induction events as [|ev events IH]; intros s Hrun Hr; simpl in Hrun; [by simplify_eq|].
  destruct (exec ev s) as [s1|] eqn:E; [|done]. cbn [mbind option_bind] in Hrun.
  apply (IH s1 Hrun). eapply reachable_step; [exact Hr|]. by exists ev.
Qed.

(** C5. Deadlock of concurrent recoveries: once two goroutines that hold leases
    are both parked in [reloadHeldModelConfig], each waits for the other's
    lease to go away, and in no execution, however long, does either of them
    leave its wait before a context is cancelled. *)
Theorem concurrent_reloads_deadlock events s s' tid1 tid2 tag1 tag2 :
  reachable (λ s, s = initialSystem) step s → run events s = Some s' → no_wrap s' →
  tid1 ≠ tid2 → reload_parked s tid1 tag1 → reload_parked s tid2 tag2 →
  forallb (λ ev, negb (cancels ev tid1) && negb (cancels ev tid2)) events = true →
  reload_parked s' tid1 tag1 ∧ reload_parked s' tid2 tag2.
Proof.
  revert s. induction events as [|ev events IH]; intros s Hreach Hrun Hw Hne H1 H2 Hev;
    simpl in Hrun, Hev; [by simplify_eq|].
  destruct (exec ev s) as [s1|] eqn:Hexec; [|done]. cbn [mbind option_bind] in Hrun.
  apply andb_true_iff in Hev as [Hc Hevs]. apply andb_true_iff in Hc as [Hc1 Hc2].
  apply negb_true_iff in Hc1, Hc2.
  pose proof (lane_inv_reachable s Hreach
    (no_wrap_step s s1 (ex_intro _ ev Hexec) (run_no_wrap _ _ _ Hrun Hw))) as Hinv.
  apply (IH s1); [|done..| | |done].
  - eapply reachable_step; [exact Hreach|]. by exists ev.
  - by eapply (reload_pair_stays s s1 ev tid1 tid2).
  - by eapply (reload_pair_stays s s1 ev tid2 tid1).
Qed.

(** ** Executions that reach the situations above *)

Definition text_request (id file : string) : configAcquisition :=
  mkAcquisition id file readinessText emptyProfile false (mkOptions false false).
Definition nothing_measured : modelLoadMeasurement := mkMeasurement None None None.

Lemma run_initial events :
  is_Some (run events initialSystem) →
  reachable (λ s, s = initialSystem) step (default initialSystem (run events initialSystem)).
Proof.
  intros [s Hs]. rewrite Hs. simpl. eapply run_reachable; [exact Hs|]. by apply reachable_init.
Qed.

(** [alpha] is loaded and its only request has finished; a request for [beta]
    arrived meanwhile. *)
Definition beta_waits : list event :=
  [EvAcquire (text_request "alpha" "alpha.json") false 1;
   EvLoaded 0 None nothing_measured 2;
   EvAcquire (text_request "beta" "beta.json") false 3;
   EvRelease 0 4].

(** Two requests share [alpha]; both backends connections fail and both start
    to recover. *)
Definition both_recover : list event :=
  [EvAcquire (text_request "alpha" "alpha.json") false 1;
   EvLoaded 0 None nothing_measured 2;
   EvAcquire (text_request "alpha" "alpha.json") false 3;
   EvReload 0; EvReload 1].

Definition one_recovers : list event :=
  [EvAcquire (text_request "alpha" "alpha.json") false 1;
   EvLoaded 0 None nothing_measured 2;
   EvAcquire (text_request "alpha" "alpha.json") false 3;
   EvReload 0].

Definition after (events : list event) : system :=
  default initialSystem (run events initialSystem).

Ltac reached := apply run_initial; vm_compute; eauto.

Lemma acquire_turn_spec_witness :
  turn_ready newActiveConfigState 1 false (text_request "alpha" "alpha.json") ∧
  turn_allows newActiveConfigState 1 (text_request "alpha" "alpha.json") None
    (acquireTurnLocked 0 newActiveConfigState 1 false (text_request "alpha" "alpha.json") None 5).2.
Proof. split; [reflexivity|]. apply acquire_turn_spec. reflexivity. Defined.

Lemma no_lease_cut_off_witness :
  users (lane (after both_recover)) = Z.of_nat (size (leases (lane (after both_recover)))) ∧
  users (lane (after both_recover)) = 2.
Proof.
  split; [|reflexivity].
  apply (no_lease_cut_off (after both_recover)); [reached|by split].
Defined.

Lemma idle_lane_progress_witness :
  ∃ tid s' th', exec (EvWake tid false 5) (after beta_waits) = Some s' ∧
    threads s' !! tid = Some th' ∧ parked_epoch (pc th') = None.
Proof.
  apply (idle_lane_progress (after beta_waits) false 5);
    [reached|by split|reflexivity|reflexivity|].
  intros H. assert (size (waiters (queue (lane (after beta_waits)))) = 1%nat) as Hsz by reflexivity.
  rewrite H, map_size_empty in Hsz. discriminate.
Defined.

Lemma release_leaves_reloader_asleep_witness :
  exec (EvWake 0 false 10) (after (one_recovers ++ [EvRelease 1 9])) = None.
Proof.
  refine (proj2 (proj2 (release_leaves_reloader_asleep (after one_recovers)
    (after (one_recovers ++ [EvRelease 1 9])) 0 _ (text_request "alpha" "alpha.json") 1 3 1
    (text_request "alpha" "alpha.json") 2 None 9 _ _ _ _ _ _ _ _)) false 10);
    [reached|by split|vm_compute; reflexivity..].
Defined.

Lemma concurrent_reloads_deadlock_witness :
  let later := [EvAcquire (text_request "beta" "beta.json") false 6; EvCancel 4; EvWake 0 true 7;
                EvWake 1 true 8] in
  let final := default initialSystem (run later (after both_recover)) in
  reload_parked final 0 1 ∧ reload_parked final 1 2.
Proof.
  intros later final.
  apply (concurrent_reloads_deadlock later (after both_recover)).
  - reached.
  - vm_compute. reflexivity.
  - split; vm_compute; reflexivity.
  - discriminate.
  - do 4 eexists. split; vm_compute; reflexivity.
  - do 4 eexists. split; vm_compute; reflexivity.
  - reflexivity.
Defined.
