(* ===== verification/LaneServed.v ===== *)
(** * Leases are served by the model they asked for

    The invariant that ties what the lane says ([filename] and the physical
    fields) to what the backend process holds, and through it every lease to a
    model that serves its request. *)

From stdpp Require Import gmap strings list.
From Stdlib Require Import Bool ZArith Lia.
From S2P Require Import Prelude.
From S2P Require Import GoStrings.
From S2P Require Import Lane.
From S2P Require Import LaneProofs.
From S2P Require Import LaneTheorems.
Open Scope go_scope.
Open Scope Z_scope.


Section served.
(** The catalog: the profile of every config file. *)
Context (prof : string → ChatTemplateProfile).




(** A backend holding config [f] also serves a request for a sibling profile
    of the same physical model. *)
Definition sibling (f g : string) : Prop :=
  f = g ∨ ServableBySiblingRuntime (prof f) = true ∧ ServableBySiblingRuntime (prof g) = true
          ∧ PhysicalLoadFingerprint (prof f) = PhysicalLoadFingerprint (prof g).

Definition holds_for (s : system) (f : string) : Prop :=
  ∃ held, backendHolds s = Some (held, prof held) ∧ sibling held f.


































End served.

(** ** Loading *)

Lemma loadAttempts_spec attemptLoad ctxDone remaining attempt lastErr :
  let '(err, made) := loadAttempts attemptLoad ctxDone (S remaining) attempt lastErr in
  (attempt ≤ made ≤ attempt + remaining)%nat ∧ err = attemptLoad made ∧
  (∀ k, (attempt ≤ k < made)%nat →
    attemptLoad k = Some errBackendServingNoModel ∧ ctxDone k = false) ∧
  (attemptLoad made = Some errBackendServingNoModel → ctxDone made = false →
    made = (attempt + remaining)%nat).
Proof.
  revert attempt lastErr. induction remaining as [|remaining IH]; intros attempt lastErr.
  - simpl. destruct (attemptLoad attempt) as [[|m]|] eqn:E; [destruct (ctxDone attempt) eqn:Ec|
      destruct (ctxDone attempt) eqn:Ec|]; (split_and!; [lia..|congruence|lia|]); intros; try congruence; lia.
  - change (loadAttempts attemptLoad ctxDone (S (S remaining)) attempt lastErr) with
      (match attemptLoad attempt with
       | None => (None, attempt)
       | Some err => if ctxDone attempt then (Some err, attempt)
           else match err with
                | otherLoadError _ => (Some err, attempt)
                | errBackendServingNoModel =>
                    loadAttempts attemptLoad ctxDone (S remaining) (S attempt) (Some err)
                end end).
    destruct (attemptLoad attempt) as [err|] eqn:E.
    2: { split_and!; [lia..|done|lia|congruence]. }
    destruct (ctxDone attempt) eqn:Ec.
    { split_and!; [lia..|done|lia|congruence]. }
    destruct err as [|m].
    2: { split_and!; [lia..|done|lia|congruence]. }
    specialize (IH (S attempt) (Some errBackendServingNoModel)).
    destruct (loadAttempts _ _ _ _ _) as [err made]. destruct IH as (Hr&He&Hk&Hl).
    split_and!; [lia..|done| |].
    + intros k Hk'. destruct (decide (k = attempt)) as [->|]; [done|apply Hk; lia].
    + intros. rewrite Hl by done. lia.
Qed.

(** C7. A load makes between one and three attempts and reports what the last of
    them did; every earlier attempt had come up serving no model while the
    context was still live; and it stops before the third attempt only on
    success, on another error or when the context has ended. *)
Theorem loadModelConfig_spec attemptLoad ctxDone :
  let '(err, made) := loadModelConfig attemptLoad ctxDone in
  (1 ≤ made ≤ modelLoadAttempts)%nat ∧ err = attemptLoad made ∧
  (∀ k, (1 ≤ k < made)%nat →
    attemptLoad k = Some errBackendServingNoModel ∧ ctxDone k = false) ∧
  ((made < modelLoadAttempts)%nat →
    attemptLoad made ≠ Some errBackendServingNoModel ∨ ctxDone made = true).
Proof.
  unfold loadModelConfig, modelLoadAttempts.
  pose proof (loadAttempts_spec attemptLoad ctxDone 2 1 None) as Hspec.
  destruct (loadAttempts _ _ _ _ _) as [err made]. destruct Hspec as (Hr&He&Hk&Hl).
  split_and!; [lia..|done|done|]. intros Hlt.
  destruct (ctxDone made) eqn:E; [by right|left]. intros H. specialize (Hl H eq_refl). lia.
Qed.

(** ** An execution that uses a lease *)





