(* ===== verification/UnloadPolicy.v ===== *)
(** * Unload policies

    Model of [internal/unloadpolicy/policy.go], [internal/backendmode], and of
    [internal/proxy/unload_policy.go] with the family lookups it uses in
    [internal/proxy/backend_family.go]: how a config's set of triggers is
    resolved, and which runtimes are unloaded before the config is loaded.

    A runtime is a pointer, here a number; [None] is a nil pointer. *)

From stdpp Require Import gmap strings list sorting.
From Stdlib Require Import Ascii Bool ZArith Lia.
From S2P Require Import Prelude.
From S2P Require Import GoStrings.
From S2P Require Import Lane.
Open Scope go_scope.
Open Scope string_scope.

(** ** Backend modes ([backendmode]) *)

Definition Kobold : string := "kobold".
Definition LlamaSDCPP : string := "llama_sdcpp".
Definition VLLM : string := "vllm".

Definition mode_Normalize (value : string) : string := TrimSpace value.

Definition mode_Valid (value : string) : bool :=
  existsb (String.eqb (mode_Normalize value)) [Kobold; LlamaSDCPP; VLLM].

Definition mode_Resolve (value fallback : string) : option string :=
  let value := mode_Normalize value in
  let value := if String.eqb value "" then mode_Normalize fallback else value in
  if mode_Valid value then Some value else None.

(** ** The vocabulary *)

Definition trigger_None : string := "none".
Definition trigger_Text : string := "text".
Definition trigger_Image : string := "image".
Definition trigger_Embeddings : string := "embeddings".
Definition trigger_Voice : string := "voice".
Definition trigger_Music : string := "music".
Definition trigger_All : string := "all".
Definition FamilyPrefix : string := "family:".
Definition ConfigPrefix : string := "config:".

Definition policyValues : list string :=
  [trigger_None; trigger_Text; trigger_Image; trigger_Embeddings; trigger_Voice; trigger_Music;
   trigger_All].

Definition policyTargets : list string :=
  [trigger_Text; trigger_Image; trigger_Embeddings; trigger_Voice; trigger_Music; trigger_All].

Definition Normalize (value : string) : string := ToLower (TrimSpace value).

Definition normalizeTrigger (value : string) : string :=
  let trimmed := TrimSpace value in
  if String.eqb trimmed "" then ""
  else
    let '(before, after, found) := Cut trimmed ":" in
    let kind := ToLower (TrimSpace before) in
    if found && String.eqb kind "family" then FamilyPrefix ++ ToLower (TrimSpace after)
    else if found && String.eqb kind "config" then ConfigPrefix ++ TrimSpace after
    else ToLower trimmed.

Definition Valid (value : string) : bool := existsb (String.eqb (Normalize value)) policyValues.

Definition ValidLane (value : string) : bool :=
  existsb (String.eqb (Normalize value))
    [trigger_Text; trigger_Image; trigger_Embeddings; trigger_Voice; trigger_Music].

Definition ValidTarget (value : string) : bool :=
  existsb (String.eqb (Normalize value)) policyTargets.

Definition ValidFamilyTrigger (value : string) : bool :=
  let '(suffix, ok) := CutPrefix (normalizeTrigger value) FamilyPrefix in ok && mode_Valid suffix.

Definition ValidConfigTrigger (value : string) : bool :=
  let '(suffix, ok) := CutPrefix (normalizeTrigger value) ConfigPrefix in
  ok && negb (String.eqb (TrimSpace suffix) "").

Definition ValidTrigger (value : string) : bool :=
  let value := normalizeTrigger value in
  existsb (String.eqb value) policyValues || ValidFamilyTrigger value || ValidConfigTrigger value.

Definition FamilyTarget (value : string) : option string :=
  let '(suffix, ok) := CutPrefix (normalizeTrigger value) FamilyPrefix in
  if negb ok || negb (mode_Valid suffix) then None else Some suffix.

Definition ConfigTarget (value : string) : option string :=
  let trimmed := TrimSpace value in
  let '(before, after, found) := Cut trimmed ":" in
  if found && EqualFold (TrimSpace before) "config" then
    let id := TrimSpace after in if String.eqb id "" then None else Some id
  else None.

Definition Resolve (value : string) : option string :=
  let value := Normalize value in
  if String.eqb value "" then Some trigger_None else if Valid value then Some value else None.

Definition ResolveTarget (value : string) : option string :=
  let value := Normalize value in
  if String.eqb value "" then Some trigger_All else if ValidTarget value then Some value else None.

(** ** Selections *)

Inductive selectionError : Type :=
| cannotBeCombined (trigger : string)
| notATrigger (trigger : string).

Section selection.
Context `{GoSort}.

(** The loop that normalizes, drops empty values and removes duplicates. *)
Fixpoint dedupeTriggers (selection : list string) (seen : gset string) : list string :=
  match selection with
  | [] => []
  | raw :: rest =>
      let value := normalizeTrigger raw in
      if String.eqb value "" || bool_decide (value ∈ seen) then dedupeTriggers rest seen
      else value :: dedupeTriggers rest ({[value]} ∪ seen)
  end.

Fixpoint checkTriggers (count : nat) (resolved : list string) : option selectionError :=
  match resolved with
  | [] => None
  | value :: rest =>
      if (String.eqb value trigger_None || String.eqb value trigger_All) && (1 <? count)%nat
      then Some (cannotBeCombined value)
      else if negb (ValidTrigger value) then Some (notATrigger value)
      else checkTriggers count rest
  end.

Definition ResolveSelection (selection : list string) : result selectionError (list string) :=
  let resolved := dedupeTriggers selection ∅ in
  match resolved with
  | [] => Ok [trigger_None]
  | _ =>
      let resolved := sort_slice String.ltb resolved in
      match checkTriggers (length resolved) resolved with
      | Some err => Err err
      | None => Ok resolved
      end
  end.

Definition IsNone (selection : list string) : bool :=
  match ResolveSelection selection with
  | Ok [value] => String.eqb value trigger_None
  | _ => false
  end.

Definition ContainsTrigger (selection : list string) (trigger : string) : bool :=
  existsb (λ value, String.eqb (normalizeTrigger value) (normalizeTrigger trigger)) selection.

(** The normalized, non-empty values of a selection. *)
Definition trigger_set (selection : list string) (value : string) : Prop :=
  value ≠ "" ∧ ∃ raw, raw ∈ selection ∧ normalizeTrigger raw = value.

Lemma dedupe_spec selection seen :
  NoDup (dedupeTriggers selection seen) ∧
  ∀ v, v ∈ dedupeTriggers selection seen ↔ trigger_set selection v ∧ v ∉ seen.
Proof.
  revert seen. induction selection as [|raw rest IH]; intros seen; cbn [dedupeTriggers].
  - split; [constructor|]. intros v. split; [by intros ?%elem_of_nil|].
    intros [(_&raw&Hr&_) _]. by apply elem_of_nil in Hr.
  - assert (Hset : ∀ v, trigger_set (raw :: rest) v ↔
      trigger_set rest v ∨ v = normalizeTrigger raw ∧ v ≠ "").
    { intros v. unfold trigger_set. setoid_rewrite elem_of_cons. naive_solver. }
    destruct (String.eqb (normalizeTrigger raw) "" || bool_decide (normalizeTrigger raw ∈ seen)) eqn:E.
    + destruct (IH seen) as [Hnd Hin]. split; [done|]. intros v. rewrite Hin, Hset.
      apply orb_true_iff in E as [E|E]; [apply String.eqb_eq in E|apply bool_decide_eq_true in E];
        naive_solver.
    + bool_simpl. destruct (IH ({[normalizeTrigger raw]} ∪ seen)) as [Hnd Hin]. split.
      * constructor; [|done]. rewrite Hin. set_solver.
      * intros v. rewrite elem_of_cons, Hin, Hset.
        destruct (decide (v = normalizeTrigger raw)) as [->|]; set_solver.
Qed.

Lemma check_spec count resolved :
  checkTriggers count resolved = None ↔
  Forall (λ v, ValidTrigger v = true ∧ ((v = trigger_None ∨ v = trigger_All) → (count ≤ 1)%nat))
    resolved.
Proof.
  induction resolved as [|v rest IH]; cbn [checkTriggers]; [by split|].
  rewrite Forall_cons.
  destruct ((String.eqb v trigger_None || String.eqb v trigger_All) && (1 <? count)%nat) eqn:E.
  - split; [done|]. intros [[_ Hv] _]. apply andb_true_iff in E as [E Hc].
    apply Nat.ltb_lt in Hc. apply orb_true_iff in E. rewrite !String.eqb_eq in E.
    specialize (Hv E). lia.
  - assert ((v = trigger_None ∨ v = trigger_All) → (count ≤ 1)%nat) as Hv.
    { intros Hv. apply andb_false_iff in E as [E|E%Nat.ltb_ge]; [|done].
      apply orb_false_iff in E as [?%String.eqb_neq ?%String.eqb_neq]. naive_solver. }
    destruct (ValidTrigger v); cbn [negb]; [|naive_solver]. rewrite IH. naive_solver.
Qed.

(** A selection a config author may write: every trigger is known, and [none]
    and [all] stand alone. *)
Definition acceptable (selection : list string) : Prop :=
  (∀ v, trigger_set selection v → ValidTrigger v = true) ∧
  (∀ v w, trigger_set selection v → trigger_set selection w →
    v = trigger_None ∨ v = trigger_All → w = v).

Lemma ValidTrigger_nonempty v : ValidTrigger v = true → v ≠ "".
Proof. intros Hv ->. by vm_compute in Hv. Qed.

(** C8. Resolving a selection of unload triggers: an empty one resolves to
    [none]; otherwise the answer is the set of normalized triggers, sorted and
    without duplicates, and it is refused exactly when some trigger is unknown or
    when [none] or [all] is combined with another trigger. *)
Theorem ResolveSelection_spec selection :
  match ResolveSelection selection with
  | Ok resolved =>
      acceptable selection ∧
      ((∀ v, ¬ trigger_set selection v) ∧ resolved = [trigger_None] ∨
       NoDup resolved ∧ (∀ v, v ∈ resolved ↔ trigger_set selection v) ∧
       StronglySorted (λ a b, String.ltb b a = false) resolved)
  | Err _ => ¬ acceptable selection
  end.
Proof.
  unfold ResolveSelection. destruct (dedupe_spec selection ∅) as [Hnd Hin].
  assert (∀ v, v ∈ dedupeTriggers selection ∅ ↔ trigger_set selection v) as Hset
    by (intros v; rewrite Hin; set_solver).
  destruct (dedupeTriggers selection ∅) as [|x xs] eqn:E.
  { assert (∀ v, ¬ trigger_set selection v) as Hno
      by (intros v Hv; apply Hset in Hv; by apply elem_of_nil in Hv).
    split; [|by left]. split; [intros v Hv; by destruct (Hno v)|intros v w Hv; by destruct (Hno v)]. }
  rewrite <-E in *. clear E x xs.
  set (resolved := sort_slice String.ltb (dedupeTriggers selection ∅)).
  assert (resolved ≡ₚ dedupeTriggers selection ∅) as Hperm by apply sort_slice_perm.
  assert (∀ v, v ∈ resolved ↔ trigger_set selection v) as Hres by (intros v; by rewrite Hperm).
  assert (NoDup resolved) as Hnd' by (by rewrite Hperm).
  assert (StronglySorted (λ a b, String.ltb b a = false) resolved) as Hsort
    by (apply sort_slice_sorted, (strict_weak_key id)).
  assert (Hacc : Forall (λ v, ValidTrigger v = true ∧
      ((v = trigger_None ∨ v = trigger_All) → (length resolved ≤ 1)%nat)) resolved
      ↔ acceptable selection).
  { clearbody resolved. rewrite Forall_forall. unfold acceptable. split.
    - intros Hall. split; [intros v Hv; apply Hall, Hres, Hv|]. intros v w Hv Hw Hspecial.
      apply Hres in Hv, Hw. destruct (Hall v Hv) as [_ Hlen]. specialize (Hlen Hspecial).
      destruct resolved as [|y [|z zs]]; simpl in Hlen; [by apply elem_of_nil in Hv| |lia].
      apply list_elem_of_singleton in Hv, Hw. congruence.
    - intros [Hvalid Halone] v Hv. split; [apply Hvalid, Hres, Hv|]. intros Hspecial.
      destruct resolved as [|y [|z zs]]; simpl; [lia..|]. exfalso.
      apply NoDup_cons in Hnd' as [Hy _]. apply Hy.
      assert (y = v) as -> by (apply (Halone v y); [apply Hres, Hv|apply Hres; by left|done]).
      assert (z = v) as -> by (apply (Halone v z); [apply Hres, Hv|apply Hres; by right; left|done]).
      by left. }
  destruct (checkTriggers (length resolved) resolved) as [err|] eqn:Hcheck.
  - rewrite <-Hacc, <-check_spec. congruence.
  - apply check_spec in Hcheck. split; [by apply Hacc|]. by right.
Qed.
End selection.

(** ** Which runtimes a policy names ([proxy]) *)

Record backendFamily : Type := mkFamily {
  textRuntime : option nat;
  embeddingsRuntime : option nat;
  imageRuntime : option nat;
  transcriptionRuntime : option nat
}.

(** [a != nil && a != b && ...] over pointers. *)
Definition appendUnless (runtimes : list nat) (candidate : option nat) (others : list (option nat))
  : list nat :=
  match candidate with
  | None => runtimes
  | Some r => if existsb (λ o, bool_decide (o = Some r)) others then runtimes else runtimes ++ [r]
  end.

Definition uniqueBackendRuntimes (family : backendFamily) : list nat :=
  match textRuntime family with
  | None => []
  | Some text =>
      let runtimes := [text] in
      let runtimes := appendUnless runtimes (imageRuntime family) [textRuntime family] in
      let runtimes := appendUnless runtimes (embeddingsRuntime family)
                        [textRuntime family; imageRuntime family] in
      appendUnless runtimes (transcriptionRuntime family)
        [textRuntime family; imageRuntime family]
  end.

Definition uniquePrimaryBackendRuntimes (family : backendFamily) : list nat :=
  match textRuntime family with
  | None => []
  | Some text =>
      let runtimes := [text] in
      let runtimes := appendUnless runtimes (imageRuntime family) [textRuntime family] in
      appendUnless runtimes (transcriptionRuntime family)
        [textRuntime family; imageRuntime family]
  end.

Fixpoint uniqueRuntimeListFrom (seen : gset nat) (runtimes : list (option nat)) : list nat :=
  match runtimes with
  | [] => []
  | None :: rest => uniqueRuntimeListFrom seen rest
  | Some r :: rest =>
      if bool_decide (r ∈ seen) then uniqueRuntimeListFrom seen rest
      else r :: uniqueRuntimeListFrom ({[r]} ∪ seen) rest
  end.
Definition uniqueRuntimeList : list (option nat) → list nat := uniqueRuntimeListFrom ∅.

Inductive policyError : Type :=
| modeInvalid | modeNotConfigured (mode : string) | targetInvalid (target : string)
| policyUnreadable (message : string) | policyInvalid (reason : selectionError)
| filenameInvalid (filename : string).

Section service.
Context `{GoSort}.
(** The service: its default mode, its families, and the state of its runtimes. *)
Context (backendMode : string) (backendFamilies : string → option backendFamily)
  (stateOf : nat → activeConfigState).

Definition resolveBackendMode (mode : string) : result policyError string :=
  match mode_Resolve mode backendMode with Some m => Ok m | None => Err modeInvalid end.

Definition familyFor (mode : string) : result policyError backendFamily :=
  let? resolvedMode := resolveBackendMode mode in
  match backendFamilies resolvedMode with
  | Some family => Ok family | None => Err (modeNotConfigured resolvedMode) end.

Definition runtimeForBackendMode (mode : string) (readiness : backendReadiness)
  : result policyError (option nat) :=
  let? family := familyFor mode in
  Ok (match readiness with
      | readinessImage => imageRuntime family
      | readinessEmbeddings => embeddingsRuntime family
      | readinessTranscription => transcriptionRuntime family
      | _ => textRuntime family
      end).

Definition runtimesForUnloadTarget (mode target : string)
  : result policyError (list (option nat)) :=
  let? family := familyFor mode in
  match ResolveTarget target with
  | None => Err (targetInvalid target)
  | Some target =>
      if String.eqb target trigger_All then Ok (Some <$> uniqueBackendRuntimes family)
      else if String.eqb target trigger_Image then Ok [imageRuntime family]
      else if String.eqb target trigger_Embeddings then Ok [embeddingsRuntime family]
      else if String.eqb target trigger_Voice then Ok [textRuntime family; transcriptionRuntime family]
      else if String.eqb target trigger_Text || String.eqb target trigger_Music
           then Ok [textRuntime family]
      else Err (targetInvalid target)
  end.

Definition sharedRuntimesHoldingConfig (family : backendFamily) (configID : string) : list nat :=
  List.filter (λ r,
      let name := filename (stateOf r) in
      if String.eqb name "" then false
      else let base := filepath_Base name in
           let stem := TrimSuffix base (filepath_Ext base) in
           String.eqb base configID || String.eqb stem configID)
    (uniqueBackendRuntimes family).

(** One turn of the loop over the triggers. *)
Definition runtimesForTrigger (resolvedMode : string) (family : backendFamily) (trigger : string)
  : result policyError (list (option nat)) :=
  if String.eqb trigger trigger_None then Ok []
  else if ValidLane trigger || String.eqb trigger trigger_All then
    runtimesForUnloadTarget resolvedMode trigger
  else match FamilyTarget trigger with
       | Some familyMode =>
           if String.eqb familyMode resolvedMode
           then Ok (Some <$> uniqueBackendRuntimes family) else Ok []
       | None =>
           match ConfigTarget trigger with
           | Some configID => Ok (Some <$> sharedRuntimesHoldingConfig family configID)
           | None => Ok []
           end
       end.

Fixpoint runtimesForTriggers (resolvedMode : string) (family : backendFamily)
    (policy : list string) : result policyError (list (option nat)) :=
  match policy with
  | [] => Ok []
  | trigger :: rest =>
      let? some := runtimesForTrigger resolvedMode family trigger in
      let? more := runtimesForTriggers resolvedMode family rest in
      Ok (some ++ more)%list
  end.

Definition runtimesForUnloadPolicy (mode : string) (policy : list string)
  : result policyError (list (option nat)) :=
  let? resolvedMode := resolveBackendMode mode in
  let? family := familyFor mode in
  runtimesForTriggers resolvedMode family policy.

(** The separate pool's own runtimes. *)
Definition separatePoolOwns (separatePool : option (list nat)) (r : nat) : bool :=
  match separatePool with
  | None => false
  | Some entries => existsb (Nat.eqb r) entries
  end.

(** [loadConfig] reads the config file: its [router_unload_policy] values, or
    why it cannot be read. *)
Definition resolveUnloadPolicy (configDir : string)
    (loadConfig : string → result string (list string)) (configFilename : string)
  : result policyError (list string) :=
  if String.eqb (TrimSpace configDir) "" || String.eqb (TrimSpace configFilename) ""
  then Ok [trigger_None]
  else if negb (String.eqb configFilename (filepath_Base configFilename))
  then Err (filenameInvalid configFilename)
  else match loadConfig configFilename with
       | Err message => Err (policyUnreadable message)
       | Ok selection => match ResolveSelection selection with
                         | Ok resolved => Ok resolved
                         | Err reason => Err (policyInvalid reason)
                         end
       end.

(** The runtimes [enforceUnloadPolicy] unloads for a config with this policy. *)
Definition runtimesToUnload (separatePool : option (list nat)) (configFilename : string)
    (profile : ChatTemplateProfile) (runtimes : list (option nat)) : list nat :=
  List.filter (λ r,
      negb (separatePoolOwns separatePool r)
      && negb (String.eqb (filename (stateOf r)) ""
               || activeRuntimeSupportsConfig (Some (stateOf r)) configFilename profile))
    (uniqueRuntimeList runtimes).

Definition enforceUnloadPolicy (mode : string) (policy : result policyError (list string))
    (separatePool : option (list nat)) (configFilename : string) (profile : ChatTemplateProfile)
  : result policyError (list nat) :=
  let? resolvedMode := resolveBackendMode mode in
  let? policy := policy in
  if IsNone policy then Ok []
  else let? runtimes := runtimesForUnloadPolicy resolvedMode policy in
       Ok (runtimesToUnload separatePool configFilename profile runtimes).
End service.

(** ** Unloading them

    The unloads of several runtimes run concurrently and report in the order in
    which they finish, [finished]. The first error to arrive is returned. *)
Fixpoint firstError {E} (results : list (option E)) : option E :=
  match results with
  | [] => None
  | Some err :: _ => Some err
  | None :: rest => firstError rest
  end.

Definition unloadRuntimes {E} (unloadRuntime : nat → option E) (finished : list nat) : option E :=
  firstError (unloadRuntime <$> finished).

(** An order in which the unloads of [runtimes] can finish. *)
Definition finishes (runtimes : list (option nat)) (finished : list nat) : Prop :=
  finished ≡ₚ uniqueRuntimeList runtimes.

(** ** What is unloaded *)

Lemma unique_from_spec seen runtimes :
  NoDup (uniqueRuntimeListFrom seen runtimes) ∧
  ∀ r, r ∈ uniqueRuntimeListFrom seen runtimes ↔ Some r ∈ runtimes ∧ r ∉ seen.
Proof.
  revert seen. induction runtimes as [|[x|] rest IH]; intros seen; cbn [uniqueRuntimeListFrom].
  - split; [constructor|]. intros r. rewrite !elem_of_nil. naive_solver.
  - case_bool_decide as Hx.
    + destruct (IH seen) as [? Hin]. split; [done|]. intros r. rewrite Hin, elem_of_cons.
      naive_solver.
    + destruct (IH ({[x]} ∪ seen)) as [Hnd Hin]. split.
      * constructor; [rewrite Hin; set_solver|done].
      * intros r. rewrite !elem_of_cons, Hin. destruct (decide (r = x)) as [->|]; set_solver.
  - destruct (IH seen) as [? Hin]. split; [done|]. intros r. rewrite Hin, elem_of_cons. naive_solver.
Qed.

Lemma uniqueRuntimeList_spec runtimes :
  NoDup (uniqueRuntimeList runtimes) ∧ ∀ r, r ∈ uniqueRuntimeList runtimes ↔ Some r ∈ runtimes.
Proof.
  destruct (unique_from_spec ∅ runtimes) as [? Hin]. split; [done|].
  intros r. unfold uniqueRuntimeList. rewrite Hin. set_solver.
Qed.

Definition family_member (family : backendFamily) (r : nat) : Prop :=
  Some r ∈ [textRuntime family; imageRuntime family; embeddingsRuntime family;
            transcriptionRuntime family].

Lemma appendUnless_elem runtimes candidate others r :
  r ∈ appendUnless runtimes candidate others ↔
  r ∈ runtimes ∨ candidate = Some r ∧ candidate ∉ others.
Proof.
  unfold appendUnless. destruct candidate as [c|]; [|naive_solver].
  destruct (existsb _ others) eqn:E.
  - apply existsb_exists in E as (o&Ho%list_elem_of_In&Hd). bool_simpl. subst. naive_solver.
  - rewrite elem_of_app, list_elem_of_singleton.
    assert (Some c ∉ others) as Hc; [|naive_solver].
    intros Hc. assert (existsb (λ o, bool_decide (o = Some c)) others = true); [|congruence].
    apply existsb_exists. exists (Some c). split; [by apply list_elem_of_In|]. by case_bool_decide.
Qed.

(** A family without a text runtime has no runtimes at all. *)
Lemma uniqueBackendRuntimes_elem family r :
  r ∈ uniqueBackendRuntimes family ↔ is_Some (textRuntime family) ∧ family_member family r.
Proof.
  unfold uniqueBackendRuntimes, family_member.
  destruct (textRuntime family) as [text|] eqn:Ht.
  2: { rewrite elem_of_nil. split; [done|]. by intros [[? [=]] _]. }
  rewrite !appendUnless_elem, list_elem_of_singleton, !not_elem_of_cons, !elem_of_cons, elem_of_nil.
  split; [intros Hr; split; [eauto|]; naive_solver|]. intros [_ Hr].
  destruct (decide (text = r)) as [->|Hne]; [by left; left; left|].
  destruct (decide (imageRuntime family = Some r)) as [Hi|Hi].
  { left; left; right. rewrite Hi. split_and!; [done|congruence|set_solver]. }
  destruct Hr as [[=]|[Hr|[Hr|[Hr|Hr]]]]; [congruence|congruence| | |set_solver].
  - left; right. rewrite <-Hr. split_and!; [done|congruence|congruence|set_solver].
  - right. rewrite <-Hr. split_and!; [done|congruence|congruence|set_solver].
Qed.

(** Which runtimes a trigger names: those of its lane, all of the family's, or
    those that hold the config. *)
Definition lane_names (family : backendFamily) (lane : string) (r : nat) : Prop :=
  (lane = trigger_Text ∨ lane = trigger_Music) ∧ textRuntime family = Some r ∨
  lane = trigger_Image ∧ imageRuntime family = Some r ∨
  lane = trigger_Embeddings ∧ embeddingsRuntime family = Some r ∨
  lane = trigger_Voice ∧ (textRuntime family = Some r ∨ transcriptionRuntime family = Some r).

Definition trigger_names (resolvedMode : string) (family : backendFamily)
    (stateOf : nat → activeConfigState) (trigger : string) (r : nat) : Prop :=
  lane_names family (Normalize trigger) r ∨
  trigger = trigger_All ∧ r ∈ uniqueBackendRuntimes family ∨
  FamilyTarget trigger = Some resolvedMode ∧ r ∈ uniqueBackendRuntimes family ∨
  ∃ id, ConfigTarget trigger = Some id ∧ r ∈ sharedRuntimesHoldingConfig stateOf family id.

Section unloads.
Context `{GoSort}.
Context (backendMode : string) (backendFamilies : string → option backendFamily)
  (stateOf : nat → activeConfigState).

Lemma lane_values (v : string) :
  existsb (String.eqb v)
    [trigger_Text; trigger_Image; trigger_Embeddings; trigger_Voice; trigger_Music] = true ↔
  v = trigger_Text ∨ v = trigger_Image ∨ v = trigger_Embeddings ∨ v = trigger_Voice ∨ v = trigger_Music.
Proof. simpl. rewrite !orb_true_iff, !String.eqb_eq. naive_solver. Qed.

Lemma Normalize_idemp v : Normalize (Normalize v) = Normalize v.
Proof.
  unfold Normalize. rewrite TrimSpace_ToLower by apply TrimSpace_idemp. apply ToLower_idemp.
Qed.

(** [normalizeTrigger] yields [family:] and [config:] triggers only by way of a
    colon; the plain words come from [Normalize]. *)
Lemma normalizeTrigger_plain v :
  normalizeTrigger v = Normalize v ∨
  (∃ t, normalizeTrigger v = (FamilyPrefix ++ t)%string) ∨
  (∃ t, normalizeTrigger v = (ConfigPrefix ++ t)%string).
Proof.
  unfold normalizeTrigger, Normalize. destruct (String.eqb_spec (TrimSpace v) "") as [->|]; [by left|].
  destruct (Cut _ _) as [[before after] found].
  destruct (_ && _); [right; left; eauto|]. destruct (_ && _); [right; right; eauto|by left].
Qed.

Lemma FamilyTarget_normal v mode :
  FamilyTarget v = Some mode → normalizeTrigger v = (FamilyPrefix ++ mode)%string.
Proof.
  unfold FamilyTarget. destruct (CutPrefix _ _) as [suffix []] eqn:E; simpl; [|done].
  destruct (mode_Valid suffix); simpl; [|done]. intros [= <-]. by apply CutPrefix_true in E.
Qed.

Lemma ConfigTarget_normal v id :
  ConfigTarget v = Some id → normalizeTrigger v = (ConfigPrefix ++ id)%string ∧ id ≠ "".
Proof.
  unfold ConfigTarget, normalizeTrigger. destruct (String.eqb_spec (TrimSpace v) "") as [->|]; [done|].
  destruct (Cut _ _) as [[before after] [|]]; simpl; [|done].
  destruct (EqualFold (TrimSpace before) "config") eqn:E; simpl; [|done].
  apply EqualFold_lower in E as ->; [|done..]. simpl.
  destruct (String.eqb_spec (TrimSpace after) ""); [done|]. intros [= <-]. done.
Qed.

(** What names a runtime has a normal form other than [none] and the empty one. *)
Lemma names_not_none resolvedMode family trigger r :
  trigger_names resolvedMode family stateOf trigger r →
  normalizeTrigger trigger ≠ "" ∧ normalizeTrigger trigger ≠ trigger_None.
Proof.
  intros [Hl|[[-> _]|[[Hf _]|(id&Hc&_)]]].
  - assert (Normalize trigger ≠ "" ∧ Normalize trigger ≠ trigger_None) as [H1 H2].
    { unfold lane_names in Hl. split; intros E; rewrite E in Hl; naive_solver. }
    destruct (normalizeTrigger_plain trigger) as [->|[[t ->]|[t ->]]]; done.
  - by vm_compute.
  - by rewrite (FamilyTarget_normal _ _ Hf).
  - by rewrite (proj1 (ConfigTarget_normal _ _ Hc)).
Qed.

Lemma IsNone_names_nothing policy resolvedMode family r :
  IsNone policy = true → ∀ trigger, trigger ∈ policy →
  ¬ trigger_names resolvedMode family stateOf trigger r.
Proof.
  intros Hnone trigger Hin Hnames. apply names_not_none in Hnames as [H1 H2].
  unfold IsNone in Hnone. pose proof (ResolveSelection_spec policy) as Hspec.
  destruct (ResolveSelection policy) as [[|v [|? ?]]|]; try done. apply String.eqb_eq in Hnone as ->.
  assert (trigger_set policy (normalizeTrigger trigger)) as Hset by (split; eauto).
  destruct Hspec as [_ [[Hno _]|(_&Hres&_)]]; [by apply (Hno _ Hset)|].
  apply Hres, list_elem_of_singleton in Hset. done.
Qed.

Lemma word_normal v :
  byte_free ":"%char (Normalize v) = true → normalizeTrigger v = Normalize v.
Proof.
  intros Hf. apply byte_free_lower in Hf; [|done..]. unfold normalizeTrigger, Normalize.
  destruct (String.eqb_spec (TrimSpace v) "") as [->|]; [done|]. by rewrite Cut_byte_none.
Qed.

Lemma lane_word v : ValidLane v = true → normalizeTrigger v = Normalize v.
Proof.
  intros Hv. unfold ValidLane in Hv. apply lane_values in Hv. apply word_normal.
  by destruct Hv as [-> | [-> | [-> | [-> | ->]]]].
Qed.

Lemma word_no_target v :
  byte_free ":"%char (normalizeTrigger v) = true → FamilyTarget v = None ∧ ConfigTarget v = None.
Proof.
  intros Hf. split.
  - destruct (FamilyTarget v) as [m|] eqn:E; [|done]. apply FamilyTarget_normal in E.
    by rewrite E in Hf.
  - destruct (ConfigTarget v) as [m|] eqn:E; [|done]. apply ConfigTarget_normal in E as [E _].
    by rewrite E in Hf.
Qed.

Lemma resolveBackendMode_idemp mode resolvedMode :
  resolveBackendMode backendMode mode = Ok resolvedMode →
  resolveBackendMode backendMode resolvedMode = Ok resolvedMode.
Proof.
  unfold resolveBackendMode. destruct (mode_Resolve mode backendMode) as [m|] eqn:E; [|done].
  intros [= <-]. unfold mode_Resolve in *.
  set (v := if String.eqb _ "" then _ else _) in E.
  assert (mode_Normalize v = v) as Hv
    by (unfold v, mode_Normalize; destruct (String.eqb _ ""); apply TrimSpace_idemp).
  clearbody v. destruct (mode_Valid v) eqn:Hvalid; [|done]. injection E as <-. rewrite Hv.
  destruct (String.eqb_spec v "") as [->|]; [by vm_compute in Hvalid|]. by rewrite Hvalid.
Qed.

Lemma lane_trigger_target lane family resolvedMode :
  familyFor backendMode backendFamilies resolvedMode = Ok family → ValidLane lane = true →
  ∃ l, runtimesForUnloadTarget backendMode backendFamilies resolvedMode lane = Ok l ∧
    ∀ r, Some r ∈ l ↔ lane_names family (Normalize lane) r.
Proof.
  intros Hf Hv. unfold runtimesForUnloadTarget. rewrite Hf. cbn [result_bind].
  unfold ValidLane in Hv. apply lane_values in Hv. unfold ResolveTarget, ValidTarget, lane_names.
  rewrite Normalize_idemp. destruct Hv as [-> | [-> | [-> | [-> | ->]]]]; simpl; (eexists; split; [done|]);
    intros r; set_unfold; naive_solver.
Qed.

Lemma runtimesForTrigger_spec resolvedMode family trigger :
  familyFor backendMode backendFamilies resolvedMode = Ok family →
  ∃ l, runtimesForTrigger backendMode backendFamilies stateOf resolvedMode family trigger = Ok l ∧
    ∀ r, Some r ∈ l ↔ trigger_names resolvedMode family stateOf trigger r.
Proof.
  intros Hf. unfold runtimesForTrigger, trigger_names.
  destruct (String.eqb_spec trigger trigger_None) as [->|Hnn].
  { eexists; split; [done|]. intros r. rewrite elem_of_nil. split; [done|].
    intros Hn. by apply names_not_none in Hn as [_ []]. }
  destruct (ValidLane trigger) eqn:Hlane; cbn [orb].
  { destruct (lane_trigger_target trigger family resolvedMode Hf Hlane) as (l&->&Hl).
    exists l. split; [done|]. intros r. rewrite Hl.
    pose proof (lane_word _ Hlane) as Hw. unfold ValidLane in Hlane. apply lane_values in Hlane.
    assert (byte_free ":"%char (Normalize trigger) = true) as Hfree
      by (by destruct Hlane as [-> | [-> | [-> | [-> | ->]]]]).
    destruct (word_no_target trigger) as [-> ->]; [by rewrite Hw|].
    assert (trigger ≠ trigger_All).
    { intros ->. vm_compute in Hlane. destruct Hlane as [[=]|[[=]|[[=]|[[=]|[=]]]]]. }
    split; [by left|]. by intros [?|[[? _]|[[[=] _]|(id&[=]&_)]]]. }
  assert (∀ r, ¬ lane_names family (Normalize trigger) r) as Hno.
  { intros r Hl. assert (ValidLane trigger = true); [|congruence]. apply lane_values.
    unfold lane_names in Hl. tauto. }
  destruct (String.eqb_spec trigger trigger_All) as [->|Hna].
  { unfold runtimesForUnloadTarget. rewrite Hf. cbn [result_bind].
    change (ResolveTarget trigger_All) with (Some trigger_All). cbv beta iota.
    rewrite String.eqb_refl. eexists; split; [done|]. intros r.
    rewrite list_elem_of_fmap. split; [intros (x&[= <-]&?); auto|].
    assert (FamilyTarget trigger_All = None ∧ ConfigTarget trigger_All = None) as [-> ->]
      by (split; vm_compute; reflexivity).
    intros [Hl|[[_ ?]|[[[=] _]|(id&[=]&_)]]]; [by destruct (Hno r)|eauto]. }
  destruct (FamilyTarget trigger) as [familyMode|] eqn:Hft.
  { assert (ConfigTarget trigger = None) as ->.
    { destruct (ConfigTarget trigger) as [id|] eqn:E; [|done].
      apply FamilyTarget_normal in Hft. apply ConfigTarget_normal in E as [E _].
      rewrite Hft in E. discriminate. }
    destruct (String.eqb_spec familyMode resolvedMode) as [->|Hne]; eexists; (split; [done|]);
      intros r; rewrite ?list_elem_of_fmap, ?elem_of_nil.
    - split; [intros (x&[= <-]&?); auto|]. specialize (Hno r).
      intros [?|[[? _]|[[_ ?]|(id&[=]&_)]]]; [done..|eauto].
    - split; [done|]. specialize (Hno r). intros [?|[[? _]|[[[= ->] _]|(id&[=]&_)]]]; done. }
  destruct (ConfigTarget trigger) as [id|]; eexists; (split; [done|]); intros r; specialize (Hno r);
    rewrite ?list_elem_of_fmap, ?elem_of_nil.
  - split; [intros (x&[= <-]&?); eauto 10|].
    intros [?|[[? _]|[[[=] _]|(id'&[= <-]&?)]]]; [done..|eauto].
  - split; [done|]. by intros [?|[[? _]|[[[=] _]|(id&[=]&_)]]].
Qed.

Lemma runtimesForTriggers_spec resolvedMode family policy :
  familyFor backendMode backendFamilies resolvedMode = Ok family →
  ∃ l, runtimesForTriggers backendMode backendFamilies stateOf resolvedMode family policy = Ok l ∧
    ∀ r, Some r ∈ l ↔ ∃ trigger, trigger ∈ policy ∧ trigger_names resolvedMode family stateOf trigger r.
Proof.
  intros Hf. induction policy as [|trigger rest IH]; cbn [runtimesForTriggers].
  - eexists; split; [done|]. set_solver.
  - destruct (runtimesForTrigger_spec resolvedMode family trigger Hf) as (l1&->&Hl1).
    destruct IH as (l2&->&Hl2). cbn [result_bind]. eexists; split; [done|].
    intros r. rewrite elem_of_app, Hl1, Hl2. setoid_rewrite elem_of_cons. naive_solver.
Qed.

(** C9. Before a config is loaded, its unload policy stops exactly these
    runtimes, each once: those of the requested mode's family that one of its
    triggers names, that no separate pool owns, that hold a config, and whose
    config (held or being loaded) does not serve the requested one. An error is
    returned only for an unknown mode or an unconfigured family, and then
    nothing is unloaded. *)
Theorem enforceUnloadPolicy_spec mode policy separatePool configFilename profile :
  match enforceUnloadPolicy backendMode backendFamilies stateOf mode (Ok policy) separatePool
          configFilename profile with
  | Ok unloaded =>
      NoDup unloaded ∧
      ∀ r, r ∈ unloaded ↔ ∃ resolvedMode family trigger,
        resolveBackendMode backendMode mode = Ok resolvedMode ∧
        backendFamilies resolvedMode = Some family ∧
        trigger ∈ policy ∧ trigger_names resolvedMode family stateOf trigger r ∧
        separatePoolOwns separatePool r = false ∧ filename (stateOf r) ≠ "" ∧
        activeRuntimeSupportsConfig (Some (stateOf r)) configFilename profile = false
  | Err _ => ∀ resolvedMode, resolveBackendMode backendMode mode = Ok resolvedMode →
      backendFamilies resolvedMode = None
  end.
Proof.
  unfold enforceUnloadPolicy. destruct (resolveBackendMode backendMode mode) as [m|e] eqn:Hm;
    cbn [result_bind]; [|done].
  destruct (IsNone policy) eqn:Hnone.
  { split; [constructor|]. intros r. rewrite elem_of_nil. split; [done|].
    intros (m'&family&trigger&_&_&Hin&Hn&_). by eapply IsNone_names_nothing. }
  unfold runtimesForUnloadPolicy. rewrite (resolveBackendMode_idemp mode m Hm). cbn [result_bind].
  unfold familyFor at 1. rewrite (resolveBackendMode_idemp mode m Hm). cbn [result_bind].
  destruct (backendFamilies m) as [family|] eqn:Hfam; cbn [result_bind]; [|by intros ? [= <-]].
  destruct (runtimesForTriggers_spec m family policy) as (l&->&Hl).
  { unfold familyFor. rewrite (resolveBackendMode_idemp mode m Hm). cbn [result_bind].
    by rewrite Hfam. }
  cbn [result_bind]. unfold runtimesToUnload. destruct (uniqueRuntimeList_spec l) as [Hnd Hin].
  split.
  - apply NoDup_ListNoDup, List.NoDup_filter, NoDup_ListNoDup, Hnd.
  - intros r. rewrite list_elem_of_In, List.filter_In, <-list_elem_of_In, Hin, Hl.
    rewrite andb_true_iff, !negb_true_iff, orb_false_iff, String.eqb_neq. naive_solver.
Qed.
End unloads.

(** C10. Unloading several runtimes reports success exactly when every one of
    them was unloaded, whatever order they finish in, and each distinct runtime
    is asked to unload exactly once. *)
Theorem unloadRuntimes_all {E} (unloadRuntime : nat → option E) runtimes finished :
  finishes runtimes finished →
  NoDup finished ∧ (∀ r, r ∈ finished ↔ Some r ∈ runtimes) ∧
  (unloadRuntimes unloadRuntime finished = None ↔
   ∀ r, Some r ∈ runtimes → unloadRuntime r = None).
Proof.
  intros Hfin. destruct (uniqueRuntimeList_spec runtimes) as [Hnd Hin].
  assert (∀ r, r ∈ finished ↔ Some r ∈ runtimes) as Hel by (intros r; by rewrite Hfin).
  split_and!; [by rewrite Hfin|done|].
  setoid_rewrite <-Hel. unfold unloadRuntimes. clear. induction finished as [|x rest IH]; simpl.
  - split; [intros _ r Hr; by apply elem_of_nil in Hr|done].
  - setoid_rewrite elem_of_cons. destruct (unloadRuntime x) eqn:Ex; [|naive_solver].
    split; [done|]. intros Hall. rewrite <-Ex. apply Hall. by left.
Qed.

Lemma unloadRuntimes_all_witness :
  NoDup [2; 1]%nat ∧ (∀ r, r ∈ [2; 1]%nat ↔ Some r ∈ [Some 1; None; Some 2; Some 1]%nat) ∧
  (unloadRuntimes (λ r, if Nat.eqb r 1%nat then Some "busy" else None) [2; 1]%nat = None ↔
   ∀ r, Some r ∈ [Some 1; None; Some 2; Some 1]%nat → (if Nat.eqb r 1%nat then Some "busy" else None) = None).
Proof.
  apply (unloadRuntimes_all (λ r, if Nat.eqb r 1%nat then Some "busy" else None)
    [Some 1; None; Some 2; Some 1]%nat [2; 1]%nat).
  unfold finishes. vm_compute. apply Permutation_swap.
Defined.
