(* ===== verification/FamilySwitch.v ===== *)
(** * Switching between backend families

    Model of [internal/proxy/backend_family.go]: a request leases the family of
    its backend mode; when another family is active it waits for every lease to
    end, stops the old family's backends and starts its own. Each step is one
    critical section, or one call of a family's start or stop function. *)

From stdpp Require Import gmap strings list.
From Stdlib Require Import Bool ZArith Lia.
From S2P Require Import Prelude.
Open Scope go_scope.
Open Scope Z_scope.

(** ** State *)

(** [changed] is the number of broadcasts so far. *)
Record backendFamilySwitchState : Type := mkSwitch {
  changed : nat;
  mode : string;
  switching : bool;
  leases : Z
}.
#[export] Instance eta_backendFamilySwitchState : Eta backendFamilySwitchState :=
  λ s, mkSwitch (changed s) (mode s) (switching s) (leases s).





Definition currentBackendMode (state : backendFamilySwitchState) (backendMode : string) : string :=
  if String.eqb (mode state) "" then backendMode else mode state.

(** ** The goroutines *)

Inductive familyCounter : Type :=
| LeaseParked (resolvedMode : string) (epoch : nat)
| LeaseStarting (resolvedMode : string)
| FamilyHeld (resolvedMode : string)
| AwaitingLeases (oldMode resolvedMode : string) (epoch : nat)
| StoppingOld (oldMode resolvedMode : string)
| StartingNew (nextMode resolvedMode : string)
| FamilyDone.

(** [started] are the families whose backends have been started and not
    stopped; the code does not keep it. *)
Record familySystem : Type := mkFamilySystem {
  family : backendFamilySwitchState;
  callers : gmap nat familyCounter;
  started : gset string
}.
#[export] Instance eta_familySystem : Eta familySystem :=
  λ s, mkFamilySystem (family s) (callers s) (started s).










(** ** The invariant *)

















(** ** What the family switch guarantees *)







(** ** An execution *)







