(* ===== verification/Float64.v ===== *)
(** * Go's [float64]

    IEEE-754 binary64 arithmetic, rounding to nearest even, as the Standard
    Library's executable specification computes it. Every operation of the
    source rounds on its own: the compiler does not fuse [x*y + z] on amd64.
    There is one NaN. *)

From stdpp Require Import base numbers list.
From Stdlib Require Import Bool ZArith Lia.
From Stdlib Require Import Floats.SpecFloat.
From S2P Require Import Prelude.
Open Scope Z_scope.

Notation float64 := spec_float.

Definition f_round (mantissa exponent : Z) : float64 := binary_normalize 53 1024 mantissa exponent false.

(** [float64(n)] *)
Definition f_of_Z (n : Z) : float64 := f_round n 0.

Definition f_zero : float64 := S754_zero false.
Definition f_one : float64 := f_of_Z 1.

Definition f_add : float64 → float64 → float64 := SFadd 53 1024.
Definition f_sub : float64 → float64 → float64 := SFsub 53 1024.
Definition f_mul : float64 → float64 → float64 := SFmul 53 1024.
Definition f_div : float64 → float64 → float64 := SFdiv 53 1024.
Definition f_sqrt : float64 → float64 := SFsqrt 53 1024.
Definition f_abs : float64 → float64 := SFabs.

(** [a < b], [a <= b] and [a == b]; all false when one side is NaN. *)
Definition f_ltb : float64 → float64 → bool := SFltb.
Definition f_leb : float64 → float64 → bool := SFleb.
Definition f_eqb : float64 → float64 → bool := SFeqb.

Definition f_isnan (f : float64) : bool := match f with S754_nan => true | _ => false end.
Definition f_isinf (f : float64) : bool := match f with S754_infinity _ => true | _ => false end.
Definition f_usable (f : float64) : bool := negb (f_isnan f || f_isinf f).

(** [math.Ceil] *)
Definition f_ceil (f : float64) : float64 :=
  match f with
  | S754_finite s m e =>
      if 0 <=? e then f
      else let scale := 2 ^ (- e) in
           if s then
             let q := Z.pos m / scale in
             if q =? 0 then S754_zero true else f_of_Z (- q)
           else f_of_Z (- (- Z.pos m / scale))
  | _ => f
  end.

(** [int(f)]: truncation toward zero; amd64 yields the least [int64] for a value
    that does not fit. *)
Definition f_to_int (f : float64) : Z :=
  match f with
  | S754_zero _ => 0
  | S754_finite s m e =>
      let magnitude := if 0 <=? e then Z.pos m * 2 ^ e else Z.pos m / 2 ^ (- e) in
      let n := if s then - magnitude else magnitude in
      if (int64_min <=? n) && (n <=? int64_max) then n else int64_min
  | _ => int64_min
  end.

(** ** The constants of the source *)

(** 0.05 *)
Definition f_five_percent : float64 := f_round 3602879701896397 (-56).
(** 0.1, the product [2 * 0.05] of constants *)
Definition f_ten_percent : float64 := f_round 3602879701896397 (-55).
(** 1e-9 *)
Definition f_nano : float64 := f_round 0x112E0BE826D695 (-82).
Definition f_half : float64 := f_round 1 (-1).

Example five_percent_ex : f_ltb (f_mul f_five_percent (f_of_Z 20)) (f_of_Z 1) = false
  ∧ f_eqb (f_mul f_five_percent (f_of_Z 20)) f_one = true.
Proof. by vm_compute. Qed.
Example nano_ex : f_eqb (f_mul f_nano (f_of_Z 1000000000)) f_one = true.
Proof. by vm_compute. Qed.
Example ceil_ex : f_to_int (f_ceil (f_div (f_of_Z 7) (f_of_Z 2))) = 4.
Proof. by vm_compute. Qed.

(** ** The order on numbers

    A lexicographic key in which [SFcompare] is the order of the integers. *)
Definition f_key (f : float64) : Z * Z * Z :=
  match f with
  | S754_infinity true => (-2, 0, 0)
  | S754_finite true m e => (-1, - e, - Z.pos m)
  | S754_zero _ => (0, 0, 0)
  | S754_finite false m e => (1, e, Z.pos m)
  | S754_infinity false => (2, 0, 0)
  | S754_nan => (3, 0, 0)
  end.

Definition key_lt (a b : Z * Z * Z) : Prop :=
  a.1.1 < b.1.1 ∨ a.1.1 = b.1.1 ∧ (a.1.2 < b.1.2 ∨ a.1.2 = b.1.2 ∧ a.2 < b.2).

Definition is_num (f : float64) : Prop := f_isnan f = false.

Lemma f_compare_key f g :
  is_num f → is_num g →
  match SFcompare f g with
  | Some Lt => key_lt (f_key f) (f_key g)
  | Some Eq => f_key f = f_key g
  | Some Gt => key_lt (f_key g) (f_key f)
  | None => False
  end.
Proof.
  intros Hf Hg. unfold key_lt. destruct f as [[]|[]| |[] m e], g as [[]|[]| |[] n d]; try done;
    simpl; try lia.
  - destruct (Z.compare_spec e d) as [->|?|?]; simpl; [|lia|lia].
    change (Pos.compare_cont Eq m n) with (Pos.compare m n).
    destruct (Pos.compare_spec m n) as [->|?|?]; simpl; [done|lia|lia].
  - destruct (Z.compare_spec e d) as [->|?|?]; simpl; [|lia|lia].
    change (Pos.compare_cont Eq m n) with (Pos.compare m n).
    destruct (Pos.compare_spec m n) as [->|?|?]; simpl; [done|lia|lia].
Qed.

Lemma f_compare_nan f g : f_isnan f || f_isnan g = true → SFcompare f g = None.
Proof. destruct f as [[]|[]| |[] m e], g as [[]|[]| |[] n d]; done. Qed.

Lemma f_ltb_num f g : f_ltb f g = true → is_num f ∧ is_num g.
Proof.
  unfold f_ltb, SFltb, is_num. intros H. destruct (f_isnan f || f_isnan g) eqn:E.
  - by rewrite (f_compare_nan f g E) in H.
  - by apply orb_false_iff in E.
Qed.

Lemma f_ltb_key f g : is_num f → is_num g → f_ltb f g = true ↔ key_lt (f_key f) (f_key g).
Proof.
  intros Hf Hg. pose proof (f_compare_key f g Hf Hg) as Hc. unfold f_ltb, SFltb, key_lt in *.
  destruct (SFcompare f g) as [[]|]; [|done| |done].
  - rewrite Hc. split; [done|]. intros. lia.
  - split; [done|]. intros. lia.
Qed.

Lemma f_leb_key f g : is_num f → is_num g → f_leb f g = true ↔ ¬ key_lt (f_key g) (f_key f).
Proof.
  intros Hf Hg. pose proof (f_compare_key f g Hf Hg) as Hc. unfold f_leb, SFleb, key_lt in *.
  destruct (SFcompare f g) as [[]|]; [| | |done].
  - rewrite Hc. split; [|done]. intros _. lia.
  - split; [|done]. intros _. lia.
  - split; [done|]. intros. lia.
Qed.

Lemma f_eqb_key f g : is_num f → is_num g → f_eqb f g = true ↔ f_key f = f_key g.
Proof.
  intros Hf Hg. pose proof (f_compare_key f g Hf Hg) as Hc. unfold f_eqb, SFeqb, key_lt in *.
  destruct (SFcompare f g) as [[]|]; [by rewrite Hc| | |done].
  - split; [done|]. intros E. rewrite E in Hc. lia.
  - split; [done|]. intros E. rewrite E in Hc. lia.
Qed.

Lemma f_leb_ltb f g : is_num f → is_num g → f_leb f g = negb (f_ltb g f).
Proof.
  intros Hf Hg. apply eq_true_iff_eq. rewrite negb_true_iff, <-not_true_iff_false.
  by rewrite f_leb_key, f_ltb_key.
Qed.

Lemma f_ltb_asym f g : f_ltb f g = true → f_ltb g f = false.
Proof.
  intros H. destruct (f_ltb_num f g H) as [Hf Hg]. apply not_true_iff_false.
  rewrite f_ltb_key in * by done. unfold key_lt in *. lia.
Qed.

Lemma f_ltb_irrefl f : f_ltb f f = false.
Proof. destruct (f_ltb f f) eqn:E; [|done]. by rewrite (f_ltb_asym _ _ E) in E. Qed.

Lemma f_ltb_trans f g h : f_ltb f g = true → f_ltb g h = true → f_ltb f h = true.
Proof.
  intros H1 H2. destruct (f_ltb_num f g H1) as [Hf Hg], (f_ltb_num g h H2) as [_ Hh].
  rewrite f_ltb_key in * by done. unfold key_lt in *. lia.
Qed.

Lemma f_ltb_negtrans f g h :
  is_num f → is_num g → is_num h → f_ltb f g = false → f_ltb g h = false → f_ltb f h = false.
Proof.
  intros Hf Hg Hh. rewrite <-!not_true_iff_false, !f_ltb_key by done. unfold key_lt. lia.
Qed.

Lemma f_eqb_ltb f g :
  is_num f → is_num g → f_eqb f g = negb (f_ltb f g) && negb (f_ltb g f).
Proof.
  intros Hf Hg. apply eq_true_iff_eq.
  rewrite andb_true_iff, !negb_true_iff, <-!not_true_iff_false, f_eqb_key, !f_ltb_key by done.
  unfold key_lt. destruct (f_key f) as [[a b] c], (f_key g) as [[a' b'] c']. simpl.
  split; [intros [= -> -> ->]; lia|]. intros. assert (a = a' ∧ b = b' ∧ c = c') as (->&->&->) by lia.
  done.
Qed.

Lemma f_usable_num f : f_usable f = true → is_num f.
Proof. unfold f_usable, is_num. by destruct (f_isnan f). Qed.
