(* ===== verification/SchedulingCost.v ===== *)
(** * Scheduling cost: how long a job takes on a node

    Model of [internal/schedulingcost]: the size of a job ([Work]), the least
    squares fit of its duration, the solver behind it, token profiles, and the
    table of fits that nodes exchange. *)

From stdpp Require Import gmap strings list.
From Stdlib Require Import Bool ZArith Lia.
From Stdlib Require Import Floats.SpecFloat.
From S2P Require Import Prelude.
From S2P Require Import Float64.
Open Scope go_scope.
Open Scope Z_scope.

(** ** Work ([work.go]) *)

Definition MaxWorkTerms : nat := 2.

(** A Go array of [MaxWorkTerms] floats. *)
Record floats2 : Type := mkFloats { at0 : float64; at1 : float64 }.

Definition floats0 : floats2 := mkFloats f_zero f_zero.
Definition at_ (a : floats2) (index : nat) : float64 :=
  match index with O => at0 a | S O => at1 a | _ => f_zero end.
Definition map2 (f : nat → float64) (arity : nat) : floats2 :=
  mkFloats (if (0 <? arity)%nat then f 0%nat else f_zero) (if (1 <? arity)%nat then f 1%nat else f_zero).

(** [copy(array[:], list)] into a zero array, and [array[:arity]]. *)
Definition copy2 (l : list float64) : floats2 :=
  match l with [] => floats0 | [x] => mkFloats x f_zero | x :: y :: _ => mkFloats x y end.
Definition slice2 (a : floats2) (arity : nat) : list float64 :=
  match arity with O => [] | S O => [at0 a] | _ => [at0 a; at1 a] end.

Record Work : Type := mkWork { terms : floats2; arity : nat }.

Definition noWork : Work := mkWork floats0 0.

Definition ImageWork (pixelSteps : float64) : Work :=
  if f_leb pixelSteps f_zero then noWork else mkWork (mkFloats pixelSteps f_zero) 1.

Definition TextWork (inputTokens outputTokens : float64) : Work :=
  if f_leb inputTokens f_zero && f_leb outputTokens f_zero then noWork
  else
    let inputTokens := if f_ltb inputTokens f_zero then f_zero else inputTokens in
    let outputTokens := if f_ltb outputTokens f_zero then f_zero else outputTokens in
    mkWork (mkFloats inputTokens outputTokens) 2.

Definition Term (work : Work) (index : nat) : float64 :=
  if (arity work <=? index)%nat then f_zero else at_ (terms work) index.

Definition Terms (work : Work) : list float64 := slice2 (terms work) (arity work).

Definition WorkFromTerms (l : list float64) : option Work :=
  if (length l =? 0)%nat || (MaxWorkTerms <? length l)%nat then None
  else Some (mkWork (copy2 l) (length l)).

Definition indexes (n : nat) : list nat := seq 0 n.

Definition IsMeasuredSize (work : Work) : bool :=
  (0 <? arity work)%nat
  && forallb (λ i, negb (f_ltb (at_ (terms work) i) f_zero)) (indexes (arity work))
  && existsb (λ i, f_ltb f_zero (at_ (terms work) i)) (indexes (arity work)).

Definition Work_Add (work other : Work) : option Work :=
  if (arity work =? 0)%nat then Some other
  else if (arity other =? 0)%nat then Some work
  else if negb (arity work =? arity other)%nat then None
  else Some (mkWork (map2 (λ i, f_add (at_ (terms work) i) (at_ (terms other) i)) (arity work))
               (arity work)).

Definition Scaled (work : Work) (factor : float64) : Work :=
  mkWork (map2 (λ i, f_mul (at_ (terms work) i) factor) (arity work)) (arity work).

Definition Mean (work : Work) (count : Z) : Work :=
  if count <=? 0 then noWork else Scaled work (f_div f_one (f_of_Z count)).

(** ** The solver ([solve.go]) *)

Notation matrix := (list (list float64)).

Definition entry (m : matrix) (row col : nat) : float64 := nth col (nth row m []) f_zero.

Definition largestAbsoluteEntry (m : matrix) : float64 :=
  fold_left (λ largest row, fold_left (λ largest value,
      if f_ltb largest (f_abs value) then f_abs value else largest) row largest) m f_zero.

Definition largestPivotRow (augmented : matrix) (pivotIndex : nat) : nat * float64 :=
  fold_left (λ best row,
      let value := f_abs (entry augmented row pivotIndex) in
      if f_ltb best.2 value then (row, value) else best)
    (seq (S pivotIndex) (length augmented - S pivotIndex))
    (pivotIndex, f_abs (entry augmented pivotIndex pivotIndex)).

(** One row below the pivot; columns left of the pivot keep their values. *)
Definition eliminateRow (pivotRow : list float64) (pivotIndex : nat) (row : list float64)
  : list float64 :=
  let factor := f_div (nth pivotIndex row f_zero) (nth pivotIndex pivotRow f_zero) in
  if f_eqb factor f_zero then row
  else imap (λ col value, if (pivotIndex <=? col)%nat
                          then f_sub value (f_mul factor (nth col pivotRow f_zero)) else value) row.

Definition eliminateBelowPivot (augmented : matrix) (pivotIndex : nat) : matrix :=
  let pivotRow := nth pivotIndex augmented [] in
  imap (λ r row, if (pivotIndex <? r)%nat then eliminateRow pivotRow pivotIndex row else row) augmented.

Definition swapRows (m : matrix) (a b : nat) : matrix :=
  <[a := nth b m []]> (<[b := nth a m []]> m).

Fixpoint eliminateFrom (pivots : list nat) (augmented : matrix) (threshold : float64)
  : option matrix :=
  match pivots with
  | [] => Some augmented
  | pivotIndex :: rest =>
      let '(bestRow, bestValue) := largestPivotRow augmented pivotIndex in
      if f_ltb bestValue threshold then None
      else eliminateFrom rest
             (eliminateBelowPivot (swapRows augmented pivotIndex bestRow) pivotIndex) threshold
  end.

Definition eliminateWithPartialPivoting (augmented : matrix) (threshold : float64) : option matrix :=
  eliminateFrom (indexes (length augmented)) augmented threshold.

(** From the last row up; [solution] holds the values found so far, for the
    columns right of the row. *)
Fixpoint backSubstituteFrom (augmented : matrix) (n row : nat) (solution : list float64)
  : option (list float64) :=
  match row with
  | O => Some solution
  | S row =>
      let sum := fold_left (λ sum col,
          f_sub sum (f_mul (entry augmented row col) (nth (col - S row) solution f_zero)))
        (seq (S row) (n - S row)) (entry augmented row n) in
      let value := f_div sum (entry augmented row row) in
      if f_usable value then backSubstituteFrom augmented n row (value :: solution) else None
  end.

Definition backSubstitute (augmented : matrix) : option (list float64) :=
  backSubstituteFrom augmented (length augmented) (length augmented) [].

Definition solveNormalEquations (moments : matrix) (targets : list float64)
  : option (list float64) :=
  let n := length targets in
  if (n =? 0)%nat || negb (length moments =? n)%nat then None
  else if negb (forallb (λ row, (length row =? n)%nat) moments) then None
  else
    let augmented := zip_with (λ row target, row ++ [target]) moments targets in
    let scale := largestAbsoluteEntry moments in
    if f_eqb scale f_zero || negb (f_usable scale) then None
    else augmented ← eliminateWithPartialPivoting augmented (f_mul f_nano scale);
         backSubstitute augmented.

(** ** Fits ([fit.go]) *)

Record Sample : Type := mkSample {
  s_NodeID : string; s_ModelID : string; s_Section : string;
  s_Arity : Z; s_Count : Z;
  SumDuration : float64;
  SumWork : floats2;
  SumWorkDuration : floats2;
  SumWorkProduct0 : floats2;
  SumWorkProduct1 : floats2
}.

Definition SumWorkProduct (sample : Sample) (row col : nat) : float64 :=
  match row with O => at_ (SumWorkProduct0 sample) col | S O => at_ (SumWorkProduct1 sample) col
               | _ => f_zero end.

Record Estimate : Type := mkEstimate {
  BaseMS : float64; SlopeMS : floats2; e_Arity : nat; e_Samples : Z;
  Uniform : bool; UniformWork : floats2
}.

Definition workSpreadDenominator (sample : Sample) (index : nat) : float64 :=
  f_sub (f_mul (f_of_Z (s_Count sample)) (SumWorkProduct sample index index))
    (f_mul (at_ (SumWork sample) index) (at_ (SumWork sample) index)).

Definition relativeWorkSpreadIsMeasurable (denominator sumWork : float64) : bool :=
  if f_leb denominator f_zero || negb (f_usable denominator) then false
  else if f_leb sumWork f_zero then false
  else let threshold := f_mul f_five_percent sumWork in
       f_leb (f_mul threshold threshold) denominator.

Definition regressorIsMeasurable (sample : Sample) (index : nat) : bool :=
  relativeWorkSpreadIsMeasurable (workSpreadDenominator sample index) (at_ (SumWork sample) index).

Definition everyRegressorIsUniform (sample : Sample) (n : nat) : bool :=
  forallb (λ i, negb (regressorIsMeasurable sample i)) (indexes n).

Definition everyRegressorIsMeasurable (sample : Sample) (n : nat) : bool :=
  forallb (regressorIsMeasurable sample) (indexes n).

Definition uniformEstimate (sample : Sample) (n : nat) : Estimate :=
  let count := f_of_Z (s_Count sample) in
  mkEstimate (f_div (SumDuration sample) count) floats0 n (s_Count sample) true
    (map2 (λ i, f_div (at_ (SumWork sample) i) count) n).

Definition normalEquationsFor (sample : Sample) (n : nat) : matrix * list float64 :=
  let count := f_of_Z (s_Count sample) in
  ((count :: ((λ col, at_ (SumWork sample) col) <$> indexes n))
     :: ((λ row, at_ (SumWork sample) row :: ((λ col, SumWorkProduct sample row col) <$> indexes n))
           <$> indexes n),
   SumDuration sample :: ((λ row, at_ (SumWorkDuration sample) row) <$> indexes n)).

Definition usableSlope (slope : float64) : bool := f_usable slope && negb (f_ltb slope f_zero).

Definition estimateFromSolution (solution : list float64) (n : nat) (sampleCount : Z)
  : option Estimate :=
  let base := nth 0 solution f_zero in
  if negb (f_usable base) then None
  else if negb (forallb (λ i, usableSlope (nth (S i) solution f_zero)) (indexes n)) then None
  else
    let base := if f_ltb base f_zero then f_zero else base in
    Some (mkEstimate base (map2 (λ i, nth (S i) solution f_zero) n) n sampleCount false floats0).

Definition minSamplesFloor : Z := 2.

Definition Fit (sample : Sample) (minSamples : Z) : option Estimate :=
  let minSamples := if minSamples <? minSamplesFloor then minSamplesFloor else minSamples in
  if (s_Arity sample <? 1) || (Z.of_nat MaxWorkTerms <? s_Arity sample) then None
  else if s_Count sample <? minSamples then None
  else
    let n := Z.to_nat (s_Arity sample) in
    if everyRegressorIsUniform sample n then Some (uniformEstimate sample n)
    else if negb (everyRegressorIsMeasurable sample n) then None
    else
      let '(moments, targets) := normalEquationsFor sample n in
      solution ← solveNormalEquations moments targets;
      estimateFromSolution solution n (s_Count sample).

Definition matchesUniformWork (estimate : Estimate) (work : Work) : bool :=
  forallb (λ i, negb (f_ltb (f_mul f_ten_percent (at_ (UniformWork estimate) i))
                        (f_abs (f_sub (Term work i) (at_ (UniformWork estimate) i)))))
    (indexes (e_Arity estimate)).

(** The loop that adds the priced terms to a starting cost. *)
Definition addTerms (estimate : Estimate) (work : Work) (start : float64) : float64 :=
  fold_left (λ total i,
      let term := Term work i in
      let term := if f_ltb term f_zero then f_zero else term in
      f_add total (f_mul (at_ (SlopeMS estimate) i) term))
    (indexes (e_Arity estimate)) start.

Definition PredictMS (estimate : Estimate) (work : Work) : option float64 :=
  if negb (arity work =? e_Arity estimate)%nat then None
  else if Uniform estimate && negb (matchesUniformWork estimate work) then None
  else Some (addTerms estimate work (BaseMS estimate)).

Definition PredictQueueMS (estimate : Estimate) (count : Z) (totalWork : Work) : option float64 :=
  if count <=? 0 then
    if negb (arity totalWork =? 0)%nat && negb (arity totalWork =? e_Arity estimate)%nat
    then None else Some f_zero
  else if negb (arity totalWork =? e_Arity estimate)%nat then None
  else if Uniform estimate && negb (matchesUniformWork estimate (Mean totalWork count)) then None
  else Some (addTerms estimate totalWork (f_mul (f_of_Z count) (BaseMS estimate))).

Record LoadSample : Type := mkLoadSample {
  l_NodeID : string; l_ConfigFilename : string; l_Count : Z; l_SumDuration : float64
}.

Definition FitLoad (sample : LoadSample) (minSamples : Z) : option float64 :=
  let minSamples := if minSamples <? 1 then 1 else minSamples in
  if (l_Count sample <? minSamples) || f_leb (l_SumDuration sample) f_zero then None
  else let mean := f_div (l_SumDuration sample) (f_of_Z (l_Count sample)) in
       if f_usable mean then Some mean else None.

(** ** Token profiles ([token_profile.go]) *)

Record TokenProfileSample : Type := mkProfileSample {
  p_NodeID : string; p_ModelID : string; p_Count : Z;
  SumRatio : float64; SumRatioSquared : float64; SumOutput : float64; SumOutputSquared : float64
}.

Record TokenProfile : Type := mkTokenProfile {
  ConservativeBytesPerToken : float64; ReservedOutputTokens : float64; tp_Samples : Z
}.

Definition safetyMarginStdDevs : float64 := f_of_Z 2.
Definition minPlausibleBytesPerToken : float64 := f_half.
Definition maxPlausibleBytesPerToken : float64 := f_of_Z 64.

Definition ratioIsPlausible (meanRatio : float64) : bool :=
  f_usable meanRatio && f_leb minPlausibleBytesPerToken meanRatio
  && f_leb meanRatio maxPlausibleBytesPerToken.

Definition populationStdDev (count sum sumSquared : float64) : float64 :=
  let mean := f_div sum count in
  let variance := f_sub (f_div sumSquared count) (f_mul mean mean) in
  f_sqrt (if f_ltb variance f_zero then f_zero else variance).

Definition conservativeBytesPerToken (sample : TokenProfileSample) (count meanRatio : float64)
  : float64 :=
  let ratioStdDev := populationStdDev count (SumRatio sample) (SumRatioSquared sample) in
  let conservativeRatio := f_sub meanRatio (f_mul safetyMarginStdDevs ratioStdDev) in
  if f_ltb conservativeRatio minPlausibleBytesPerToken then minPlausibleBytesPerToken
  else conservativeRatio.

Definition reservedOutputTokens (sample : TokenProfileSample) (count : float64) : float64 :=
  let meanOutput := f_div (SumOutput sample) count in
  let outputStdDev := populationStdDev count (SumOutput sample) (SumOutputSquared sample) in
  let reserved := f_add meanOutput (f_mul safetyMarginStdDevs outputStdDev) in
  if negb (f_usable reserved) || f_ltb reserved f_zero then meanOutput else reserved.

Definition FitTokenProfile (sample : TokenProfileSample) (minSamples : Z) : option TokenProfile :=
  let minSamples := if minSamples <? 1 then 1 else minSamples in
  if p_Count sample <? minSamples then None
  else if f_leb (SumRatio sample) f_zero || f_leb (SumOutput sample) f_zero then None
  else
    let count := f_of_Z (p_Count sample) in
    let meanRatio := f_div (SumRatio sample) count in
    if negb (ratioIsPlausible meanRatio) then None
    else Some (mkTokenProfile (conservativeBytesPerToken sample count meanRatio)
                 (reservedOutputTokens sample count) (p_Count sample)).

Definition EstimatePromptTokens (profile : TokenProfile) (promptBytes : Z) : option Z :=
  if f_leb (ConservativeBytesPerToken profile) f_zero || (promptBytes <=? 0) then None
  else let tokens := f_div (f_of_Z promptBytes) (ConservativeBytesPerToken profile) in
       if negb (f_usable tokens) then None else Some (f_to_int (f_ceil tokens)).

Definition largestReserve (measured clientRequested floor : float64) : float64 :=
  let largest := measured in
  let largest := if f_ltb largest clientRequested then clientRequested else largest in
  if f_ltb largest floor then floor else largest.

Definition RequiredContext (profile : TokenProfile) (promptBytes clientMaxTokens reserveFloor : Z)
  : option Z :=
  promptTokens ← EstimatePromptTokens profile promptBytes;
  let reserved := largestReserve (ReservedOutputTokens profile) (f_of_Z clientMaxTokens)
                    (f_of_Z reserveFloor) in
  Some (int64_wrap (promptTokens + f_to_int (f_ceil reserved))).

(** ** The table of fits ([table.go]) *)

Notation ModelKey := (string * string * string)%type.
Notation LoadKey := (string * string)%type.
Notation ProfileKey := (string * string)%type.

Record Table : Type := mkTable {
  estimates : gmap ModelKey Estimate;
  loads : gmap LoadKey float64;
  profiles : gmap ProfileKey TokenProfile
}.

(** The loop of [Build] and [Merge] over one kind of entry: a later entry with the
    same key replaces an earlier one. *)
Definition collect {A K V} `{Countable K} (entry_of : A → option (K * V)) (m : gmap K V) (l : list A)
  : gmap K V :=
  fold_left (λ m a, match entry_of a with Some (k, v) => <[k := v]> m | None => m end) l m.

Definition Build (samples : list Sample) (loadSamples : list LoadSample)
    (profileSamples : list TokenProfileSample) (minSamples : Z) : Table :=
  mkTable
    (collect (λ s, e ← Fit s minSamples; Some ((s_NodeID s, s_ModelID s, s_Section s), e)) ∅ samples)
    (collect (λ s, mean ← FitLoad s 1; Some ((l_NodeID s, l_ConfigFilename s), mean)) ∅ loadSamples)
    (collect (λ s, p ← FitTokenProfile s minSamples; Some ((p_NodeID s, p_ModelID s), p)) ∅
       profileSamples).

(** Lookups; a nil table is [None]. *)
Definition t_Estimate (table : option Table) (key : ModelKey) : option Estimate :=
  t ← table; estimates t !! key.
Definition t_PredictMS (table : option Table) (key : ModelKey) (work : Work) : option float64 :=
  e ← t_Estimate table key; PredictMS e work.
Definition t_PredictQueueMS (table : option Table) (key : ModelKey) (count : Z) (totalWork : Work)
  : option float64 :=
  e ← t_Estimate table key; PredictQueueMS e count totalWork.
Definition LoadMS (table : option Table) (key : LoadKey) : option float64 :=
  t ← table; loads t !! key.
Definition t_TokenProfile (table : option Table) (key : ProfileKey) : option TokenProfile :=
  t ← table; profiles t !! key.

Record ModelCost : Type := mkModelCost {
  mc_ModelID : string; mc_Section : string; mc_BaseMS : float64;
  SlopesMS : list float64; mc_Samples : Z; mc_UniformWork : list float64
}.
Record LoadCost : Type := mkLoadCost { lc_ConfigFilename : string; lc_LoadMS : float64 }.
Record TokenCost : Type := mkTokenCost {
  tc_ModelID : string; tc_Conservative : float64; tc_Reserved : float64; tc_Samples : Z
}.
Record NodeCosts : Type := mkNodeCosts {
  Models : list ModelCost; Loads : list LoadCost; Tokens : list TokenCost
}.

Definition modelCost (kv : ModelKey * Estimate) : ModelCost :=
  let '((_, modelID, section), estimate) := kv in
  mkModelCost modelID section (BaseMS estimate) (slice2 (SlopeMS estimate) (e_Arity estimate))
    (e_Samples estimate)
    (if Uniform estimate then slice2 (UniformWork estimate) (e_Arity estimate) else []).

Definition loadCost (kv : LoadKey * float64) : LoadCost := mkLoadCost kv.1.2 kv.2.

Definition tokenCost (kv : ProfileKey * TokenProfile) : TokenCost :=
  mkTokenCost kv.1.2 (ConservativeBytesPerToken kv.2) (ReservedOutputTokens kv.2) (tp_Samples kv.2).

Definition ModelCosts (table : Table) : list ModelCost := modelCost <$> map_to_list (estimates table).
Definition LoadCosts (table : Table) : list LoadCost := loadCost <$> map_to_list (loads table).
Definition TokenCosts (table : Table) : list TokenCost := tokenCost <$> map_to_list (profiles table).

(** What [NodeCosts] may report: the iteration order of Go's maps is any order. *)
Definition reports (table : Table) (costs : NodeCosts) : Prop :=
  Models costs ≡ₚ ModelCosts table ∧ Loads costs ≡ₚ LoadCosts table ∧ Tokens costs ≡ₚ TokenCosts table.

Definition mergeModel (nodeID : string) (cost : ModelCost) : option (ModelKey * Estimate) :=
  let n := length (SlopesMS cost) in
  if (n <? 1)%nat || (MaxWorkTerms <? n)%nat then None
  else
    let uniform := (length (mc_UniformWork cost) =? n)%nat in
    Some ((nodeID, mc_ModelID cost, mc_Section cost),
          mkEstimate (mc_BaseMS cost) (copy2 (SlopesMS cost)) n (mc_Samples cost) uniform
            (if uniform then copy2 (mc_UniformWork cost) else floats0)).

Definition mergeLoad (nodeID : string) (cost : LoadCost) : option (LoadKey * float64) :=
  Some ((nodeID, lc_ConfigFilename cost), lc_LoadMS cost).

Definition mergeToken (nodeID : string) (cost : TokenCost) : option (ProfileKey * TokenProfile) :=
  Some ((nodeID, tc_ModelID cost),
        mkTokenProfile (tc_Conservative cost) (tc_Reserved cost) (tc_Samples cost)).

Definition mergeNode (table : Table) (node : string * NodeCosts) : Table :=
  mkTable (collect (mergeModel node.1) (estimates table) (Models node.2))
    (collect (mergeLoad node.1) (loads table) (Loads node.2))
    (collect (mergeToken node.1) (profiles table) (Tokens node.2)).

(** [Merge] over the nodes in some iteration order. *)
Definition Merge (costsByNode : list (string * NodeCosts)) : Table :=
  fold_left mergeNode costsByNode (mkTable ∅ ∅ ∅).

(** ** What fits are worth *)





(** ** The solver never divides by a small pivot *)

Lemma largestPivotRow_spec m k :
  let '(row, value) := largestPivotRow m k in
  value = f_abs (entry m row k) ∧ (row = k ∨ (k < row < length m)%nat).
Proof.
  unfold largestPivotRow.
  assert (∀ rows best, Forall (λ r, (k < r < length m)%nat) rows →
    best.2 = f_abs (entry m best.1 k) ∧ (best.1 = k ∨ (k < best.1 < length m)%nat) →
    let r := fold_left (λ best row,
      let value := f_abs (entry m row k) in
      if f_ltb best.2 value then (row, value) else best) rows best in
    r.2 = f_abs (entry m r.1 k) ∧ (r.1 = k ∨ (k < r.1 < length m)%nat)) as Hfold.
  { induction rows as [|r rows IH]; intros best Hrows Hbest; simpl; [done|].
    apply Forall_cons in Hrows as [Hr Hrows]. apply IH; [done|]. case_match; [simpl; auto|done]. }
  specialize (Hfold (seq (S k) (length m - S k)) (k, f_abs (entry m k k))).
  destruct (fold_left _ _ _) as [row value]. apply Hfold; [|simpl; auto].
  apply Forall_forall. intros r Hr%elem_of_seq. lia.
Qed.

Lemma nth_imap {A} (f : nat → A → A) (l : list A) d k :
  (k < length l)%nat → nth k (imap f l) d = f k (nth k l d).
Proof.
  revert f k. induction l as [|x l IH]; intros f [|k] Hk; simpl in *; [lia..|done|].
  rewrite IH by lia. done.
Qed.

Lemma nth_insert {A} (l : list A) d k j x :
  nth k (<[j := x]> l) d = if decide (k = j ∧ (j < length l)%nat) then x else nth k l d.
Proof.
  rewrite !nth_lookup. case_decide as H.
  - destruct H as [-> H]. by rewrite list_lookup_insert_eq.
  - destruct (decide (k = j)) as [->|].
    + rewrite list_insert_ge by lia. done.
    + by rewrite list_lookup_insert_ne.
Qed.

Lemma eliminate_step m k row :
  (k < length m)%nat → row = k ∨ (k < row < length m)%nat →
  let m' := eliminateBelowPivot (swapRows m k row) k in
  length m' = length m ∧ nth k m' [] = nth row m [] ∧
  ∀ i, (i < k)%nat → nth i m' [] = nth i m [].
Proof.
  intros Hk Hrow. unfold eliminateBelowPivot, swapRows. cbv zeta.
  assert (length (<[k := nth row m []]> (<[row := nth k m []]> m)) = length m) as Hlen
    by (by rewrite !length_insert).
  split_and!.
  - by rewrite length_imap.
  - rewrite nth_imap by lia. rewrite Nat.ltb_irrefl, nth_insert, length_insert.
    rewrite decide_True by done. done.
  - intros i Hi. rewrite nth_imap by lia.
    assert (k <? i = false)%nat as -> by (apply Nat.ltb_ge; lia).
    rewrite !nth_insert. rewrite !decide_False by lia. done.
Qed.

Lemma eliminateFrom_spec m threshold k m' :
  (k ≤ length m)%nat →
  eliminateFrom (seq k (length m - k)) m threshold = Some m' →
  length m' = length m ∧ (∀ i, (i < k)%nat → nth i m' [] = nth i m []) ∧
  ∀ i, (k ≤ i < length m)%nat → f_ltb (f_abs (entry m' i i)) threshold = false.
Proof.
  remember (length m - k)%nat as left eqn:Hleft. revert m k Hleft.
  induction left as [|left IH]; intros m k Hleft Hk Hel; simpl in Hel.
  - simplify_eq. split_and!; [done|done|lia].
  - pose proof (largestPivotRow_spec m k) as Hpivot.
    destruct (largestPivotRow m k) as [row value]. destruct Hpivot as [-> Hrow].
    destruct (f_ltb _ threshold) eqn:Hbig; [done|].
    destruct (eliminate_step m k row ltac:(lia) Hrow) as (Hlen&Hpk&Hother).
    apply IH in Hel as (Hlen'&Hsame&Hdiag); [|lia|lia]. rewrite Hlen in *.
    split_and!; [done| |].
    + intros i Hi. rewrite Hsame by lia. apply Hother. lia.
    + intros i Hi. destruct (decide (i = k)) as [->|]; [|apply Hdiag; lia].
      unfold entry in *. by rewrite Hsame, Hpk by lia.
Qed.

(** C13. Gaussian elimination with partial pivoting either gives up or leaves a
    matrix in which no pivot is below the threshold, so back substitution never
    divides by one that is. *)
Theorem elimination_pivots augmented threshold reduced :
  eliminateWithPartialPivoting augmented threshold = Some reduced →
  length reduced = length augmented ∧
  ∀ i, (i < length augmented)%nat → f_ltb (f_abs (entry reduced i i)) threshold = false.
Proof.
  unfold eliminateWithPartialPivoting, indexes. intros H.
  rewrite <-(Nat.sub_0_r (length augmented)) in H at 1.
  apply eliminateFrom_spec in H as (?&_&Hd); [|lia]. split; [done|]. intros i Hi. apply Hd. lia.
Qed.

Lemma backSubstituteFrom_usable m n row solution result :
  Forall (λ x, f_usable x = true) solution →
  backSubstituteFrom m n row solution = Some result →
  Forall (λ x, f_usable x = true) result ∧ length result = (row + length solution)%nat.
Proof.
  revert solution. induction row as [|row IH]; intros solution Hs Hb; cbn [backSubstituteFrom] in Hb.
  - by simplify_eq.
  - destruct (f_usable (f_div _ _)) eqn:E; [|done]. apply IH in Hb as [? Hl]; [|by constructor].
    split; [done|]. simpl in Hl. lia.
Qed.

Lemma solveNormalEquations_usable moments targets solution :
  solveNormalEquations moments targets = Some solution →
  length solution = length targets ∧ Forall (λ x, f_usable x = true) solution.
Proof.
  unfold solveNormalEquations. destruct ((length targets =? 0)%nat || _) eqn:E; [done|]. bool_simpl.
  apply Nat.eqb_eq in H0. destruct (forallb _ moments); simpl; [|done]. destruct (_ || _); [done|].
  destruct (eliminateWithPartialPivoting _ _) as [red|] eqn:Hel; simpl; [|done].
  unfold eliminateWithPartialPivoting, indexes in Hel.
  rewrite <-(Nat.sub_0_r (length (zip_with _ _ _))) in Hel at 1.
  apply eliminateFrom_spec in Hel as (Hlen&_&_); [|lia].
  unfold backSubstitute. intros Hb. apply backSubstituteFrom_usable in Hb as [Hu Hl]; [|constructor].
  split; [|done]. simpl in Hl. rewrite length_zip_with in Hlen. lia.
Qed.


(** ** Sharing the table *)

Lemma collect_Forall {A K V} `{Countable K} (P : K → V → Prop) (entry_of : A → option (K * V)) m l :
  (∀ k v, m !! k = Some v → P k v) →
  (∀ a k v, a ∈ l → entry_of a = Some (k, v) → P k v) →
  ∀ k v, collect entry_of m l !! k = Some v → P k v.
Proof.
  unfold collect. revert m. induction l as [|a l IH]; intros m Hm Hl; simpl; [done|].
  apply IH; [|intros; eapply Hl; [by right|done]].
  destruct (entry_of a) as [[k v]|] eqn:E; [|done].
  intros k' v' [[<- <-]|[_ ?]]%lookup_insert_Some; [|by apply Hm]. eapply Hl; [by left|done].
Qed.

Lemma collect_restores {A K V} `{Countable K} (f : K * V → A) (entry_of : A → option (K * V))
    (M : gmap K V) (l : list A) :
  l ≡ₚ f <$> map_to_list M →
  (∀ k v, M !! k = Some v → entry_of (f (k, v)) = Some (k, v)) →
  collect entry_of ∅ l = M.
Proof.
  intros Hl Hf. apply Permutation_map_inv in Hl as (l'&->&Hperm).
  assert (NoDup l'.*1) as Hnd by (rewrite <-Hperm; apply NoDup_fst_map_to_list).
  assert (∀ kv, kv ∈ l' → entry_of (f kv) = Some kv) as Hf'.
  { intros [k v] Hin. apply Hf, elem_of_map_to_list. by rewrite Hperm. }
  assert (collect entry_of ∅ (map f l') = list_to_map l' ∪ (∅ : gmap K V)) as ->.
  { clear Hperm Hf. unfold collect. generalize (∅ : gmap K V).
    induction l' as [|[k v] l' IH]; intros m; simpl; [by rewrite map_empty_union|].
    rewrite Hf' by (by left). simpl in Hnd. apply NoDup_cons in Hnd as [Hk Hnd].
    rewrite IH; [|done|intros; apply Hf'; by right].
    rewrite <-insert_union_r; [by rewrite insert_union_l|]. by apply not_elem_of_list_to_map. }
  rewrite map_union_empty, <-(list_to_map_to_list M). apply list_to_map_proper; [done|by symmetry].
Qed.

(** Estimates as [Fit] builds them: unused array slots are zero. *)
Definition normal_estimate (e : Estimate) : Prop :=
  (1 ≤ e_Arity e ≤ MaxWorkTerms)%nat ∧ copy2 (slice2 (SlopeMS e) (e_Arity e)) = SlopeMS e ∧
  (if Uniform e then copy2 (slice2 (UniformWork e) (e_Arity e)) = UniformWork e
   else UniformWork e = floats0).

Lemma copy_map2 f n : (n ≤ MaxWorkTerms)%nat → copy2 (slice2 (map2 f n) n) = map2 f n.
Proof. unfold MaxWorkTerms. intros Hn. by destruct n as [|[|[|]]]; [..|lia]. Qed.

Lemma copy_floats0 n : copy2 (slice2 floats0 n) = floats0.
Proof. by destruct n as [|[|]]. Qed.

Lemma Fit_normal sample minSamples e : Fit sample minSamples = Some e → normal_estimate e.
Proof.
  unfold Fit, normal_estimate, MaxWorkTerms. destruct (_ || _) eqn:Harity; [done|]. bool_simpl.
  destruct (s_Count sample <? _); [done|]. set (n := Z.to_nat (s_Arity sample)).
  assert (1 ≤ n ≤ 2)%nat as Hn by (unfold n; lia). clearbody n.
  destruct (everyRegressorIsUniform _ _).
  { intros [= <-]. simpl. split_and!; [lia..|apply copy_floats0|]. apply copy_map2.
    unfold MaxWorkTerms. lia. }
  destruct (everyRegressorIsMeasurable _ _); simpl; [|done].
  destruct (solveNormalEquations _ _) as [solution|]; simpl; [|done].
  unfold estimateFromSolution. destruct (negb _); [done|]. destruct (negb _); [done|].
  intros [= <-]. simpl. split_and!; [lia..| |done]. apply copy_map2. unfold MaxWorkTerms. lia.
Qed.

Lemma mergeModel_modelCost node modelID section e :
  normal_estimate e →
  mergeModel node (modelCost ((node, modelID, section), e)) = Some ((node, modelID, section), e).
Proof.
  intros ((H1&H2)&Hs&Hu). unfold MaxWorkTerms in *. destruct e as [base slope n samples uniform uw].
  cbn [e_Arity SlopeMS UniformWork Uniform BaseMS e_Samples] in *.
  unfold modelCost, mergeModel. cbn [e_Arity SlopeMS UniformWork Uniform BaseMS e_Samples
    SlopesMS mc_UniformWork mc_ModelID mc_Section mc_BaseMS mc_Samples].
  assert (∀ a : floats2, length (slice2 a n) = n) as Hlen by (by destruct n as [|[|[|]]]; [..|lia]).
  rewrite Hlen, Hs. destruct n as [|n]; [lia|]. unfold MaxWorkTerms.
  assert ((2 <? S n) = false)%nat as -> by (apply Nat.ltb_ge; lia).
  destruct uniform; cbn [length].
  - rewrite Hlen, Nat.eqb_refl, Hu. done.
  - rewrite Hu. done.
Qed.

(** C15. Sharing costs loses nothing: the costs a node reports about its own
    samples, in whatever order its maps are iterated, merge on another node into
    exactly the table the node built. *)
Theorem Merge_NodeCosts_Build node samples loadSamples profileSamples minSamples costs :
  (∀ s, s ∈ samples → s_NodeID s = node) →
  (∀ s, s ∈ loadSamples → l_NodeID s = node) →
  (∀ s, s ∈ profileSamples → p_NodeID s = node) →
  reports (Build samples loadSamples profileSamples minSamples) costs →
  Merge [(node, costs)] = Build samples loadSamples profileSamples minSamples.
Proof.
  intros Hs Hl Hp (Hm&Hlo&Ht). unfold Merge, mergeNode. cbn [fold_left fst snd estimates loads profiles].
  assert (Hest : collect (mergeModel node) ∅ (Models costs) =
    estimates (Build samples loadSamples profileSamples minSamples)).
  { apply (collect_restores modelCost); [exact Hm|]. intros [[n m] sec] e.
    apply (collect_Forall (λ k e, mergeModel node (modelCost (k, e)) = Some (k, e)));
      [by intros ? ? H%lookup_empty_Some|].
    intros s k v Hin Hk. destruct (Fit s minSamples) eqn:Hfit; simpl in Hk; [|done]. simplify_eq.
    rewrite (Hs s Hin). apply mergeModel_modelCost. by eapply Fit_normal. }
  assert (Hloads : collect (mergeLoad node) ∅ (Loads costs) =
    loads (Build samples loadSamples profileSamples minSamples)).
  { apply (collect_restores loadCost); [exact Hlo|]. intros [n file] mean.
    apply (collect_Forall (λ k v, mergeLoad node (loadCost (k, v)) = Some (k, v)));
      [by intros ? ? H%lookup_empty_Some|].
    intros s k v Hin Hk. destruct (FitLoad s 1); simpl in Hk; [|done]. simplify_eq.
    unfold mergeLoad, loadCost. simpl. by rewrite (Hl s Hin). }
  assert (Hprof : collect (mergeToken node) ∅ (Tokens costs) =
    profiles (Build samples loadSamples profileSamples minSamples)).
  { apply (collect_restores tokenCost); [exact Ht|]. intros [n m] p.
    apply (collect_Forall (λ k v, mergeToken node (tokenCost (k, v)) = Some (k, v)));
      [by intros ? ? H%lookup_empty_Some|].
    intros s k v Hin Hk. destruct (FitTokenProfile s minSamples) as [tp|] eqn:E; simpl in Hk; [|done].
    simplify_eq. unfold mergeToken, tokenCost. simpl. rewrite (Hp s Hin). by destruct v. }
  rewrite Hest, Hloads, Hprof. done.
Qed.

(** ** Concrete fits *)

(** Three image jobs of 1, 2 and 3 units that took 20, 30 and 40 ms. *)
Definition three_jobs : Sample :=
  mkSample "node-a" "flux" "image" 1 3 (f_of_Z 90) (mkFloats (f_of_Z 6) f_zero)
    (mkFloats (f_of_Z 200) f_zero) (mkFloats (f_of_Z 14) f_zero) floats0.

Example three_jobs_price :
  (e ← Fit three_jobs 2; price ← PredictMS e (ImageWork (f_of_Z 5)); Some (f_to_int price)) = Some 60.
Proof. vm_compute. reflexivity. Qed.


Definition small_matrix : matrix :=
  [[f_of_Z 1; f_of_Z 2; f_of_Z 5]; [f_of_Z 4; f_of_Z 1; f_of_Z 6]].

Lemma elimination_pivots_witness :
  let reduced := default [] (eliminateWithPartialPivoting small_matrix f_half) in
  length reduced = length small_matrix ∧
  ∀ i, (i < length small_matrix)%nat → f_ltb (f_abs (entry reduced i i)) f_half = false.
Proof.
  intros reduced. apply (elimination_pivots small_matrix f_half reduced). vm_compute. reflexivity.
Defined.

Lemma Merge_NodeCosts_Build_witness :
  let table := Build [three_jobs] [mkLoadSample "node-a" "flux.json" 2 (f_of_Z 900)] [] 2 in
  Merge [("node-a", mkNodeCosts (ModelCosts table) (LoadCosts table) (TokenCosts table))] = table.
Proof.
  intros table. apply (Merge_NodeCosts_Build "node-a" [three_jobs]
    [mkLoadSample "node-a" "flux.json" 2 (f_of_Z 900)] [] 2).
  - intros s ->%list_elem_of_singleton. reflexivity.
  - intros s ->%list_elem_of_singleton. reflexivity.
  - intros s Hs%elem_of_nil. destruct Hs.
  - split; [reflexivity|split; reflexivity].
Defined.
