(* ===== verification/OffloadQueue.v ===== *)
(** * The admission queue of a node that lends and borrows work

    Model of [internal/proxy/offload_queue.go]. Entries are shared objects, here
    numbered in order of allocation and kept in a store; the queue refers to them
    by number. Every operation is one critical section of the queue's mutex.

    A channel of results is the list of outcomes ever sent on it: it has room for
    one, so a second send would block with the queue locked. *)

From stdpp Require Import gmap strings list sorting.
From Stdlib Require Import Bool ZArith Lia.
From S2P Require Import Prelude.
From S2P Require Import Lane.
From S2P Require Import Float64.
From S2P Require Import SchedulingCost.
Open Scope go_scope.
Open Scope Z_scope.

(** ** Data *)

Inductive offloadOutcome : Type := offloadAdmitted | offloadWithdrawn | offloadReturned.
Inductive requestOrigin : Type := nativeRequest | borrowedFromPeer.
Inductive withdrawability : Type := withdrawable | pinnedToThisNode.

#[export] Instance requestOrigin_eq_dec : EqDecision requestOrigin.
Proof. solve_decision. Defined.
#[export] Instance withdrawability_eq_dec : EqDecision withdrawability.
Proof. solve_decision. Defined.

Record queuedRequest : Type := mkRequest {
  q_modelID : string;
  q_work : Work;
  q_requiredContext : Z;
  q_origin : requestOrigin;
  q_withdrawal : withdrawability;
  q_preemption : option borrowedPreemption
}.

Record offloadEntry : Type := mkEntry {
  e_modelID : string;
  e_work : Work;
  e_requiredContext : Z;
  e_arrived : Z;
  e_borrowed : bool;
  e_pinned : bool;
  e_refusedOnArrival : bool;
  e_borrowedAhead : Z;
  e_sequence : Z;
  e_admittedAt : Z;
  e_holdingNow : bool;
  e_returnedByHelper : bool;
  e_preemption : option borrowedPreemption;
  e_result : list offloadOutcome
}.
#[export] Instance eta_offloadEntry : Eta offloadEntry :=
  λ e, mkEntry (e_modelID e) (e_work e) (e_requiredContext e) (e_arrived e) (e_borrowed e)
    (e_pinned e) (e_refusedOnArrival e) (e_borrowedAhead e) (e_sequence e) (e_admittedAt e)
    (e_holdingNow e) (e_returnedByHelper e) (e_preemption e) (e_result e).

Record ownerPipeline : Type := mkPipeline { inFlight : Z; generatingSince : Z }.

(** What the installed hold answers about the next entry at this moment. *)
Definition admissionHold : Type := offloadEntry → ownerPipeline → bool.

Record offloadQueue : Type := mkOffloadQueue {
  depth : Z;
  sequence : Z;
  pending : list nat;
  admitted : gset nat;
  lastOwnCompletion : Z;
  entries : gmap nat offloadEntry;
  allocated : nat
}.
#[export] Instance eta_offloadQueue : Eta offloadQueue :=
  λ q, mkOffloadQueue (depth q) (sequence q) (pending q) (admitted q) (lastOwnCompletion q)
    (entries q) (allocated q).

Definition newOffloadQueue (d : Z) : offloadQueue := mkOffloadQueue (Z.max d 1) 0 [] ∅ 0 ∅ 0.

(** ** The store *)

Definition update_entry (id : nat) (f : offloadEntry → offloadEntry) (queue : offloadQueue)
  : offloadQueue := queue <| entries := alter f id (entries queue) |>.

Definition send (id : nat) (outcome : offloadOutcome) : offloadQueue → offloadQueue :=
  update_entry id (λ e, e <| e_result := e_result e ++ [outcome] |>).

Definition borrowed_id (queue : offloadQueue) (id : nat) : bool :=
  match entries queue !! id with Some e => e_borrowed e | None => false end.

(** ** Admission *)

Definition is_own (queue : offloadQueue) (id : nat) : bool :=
  match entries queue !! id with Some e => negb (e_borrowed e) | None => false end.

Definition ownerPipelineLocked (queue : offloadQueue) (model : string) : option ownerPipeline :=
  let running := omap (λ id, entries queue !! id) (elements (admitted queue)) in
  if existsb (λ e, e_borrowed e || negb (String.eqb (e_modelID e) model)) running then None
  else
    let since := fold_left (λ since e,
      if (since =? 0) || (e_admittedAt e <? since) then e_admittedAt e else since) running 0 in
    Some (mkPipeline (Z.of_nat (size (admitted queue)))
            (if since <? lastOwnCompletion queue then lastOwnCompletion queue else since)).

(** Whether the entry is held, with the new value of its [holdingNow]. *)
Definition heldForHelperLocked (hold : option admissionHold) (queue : offloadQueue)
    (next : offloadEntry) : bool * bool :=
  match hold with
  | None => (false, e_holdingNow next)
  | Some hold =>
      if e_borrowed next || e_pinned next || e_returnedByHelper next
      then (false, e_holdingNow next)
      else match ownerPipelineLocked queue (e_modelID next) with
           | None => (false, false)
           | Some pipeline =>
               if inFlight pipeline =? 0 then (false, false)
               else let held := hold next pipeline in (held, held)
           end
  end.

Fixpoint admitLoop (fuel : nat) (hold : option admissionHold) (now : Z) (queue : offloadQueue)
  : offloadQueue :=
  match fuel, pending queue with
  | S fuel, id :: rest =>
      if Z.of_nat (size (admitted queue)) <? depth queue then
        match entries queue !! id with
        | None => queue
        | Some e =>
            let '(held, holdingNow) := heldForHelperLocked hold queue e in
            let queue := update_entry id (λ e, e <| e_holdingNow := holdingNow |>) queue in
            if held then queue
            else
              let queue := queue <| pending := rest |> in
              let queue := update_entry id (λ e, e <| e_admittedAt := now |>) queue in
              let queue := queue <| admitted := {[id]} ∪ admitted queue |> in
              admitLoop fuel hold now (send id offloadAdmitted queue)
        end
      else queue
  | _, _ => queue
  end.

Definition admitLocked (hold : option admissionHold) (now : Z) (queue : offloadQueue) : offloadQueue :=
  admitLoop (length (pending queue)) hold now queue.

Definition Readmit := admitLocked.

Definition SetDepth (d : Z) (hold : option admissionHold) (now : Z) (queue : offloadQueue)
  : offloadQueue := admitLocked hold now (queue <| depth := Z.max d 1 |>).

(** ** Arrivals *)

Definition holdsOwnWorkLocked (queue : offloadQueue) : bool :=
  existsb (is_own queue) (elements (admitted queue)) || existsb (is_own queue) (pending queue).

Definition borrowedAdmittedLocked (queue : offloadQueue) : Z :=
  Z.of_nat (length (List.filter (borrowed_id queue) (elements (admitted queue)))).

Definition returnPendingBorrowedLocked (queue : offloadQueue) : offloadQueue * Z :=
  let returned := List.filter (borrowed_id queue) (pending queue) in
  let kept := List.filter (λ id, negb (borrowed_id queue id)) (pending queue) in
  ((fold_left (λ queue id, send id offloadReturned queue) returned queue) <| pending := kept |>,
   Z.of_nat (length returned)).

Definition preemptBorrowedBeforeStartLocked (queue : offloadQueue) : offloadQueue :=
  queue <| entries := map_imap (λ id e,
    Some (if bool_decide (id ∈ admitted queue) && e_borrowed e
          then e <| e_preemption := preemptUnlessStarted (e_preemption e) |> else e))
    (entries queue) |>.

Definition allocate (e : offloadEntry) (queue : offloadQueue) : offloadQueue * nat :=
  (queue <| entries := <[allocated queue := e]> (entries queue) |>
         <| allocated := S (allocated queue) |>, allocated queue).

(** [idleNode] is the node's own activity when the request arrives. *)
Definition Enqueue (request : queuedRequest) (idleNode : bool) (hold : option admissionHold) (now : Z)
    (queue : offloadQueue) : offloadQueue * nat :=
  let queue := queue <| sequence := u64_succ (sequence queue) |> in
  let borrowed := bool_decide (q_origin request = borrowedFromPeer) in
  let entry := mkEntry (q_modelID request) (q_work request) (q_requiredContext request) now borrowed
    (bool_decide (q_withdrawal request = pinnedToThisNode)) false 0 (sequence queue) 0 false false
    (q_preemption request) [] in
  if borrowed && (negb idleNode || holdsOwnWorkLocked queue) then
    allocate (entry <| e_refusedOnArrival := true |> <| e_result := [offloadReturned] |>) queue
  else
    let entry := if negb borrowed then entry <| e_borrowedAhead := borrowedAdmittedLocked queue |>
                 else entry in
    let '(queue, id) := allocate entry queue in
    let queue := queue <| pending := pending queue ++ [id] |> in
    let queue := if negb borrowed
                 then preemptBorrowedBeforeStartLocked (returnPendingBorrowedLocked queue).1
                 else queue in
    (admitLocked hold now queue, id).

Definition Requeue (model : string) (work : Work) (requiredContext arrived : Z)
    (hold : option admissionHold) (now : Z) (queue : offloadQueue) : offloadQueue * nat :=
  let queue := queue <| sequence := u64_succ (sequence queue) |> in
  let entry := mkEntry model work requiredContext arrived false true false 0 (sequence queue) 0 false
    true None [] in
  let '(queue, id) := allocate entry queue in
  (admitLocked hold now (queue <| pending := id :: pending queue |>), id).

Definition ReturnBorrowed (queue : offloadQueue) : offloadQueue * Z :=
  returnPendingBorrowedLocked queue.

(** ** Departures *)

Definition Complete (id : nat) (hold : option admissionHold) (now : Z) (queue : offloadQueue)
  : offloadQueue :=
  let queue := if bool_decide (id ∈ admitted queue) && negb (borrowed_id queue id)
               then queue <| lastOwnCompletion := now |> else queue in
  admitLocked hold now (queue <| admitted := admitted queue ∖ {[id]} |>).

(** Removing the first occurrence; an entry is pending at most once. *)
Fixpoint remove_first (id : nat) (l : list nat) : list nat :=
  match l with
  | [] => []
  | x :: l => if Nat.eqb x id then l else x :: remove_first id l
  end.

(** [discard], when the context of a waiting request ends. *)
Definition discard (id : nat) (hold : option admissionHold) (now : Z) (queue : offloadQueue)
  : offloadQueue :=
  let queue := queue <| pending := remove_first id (pending queue) |> in
  admitLocked hold now (queue <| admitted := admitted queue ∖ {[id]} |>).

Definition lendable (queue : offloadQueue) (model : string) (id : nat) : bool :=
  match entries queue !! id with
  | Some e => negb (e_borrowed e || e_pinned e || negb (String.eqb (e_modelID e) model))
  | None => false
  end.

(** The loop from the newest pending entry down: who is withdrawn, newest first,
    and who stays, over the pending entries in reverse. *)
Fixpoint withdrawLoop (choose : nat → bool) (limit : nat) (newestFirst : list nat)
  : list nat * list nat :=
  match newestFirst with
  | [] => ([], [])
  | id :: rest =>
      match limit with
      | O => ([], newestFirst)
      | S fewer =>
          if choose id then
            let '(withdrawn, kept) := withdrawLoop choose fewer rest in (id :: withdrawn, kept)
          else
            let '(withdrawn, kept) := withdrawLoop choose limit rest in (withdrawn, id :: kept)
      end
  end.

Definition WithdrawNewest (model : string) (limit : Z) (hold : option admissionHold) (now : Z)
    (queue : offloadQueue) : offloadQueue * list nat :=
  if limit <=? 0 then (queue, [])
  else
    let '(withdrawn, kept) :=
      withdrawLoop (lendable queue model) (Z.to_nat limit) (rev (pending queue)) in
    let queue := queue <| pending := rev kept |> in
    let queue := fold_left (λ queue id, send id offloadWithdrawn queue) withdrawn queue in
    (admitLocked hold now queue, withdrawn).

(** ** Questions *)

Definition AcceptingBorrowed (idleNode : bool) (queue : offloadQueue) : bool :=
  idleNode && negb (holdsOwnWorkLocked queue).

Definition BorrowedInFlight (queue : offloadQueue) : Z := borrowedAdmittedLocked queue.

Definition HoldsPendingWork (model : string) (queue : offloadQueue) : bool :=
  existsb (λ id, match entries queue !! id with
                 | Some e => negb (e_borrowed e) && String.eqb (e_modelID e) model
                 | None => false end) (pending queue).

Definition HeldSnapshot (queue : offloadQueue) : list (string * Z * bool) :=
  omap (λ id, e ← entries queue !! id;
    if e_borrowed e then None else Some (e_modelID e, e_arrived e, e_holdingNow e)) (pending queue).

Record offloadModelStats : Type := mkStats {
  ModelID : string;
  PendingCount : Z;
  PendingWork : Work;
  PendingLargestContext : Z;
  BacklogCount : Z;
  BacklogWork : Work
}.
#[export] Instance eta_offloadModelStats : Eta offloadModelStats :=
  λ s, mkStats (ModelID s) (PendingCount s) (PendingWork s) (PendingLargestContext s)
         (BacklogCount s) (BacklogWork s).

Definition addWork (sum work : Work) : Work := default sum (Work_Add sum work).

Definition addLendable (stats : offloadModelStats) (entry : offloadEntry) : offloadModelStats :=
  stats <| PendingCount := PendingCount stats + 1 |>
        <| PendingWork := addWork (PendingWork stats) (e_work entry) |>
        <| PendingLargestContext := Z.max (PendingLargestContext stats) (e_requiredContext entry) |>.

Definition addBacklog (stats : offloadModelStats) (entry : offloadEntry) : offloadModelStats :=
  stats <| BacklogCount := BacklogCount stats + 1 |>
        <| BacklogWork := addWork (BacklogWork stats) (e_work entry) |>.

(** [statsFor] with what is then added: models in order of first appearance. *)
Fixpoint statsFor (model : string) (f : offloadModelStats → offloadModelStats)
    (l : list offloadModelStats) : list offloadModelStats :=
  match l with
  | [] => [f (mkStats model 0 noWork 0 0 noWork)]
  | s :: rest => if String.eqb (ModelID s) model then f s :: rest else s :: statsFor model f rest
  end.

Definition Stats (queue : offloadQueue) : list offloadModelStats :=
  let countPending l id :=
    match entries queue !! id with
    | Some e => if e_borrowed e then l
                else statsFor (e_modelID e) (λ s,
                  addBacklog (if negb (e_pinned e) then addLendable s e else s) e) l
    | None => l
    end in
  let countAdmitted l id :=
    match entries queue !! id with
    | Some e => if e_borrowed e then l else statsFor (e_modelID e) (λ s, addBacklog s e) l
    | None => l
    end in
  fold_left countAdmitted (elements (admitted queue)) (fold_left countPending (pending queue) []).
