(* ===== verification/OffloadQueueProofs.v ===== *)
(** * Theorems about the admission queue

    What every reachable queue satisfies, and what its operations do to it. *)

From stdpp Require Import gmap strings list sorting.
From Stdlib Require Import Bool ZArith Lia.
From S2P Require Import Prelude.
From S2P Require Import Lane.
From S2P Require Import Float64.
From S2P Require Import SchedulingCost.
From S2P Require Import OffloadQueue.
Open Scope go_scope.
Open Scope Z_scope.

(** ** The store *)

Lemma lookup_update_entry id f queue j :
  entries (update_entry id f queue) !! j =
  if decide (j = id) then f <$> entries queue !! j else entries queue !! j.
Proof.
  unfold update_entry. simpl. case_decide as H; [subst; apply lookup_alter_eq|by apply lookup_alter_ne].
Qed.

(** The entries of [q'] are those of [q], up to what [R] relates. *)
Definition entries_rel (R : nat → offloadEntry → offloadEntry → Prop) (q q' : offloadQueue) : Prop :=
  ∀ id, match entries q !! id, entries q' !! id with
        | Some e, Some e' => R id e e' | None, None => True | _, _ => False end.

Definition same_kind (e e' : offloadEntry) : Prop :=
  e_borrowed e' = e_borrowed e ∧ e_pinned e' = e_pinned e ∧ e_modelID e' = e_modelID e ∧
  e_returnedByHelper e' = e_returnedByHelper e ∧ e_work e' = e_work e ∧
  e_requiredContext e' = e_requiredContext e ∧ e_sequence e' = e_sequence e.

Definition same_kinds : offloadQueue → offloadQueue → Prop := entries_rel (λ _, same_kind).

Lemma same_kinds_refl q : same_kinds q q.
Proof. intros id. destruct (entries q !! id); [by repeat split|done]. Qed.

Lemma same_kinds_trans q1 q2 q3 : same_kinds q1 q2 → same_kinds q2 q3 → same_kinds q1 q3.
Proof.
  intros H12 H23 id. specialize (H12 id). specialize (H23 id).
  destruct (entries q1 !! id), (entries q2 !! id), (entries q3 !! id); try done.
  unfold same_kind in *. intuition congruence.
Qed.

Lemma same_kinds_borrowed q q' id : same_kinds q q' → borrowed_id q' id = borrowed_id q id.
Proof.
  intros H. specialize (H id). unfold borrowed_id.
  destruct (entries q !! id), (entries q' !! id); try done. apply H.
Qed.

Lemma same_kinds_own q q' id : same_kinds q q' → is_own q' id = is_own q id.
Proof.
  intros H. specialize (H id). unfold is_own.
  destruct (entries q !! id), (entries q' !! id); try done. f_equal. apply H.
Qed.

Lemma same_kinds_update id f q :
  (∀ e, same_kind e (f e)) → same_kinds q (update_entry id f q).
Proof.
  intros Hf j. rewrite lookup_update_entry. destruct (entries q !! j) as [e|]; case_decide; simpl;
    first [done | apply Hf | by repeat split].
Qed.

(** ** The invariant *)

Record queue_ok (q : offloadQueue) : Prop := {
  ok_allocated : ∀ id, is_Some (entries q !! id) ↔ (id < allocated q)%nat;
  ok_nodup : NoDup (pending q);
  ok_pending : ∀ id, id ∈ pending q → id ∉ admitted q ∧
    ∃ e, entries q !! id = Some e ∧ e_result e = [];
  ok_admitted : ∀ id, id ∈ admitted q → ∃ e, entries q !! id = Some e ∧ e_result e = [offloadAdmitted];
  ok_once : ∀ id e, entries q !! id = Some e → (length (e_result e) ≤ 1)%nat;
  ok_depth : 1 ≤ depth q;
  ok_order : ∃ own borrowed, pending q = own ++ borrowed ∧
    Forall (λ id, is_own q id = true) own ∧ Forall (λ id, borrowed_id q id = true) borrowed
}.

(** Why a queue admits nothing more at the moment. *)
Definition blocked (q : offloadQueue) : Prop :=
  depth q ≤ Z.of_nat (size (admitted q)) ∨ pending q = [] ∨
  admitted q ≠ ∅ ∧ ∃ id rest e, pending q = id :: rest ∧ entries q !! id = Some e ∧
    e_holdingNow e = true ∧ e_borrowed e = false ∧ e_pinned e = false ∧ e_returnedByHelper e = false ∧
    ∀ j, j ∈ admitted q → ∃ r, entries q !! j = Some r ∧ e_borrowed r = false ∧
      e_modelID r = e_modelID e.

Definition quiescent (q : offloadQueue) : Prop := admitted q = ∅ → pending q = [].

Lemma blocked_quiescent q : queue_ok q → blocked q → quiescent q.
Proof.
  intros Hok [Hd|[Hp|[Ha _]]] He; [|done|done].
  rewrite He, size_empty in Hd. pose proof (ok_depth q Hok). simpl in Hd. lia.
Qed.

Lemma pipeline_models q model pipeline :
  queue_ok q → ownerPipelineLocked q model = Some pipeline →
  inFlight pipeline = Z.of_nat (size (admitted q)) ∧
  ∀ j, j ∈ admitted q → ∃ r, entries q !! j = Some r ∧ e_borrowed r = false ∧ e_modelID r = model.
Proof.
  intros Hok. unfold ownerPipelineLocked. destruct (existsb _ _) eqn:E; [done|]. intros [= <-].
  split; [done|]. intros j Hj. destruct (ok_admitted q Hok j Hj) as (r&Hr&_). exists r.
  split; [done|]. apply not_true_iff_false in E.
  assert (¬ (e_borrowed r || negb (String.eqb (e_modelID r) model) = true)) as Hno.
  { intros Hb. apply E. apply existsb_exists. exists r. split; [|done].
    apply list_elem_of_In, list_elem_of_omap. exists j. split; [by apply elem_of_elements|done]. }
  apply not_true_iff_false, orb_false_iff in Hno as [? Hm].
  apply negb_false_iff, String.eqb_eq in Hm. done.
Qed.

Lemma held_spec hold q e b :
  queue_ok q → heldForHelperLocked hold q e = (true, b) →
  b = true ∧ e_borrowed e = false ∧ e_pinned e = false ∧ e_returnedByHelper e = false ∧
  admitted q ≠ ∅ ∧
  ∀ j, j ∈ admitted q → ∃ r, entries q !! j = Some r ∧ e_borrowed r = false ∧
    e_modelID r = e_modelID e.
Proof.
  intros Hok. unfold heldForHelperLocked. destruct hold as [hold|]; [|done].
  destruct (_ || _ || _) eqn:E; [done|]. apply orb_false_iff in E as [E ?].
  apply orb_false_iff in E as [? ?].
  destruct (ownerPipelineLocked q (e_modelID e)) as [pipeline|] eqn:Hp; [|done].
  destruct (pipeline_models q _ pipeline Hok Hp) as [Hin Hall].
  destruct (Z.eqb_spec (inFlight pipeline) 0) as [|Hne]; [done|]. intros [= -> <-].
  split_and!; try done. intros He. rewrite He, size_empty in Hin. done.
Qed.

(** Setting [holdingNow] of one entry changes nothing the invariant reads. *)
Lemma holding_ok id b q :
  queue_ok q → queue_ok (update_entry id (λ e, e <| e_holdingNow := b |>) q).
Proof.
  intros [Ha Hn Hp Had Ho Hd Hor].
  assert (Hk : same_kinds q (update_entry id (λ e, e <| e_holdingNow := b |>) q))
    by (by apply same_kinds_update; repeat split).
  split; try done.
  - intros j. rewrite lookup_update_entry. case_decide; [|apply Ha]. rewrite fmap_is_Some. apply Ha.
  - intros j Hj. destruct (Hp j Hj) as (Hnot&e&He&Hr). split; [done|].
    rewrite lookup_update_entry, He. case_decide; eexists; (split; [reflexivity|exact Hr]).
  - intros j Hj. destruct (Had j Hj) as (e&He&Hr). rewrite lookup_update_entry, He.
    case_decide; eexists; (split; [reflexivity|exact Hr]).
  - intros j e. rewrite lookup_update_entry. case_decide; [|apply Ho].
    intros (e0&He&->)%fmap_Some. exact (Ho j e0 He).
  - destruct Hor as (own&bor&Hpe&Hown&Hbor). exists own, bor. split; [done|].
    split; (eapply Forall_impl; [eassumption|]); intros j Hj; cbv beta in *;
      rewrite ?(same_kinds_own _ _ j Hk), ?(same_kinds_borrowed _ _ j Hk); exact Hj.
Qed.

(** What [admitLocked] does to the entry it lets in. *)
Definition let_in (now : Z) (id : nat) (q : offloadQueue) : offloadQueue :=
  send id offloadAdmitted
    (update_entry id (λ e, e <| e_admittedAt := now |>) q <| admitted := {[id]} ∪ admitted q |>).

Lemma let_in_ok now id rest q :
  queue_ok q → pending q = id :: rest → queue_ok (let_in now id (q <| pending := rest |>)) ∧
  same_kinds q (let_in now id (q <| pending := rest |>)).
Proof.
  intros [Ha Hn Hp Had Ho Hd Hor] Hpe.
  assert (Hk : same_kinds q (let_in now id (q <| pending := rest |>))).
  { unfold let_in, send. eapply same_kinds_trans;
      [|apply (same_kinds_update id (λ e, e <| e_result := e_result e ++ [offloadAdmitted] |>));
        by repeat split].
    intros j. simpl. destruct (decide (j = id)) as [->|].
    - rewrite lookup_alter_eq. destruct (entries q !! id); simpl; by repeat split.
    - rewrite lookup_alter_ne by done. destruct (entries q !! j); by repeat split. }
  assert (Hlook : ∀ j, entries (let_in now id (q <| pending := rest |>)) !! j =
    if decide (j = id) then (λ e, e <| e_admittedAt := now |> <| e_result := e_result e ++ [offloadAdmitted] |>)
       <$> entries q !! j else entries q !! j).
  { intros j. unfold let_in, send. simpl. destruct (decide (j = id)) as [->|].
    - rewrite !lookup_alter_eq. by destruct (entries q !! id).
    - by rewrite !lookup_alter_ne. }
  rewrite Hpe in Hn. apply NoDup_cons in Hn as [Hid Hn].
  split; [|done]. split; simpl.
  - intros j. rewrite Hlook. case_decide; [|apply Ha]. rewrite fmap_is_Some. apply Ha.
  - done.
  - intros j Hj. assert (j ≠ id) by (intros ->; done).
    destruct (Hp j) as (Hnot&e&He&Hr); [rewrite Hpe; by right|]. split; [set_solver|].
    exists e. by rewrite Hlook, decide_False.
  - intros j Hj. rewrite Hlook. destruct (decide (j = id)) as [->|].
    + destruct (Hp id) as (Hnot&e&He&Hr); [rewrite Hpe; by left|]. rewrite He. simpl.
      eexists; split; [done|]. simpl. by rewrite Hr.
    + apply Had. set_solver.
  - intros j e. rewrite Hlook. case_decide as Hj; [|apply Ho]. intros (e0&He&->)%fmap_Some. subst j.
    destruct (Hp id) as (Hnot&e1&He1&Hr); [rewrite Hpe; by left|]. rewrite He1 in He. simplify_eq.
    simpl. by rewrite Hr.
  - done.
  - destruct Hor as (own&bor&Happ&Hown&Hbor). rewrite Hpe in Happ.
    assert (Hmono : ∀ l1 l2, Forall (λ j, is_own q j = true) l1 → Forall (λ j, borrowed_id q j = true) l2 →
      Forall (λ j, is_own (let_in now id (q <| pending := rest |>)) j = true) l1 ∧
      Forall (λ j, borrowed_id (let_in now id (q <| pending := rest |>)) j = true) l2).
    { intros l1 l2 H1 H2. split; (eapply Forall_impl; [eassumption|]); intros j Hj; cbv beta in *;
        rewrite ?(same_kinds_own _ _ j Hk), ?(same_kinds_borrowed _ _ j Hk); exact Hj. }
    destruct own as [|o own]; simpl in Happ.
    + destruct bor as [|b bor]; [done|]. simplify_eq. apply Forall_cons in Hbor as [_ Hbor].
      exists [], bor. split; [done|]. by apply Hmono.
    + simplify_eq. apply Forall_cons in Hown as [_ Hown]. exists own, bor. split; [done|].
      by apply Hmono.
Qed.

(** ** Admission

    [admitLocked] lets in a prefix of the pending entries, never over the depth,
    and stops only where the queue is blocked. *)
Record admits (q q' : offloadQueue) : Prop := {
  adm_ok : queue_ok q';
  adm_kinds : same_kinds q q';
  adm_fixed : depth q' = depth q ∧ sequence q' = sequence q ∧ allocated q' = allocated q ∧
    lastOwnCompletion q' = lastOwnCompletion q;
  adm_prefix : ∃ taken, pending q = taken ++ pending q' ∧
    admitted q' = list_to_set taken ∪ admitted q;
  adm_depth : Z.of_nat (size (admitted q')) ≤ Z.max (depth q) (Z.of_nat (size (admitted q)));
  adm_others : ∀ id, id ∉ pending q → entries q' !! id = entries q !! id;
  adm_blocked : blocked q'
}.

Lemma admitLoop_spec fuel hold now q :
  (length (pending q) ≤ fuel)%nat → queue_ok q → admits q (admitLoop fuel hold now q).
Proof.
  revert q. induction fuel as [|fuel IH]; intros q Hlen Hok.
  - destruct (pending q) as [|] eqn:Hp; [|simpl in Hlen; lia]. simpl.
    split; [done|apply same_kinds_refl|done| |lia|done|right; by left].
    exists []. rewrite Hp. set_solver.
  - cbn [admitLoop]. destruct (pending q) as [|id rest] eqn:Hp.
    { split; [done|apply same_kinds_refl|done| |lia|done|right; by left]. exists []. rewrite Hp. set_solver. }
    destruct (Z.ltb_spec (Z.of_nat (size (admitted q))) (depth q)) as [Hroom|Hfull].
    2: { split; [done|apply same_kinds_refl|done| |lia|done|by left]. exists []. rewrite Hp. set_solver. }
    destruct (ok_pending q Hok id) as (Hnot&e&He&Hres); [rewrite Hp; by left|]. rewrite He.
    destruct (heldForHelperLocked hold q e) as [held b] eqn:Hheld.
    pose proof (holding_ok id b q Hok) as Hok1.
    assert (Hk1 : same_kinds q (update_entry id (λ e, e <| e_holdingNow := b |>) q))
      by (by apply same_kinds_update; repeat split).
    destruct held.
    + destruct (held_spec hold q e b Hok Hheld) as (->&Hb&Hpin&Hret&Hne&Hall).
      split; [done|done|done| |simpl; lia| |].
      { exists []. simpl. rewrite Hp. set_solver. }
      { intros j Hj. rewrite lookup_update_entry, decide_False; [done|]. intros ->. apply Hj. rewrite Hp. by left. }
      right; right. split; [done|]. exists id, rest, (e <| e_holdingNow := true |>).
      split_and!; try done.
      * rewrite lookup_update_entry, decide_True, He by done. done.
      * intros j Hj. destruct (Hall j Hj) as (r&Hr&Hrb&Hrm). exists r. rewrite lookup_update_entry.
        rewrite decide_False; [split_and!; [exact Hr|exact Hrb|exact Hrm]|]. intros ->. done.
    + set (q1 := update_entry id _ q) in *.
      destruct (let_in_ok now id rest q1 Hok1 Hp) as [Hok2 Hk2].
      change (admits q (admitLoop fuel hold now (let_in now id (q1 <| pending := rest |>)))).
      destruct (IH (let_in now id (q1 <| pending := rest |>))) as [Ho Hk Hf (taken&Ht&Had) Hd Hoth Hbl];
        [simpl in *; lia|done|].
      split; [done| |done| | | |done].
      * eapply same_kinds_trans; [exact Hk1|]. by eapply same_kinds_trans.
      * exists (id :: taken). simpl in Ht. split; [rewrite Hp; simpl; f_equal; exact Ht|]. rewrite Had. simpl.
        set_solver.
      * assert (size (admitted (let_in now id (q1 <| pending := rest |>))) = S (size (admitted q))) as Hsz.
        { simpl. rewrite size_union by set_solver. by rewrite size_singleton. }
        assert (depth (let_in now id (q1 <| pending := rest |>)) = depth q) as Hdep by done.
        rewrite Hsz, Hdep in Hd. lia.
      * intros j Hj. rewrite Hp in Hj. assert (j ≠ id) by (intros ->; apply Hj; by left).
        rewrite Hoth; [|intros Hin; apply Hj; by right]. unfold let_in, send, q1. simpl.
        by rewrite !lookup_alter_ne.
Qed.

Lemma admitLocked_spec hold now q : queue_ok q → admits q (admitLocked hold now q).
Proof. by apply admitLoop_spec. Qed.

(** ** The other pieces of an operation *)

(** The invariant without the order of the pending entries, which [Enqueue]
    breaks for a moment before it returns the borrowed ones. *)
Record queue_core (q : offloadQueue) : Prop := {
  core_allocated : ∀ id, is_Some (entries q !! id) ↔ (id < allocated q)%nat;
  core_nodup : NoDup (pending q);
  core_pending : ∀ id, id ∈ pending q → id ∉ admitted q ∧
    ∃ e, entries q !! id = Some e ∧ e_result e = [];
  core_admitted : ∀ id, id ∈ admitted q → ∃ e, entries q !! id = Some e ∧ e_result e = [offloadAdmitted];
  core_once : ∀ id e, entries q !! id = Some e → (length (e_result e) ≤ 1)%nat;
  core_depth : 1 ≤ depth q
}.

Definition own_first (q : offloadQueue) : Prop :=
  ∃ own borrowed, pending q = own ++ borrowed ∧
    Forall (λ id, is_own q id = true) own ∧ Forall (λ id, borrowed_id q id = true) borrowed.

Lemma queue_ok_split q : queue_ok q ↔ queue_core q ∧ own_first q.
Proof. split; [intros []; split; [by split|done]|intros [[] ?]; by split]. Qed.

Lemma own_first_sub q q' :
  same_kinds q q' → sublist (pending q') (pending q) → own_first q → own_first q'.
Proof.
  intros Hk Hsub (own&bor&Hp&Ho&Hb). rewrite Hp in Hsub.
  apply sublist_app_r in Hsub as (o'&b'&Hp'&Hso&Hsb). exists o', b'. split; [done|].
  rewrite !Forall_forall in *. split; intros id Hid.
  - rewrite (same_kinds_own q q' id Hk). apply Ho. by eapply elem_of_sublist.
  - rewrite (same_kinds_borrowed q q' id Hk). apply Hb. by eapply elem_of_sublist.
Qed.

Lemma lookup_send_all outcome ids q j :
  NoDup ids →
  entries (fold_left (λ q id, send id outcome q) ids q) !! j =
  if decide (j ∈ ids) then (λ e, e <| e_result := e_result e ++ [outcome] |>) <$> entries q !! j
  else entries q !! j.
Proof.
  revert q. induction ids as [|id ids IH]; intros q Hnd; cbn [fold_left].
  - rewrite decide_False; [done|apply not_elem_of_nil].
  - apply NoDup_cons in Hnd as [Hid Hnd]. rewrite IH by done. unfold send.
    rewrite lookup_update_entry. destruct (decide (j = id)) as [->|Hne].
    + rewrite decide_False, decide_True by (done || by left). done.
    + destruct (decide (j ∈ ids)) as [Hj|Hj].
      * rewrite decide_True by (by right). done.
      * rewrite decide_False; [done|]. by intros [?|?]%elem_of_cons.
Qed.

Lemma send_all_fields outcome ids q :
  let q' := fold_left (λ q id, send id outcome q) ids q in
  depth q' = depth q ∧ sequence q' = sequence q ∧ pending q' = pending q ∧ admitted q' = admitted q ∧
  lastOwnCompletion q' = lastOwnCompletion q ∧ allocated q' = allocated q.
Proof. revert q. induction ids as [|id ids IH]; intros q; [done|]. simpl. apply (IH (send id outcome q)). Qed.

(** Pending entries [ids] leave with [outcome], the entries [kept] stay. *)
Lemma settle_core outcome ids kept q q' :
  queue_core q → NoDup ids → (∀ id, id ∈ ids → id ∈ pending q) → sublist kept (pending q) →
  (∀ id, id ∈ kept → id ∉ ids) →
  entries q' = entries (fold_left (λ q id, send id outcome q) ids q) →
  pending q' = kept → admitted q' = admitted q → depth q' = depth q → allocated q' = allocated q →
  queue_core q' ∧ same_kinds q q'.
Proof.
  intros [Ha Hn Hp Had Ho Hd] Hnd Hin Hsub Hdis Hent Hpe Hadm Hdep Hal.
  assert (Hlook : ∀ j, entries q' !! j = if decide (j ∈ ids)
      then (λ e, e <| e_result := e_result e ++ [outcome] |>) <$> entries q !! j else entries q !! j)
    by (intros j; rewrite Hent; by apply lookup_send_all).
  split; [split|].
  - intros j. rewrite Hlook, Hal. case_decide; [|apply Ha]. rewrite fmap_is_Some. apply Ha.
  - rewrite Hpe. by apply (sublist_NoDup _ _ Hn).
  - intros j Hj. rewrite Hpe in Hj. rewrite Hadm, Hlook, decide_False by (by apply Hdis).
    apply Hp. by eapply elem_of_sublist.
  - intros j Hj. rewrite Hadm in Hj. rewrite Hlook, decide_False; [by apply Had|].
    intros Hj'. by destruct (Hp j (Hin j Hj')).
  - intros j e. rewrite Hlook. case_decide as Hj; [|apply Ho]. intros (e0&He&->)%fmap_Some.
    destruct (Hp j (Hin j Hj)) as (_&e1&He1&Hr). rewrite He1 in He. simplify_eq. simpl. by rewrite Hr.
  - by rewrite Hdep.
  - intros j. rewrite Hlook. destruct (entries q !! j); case_decide; simpl; by repeat split.
Qed.

Lemma filter_sublist {A} (p : A → bool) (l : list A) : sublist (List.filter p l) l.
Proof. induction l as [|x l IH]; simpl; [constructor|]. case_match; by constructor. Qed.

Lemma return_core q :
  queue_core q →
  let q' := (returnPendingBorrowedLocked q).1 in
  queue_core q' ∧ same_kinds q q' ∧ Forall (λ id, is_own q' id = true) (pending q') ∧
  pending q' = List.filter (λ id, negb (borrowed_id q id)) (pending q) ∧
  admitted q' = admitted q ∧ depth q' = depth q ∧ sequence q' = sequence q ∧
  lastOwnCompletion q' = lastOwnCompletion q ∧ allocated q' = allocated q.
Proof.
  intros Hcore q'.
  destruct (send_all_fields offloadReturned (List.filter (borrowed_id q) (pending q)) q)
    as (Hd&Hs&_&Hadm&Hl&Hal).
  assert (queue_core q' ∧ same_kinds q q') as [Hc Hk].
  { eapply (settle_core offloadReturned (List.filter (borrowed_id q) (pending q))
      (List.filter (λ id, negb (borrowed_id q id)) (pending q))); [done|..].
    - apply NoDup_ListNoDup, List.NoDup_filter, NoDup_ListNoDup, Hcore.
    - intros id Hid%list_elem_of_In%List.filter_In. apply list_elem_of_In. apply Hid.
    - apply filter_sublist.
    - intros id Hid%list_elem_of_In%List.filter_In Hid'%list_elem_of_In%List.filter_In.
      destruct Hid as [_ Hid], Hid' as [_ Hid']. by rewrite Hid' in Hid.
    - reflexivity.
    - reflexivity.
    - exact Hadm.
    - exact Hd.
    - exact Hal. }
  split_and!; [done|done| |reflexivity|exact Hadm|exact Hd|exact Hs|exact Hl|exact Hal].
  rewrite Forall_forall. intros id Hid%list_elem_of_In%List.filter_In. destruct Hid as [Hin Hb]. rewrite (same_kinds_own q q' id Hk).
  apply list_elem_of_In, (core_pending q Hcore) in Hin as (_&e&He&_).
  unfold is_own, borrowed_id in *. by rewrite He in *.
Qed.

Lemma preempt_core q :
  queue_core q → queue_core (preemptBorrowedBeforeStartLocked q) ∧
  same_kinds q (preemptBorrowedBeforeStartLocked q).
Proof.
  intros [Ha Hn Hp Had Ho Hd].
  assert (Hlook : ∀ j, entries (preemptBorrowedBeforeStartLocked q) !! j = (λ e,
      if bool_decide (j ∈ admitted q) && e_borrowed e
      then e <| e_preemption := preemptUnlessStarted (e_preemption e) |> else e) <$> entries q !! j).
  { intros j. unfold preemptBorrowedBeforeStartLocked. simpl. rewrite map_lookup_imap.
    by destruct (entries q !! j). }
  assert (Hres : ∀ j e, entries (preemptBorrowedBeforeStartLocked q) !! j = Some e →
    ∃ e0, entries q !! j = Some e0 ∧ e_result e = e_result e0).
  { intros j e. rewrite Hlook. intros (e0&He&->)%fmap_Some. exists e0. split; [done|]. by case_match. }
  assert (Hres' : ∀ j e0, entries q !! j = Some e0 →
    ∃ e, entries (preemptBorrowedBeforeStartLocked q) !! j = Some e ∧ e_result e = e_result e0).
  { intros j e0 He. rewrite Hlook, He. simpl. eexists; split; [done|]. by case_match. }
  split; [split|]; try done.
  - intros j. rewrite Hlook, fmap_is_Some. apply Ha.
  - intros j Hj. destruct (Hp j Hj) as (?&e0&He&Hr). split; [done|].
    destruct (Hres' j e0 He) as (e&?&?). exists e. split; [done|congruence].
  - intros j Hj. destruct (Had j Hj) as (e0&He&Hr). destruct (Hres' j e0 He) as (e&?&?).
    exists e. split; [done|congruence].
  - intros j e He. destruct (Hres j e He) as (e0&He0&->). by apply (Ho j).
  - intros j. rewrite Hlook. destruct (entries q !! j); simpl; [|done]. case_match; by repeat split.
Qed.

Lemma allocate_fresh q : queue_core q → entries q !! allocated q = None ∧
  allocated q ∉ pending q ∧ allocated q ∉ admitted q.
Proof.
  intros [Ha Hn Hp Had Ho Hd].
  assert (entries q !! allocated q = None) as Hnone.
  { apply eq_None_not_Some. rewrite Ha. lia. }
  split_and!; [done| |].
  - intros Hin. destruct (Hp _ Hin) as (_&e&He&_). congruence.
  - intros Hin. destruct (Had _ Hin) as (e&He&_). congruence.
Qed.

(** A new entry, put somewhere in the pending list. *)
Lemma insert_core e q q' pend :
  queue_core q → e_result e = [] →
  entries q' = <[allocated q := e]> (entries q) → allocated q' = S (allocated q) →
  pending q' = pend → pend ≡ₚ allocated q :: pending q → admitted q' = admitted q →
  depth q' = depth q → queue_core q'.
Proof.
  intros Hcore Hr Hent Hal Hpe Hperm Hadm Hd.
  destruct (allocate_fresh q Hcore) as (Hnone&Hfp&Hfa). destruct Hcore as [Ha Hn Hp Had Ho Hdep].
  assert (Hlook : ∀ j, j ≠ allocated q → entries q' !! j = entries q !! j)
    by (intros; rewrite Hent; by apply lookup_insert_ne).
  assert (entries q' !! allocated q = Some e) as Hnew by (rewrite Hent; apply lookup_insert_eq).
  split.
  - intros j. rewrite Hal. destruct (decide (j = allocated q)) as [->|Hne].
    + rewrite Hnew. split; [lia|eauto].
    + rewrite Hlook, Ha by done. lia.
  - rewrite Hpe, Hperm. by constructor.
  - intros j Hj. rewrite Hpe, Hperm in Hj. rewrite Hadm. destruct (decide (j = allocated q)) as [->|Hne].
    + split; [done|]. eauto.
    + rewrite Hlook by done. apply Hp. by apply elem_of_cons in Hj as [|].
  - intros j Hj. rewrite Hadm in Hj. rewrite Hlook; [by apply Had|]. by intros ->.
  - intros j e'. destruct (decide (j = allocated q)) as [->|Hne].
    + rewrite Hnew. intros [= <-]. rewrite Hr. simpl. lia.
    + rewrite Hlook by done. apply Ho.
  - by rewrite Hd.
Qed.

(** Entries leave the pending list or the admitted set without a word. *)
Lemma remove_ok q q' :
  queue_ok q → entries q' = entries q → allocated q' = allocated q → depth q' = depth q →
  sublist (pending q') (pending q) → admitted q' ⊆ admitted q → queue_ok q'.
Proof.
  intros Hok Hent Hal Hd Hsub Hadm. apply queue_ok_split. apply queue_ok_split in Hok as [Hcore Hof].
  split.
  - destruct Hcore as [Ha Hn Hp Had Ho Hdep]. split; rewrite ?Hent, ?Hal, ?Hd; try done.
    + by apply (sublist_NoDup _ _ Hn).
    + intros j Hj. destruct (Hp j) as (Hnot&He); [by eapply elem_of_sublist|]. set_solver.
    + intros j Hj. apply Had. set_solver.
  - eapply own_first_sub; [|done|done]. intros j. rewrite Hent.
    destruct (entries q !! j); by repeat split.
Qed.

Lemma remove_first_sublist id l : sublist (remove_first id l) l.
Proof.
  induction l as [|x l IH]; simpl; [constructor|]. case_match; constructor; [reflexivity|done].
Qed.

(** ** The operations *)

Inductive queueEvent : Type :=
  | EvSetDepth (d : Z) | EvReadmit | EvReturnBorrowed
  | EvEnqueue (request : queuedRequest) (idleNode : bool)
  | EvRequeue (model : string) (work : Work) (requiredContext arrived : Z)
  | EvComplete (id : nat) | EvDiscard (id : nat)
  | EvWithdraw (model : string) (limit : Z).

(** One critical section; the hold answers what it likes each time. *)
Definition apply_event (hold : option admissionHold) (now : Z) (ev : queueEvent) (q : offloadQueue)
  : offloadQueue :=
  match ev with
  | EvSetDepth d => SetDepth d hold now q
  | EvReadmit => Readmit hold now q
  | EvReturnBorrowed => (ReturnBorrowed q).1
  | EvEnqueue request idleNode => (Enqueue request idleNode hold now q).1
  | EvRequeue model work context arrived => (Requeue model work context arrived hold now q).1
  | EvComplete id => Complete id hold now q
  | EvDiscard id => discard id hold now q
  | EvWithdraw model limit => (WithdrawNewest model limit hold now q).1
  end.

Definition queueStep (q q' : offloadQueue) : Prop :=
  ∃ hold now ev, q' = apply_event hold now ev q.

(** *** Newest first, up to the limit *)

Lemma withdrawLoop_spec choose limit l :
  NoDup l →
  let w := take limit (List.filter choose l) in
  withdrawLoop choose limit l = (w, List.filter (λ id, negb (bool_decide (id ∈ w))) l).
Proof.
  revert limit. induction l as [|x l IH]; intros limit Hnd; [by destruct limit|].
  apply NoDup_cons in Hnd as [Hx Hnd]. destruct limit as [|fewer]; cbn zeta.
  - cbn [take withdrawLoop]. f_equal. symmetry. apply forallb_filter_id, forallb_forall. intros y _.
    rewrite bool_decide_eq_false_2; [done|apply not_elem_of_nil].
  - cbn [withdrawLoop List.filter]. destruct (choose x) eqn:Hc.
    + rewrite (IH fewer Hnd). cbn [take]. rewrite bool_decide_eq_true_2 by (by left). cbn [negb].
      f_equal. apply List.filter_ext_in. intros y Hy%list_elem_of_In. f_equal.
      apply bool_decide_ext. split; [by right|]. by intros [->|?]%elem_of_cons.
    + rewrite (IH (S fewer) Hnd). rewrite bool_decide_eq_false_2; [done|].
      intros Hin. apply Hx. apply list_elem_of_In. eapply (proj1 (List.filter_In choose x l)).
      apply list_elem_of_In. eapply elem_of_sublist; [exact Hin|]. apply sublist_take.
Qed.

Lemma List_filter_rev {A} (p : A → bool) l : List.filter p (rev l) = rev (List.filter p l).
Proof.
  induction l as [|x l IH]; [done|]. simpl. rewrite List.filter_app, IH. simpl.
  destruct (p x); simpl; [done|apply app_nil_r].
Qed.

Lemma NoDup_rev {A} (l : list A) : NoDup l → NoDup (rev l).
Proof. intros H. by apply NoDup_ListNoDup, List.NoDup_rev, NoDup_ListNoDup. Qed.

Lemma rev_filter_rev {A} (p : A → bool) l : rev (List.filter p (rev l)) = List.filter p l.
Proof. by rewrite List_filter_rev, rev_involutive. Qed.

(** The entries a withdrawal takes and the queue it leaves before admission. *)
Definition taken_by (model : string) (limit : Z) (q : offloadQueue) : list nat :=
  take (Z.to_nat limit) (List.filter (lendable q model) (rev (pending q))).

Definition withdrawn_from (q : offloadQueue) (ids : list nat) : offloadQueue :=
  fold_left (λ q id, send id offloadWithdrawn q) ids
    (q <| pending := List.filter (λ id, negb (bool_decide (id ∈ ids))) (pending q) |>).

Lemma WithdrawNewest_eq model limit hold now q :
  queue_ok q → 0 < limit →
  WithdrawNewest model limit hold now q =
  (admitLocked hold now (withdrawn_from q (taken_by model limit q)), taken_by model limit q).
Proof.
  intros Hok Hl. unfold WithdrawNewest. destruct (Z.leb_spec limit 0); [lia|].
  rewrite withdrawLoop_spec.
  - unfold withdrawn_from. cbn zeta. rewrite rev_filter_rev. done.
  - apply NoDup_rev, Hok.
Qed.

Lemma taken_by_spec model limit q id :
  id ∈ taken_by model limit q → id ∈ pending q ∧ lendable q model id = true.
Proof.
  intros Hin. assert (id ∈ List.filter (lendable q model) (rev (pending q))) as Hf
    by (eapply elem_of_sublist; [exact Hin|apply sublist_take]).
  apply list_elem_of_In, List.filter_In in Hf as [Hf Hl]. split; [|done].
  apply list_elem_of_In. by apply in_rev.
Qed.

Lemma taken_by_NoDup model limit q : queue_ok q → NoDup (taken_by model limit q).
Proof.
  intros Hok. eapply sublist_NoDup; [|apply sublist_take].
  apply NoDup_ListNoDup, List.NoDup_filter, NoDup_ListNoDup. apply NoDup_rev, Hok.
Qed.

Lemma withdrawn_from_ok q ids :
  queue_ok q → NoDup ids → (∀ id, id ∈ ids → id ∈ pending q) →
  queue_ok (withdrawn_from q ids) ∧ same_kinds q (withdrawn_from q ids).
Proof.
  intros Hok Hnd Hin. pose proof Hok as [Hcore Hof]%queue_ok_split.
  destruct (send_all_fields offloadWithdrawn ids
    (q <| pending := List.filter (λ id, negb (bool_decide (id ∈ ids))) (pending q) |>))
    as (Hd&_&Hp&Ha&_&Hal).
  destruct (settle_core offloadWithdrawn ids
    (List.filter (λ id, negb (bool_decide (id ∈ ids))) (pending q)) q (withdrawn_from q ids))
    as [Hc Hk]; try done.
  - apply filter_sublist.
  - intros id Hid%list_elem_of_In%List.filter_In Hid'. destruct Hid as [_ Hid].
    by rewrite bool_decide_eq_true_2 in Hid.
  - apply map_eq. intros j. unfold withdrawn_from. by rewrite !lookup_send_all.
  - split; [|done]. apply queue_ok_split. split; [done|]. eapply own_first_sub; [done| |done].
    unfold withdrawn_from. rewrite Hp. apply filter_sublist.
Qed.

(** *** Arrivals *)

Lemma same_kinds_insert e q q' :
  queue_core q → entries q' = <[allocated q := e]> (entries q) →
  ∀ id, id ∈ pending q → is_own q' id = is_own q id ∧ borrowed_id q' id = borrowed_id q id.
Proof.
  intros Hcore Hent id Hin. destruct (allocate_fresh q Hcore) as (_&Hfp&_).
  unfold is_own, borrowed_id. rewrite Hent, lookup_insert_ne; [done|]. by intros <-.
Qed.

Lemma own_first_insert e q q' :
  queue_core q → own_first q → entries q' = <[allocated q := e]> (entries q) →
  (e_borrowed e = true ∧ pending q' = pending q ++ [allocated q]) ∨
  (e_borrowed e = false ∧ pending q' = allocated q :: pending q) → own_first q'.
Proof.
  intros Hcore (own&bor&Hp&Ho&Hb) Hent Hcase.
  pose proof (same_kinds_insert e q q' Hcore Hent) as Hsame. rewrite Hp in Hsame.
  assert (Forall (λ id, is_own q' id = true) own ∧ Forall (λ id, borrowed_id q' id = true) bor)
    as [Ho' Hb'].
  { rewrite !Forall_forall in *. split; intros id Hid; cbv beta;
      [rewrite (proj1 (Hsame id (proj2 (elem_of_app own bor id) (or_introl Hid))))
      |rewrite (proj2 (Hsame id (proj2 (elem_of_app own bor id) (or_intror Hid))))]; auto. }
  destruct Hcase as [[He Hp']|[He Hp']]; unfold own_first; rewrite Hp', Hp.
  - exists own, (bor ++ [allocated q]). rewrite <-app_assoc. split_and!; [done|done|].
    apply Forall_app. split; [done|]. apply Forall_singleton. unfold borrowed_id.
    by rewrite Hent, lookup_insert_eq.
  - exists (allocated q :: own), bor. split_and!; [done| |done]. apply Forall_cons. split; [|done].
    unfold is_own. by rewrite Hent, lookup_insert_eq, He.
Qed.

(** A request refused on arrival is never pending. *)
Lemma refused_ok e q q' :
  queue_ok q → (length (e_result e) ≤ 1)%nat →
  entries q' = <[allocated q := e]> (entries q) → allocated q' = S (allocated q) →
  pending q' = pending q → admitted q' = admitted q → depth q' = depth q → queue_ok q'.
Proof.
  intros Hok Hr Hent Hal Hpe Hadm Hd. pose proof Hok as [Hcore (own&bor&Hp&Ho&Hb)]%queue_ok_split.
  pose proof (same_kinds_insert e q q' Hcore Hent) as Hsame.
  destruct (allocate_fresh q Hcore) as (Hnone&Hfp&Hfa).
  assert (Hlook : ∀ j, j ≠ allocated q → entries q' !! j = entries q !! j)
    by (intros; rewrite Hent; by apply lookup_insert_ne).
  assert (entries q' !! allocated q = Some e) as Hnew by (rewrite Hent; apply lookup_insert_eq).
  apply queue_ok_split. destruct Hcore as [Ha Hn Hpc Had Ho' Hdep]. split; [split|].
  - intros j. rewrite Hal. destruct (decide (j = allocated q)) as [->|Hne].
    + rewrite Hnew. split; [lia|eauto].
    + rewrite Hlook, Ha by done. lia.
  - by rewrite Hpe.
  - intros j Hj. rewrite Hpe in Hj. rewrite Hadm, Hlook; [by apply Hpc|]. by intros ->.
  - intros j Hj. rewrite Hadm in Hj. rewrite Hlook; [by apply Had|]. by intros ->.
  - intros j e'. destruct (decide (j = allocated q)) as [->|Hne].
    + rewrite Hnew. by intros [= <-].
    + rewrite Hlook by done. apply Ho'.
  - by rewrite Hd.
  - exists own, bor. rewrite Hpe. split; [done|]. rewrite Hp in Hsame. rewrite !Forall_forall in *.
    split; intros id Hid; cbv beta; destruct (Hsame id) as [Hs1 Hs2];
      [set_solver|rewrite Hs1; auto|set_solver|rewrite Hs2; auto].
Qed.

(** What an own arrival does before admission: no borrowed entry stays pending,
    none that has not started survives in the admitted set. *)
Definition own_arrival (e : offloadEntry) (q : offloadQueue) : offloadQueue :=
  preemptBorrowedBeforeStartLocked (returnPendingBorrowedLocked
    ((allocate e q).1 <| pending := pending q ++ [allocated q] |>)).1.

Lemma own_arrival_ok e q :
  queue_ok q → e_result e = [] → e_borrowed e = false →
  queue_ok (own_arrival e q) ∧ Forall (λ id, is_own (own_arrival e q) id = true) (pending (own_arrival e q)).
Proof.
  intros [Hcore _]%queue_ok_split Hr He.
  set (q1 := (allocate e q).1 <| pending := pending q ++ [allocated q] |>).
  assert (queue_core q1) as H1.
  { apply (insert_core e q q1 (pending q ++ [allocated q])); try done. by rewrite Permutation_app_comm. }
  destruct (return_core q1 H1) as (H2&_&Hown&_).
  destruct (preempt_core _ H2) as [H3 Hk3].
  assert (Forall (λ id, is_own (own_arrival e q) id = true) (pending (own_arrival e q))) as Hall.
  { change (pending (own_arrival e q)) with (pending (returnPendingBorrowedLocked q1).1).
    eapply Forall_impl; [exact Hown|]. intros id Hid. cbv beta in *.
    etransitivity; [exact (same_kinds_own _ _ id Hk3)|exact Hid]. }
  split; [|done]. apply queue_ok_split. split; [done|].
  exists (pending (own_arrival e q)), []. by rewrite app_nil_r.
Qed.

(** The entry a request becomes. *)
Definition arrival_entry (request : queuedRequest) (now : Z) (q : offloadQueue) : offloadEntry :=
  mkEntry (q_modelID request) (q_work request) (q_requiredContext request) now
    (bool_decide (q_origin request = borrowedFromPeer))
    (bool_decide (q_withdrawal request = pinnedToThisNode)) false 0 (u64_succ (sequence q)) 0 false false
    (q_preemption request) [].

Definition next_sequence (q : offloadQueue) : offloadQueue := q <| sequence := u64_succ (sequence q) |>.

Lemma next_sequence_ok q : queue_ok q → queue_ok (next_sequence q).
Proof. intros Hok. by apply (remove_ok q). Qed.

Lemma Enqueue_own request idle hold now q :
  q_origin request = nativeRequest →
  Enqueue request idle hold now q =
  (admitLocked hold now (own_arrival
     ((arrival_entry request now q) <| e_borrowedAhead := borrowedAdmittedLocked q |>) (next_sequence q)),
   allocated q).
Proof. intros Ho. unfold Enqueue, arrival_entry. rewrite Ho. reflexivity. Qed.


Lemma Enqueue_borrowed request idle hold now q :
  q_origin request = borrowedFromPeer →
  Enqueue request idle hold now q =
  if AcceptingBorrowed idle q then
    (admitLocked hold now ((allocate (arrival_entry request now q) (next_sequence q)).1
       <| pending := pending q ++ [allocated q] |>), allocated q)
  else allocate ((arrival_entry request now q) <| e_refusedOnArrival := true |>
                   <| e_result := [offloadReturned] |>) (next_sequence q).
Proof.
  intros Ho. unfold Enqueue, arrival_entry, AcceptingBorrowed. rewrite Ho.
  replace (holdsOwnWorkLocked (q <| sequence := u64_succ (sequence q) |>))
    with (holdsOwnWorkLocked q) by reflexivity.
  destruct idle, (holdsOwnWorkLocked q); reflexivity.
Qed.

Lemma quiescent_sub q q' :
  quiescent q → sublist (pending q') (pending q) → admitted q' = admitted q → quiescent q'.
Proof.
  intros Hq Hsub Hadm He. rewrite Hadm in He. rewrite (Hq He) in Hsub. by apply sublist_nil_r in Hsub.
Qed.

Lemma admitLocked_ok hold now q : queue_ok q → queue_ok (admitLocked hold now q) ∧ quiescent (admitLocked hold now q).
Proof.
  intros Hok. destruct (admitLocked_spec hold now q Hok) as [Ho _ _ _ _ _ Hb]. split; [done|].
  by apply blocked_quiescent.
Qed.

Lemma depth_ok d q : queue_ok q → queue_ok (q <| depth := Z.max d 1 |>).
Proof. intros []. split; try done. simpl. lia. Qed.

Lemma borrowed_arrival_ok e q :
  queue_ok q → e_result e = [] → e_borrowed e = true →
  queue_ok ((allocate e q).1 <| pending := pending q ++ [allocated q] |>).
Proof.
  intros [Hcore Hof]%queue_ok_split Hr He. apply queue_ok_split. split.
  - apply (insert_core e q _ (pending q ++ [allocated q])); try done. by rewrite Permutation_app_comm.
  - apply (own_first_insert e q); auto.
Qed.

Lemma returned_arrival_ok e q :
  queue_ok q → e_result e = [] → e_borrowed e = false →
  queue_ok ((allocate e q).1 <| pending := allocated q :: pending q |>).
Proof.
  intros [Hcore Hof]%queue_ok_split Hr He. apply queue_ok_split. split.
  - by apply (insert_core e q _ (allocated q :: pending q)).
  - apply (own_first_insert e q); auto.
Qed.

Lemma step_ok hold now ev q :
  queue_ok q → quiescent q → queue_ok (apply_event hold now ev q) ∧ quiescent (apply_event hold now ev q).
Proof.
  intros Hok Hq. pose proof (next_sequence_ok q Hok) as Hok'.
  destruct ev as [d| | |request idle|model work context arrived|id|id|model limit]; cbn [apply_event].
  - apply admitLocked_ok. by apply depth_ok.
  - by apply admitLocked_ok.
  - pose proof Hok as [Hcore Hof]%queue_ok_split.
    destruct (return_core q Hcore) as (Hc&Hk&_&Hp&Ha&_). split.
    + apply queue_ok_split. split; [done|]. eapply own_first_sub; [done| |done].
      unfold ReturnBorrowed. rewrite Hp. apply filter_sublist.
    + eapply quiescent_sub; [done| |done]. unfold ReturnBorrowed. rewrite Hp. apply filter_sublist.
  - destruct (q_origin request) eqn:Ho.
    + rewrite Enqueue_own by done. apply admitLocked_ok.
      apply own_arrival_ok; [done|done|]. simpl. by rewrite Ho.
    + rewrite Enqueue_borrowed by done. case_match.
      * apply admitLocked_ok. apply (borrowed_arrival_ok _ (next_sequence q)); [done|done|].
        simpl. by rewrite Ho.
      * split; [|done]. eapply (refused_ok _ (next_sequence q) _ Hok'); [|reflexivity..]. simpl. lia.
  - apply admitLocked_ok. by apply (returned_arrival_ok _ (next_sequence q)).
  - apply admitLocked_ok. destruct (bool_decide (id ∈ admitted q) && negb (borrowed_id q id));
      (apply (remove_ok q); try done; simpl; set_solver).
  - apply admitLocked_ok. apply (remove_ok q); try done; [apply remove_first_sublist|simpl; set_solver].
  - destruct (Z.leb_spec limit 0) as [Hle|Hlt].
    + unfold WithdrawNewest. rewrite (proj2 (Z.leb_le limit 0)) by done. done.
    + rewrite WithdrawNewest_eq by done. apply admitLocked_ok.
      apply withdrawn_from_ok; [done|by apply taken_by_NoDup|]. intros id Hid.
      by apply taken_by_spec in Hid as [? _].
Qed.

Lemma newOffloadQueue_ok d : queue_ok (newOffloadQueue d) ∧ quiescent (newOffloadQueue d).
Proof.
  split; [|done]. split; simpl; try done.
  - intros id. rewrite lookup_empty. split; [by intros []|lia].
  - constructor.
  - intros id Hid. by apply not_elem_of_nil in Hid.
  - lia.
  - exists [], []. by split_and!.
Qed.

Definition reachable_queue : offloadQueue → Prop :=
  reachable (λ q, ∃ d, q = newOffloadQueue d) queueStep.

Lemma reachable_ok q : reachable_queue q → queue_ok q ∧ quiescent q.
Proof.
  induction 1 as [q [d ->]|q q' _ [Hok Hq] (hold&now&ev&->)].
  - apply newOffloadQueue_ok.
  - by apply step_ok.
Qed.

(** ** Correctness *)

(** C16. In every queue the operations can produce, whatever the hold answered
    on the way: an entry is told at most one outcome, so no send on its channel
    ever blocks the queue; a pending entry has been told nothing and is not
    admitted, an admitted one has been told exactly that; the node's own pending
    entries all stand before the borrowed ones; and the queue is never idle with
    work pending. *)
Theorem queue_invariant (q : offloadQueue) (H : reachable_queue q) :
  (∀ id e, entries q !! id = Some e → (length (e_result e) ≤ 1)%nat) ∧
  NoDup (pending q) ∧
  (∀ id, id ∈ pending q → id ∉ admitted q ∧ ∃ e, entries q !! id = Some e ∧ e_result e = []) ∧
  (∀ id, id ∈ admitted q → ∃ e, entries q !! id = Some e ∧ e_result e = [offloadAdmitted]) ∧
  (∃ own borrowed, pending q = own ++ borrowed ∧
     Forall (λ id, is_own q id = true) own ∧ Forall (λ id, borrowed_id q id = true) borrowed) ∧
  (admitted q = ∅ → pending q = []).
Proof. destruct (reachable_ok q H) as [[] Hq]. by split_and!. Qed.

(** C17. Admission takes a prefix of the pending entries, tells each it is
    admitted, never fills the queue above its depth, starts borrowed work only
    when no own entry is left pending, and stops only when the depth is reached,
    nothing is pending, or the next entry is an own one that may still be lent,
    is being held, and everything in flight is own work of the same model. *)
Theorem admission_spec hold now (q : offloadQueue) (H : reachable_queue q) :
  let q' := Readmit hold now q in
  ∃ taken, pending q = taken ++ pending q' ∧ admitted q' = list_to_set taken ∪ admitted q ∧
  Z.of_nat (size (admitted q')) ≤ Z.max (depth q) (Z.of_nat (size (admitted q))) ∧
  (∀ id, id ∈ taken → ∃ e, entries q' !! id = Some e ∧ e_result e = [offloadAdmitted]) ∧
  ((∃ id, id ∈ taken ∧ borrowed_id q id = true) →
     Forall (λ id, borrowed_id q' id = true) (pending q')) ∧
  blocked q'.
Proof.
  intros q'. unfold Readmit in q'. destruct (reachable_ok q H) as [Hok _].
  destruct (admitLocked_spec hold now q Hok) as [Hok' Hk Hf (taken&Ht&Ha) Hd _ Hb].
  fold q' in Hok', Hk, Hf, Ht, Ha, Hd, Hb. exists taken. split_and!; try done.
  - intros id Hid. apply (ok_admitted q' Hok'). rewrite Ha. set_solver.
  - intros (id&Hid&Hborrowed). destruct (ok_order q Hok) as (own&bor&Hp&Ho&Hbor).
    rewrite Hp in Ht. rewrite Forall_forall in *. intros j Hj. rewrite (same_kinds_borrowed _ _ j Hk).
    apply app_eq_inv in Ht as [(k&Hk1&Hk2)|(k&Hk1&Hk2)].
    + exfalso. assert (is_own q id = true) as Hown by (apply Ho; rewrite Hk1; set_solver).
      unfold is_own, borrowed_id in *. destruct (entries q !! id); [|done].
      by rewrite Hborrowed in Hown.
    + apply Hbor. rewrite Hk2. set_solver.
Qed.

(** C18. Withdrawing for a helper takes the newest entries of the model that may
    be lent (own, not pinned), newest first, as many as there are up to the
    limit; tells each it is withdrawn; and leaves it neither pending nor
    admitted. *)
Theorem WithdrawNewest_spec model limit hold now (q : offloadQueue) (H : reachable_queue q) :
  let '(q', withdrawn) := WithdrawNewest model limit hold now q in
  withdrawn = take (Z.to_nat limit) (List.filter (lendable q model) (rev (pending q))) ∧
  (∀ id, id ∈ withdrawn → id ∉ pending q' ∧ id ∉ admitted q' ∧
     ∃ e, entries q' !! id = Some e ∧ e_borrowed e = false ∧ e_pinned e = false ∧
       e_modelID e = model ∧ e_result e = [offloadWithdrawn]) ∧
  (∃ taken, List.filter (λ id, negb (bool_decide (id ∈ withdrawn))) (pending q) = taken ++ pending q' ∧
     admitted q' = list_to_set taken ∪ admitted q).
Proof.
  destruct (reachable_ok q H) as [Hok _]. destruct (Z.leb_spec limit 0) as [Hle|Hlt].
  { unfold WithdrawNewest. rewrite (proj2 (Z.leb_le limit 0)) by done.
    replace (Z.to_nat limit) with 0%nat by lia. split_and!; [done| |].
    - intros id Hid. by apply not_elem_of_nil in Hid.
    - exists []. split; [|set_solver]. apply forallb_filter_id, forallb_forall. intros y _.
      rewrite bool_decide_eq_false_2; [done|apply not_elem_of_nil]. }
  rewrite WithdrawNewest_eq by done. set (ids := taken_by model limit q).
  assert (∀ id, id ∈ ids → id ∈ pending q) as Hin by (intros id Hid; by apply taken_by_spec in Hid as [? _]).
  pose proof (taken_by_NoDup model limit q Hok) as Hnd. fold ids in Hnd.
  destruct (withdrawn_from_ok q ids Hok Hnd Hin) as [Hok1 Hk1].
  destruct (send_all_fields offloadWithdrawn ids
    (q <| pending := List.filter (λ id, negb (bool_decide (id ∈ ids))) (pending q) |>))
    as (_&_&Hp1&Ha1&_).
  fold (withdrawn_from q ids) in Hp1, Ha1. simpl in Hp1, Ha1.
  destruct (admitLocked_spec hold now _ Hok1) as [Hok2 Hk2 _ (taken&Ht&Ha2) _ Hoth _].
  set (q' := admitLocked hold now (withdrawn_from q ids)) in *.
  assert (∀ id, id ∈ ids → id ∉ pending (withdrawn_from q ids)) as Hgone.
  { intros id Hid Hin'. rewrite Hp1 in Hin'. apply list_elem_of_In, List.filter_In in Hin' as [_ Hf].
    by rewrite bool_decide_eq_true_2 in Hf. }
  split_and!; [done| |exists taken; by rewrite <-Hp1, <-Ha1].
  intros id Hid. destruct (taken_by_spec _ _ _ _ Hid) as [Hpend Hlend].
  destruct (ok_pending q Hok id Hpend) as (Hna&e&He&Hr). split_and!.
  - intros Hp'. apply (Hgone id Hid). rewrite Ht. set_solver.
  - rewrite Ha2, Ha1. intros [Hj%elem_of_list_to_set|Hj]%elem_of_union; [|done].
    apply (Hgone id Hid). rewrite Ht. set_solver.
  - exists (e <| e_result := e_result e ++ [offloadWithdrawn] |>). split.
    + rewrite Hoth by (by apply Hgone). unfold withdrawn_from. rewrite lookup_send_all by done.
      rewrite decide_True by done. simpl. by rewrite He.
    + unfold lendable in Hlend. rewrite He in Hlend. bool_simpl. simpl. rewrite Hr. by split_and!.
Qed.

Lemma own_arrival_admitted e q : admitted (own_arrival e q) = admitted q.
Proof.
  set (q1 := (allocate e q).1 <| pending := pending q ++ [allocated q] |>).
  by destruct (send_all_fields offloadReturned (List.filter (borrowed_id q1) (pending q1)) q1)
    as (_&_&_&Ha&_).
Qed.

Lemma own_arrival_lookup e q j e0 :
  queue_ok q → entries q !! j = Some e0 →
  entries (own_arrival e q) !! j = Some (
    let e1 := if bool_decide (j ∈ pending q) && e_borrowed e0
              then e0 <| e_result := e_result e0 ++ [offloadReturned] |> else e0 in
    if bool_decide (j ∈ admitted q) && e_borrowed e1
    then e1 <| e_preemption := preemptUnlessStarted (e_preemption e1) |> else e1).
Proof.
  intros [Hcore _]%queue_ok_split He0. destruct (allocate_fresh q Hcore) as (Hnone&Hfp&_).
  assert (j ≠ allocated q) as Hj by (intros ->; congruence).
  set (q1 := (allocate e q).1 <| pending := pending q ++ [allocated q] |>).
  assert (entries q1 !! j = Some e0) as H1 by (by simpl; rewrite lookup_insert_ne).
  assert (NoDup (List.filter (borrowed_id q1) (pending q1))) as Hnd.
  { apply NoDup_ListNoDup, List.NoDup_filter, NoDup_ListNoDup. simpl. apply NoDup_app.
    split_and!; [apply Hcore|set_solver|apply NoDup_singleton]. }
  unfold own_arrival. fold q1. unfold preemptBorrowedBeforeStartLocked. simpl. rewrite map_lookup_imap.
  destruct (send_all_fields offloadReturned (List.filter (borrowed_id q1) (pending q1)) q1)
    as (_&_&_&Ha&_).
  replace (admitted (fold_left _ _ _)) with (admitted q) by (symmetry; exact Ha).
  rewrite lookup_send_all by done. rewrite H1. simpl.
  assert (bool_decide (j ∈ pending q) && e_borrowed e0 =
          bool_decide (j ∈ List.filter (borrowed_id q1) (pending q1))) as ->.
  { apply eq_true_iff_eq. rewrite andb_true_iff, !bool_decide_eq_true.
    rewrite (list_elem_of_In (List.filter _ _)), List.filter_In, <-list_elem_of_In.
    unfold borrowed_id. rewrite H1. simpl. rewrite elem_of_app, list_elem_of_singleton. intuition. }
  destruct (decide (j ∈ List.filter (borrowed_id q1) (pending q1))) as [Hd|Hd].
  - rewrite (bool_decide_eq_true_2 _ Hd), decide_True by exact Hd. reflexivity.
  - rewrite (bool_decide_eq_false_2 _ Hd), decide_False by exact Hd. reflexivity.
Qed.

Lemma admitLocked_keeps hold now q id :
  queue_ok q → id ∈ pending q →
  id ∈ pending (admitLocked hold now q) ∨ id ∈ admitted (admitLocked hold now q).
Proof.
  intros Hok Hin. destruct (admitLocked_spec hold now q Hok) as [_ _ _ (taken&Ht&Ha) _ _ _].
  rewrite Ht in Hin. rewrite Ha. set_solver.
Qed.

Lemma own_listed q l j e :
  Forall (λ j, is_own q j = true) l → j ∈ l → entries q !! j = Some e → e_borrowed e = false.
Proof.
  rewrite Forall_forall. intros Hall Hin He. specialize (Hall j Hin). unfold is_own in Hall.
  rewrite He in Hall. by destruct (e_borrowed e).
Qed.

(** C19. An arriving request of the node's own leaves no borrowed entry pending:
    each is told it is returned, each borrowed one admitted before is preempted
    unless it has started, and the new entry waits or runs. A borrowed request is
    let in exactly when the node is idle and holds no own work; a refused one is
    told so at once, and nothing else of the queue moves. *)
Theorem Enqueue_spec request idle hold now (q : offloadQueue) (H : reachable_queue q) :
  let '(q', id) := Enqueue request idle hold now q in
  id = allocated q ∧
  match q_origin request with
  | nativeRequest =>
      (id ∈ pending q' ∨ id ∈ admitted q') ∧
      Forall (λ j, is_own q' j = true) (pending q') ∧
      (∀ j, j ∈ pending q → borrowed_id q j = true →
         ∃ e, entries q' !! j = Some e ∧ e_result e = [offloadReturned]) ∧
      (∀ j e, j ∈ admitted q → entries q !! j = Some e → e_borrowed e = true →
         j ∈ admitted q' ∧
         entries q' !! j = Some (e <| e_preemption := preemptUnlessStarted (e_preemption e) |>))
  | borrowedFromPeer =>
      if AcceptingBorrowed idle q then id ∈ pending q' ∨ id ∈ admitted q'
      else pending q' = pending q ∧ admitted q' = admitted q ∧
           ∃ e, entries q' !! id = Some e ∧ e_refusedOnArrival e = true ∧
             e_result e = [offloadReturned]
  end.
Proof.
  destruct (reachable_ok q H) as [Hok _]. pose proof (next_sequence_ok q Hok) as Hok'.
  destruct (q_origin request) eqn:Ho.
  - rewrite Enqueue_own by done. split; [done|].
    set (e := (arrival_entry request now q) <| e_borrowedAhead := _ |>).
    destruct (own_arrival_ok e (next_sequence q) Hok') as [Hok1 Hown]; [done|by simpl; rewrite Ho|].
    pose proof (own_arrival_lookup e (next_sequence q)) as Hlook.
    destruct (admitLocked_spec hold now _ Hok1) as [_ Hk _ (taken&Ht&Ha) _ Hoth _].
    split_and!.
    + apply admitLocked_keeps; [done|]. simpl. apply list_elem_of_In, List.filter_In.
      split; [apply in_or_app; right; by left|].
      unfold borrowed_id. simpl. rewrite lookup_insert_eq. simpl. by rewrite Ho.
    + rewrite Ht in Hown. apply Forall_app in Hown as [_ Hown]. eapply Forall_impl; [exact Hown|].
      intros j Hj. cbv beta in *. by rewrite (same_kinds_own _ _ j Hk).
    + intros j Hj Hb. destruct (ok_pending q Hok j Hj) as (Hna&e0&He0&Hr).
      unfold borrowed_id in Hb. rewrite He0 in Hb.
      specialize (Hlook j e0 Hok' He0). cbv zeta in Hlook.
      rewrite Hb, (bool_decide_eq_true_2 (j ∈ pending (next_sequence q)) Hj),
        (bool_decide_eq_false_2 (j ∈ admitted (next_sequence q)) Hna) in Hlook. cbn [andb] in Hlook.
      eexists. rewrite Hoth; [split; [exact Hlook|simpl; by rewrite Hr]|].
      intros Hin. pose proof (own_listed _ _ _ _ Hown Hin Hlook) as Hno. simpl in Hno. congruence.
    + intros j e0 Hj He0 Hb. split; [rewrite Ha, own_arrival_admitted; by apply elem_of_union_r|].
      specialize (Hlook j e0 Hok' He0). cbv zeta in Hlook.
      assert (j ∉ pending q) as Hnp by (intros Hin; by destruct (ok_pending q Hok j Hin)).
      rewrite (bool_decide_eq_false_2 (j ∈ pending (next_sequence q))) in Hlook by done.
      cbn [andb] in Hlook. rewrite (bool_decide_eq_true_2 (j ∈ admitted (next_sequence q)) Hj), Hb in Hlook.
      cbn [andb] in Hlook. rewrite Hoth; [exact Hlook|].
      intros Hin. pose proof (own_listed _ _ _ _ Hown Hin Hlook) as Hno. simpl in Hno. congruence.
  - rewrite Enqueue_borrowed by done. destruct (AcceptingBorrowed idle q) eqn:Hacc.
    + split; [done|]. apply admitLocked_keeps; [|apply elem_of_app; right; by left].
      apply (borrowed_arrival_ok _ (next_sequence q)); [done|done|]. simpl. by rewrite Ho.
    + split; [done|]. split_and!; [done|done|]. eexists. simpl. by rewrite lookup_insert_eq.
Qed.

(** ** Concrete instances: a helper of depth one running one borrowed request,
    with a second one pending. *)
Definition lent (model : string) : queuedRequest :=
  mkRequest model noWork 0 borrowedFromPeer withdrawable (Some (mkPreemption false false)).
Definition own (model : string) : queuedRequest :=
  mkRequest model noWork 0 nativeRequest withdrawable None.

Definition helping : offloadQueue :=
  apply_event None 7 (EvEnqueue (lent "m") true)
    (apply_event None 5 (EvEnqueue (lent "m") true) (newOffloadQueue 1)).

(** An owner of depth one with three own requests of two models. *)
Definition owning : offloadQueue :=
  apply_event None 9 (EvEnqueue (own "m") true) (apply_event None 7 (EvEnqueue (own "n") true)
    (apply_event None 5 (EvEnqueue (own "m") true) (newOffloadQueue 1))).

Lemma helping_reachable : reachable_queue helping.
Proof.
  eapply reachable_step; [eapply reachable_step; [apply reachable_init; by eexists|]|];
    by do 3 eexists.
Qed.

Lemma owning_reachable : reachable_queue owning.
Proof.
  eapply reachable_step;
    [eapply reachable_step; [eapply reachable_step; [apply reachable_init; by eexists|]|]|];
    by do 3 eexists.
Qed.

Lemma queue_invariant_witness :
  pending helping = [1%nat] ∧ 0%nat ∈ admitted helping ∧
  (∃ e, entries helping !! 0%nat = Some e ∧ e_result e = [offloadAdmitted]) ∧ NoDup (pending helping).
Proof.
  destruct (queue_invariant helping helping_reachable) as (_&Hn&_&Ha&_&_).
  split; [vm_compute; reflexivity|]. split; [|split; [apply Ha|exact Hn]];
    (eapply bool_decide_eq_true; vm_compute; reflexivity).
Defined.

(** The helper is full: admission leaves the second borrowed request waiting. *)
Lemma admission_spec_witness :
  let q' := Readmit None 11 helping in pending helping = pending q' ∧ blocked q'.
Proof.
  destruct (admission_spec None 11 helping helping_reachable) as (taken&Ht&_&_&_&_&Hb).
  split; [vm_compute; reflexivity|exact Hb].
Defined.

(** One of the two pending entries belongs to the model asked for. *)
Lemma WithdrawNewest_spec_witness :
  (WithdrawNewest "m" 2 None 11 owning).2 = [2%nat] ∧
  (∃ e, entries (WithdrawNewest "m" 2 None 11 owning).1 !! 2%nat = Some e ∧
        e_result e = [offloadWithdrawn]).
Proof.
  pose proof (WithdrawNewest_spec "m" 2 None 11 owning owning_reachable) as H.
  destruct (WithdrawNewest "m" 2 None 11 owning) as [q' w] eqn:E.
  assert (w = [2%nat]) as -> by (transitivity (WithdrawNewest "m" 2 None 11 owning).2;
    [by rewrite E|vm_compute; reflexivity]).
  destruct H as (_&Hw&_). split; [done|]. simpl.
  destruct (Hw 2%nat) as (_&_&e&He&_&_&_&Hr); [by left|]. by exists e.
Defined.

(** Own work reaches the helper: the pending borrowed request goes back, the
    admitted one is preempted. *)
Lemma Enqueue_spec_witness :
  let q' := (Enqueue (own "m") true None 11 helping).1 in
  (∃ e, entries q' !! 1%nat = Some e ∧ e_result e = [offloadReturned]) ∧
  (∃ e, entries q' !! 0%nat = Some e ∧ e_preemption e = Some (mkPreemption false true)).
Proof.
  pose proof (Enqueue_spec (own "m") true None 11 helping helping_reachable) as H.
  destruct (Enqueue (own "m") true None 11 helping) as [q' id]. simpl in H |- *.
  destruct H as (_&_&_&Hret&Hpre). split.
  - apply Hret; [eapply bool_decide_eq_true; vm_compute; reflexivity|vm_compute; reflexivity].
  - destruct (entries helping !! 0%nat) as [e|] eqn:He; [|vm_compute in He; discriminate].
    destruct (Hpre 0%nat e) as [_ Hq];
      [eapply bool_decide_eq_true; vm_compute; reflexivity|exact He|
       vm_compute in He; injection He as <-; reflexivity|].
    eexists. split; [exact Hq|]. vm_compute in He. injection He as <-. reflexivity.
Defined.
