(* ===== verification/OffloadPlan.v ===== *)
(** * The lending plan: which helper may take which owner's queued work

    Model of [internal/proxy/offload_broker.go] and [offload_pricing.go]: the
    pricing of an owner's backlog and of each linked helper, the choice of one
    helper, the plan over all owners of a lane, and the book of live leases. *)

From stdpp Require Import gmap strings list sorting.
From Stdlib Require Import Ascii Bool ZArith Lia.
From S2P Require Import Prelude.
From S2P Require Import Float64.
From S2P Require Import SchedulingCost.
Open Scope go_scope.
Open Scope Z_scope.

(** ** Data *)

Record offloadCandidate : Type := mkCandidate {
  c_NodeID : string;
  c_ModelID : string;
  c_ConfigFilename : string;
  c_Section : string;
  c_Loaded : bool;
  c_SwitchesBackendFamily : bool;
  c_DisplacedConfigs : list string;
  c_AcceptingBorrowed : bool;
  c_IdleFor : Z;
  c_ContextCapacity : Z;
  c_PendingCount : Z;
  c_PendingWork : Work;
  c_PendingLargestContext : Z;
  c_BacklogCount : Z;
  c_BacklogWork : Work
}.

Record offloadHelperCandidate : Type := mkHelper {
  h_candidate : offloadCandidate;
  h_LoadIfUnloaded : bool;
  h_RestoreAfterBorrow : bool
}.

Record lendingOwner : Type := mkOwner { l_owner : offloadCandidate; l_helpers : list offloadHelperCandidate }.

Record offloadLease : Type := mkLease {
  Lane : string;
  OwnerNodeID : string;
  OwnerModelID : string;
  HelperNodeID : string;
  HelperModelID : string;
  LoadHelperModel : bool;
  RestoreHelperModel : bool;
  HelperSlots : Z;
  Probe : bool;
  ExpiresAt : Z;
  TTLMS : Z;
  OwnerJobMS : float64;
  HelperSwitchMS : float64;
  HelperServiceMS : float64
}.
#[export] Instance eta_offloadLease : Eta offloadLease :=
  λ l, mkLease (Lane l) (OwnerNodeID l) (OwnerModelID l) (HelperNodeID l) (HelperModelID l)
    (LoadHelperModel l) (RestoreHelperModel l) (HelperSlots l) (Probe l) (ExpiresAt l) (TTLMS l)
    (OwnerJobMS l) (HelperSwitchMS l) (HelperServiceMS l).

(** Durations are nanoseconds. *)
Definition Millisecond : Z := 1000000.

Definition restartedOnOwnerClock (lease : offloadLease) (now : Z) : offloadLease :=
  if 0 <? TTLMS lease then lease <| ExpiresAt := now + int64_wrap (TTLMS lease * Millisecond) |>
  else lease.

Definition slots (lease : offloadLease) : Z := if HelperSlots lease <? 1 then 1 else HelperSlots lease.

Record helperSlots : Type := mkSlots { faster : Z; slower : Z; probe_slots : Z }.

Record offloadPlanPolicy : Type := mkPolicy {
  ttl : Z; probeIdle : Z; policy_slots : helperSlots; trigger : string
}.

(** What a plan records about one owner and helper ([offloaddecisions.Record]). *)
Record planRecord : Type := mkRecord {
  r_Trigger : string; r_Lane : string;
  r_OwnerNodeID : string; r_OwnerModelID : string;
  r_HelperNodeID : string; r_HelperModelID : string;
  r_Outcome : string; r_Reason : string;
  r_PendingCount : Z; r_BacklogCount : Z;
  r_KeepMS : float64; r_SwitchMS : float64; r_ServiceMS : float64; r_OwnerJobMS : float64;
  r_ServiceSource : string; r_HelperIdleMS : Z; r_Slots : Z
}.
#[export] Instance eta_planRecord : Eta planRecord :=
  λ r, mkRecord (r_Trigger r) (r_Lane r) (r_OwnerNodeID r) (r_OwnerModelID r) (r_HelperNodeID r)
    (r_HelperModelID r) (r_Outcome r) (r_Reason r) (r_PendingCount r) (r_BacklogCount r)
    (r_KeepMS r) (r_SwitchMS r) (r_ServiceMS r) (r_OwnerJobMS r) (r_ServiceSource r)
    (r_HelperIdleMS r) (r_Slots r).

Definition OutcomeGranted : string := "granted".
Definition OutcomeProbe : string := "probe".
Definition OutcomeSkipped : string := "skipped".
Definition ServiceSourceHelper : string := "helper".
Definition ServiceSourceOwnerFallback : string := "owner_fallback".

Definition reasonHelperNotAccepting : string := "helper_not_accepting".
Definition reasonHelperClaimed : string := "helper_claimed".
Definition reasonLoadForbidden : string := "load_forbidden".
Definition reasonContextTooSmall : string := "context_too_small".
Definition reasonSwitchUnpriced : string := "switch_unpriced".
Definition reasonFamilySwitchUnpriced : string := "family_switch_unpriced".
Definition reasonRestoreUnpriced : string := "restore_unpriced".
Definition reasonHelperRecentlyBusy : string := "helper_recently_busy".
Definition reasonServiceUnpriced : string := "service_unpriced".
Definition reasonOwnerUnpriced : string := "owner_unpriced".
Definition reasonCostRejected : string := "cost_rejected".
Definition reasonOutranked : string := "outranked".

Record offloadPlan : Type := mkPlan {
  leases : list offloadLease;
  decisions : list planRecord;
  nextProbeDue : Z
}.
#[export] Instance eta_offloadPlan : Eta offloadPlan :=
  λ p, mkPlan (leases p) (decisions p) (nextProbeDue p).

Definition probeDueIn (plan : offloadPlan) (wait : Z) : offloadPlan :=
  if (0 <? wait) && ((nextProbeDue plan =? 0) || (wait <? nextProbeDue plan))
  then plan <| nextProbeDue := wait |> else plan.

Definition offloadModelKey (candidate : offloadCandidate) : string * string * string :=
  (c_NodeID candidate, c_ModelID candidate, c_Section candidate).

(** ** Pricing *)

Definition durationFromMilliseconds (milliseconds : float64) : Z :=
  f_to_int (f_mul milliseconds (f_of_Z Millisecond)).

Record ownerDemand : Type := mkDemand {
  d_owner : offloadCandidate;
  meanWork : Work;
  largestContext : Z;
  keepMS : float64;
  jobMS : float64;
  d_priced : bool
}.

Definition ownerDemandFor (owner : offloadCandidate) (costs : option Table) : ownerDemand :=
  let key := offloadModelKey owner in
  let meanWork := Mean (c_PendingWork owner) (c_PendingCount owner) in
  let keep := t_PredictQueueMS costs key (c_BacklogCount owner) (c_BacklogWork owner) in
  let job := t_PredictMS costs key meanWork in
  mkDemand owner meanWork (c_PendingLargestContext owner) (default f_zero keep) (default f_zero job)
    (bool_decide (is_Some keep) && bool_decide (is_Some job)).

Record helperEvaluation : Type := mkEvaluation {
  e_helper : offloadHelperCandidate;
  ineligible : string;
  unpriced : string;
  switchMS : float64;
  restoreMS : float64;
  serviceMS : float64;
  serviceSource : string
}.
#[export] Instance eta_helperEvaluation : Eta helperEvaluation :=
  λ e, mkEvaluation (e_helper e) (ineligible e) (unpriced e) (switchMS e) (restoreMS e)
    (serviceMS e) (serviceSource e).

Definition mayServe (evaluation : helperEvaluation) : bool := String.eqb (ineligible evaluation) "".

Definition priced (evaluation : helperEvaluation) : bool :=
  mayServe evaluation && String.eqb (unpriced evaluation) "".

Definition totalMS (evaluation : helperEvaluation) : float64 :=
  f_add (f_add (switchMS evaluation) (restoreMS evaluation)) (serviceMS evaluation).

Definition helperStillNeedsItsOwnModel (helper : offloadCandidate) (detour : float64) : bool :=
  negb (c_Loaded helper) && (c_IdleFor helper <? durationFromMilliseconds detour).

(** The loop over the displaced configurations; it gives up at one without a price. *)
Fixpoint addLoads (node : string) (costs : option Table) (displaced : list string) (total : float64)
  : option float64 :=
  match displaced with
  | [] => Some total
  | config :: rest => loadMS ← LoadMS costs (node, config); addLoads node costs rest (f_add total loadMS)
  end.

Definition offloadRestoreMS (helper : offloadCandidate) (costs : option Table) : option float64 :=
  if c_Loaded helper then Some f_zero
  else addLoads (c_NodeID helper) costs (c_DisplacedConfigs helper) f_zero.

Definition helperWindowHolds (helper : offloadCandidate) (largestContext : Z) : bool :=
  (largestContext <=? 0) || (largestContext <=? c_ContextCapacity helper).

Definition helperIneligibility (helper : offloadHelperCandidate) (claimed : gset string)
    (largestContext : Z) : string :=
  let c := h_candidate helper in
  if negb (c_AcceptingBorrowed c) then reasonHelperNotAccepting
  else if bool_decide (c_NodeID c ∈ claimed) then reasonHelperClaimed
  else if negb (c_Loaded c) && negb (h_LoadIfUnloaded helper) then reasonLoadForbidden
  else if negb (helperWindowHolds c largestContext) then reasonContextTooSmall
  else "".

Definition offloadSwitchMS (helper : offloadCandidate) (costs : option Table) : option float64 :=
  if c_Loaded helper then Some f_zero
  else LoadMS costs (c_NodeID helper, c_ConfigFilename helper).

Definition helperServiceMS (helper : offloadCandidate) (costs : option Table) (demand : ownerDemand)
  : option (float64 * string) :=
  match t_PredictMS costs (offloadModelKey helper) (meanWork demand) with
  | Some serviceMS => Some (serviceMS, ServiceSourceHelper)
  | None => if d_priced demand then Some (jobMS demand, ServiceSourceOwnerFallback) else None
  end.

Definition evaluateHelper (claimed : gset string) (costs : option Table) (demand : ownerDemand)
    (helper : offloadHelperCandidate) : helperEvaluation :=
  let c := h_candidate helper in
  let switch := offloadSwitchMS c costs in
  let restore := offloadRestoreMS c costs in
  let service := helperServiceMS c costs demand in
  let evaluation := mkEvaluation helper (helperIneligibility helper claimed (largestContext demand))
    (if bool_decide (switch = None) then reasonSwitchUnpriced
     else if bool_decide (restore = None) then reasonRestoreUnpriced
     else if bool_decide (service = None) then reasonServiceUnpriced else "")
    (default f_zero switch) (default f_zero restore)
    (from_option fst f_zero service) (from_option snd "" service) in
  if priced evaluation
     && helperStillNeedsItsOwnModel c (f_add (switchMS evaluation) (restoreMS evaluation))
  then evaluation <| ineligible := reasonHelperRecentlyBusy |> else evaluation.

(** ** The choice of a helper

    Both loops keep the index of the best helper so far; [None] stands for -1. *)

Definition pays (demand : ownerDemand) (evaluation : helperEvaluation) : bool :=
  priced evaluation && negb (f_leb (keepMS demand) (totalMS evaluation)).

Definition e_NodeID (evaluation : helperEvaluation) : string := c_NodeID (h_candidate (e_helper evaluation)).
Definition e_IdleFor (evaluation : helperEvaluation) : Z := c_IdleFor (h_candidate (e_helper evaluation)).

Definition cheaper (evaluation best : helperEvaluation) : bool :=
  f_ltb (totalMS evaluation) (totalMS best)
  || f_eqb (totalMS evaluation) (totalMS best) && String.ltb (e_NodeID evaluation) (e_NodeID best).

(** One pass that keeps the candidate a new one does not beat. *)
Fixpoint bestOf (suits : helperEvaluation → bool) (beats : helperEvaluation → helperEvaluation → bool)
    (index : nat) (best : option (nat * helperEvaluation)) (l : list helperEvaluation)
  : option (nat * helperEvaluation) :=
  match l with
  | [] => best
  | e :: rest =>
      let best := if negb (suits e) then best
                  else match best with
                       | None => Some (index, e)
                       | Some (_, b) => if beats e b then Some (index, e) else best
                       end in
      bestOf suits beats (S index) best rest
  end.

Definition cheapestPayingHelper (evaluations : list helperEvaluation) (demand : ownerDemand)
  : option nat :=
  if negb (d_priced demand) then None else fst <$> bestOf (pays demand) cheaper 0 None evaluations.

Definition unloadedProbeIdleFactor : Z := 12.

Definition mayBeProbed (helper : offloadCandidate) : bool := negb (c_SwitchesBackendFamily helper).

Definition probeIdleBar (helper : offloadCandidate) (probeIdle : Z) : Z :=
  if c_Loaded helper then probeIdle else int64_wrap (probeIdle * unloadedProbeIdleFactor).

Definition probeable (probeIdle : Z) (evaluation : helperEvaluation) : bool :=
  let c := h_candidate (e_helper evaluation) in
  negb (negb (mayServe evaluation) || negb (mayBeProbed c)
        || (c_IdleFor c <? probeIdleBar c probeIdle)).

Definition longerIdle (evaluation best : helperEvaluation) : bool :=
  (e_IdleFor best <? e_IdleFor evaluation)
  || (e_IdleFor evaluation =? e_IdleFor best) && String.ltb (e_NodeID evaluation) (e_NodeID best).

Definition longestIdleHelper (evaluations : list helperEvaluation) (probeIdle : Z) : option nat :=
  if probeIdle <=? 0 then None
  else fst <$> bestOf (probeable probeIdle) longerIdle 0 None evaluations.

Definition chooseHelper (evaluations : list helperEvaluation) (demand : ownerDemand) (probeIdle : Z)
  : option nat * bool :=
  match cheapestPayingHelper evaluations demand with
  | Some paying => (Some paying, false)
  | None => (longestIdleHelper evaluations probeIdle, true)
  end.

Definition soonestProbeFor (helpers : list offloadHelperCandidate) (claimed : gset string)
    (largestContext probeIdle : Z) : Z :=
  fold_left (λ soonest helper,
    let c := h_candidate helper in
    let bar := probeIdleBar c probeIdle in
    if negb (String.eqb (helperIneligibility helper claimed largestContext) "")
       || negb (mayBeProbed c) || (bar <=? c_IdleFor c)
    then soonest
    else let wait := int64_wrap (bar - c_IdleFor c) in
         if (soonest =? 0) || (wait <? soonest) then wait else soonest) helpers 0.

Definition forHelper (s : helperSlots) (evaluation : helperEvaluation) (demand : ownerDemand)
    (probe : bool) : Z :=
  if probe then probe_slots s
  else if f_leb (serviceMS evaluation) (jobMS demand) then faster s else slower s.

Definition costRuleRejection (evaluation : helperEvaluation) (demand : ownerDemand) : string :=
  if negb (mayServe evaluation) then ineligible evaluation
  else if c_SwitchesBackendFamily (h_candidate (e_helper evaluation))
          && negb (d_priced demand && priced evaluation) then reasonFamilySwitchUnpriced
  else if negb (d_priced demand) then reasonOwnerUnpriced
  else if negb (priced evaluation) then unpriced evaluation
  else if f_leb (keepMS demand) (totalMS evaluation) then reasonCostRejected
  else reasonOutranked.

Definition planDecision (lane : string) (policy : offloadPlanPolicy) (demand : ownerDemand)
    (evaluation : helperEvaluation) (chosen probe : bool) : planRecord :=
  let helper := h_candidate (e_helper evaluation) in
  let record := mkRecord (trigger policy) lane (c_NodeID (d_owner demand)) (c_ModelID (d_owner demand))
    (c_NodeID helper) (c_ModelID helper) OutcomeSkipped (costRuleRejection evaluation demand)
    (c_PendingCount (d_owner demand)) (c_BacklogCount (d_owner demand)) (keepMS demand)
    (switchMS evaluation) (serviceMS evaluation) (jobMS demand) (serviceSource evaluation)
    (Z.quot (c_IdleFor helper) Millisecond) 0 in
  if negb chosen then record
  else
    let record := record <| r_Slots := forHelper (policy_slots policy) evaluation demand probe |> in
    if probe then record <| r_Outcome := OutcomeProbe |>
    else record <| r_Outcome := OutcomeGranted |> <| r_Reason := "" |>.

(** ** The plan *)

Definition withMeasuredSpeeds (lease : offloadLease) (demand : ownerDemand) (helper : helperEvaluation)
  : offloadLease :=
  if negb (d_priced demand) || negb (priced helper)
     || negb (String.eqb (serviceSource helper) ServiceSourceHelper)
  then lease
  else lease <| OwnerJobMS := jobMS demand |> <| HelperSwitchMS := switchMS helper |>
             <| HelperServiceMS := serviceMS helper |>.

Definition knowsBothSpeeds (lease : offloadLease) : bool :=
  f_ltb f_zero (OwnerJobMS lease) && f_ltb f_zero (HelperServiceMS lease).

Definition backlogMagnitude (work : Work) : float64 :=
  fold_left (λ total i, f_add total (Term work i)) (indexes (arity work)) f_zero.

Definition owner_before (left right : lendingOwner) : bool :=
  let leftTotal := backlogMagnitude (c_BacklogWork (l_owner left)) in
  let rightTotal := backlogMagnitude (c_BacklogWork (l_owner right)) in
  if negb (f_eqb leftTotal rightTotal) then f_ltb rightTotal leftTotal
  else if negb (String.eqb (c_NodeID (l_owner left)) (c_NodeID (l_owner right)))
  then String.ltb (c_NodeID (l_owner left)) (c_NodeID (l_owner right))
  else String.ltb (c_ModelID (l_owner left)) (c_ModelID (l_owner right)).

Definition ownersWithPendingWork `{GoSort} (owners : list lendingOwner) : list lendingOwner :=
  sort_slice owner_before (List.filter (λ candidate, 0 <? c_PendingCount (l_owner candidate)) owners).

Definition planOwner (lane : string) (candidate : lendingOwner) (costs : option Table)
    (claimed : gset string) (now : Z) (policy : offloadPlanPolicy)
  : option offloadLease * list planRecord :=
  let demand := ownerDemandFor (l_owner candidate) costs in
  let evaluations := evaluateHelper claimed costs demand <$> l_helpers candidate in
  let '(chosen, probe) := chooseHelper evaluations demand (probeIdle policy) in
  let decisions := imap (λ index evaluation,
    planDecision lane policy demand evaluation (bool_decide (chosen = Some index)) probe) evaluations in
  match chosen with
  | None => (None, decisions)
  | Some index =>
      match evaluations !! index, decisions !! index with
      | Some evaluation, Some decision =>
          let helper := e_helper evaluation in
          let lease := mkLease lane (c_NodeID (l_owner candidate)) (c_ModelID (l_owner candidate))
            (c_NodeID (h_candidate helper)) (c_ModelID (h_candidate helper))
            (h_LoadIfUnloaded helper) (h_RestoreAfterBorrow helper) (r_Slots decision) probe
            (now + ttl policy) (Z.quot (ttl policy) Millisecond) f_zero f_zero f_zero in
          (Some (withMeasuredSpeeds lease demand evaluation), decisions)
      | _, _ => (None, decisions)
      end
  end.

(** One turn of the loop over the owners: the plan so far and the claimed helpers. *)
Definition planStep (lane : string) (costs : option Table) (now : Z) (policy : offloadPlanPolicy)
    (state : offloadPlan * gset string) (candidate : lendingOwner) : offloadPlan * gset string :=
  let '(plan, claimed) := state in
  let '(lease, records) := planOwner lane candidate costs claimed now policy in
  let plan := plan <| decisions := decisions plan ++ records |> in
  match lease with
  | Some lease => (plan <| leases := leases plan ++ [lease] |>, {[HelperNodeID lease]} ∪ claimed)
  | None =>
      (probeDueIn plan (soonestProbeFor (l_helpers candidate) claimed
         (largestContext (ownerDemandFor (l_owner candidate) costs)) (probeIdle policy)), claimed)
  end.

Definition emptyPlan : offloadPlan := mkPlan [] [] 0.

Definition planOffloadLeases `{GoSort} (lane : string) (owners : list lendingOwner)
    (costs : option Table) (now : Z) (policy : offloadPlanPolicy) : offloadPlan :=
  match costs with
  | None => emptyPlan
  | Some _ =>
      (fold_left (planStep lane costs now policy) (ownersWithPendingWork owners) (emptyPlan, ∅)).1
  end.

(** ** The book of leases *)

Record offloadLeaseBook : Type := mkLeaseBook {
  planned : gmap string offloadLease;
  issued : gmap string offloadLease
}.

Definition newOffloadLeaseBook : offloadLeaseBook := mkLeaseBook ∅ ∅.

Definition NUL : string := String Ascii.zero "".
#[local] Arguments String.append : simpl nomatch.

Definition offloadLeaseBookKey (lane ownerNodeID ownerModelID : string) : string :=
  (lane +:+ NUL +:+ ownerNodeID +:+ NUL +:+ ownerModelID)%string.

Definition lease_key (lease : offloadLease) : string :=
  offloadLeaseBookKey (Lane lease) (OwnerNodeID lease) (OwnerModelID lease).

Definition live_at (now : Z) (lease : offloadLease) : bool := now <? ExpiresAt lease.

Definition Replace (leases : list offloadLease) (now : Z) (book : offloadLeaseBook) : offloadLeaseBook :=
  let live := fold_left (λ m lease, <[lease_key lease := lease]> m) leases ∅ in
  mkLeaseBook live (live ∪ filter (λ kv, live_at now kv.2 = true) (issued book)).

Definition lease_before (left right : offloadLease) : bool := String.ltb (lease_key left) (lease_key right).

Definition Live `{GoSort} (now : Z) (book : offloadLeaseBook) : list offloadLease :=
  sort_slice lease_before (List.filter (live_at now) ((map_to_list (planned book)).*2)).

Definition IssuedLease (lane ownerNodeID ownerModelID : string) (now : Z) (book : offloadLeaseBook)
  : option offloadLease :=
  lease ← issued book !! offloadLeaseBookKey lane ownerNodeID ownerModelID;
  if live_at now lease then Some lease else None.
