(* ===== verification/OffloadPlanProofs.v ===== *)
(** * Theorems about the lending plan

    Which helper a plan chooses, what every lease of a plan satisfies, what a
    plan records, and which lease the book answers. *)

From stdpp Require Import gmap strings list sorting.
From Stdlib Require Import Ascii Bool ZArith Lia.
From S2P Require Import Prelude.
From S2P Require Import Float64.
From S2P Require Import SchedulingCost.
From S2P Require Import OffloadPlan.
Open Scope go_scope.
Open Scope Z_scope.

(** ** The best of a list *)

Section best.
Context (suits : helperEvaluation → bool) (beats order : helperEvaluation → helperEvaluation → bool).
Context (Horder : strict_weak order).

Definition best_in (l : list helperEvaluation) (best : option (nat * helperEvaluation)) : Prop :=
  match best with
  | None => ∀ j e, l !! j = Some e → suits e = false
  | Some (i, b) => l !! i = Some b ∧ suits b = true ∧
      ∀ j e, l !! j = Some e → suits e = true → order e b = false
  end.

Definition agree (l : list helperEvaluation) : Prop :=
  ∀ a b, a ∈ l → b ∈ l → suits a = true → suits b = true → beats a b = order a b.

Lemma bestOf_from pre l best :
  agree (pre ++ l) → best_in pre best →
  best_in (pre ++ l) (bestOf suits beats (length pre) best l).
Proof.
  revert pre best. induction l as [|e l IH]; intros pre best Hag Hb; [by rewrite app_nil_r|].
  cbn [bestOf]. rewrite cons_middle, app_assoc in Hag |- *.
  replace (S (length pre)) with (length (pre ++ [e])) by (rewrite length_app; simpl; lia).
  apply IH; [done|]. clear IH.
  assert (Hlast : (pre ++ [e]) !! length pre = Some e) by (by apply list_lookup_middle).
  assert (Hsplit : ∀ j x, (pre ++ [e]) !! j = Some x → pre !! j = Some x ∨ x = e).
  { intros j x Hj. apply lookup_app_Some in Hj as [|[_ Hj]]; [by left|]. right.
    by apply list_lookup_singleton_Some in Hj as [_ ->]. }
  destruct (suits e) eqn:Hs; cbn [negb].
  - destruct best as [[i b]|].
    + destruct Hb as (Hi&Hsb&Hbest). destruct Horder as [Hasym Hneg].
      assert (beats e b = order e b) as Heq.
      { apply Hag; try done; rewrite !elem_of_app; left;
          [right; by left|left; by eapply list_elem_of_lookup_2]. }
      destruct (beats e b) eqn:Hbeats; (split; [|split]); try done.
      * intros j x Hj Hx. destruct (Hsplit j x Hj) as [Hp| ->].
        -- apply (Hneg x b e); [by eapply Hbest|]. apply Hasym. by rewrite <-Heq.
        -- destruct (order e e) eqn:E; [|done]. by rewrite (Hasym _ _ E) in E.
      * by apply lookup_app_l_Some.
      * intros j x Hj Hx. destruct (Hsplit j x Hj) as [Hp| ->]; [by eapply Hbest|by rewrite <-Heq].
    + split; [done|]. split; [done|]. intros j x Hj Hx. destruct (Hsplit j x Hj) as [Hp| ->].
      * by rewrite (Hb j x Hp) in Hx.
      * destruct Horder as [Hasym _]. destruct (order e e) eqn:E; [|done]. by rewrite (Hasym _ _ E) in E.
  - destruct best as [[i b]|].
    + destruct Hb as (Hi&Hsb&Hbest). split; [by apply lookup_app_l_Some|]. split; [done|].
      intros j x Hj Hx. destruct (Hsplit j x Hj) as [Hp| ->]; [by eapply Hbest|congruence].
    + intros j x Hj. destruct (Hsplit j x Hj) as [Hp| ->]; [by eapply Hb|done].
Qed.

Lemma bestOf_spec l : agree l → best_in l (bestOf suits beats 0 None l).
Proof. intros H. by apply (bestOf_from [] l None). Qed.
End best.

(** On numbers the two rankings are lexicographic orders. *)
Definition key_ltb (a b : float64) : bool := bool_decide (key_lt (f_key a) (f_key b)).

Lemma key_ltb_weak {A} (f : A → float64) : strict_weak (λ a b, key_ltb (f a) (f b)).
Proof.
  unfold key_ltb. split; intros *; rewrite ?bool_decide_eq_true, ?bool_decide_eq_false;
    unfold key_lt; lia.
Qed.

Lemma key_ltb_num a b : is_num a → is_num b → key_ltb a b = f_ltb a b.
Proof. intros Ha Hb. apply eq_true_iff_eq. unfold key_ltb. by rewrite bool_decide_eq_true, f_ltb_key. Qed.

Definition cheaper_order : helperEvaluation → helperEvaluation → bool :=
  lex_less (λ a b, key_ltb (totalMS a) (totalMS b)) (λ a b, String.ltb (e_NodeID a) (e_NodeID b)).

Lemma cheaper_order_num a b :
  is_num (totalMS a) → is_num (totalMS b) → cheaper a b = cheaper_order a b.
Proof.
  intros Ha Hb. unfold cheaper, cheaper_order, lex_less.
  rewrite !key_ltb_num, f_eqb_ltb by done.
  destruct (f_ltb (totalMS a) (totalMS b)), (f_ltb (totalMS b) (totalMS a)); done.
Qed.

Definition idle_order : helperEvaluation → helperEvaluation → bool :=
  lex_less (λ a b, e_IdleFor b <? e_IdleFor a) (λ a b, String.ltb (e_NodeID a) (e_NodeID b)).

Lemma idle_order_eq a b : longerIdle a b = idle_order a b.
Proof.
  unfold longerIdle, idle_order, lex_less.
  destruct (Z.ltb_spec (e_IdleFor b) (e_IdleFor a)), (Z.ltb_spec (e_IdleFor a) (e_IdleFor b)),
    (Z.eqb_spec (e_IdleFor a) (e_IdleFor b)); try lia; done.
Qed.

Lemma cheaper_order_weak : strict_weak cheaper_order.
Proof. apply strict_weak_lex; [apply key_ltb_weak|apply strict_weak_key]. Qed.

Lemma idle_order_weak : strict_weak idle_order.
Proof.
  apply strict_weak_lex; [|apply strict_weak_key]. split; intros *;
    rewrite ?Z.ltb_lt, ?Z.ltb_ge; lia.
Qed.

(** ** The choice *)

Lemma cheapestPayingHelper_spec evaluations demand :
  (∀ e, e ∈ evaluations → pays demand e = true → is_num (totalMS e)) →
  match cheapestPayingHelper evaluations demand with
  | Some i => d_priced demand = true ∧ ∃ e, evaluations !! i = Some e ∧ pays demand e = true ∧
      ∀ j e', evaluations !! j = Some e' → pays demand e' = true → cheaper e' e = false
  | None => d_priced demand = true → ∀ j e, evaluations !! j = Some e → pays demand e = false
  end.
Proof.
  intros Hnum. unfold cheapestPayingHelper. destruct (d_priced demand); [|done]. cbn [negb].
  assert (agree (pays demand) cheaper cheaper_order evaluations) as Hag.
  { intros a b Ha Hb Hsa Hsb. apply cheaper_order_num; auto. }
  pose proof (bestOf_spec _ _ _ cheaper_order_weak evaluations Hag) as Hbest.
  destruct (bestOf _ _ _ _ _) as [[i e]|]; simpl in *; [|done].
  destruct Hbest as (Hi&Hs&Hmin). split; [done|]. exists e. split_and!; [done|done|].
  intros j e' Hj Hp. rewrite Hag by (done || by eapply list_elem_of_lookup_2). by eapply Hmin.
Qed.

Lemma longestIdleHelper_spec evaluations bar :
  match longestIdleHelper evaluations bar with
  | Some i => 0 < bar ∧ ∃ e, evaluations !! i = Some e ∧ probeable bar e = true ∧
      ∀ j e', evaluations !! j = Some e' → probeable bar e' = true → longerIdle e' e = false
  | None => 0 < bar → ∀ j e, evaluations !! j = Some e → probeable bar e = false
  end.
Proof.
  unfold longestIdleHelper. destruct (Z.leb_spec bar 0); [lia|].
  assert (agree (probeable bar) longerIdle idle_order evaluations) as Hag
    by (intros a b _ _ _ _; apply idle_order_eq).
  pose proof (bestOf_spec _ _ _ idle_order_weak evaluations Hag) as Hbest.
  destruct (bestOf _ _ _ _ _) as [[i e]|]; simpl in *; [|done].
  destruct Hbest as (Hi&Hs&Hmin). split; [lia|]. exists e. split_and!; [done|done|].
  intros j e' Hj Hp. rewrite idle_order_eq. by eapply Hmin.
Qed.

(** Without any assumption on the prices, the loops still choose something that
    suits. *)
Lemma bestOf_suits suits beats l index best :
  match best with Some (i, e) => suits e = true | None => True end →
  match bestOf suits beats index best l with
  | Some (i, e) => suits e = true ∧ (best = Some (i, e) ∨ ∃ k, i = (index + k)%nat ∧ l !! k = Some e)
  | None => True
  end.
Proof.
  revert index best. induction l as [|x l IH]; intros index best Hb; cbn [bestOf].
  { destruct best as [[i e]|]; auto. }
  set (best' := if negb (suits x) then best else _).
  assert (match best' with Some (i, e) => suits e = true | None => True end) as Hb'.
  { subst best'. destruct (suits x) eqn:Hx; [|done]. destruct best as [[i b]|]; [|done]. simpl.
    by destruct (beats x b). }
  specialize (IH (S index) best' Hb').
  destruct (bestOf suits beats (S index) best' l) as [[i e]|]; [|done].
  destruct IH as [Hs [Heq|(k&->&Hk)]]; (split; [done|]).
  - subst best'. destruct (suits x) eqn:Hx; [|by left]. simpl in Heq.
    destruct best as [[i' b]|].
    + destruct (beats x b); [|by left]. simplify_eq. right. exists 0%nat. split; [lia|done].
    + simplify_eq. right. exists 0%nat. split; [lia|done].
  - right. exists (S k). split; [lia|done].
Qed.

Lemma chooseHelper_sound evaluations demand bar i probe :
  chooseHelper evaluations demand bar = (Some i, probe) →
  ∃ e, evaluations !! i = Some e ∧
    if probe then 0 < bar ∧ probeable bar e = true else d_priced demand = true ∧ pays demand e = true.
Proof.
  unfold chooseHelper, cheapestPayingHelper, longestIdleHelper.
  pose proof (bestOf_suits (pays demand) cheaper evaluations 0 None I) as Hpay.
  pose proof (bestOf_suits (probeable bar) longerIdle evaluations 0 None I) as Hidle.
  destruct (d_priced demand) eqn:Hd; cbn [negb];
    [destruct (bestOf (pays demand) _ _ _ _) as [[k e]|]; simpl|].
  - intros [= -> <-]. destruct Hpay as [Hs [?|(k&->&Hk)]]; [done|]. eauto.
  - destruct (Z.leb_spec bar 0); [done|].
    destruct (bestOf (probeable bar) _ _ _ _) as [[k e]|]; [|done]. intros [= -> <-].
    destruct Hidle as [Hs [?|(k&->&Hk)]]; [done|]. exists e. split_and!; [done|lia|done].
  - destruct (Z.leb_spec bar 0); [done|].
    destruct (bestOf (probeable bar) _ _ _ _) as [[k e]|]; [|done]. intros [= -> <-].
    destruct Hidle as [Hs [?|(k&->&Hk)]]; [done|]. exists e. split_and!; [done|lia|done].
Qed.

(** ** What an evaluation says of the helper *)

Lemma ineligibility_none helper claimed context :
  helperIneligibility helper claimed context = "" →
  let c := h_candidate helper in
  c_AcceptingBorrowed c = true ∧ c_NodeID c ∉ claimed ∧
  (c_Loaded c = true ∨ h_LoadIfUnloaded helper = true) ∧ helperWindowHolds c context = true.
Proof.
  unfold helperIneligibility. cbv zeta. intros H.
  destruct (c_AcceptingBorrowed _); [|done]. cbn [negb] in H.
  case_bool_decide; [done|].
  destruct (c_Loaded _), (h_LoadIfUnloaded _), (helperWindowHolds _ _); try done; auto.
Qed.

Lemma evaluateHelper_mayServe claimed costs demand helper :
  mayServe (evaluateHelper claimed costs demand helper) = true →
  helperIneligibility helper claimed (largestContext demand) = "".
Proof.
  unfold evaluateHelper, mayServe. cbv zeta. case_match; simpl; [done|]. by intros Hs%String.eqb_eq.
Qed.

(** A priced evaluation says the helper is not needed at home for the detour. *)
Lemma evaluateHelper_priced claimed costs demand helper :
  let e := evaluateHelper claimed costs demand helper in
  priced e = true →
  helperStillNeedsItsOwnModel (h_candidate helper) (f_add (switchMS e) (restoreMS e)) = false ∧
  offloadSwitchMS (h_candidate helper) costs = Some (switchMS e) ∧
  offloadRestoreMS (h_candidate helper) costs = Some (restoreMS e) ∧
  helperServiceMS (h_candidate helper) costs demand = Some (serviceMS e, serviceSource e).
Proof.
  unfold evaluateHelper. cbv zeta.
  destruct (offloadSwitchMS _ _) as [sw|], (offloadRestoreMS _ _) as [re|],
    (helperServiceMS _ _ _) as [[se src]|]; simpl;
    unfold priced, mayServe; simpl; rewrite ?andb_false_r; simpl; rewrite ?andb_false_r; try done.
  rewrite !andb_true_r. destruct (String.eqb_spec (helperIneligibility helper claimed
    (largestContext demand)) "") as [->|Hne]; simpl.
  - destruct (helperStillNeedsItsOwnModel _ _) eqn:E; simpl; [done|]. by intros _.
  - by rewrite (proj2 (String.eqb_neq _ _) Hne).
Qed.

Lemma evaluateHelper_helper claimed costs demand helper :
  e_helper (evaluateHelper claimed costs demand helper) = helper.
Proof. unfold evaluateHelper. cbv zeta. by case_match. Qed.

(** ** One owner *)

(** What justifies a lease: the helper it names is one of the owner's linked
    helpers, takes borrowed work, is claimed by nobody, holds the owner's largest
    pending context, and runs the model or may load it. A lease that is no probe
    pays: both sides are priced, the helper's total is not above what the owner
    needs alone, and an unloaded helper has been idle for the detour. A probe goes
    only to a helper idle for long enough that keeps its backend family. *)
Definition justified (claimed : gset string) (costs : option Table) (policy : offloadPlanPolicy)
    (candidate : lendingOwner) (lease : offloadLease) : Prop :=
  let demand := ownerDemandFor (l_owner candidate) costs in
  ∃ helper, helper ∈ l_helpers candidate ∧
    let c := h_candidate helper in
    let e := evaluateHelper claimed costs demand helper in
    HelperNodeID lease = c_NodeID c ∧ HelperModelID lease = c_ModelID c ∧
    LoadHelperModel lease = h_LoadIfUnloaded helper ∧
    RestoreHelperModel lease = h_RestoreAfterBorrow helper ∧
    c_AcceptingBorrowed c = true ∧ c_NodeID c ∉ claimed ∧
    (c_Loaded c = true ∨ h_LoadIfUnloaded helper = true) ∧
    helperWindowHolds c (c_PendingLargestContext (l_owner candidate)) = true ∧
    if Probe lease
    then 0 < probeIdle policy ∧ c_SwitchesBackendFamily c = false ∧
         probeIdleBar c (probeIdle policy) ≤ c_IdleFor c
    else d_priced demand = true ∧ unpriced e = "" ∧
         f_leb (keepMS demand) (totalMS e) = false ∧
         (c_Loaded c = true ∨ durationFromMilliseconds (f_add (switchMS e) (restoreMS e)) ≤ c_IdleFor c).

Lemma withMeasuredSpeeds_fields lease demand e :
  let l := withMeasuredSpeeds lease demand e in
  Lane l = Lane lease ∧ OwnerNodeID l = OwnerNodeID lease ∧ OwnerModelID l = OwnerModelID lease ∧
  HelperNodeID l = HelperNodeID lease ∧ HelperModelID l = HelperModelID lease ∧
  LoadHelperModel l = LoadHelperModel lease ∧ RestoreHelperModel l = RestoreHelperModel lease ∧
  HelperSlots l = HelperSlots lease ∧ Probe l = Probe lease ∧ ExpiresAt l = ExpiresAt lease.
Proof. unfold withMeasuredSpeeds. cbv zeta. by case_match. Qed.

Lemma planOwner_spec lane candidate costs claimed now policy :
  let '(lease, records) := planOwner lane candidate costs claimed now policy in
  length records = length (l_helpers candidate) ∧
  (∀ j r, records !! j = Some r → r_Outcome r = OutcomeSkipped ∨ is_Some lease) ∧
  match lease with
  | None => True
  | Some lease =>
      Lane lease = lane ∧ OwnerNodeID lease = c_NodeID (l_owner candidate) ∧
      OwnerModelID lease = c_ModelID (l_owner candidate) ∧ ExpiresAt lease = now + ttl policy ∧
      justified claimed costs policy candidate lease
  end.
Proof.
  unfold planOwner. set (demand := ownerDemandFor _ _).
  set (evaluations := evaluateHelper claimed costs demand <$> l_helpers candidate).
  destruct (chooseHelper evaluations demand (probeIdle policy)) as [chosen probe] eqn:Hch.
  set (records := imap _ evaluations).
  assert (length records = length (l_helpers candidate)) as Hlen
    by (unfold records, evaluations; by rewrite length_imap, length_fmap).
  destruct chosen as [i|].
  2: { split_and!; [done| |done]. intros j r Hj. left. unfold records in Hj.
       rewrite list_lookup_imap in Hj. destruct (evaluations !! j); simpl in Hj; [|done].
       by simplify_eq. }
  destruct (chooseHelper_sound _ _ _ _ _ Hch) as (e&He&Hwhy). rewrite He.
  assert (records !! i = Some (planDecision lane policy demand e true probe)) as Hr.
  { unfold records. rewrite list_lookup_imap, He. simpl. by rewrite bool_decide_eq_true_2. }
  rewrite Hr. split; [done|]. split; [intros; right; by eexists|].
  set (lease := mkLease _ _ _ _ _ _ _ _ _ _ _ _ _ _).
  destruct (withMeasuredSpeeds_fields lease demand e) as (?&?&?&Hn&Hm&Hl&Hre&_&Hp&?).
  split_and!; try done. unfold evaluations in He. apply list_lookup_fmap_Some in He as (h&->&Hh).
  unfold justified. exists h. fold demand. split; [by eapply list_elem_of_lookup_2|].
  rewrite Hn, Hm, Hl, Hre, Hp. simpl. rewrite evaluateHelper_helper.
  assert (mayServe (evaluateHelper claimed costs demand h) = true) as Hserve.
  { destruct probe; destruct Hwhy as [_ Hw].
    - unfold probeable in Hw. by destruct (mayServe _).
    - unfold pays, priced in Hw. by bool_simpl. }
  destruct (ineligibility_none _ _ _ (evaluateHelper_mayServe _ _ _ _ Hserve)) as (?&?&?&?).
  split_and!; try done. destruct probe; destruct Hwhy as [Hw1 Hw2].
  - unfold probeable in Hw2. rewrite evaluateHelper_helper in Hw2. bool_simpl.
    split_and!; [done| |done]. unfold mayBeProbed in *. bool_simpl. done.
  - unfold pays in Hw2. apply andb_true_iff in Hw2 as [Hpr Hpay]. apply negb_true_iff in Hpay.
    destruct (evaluateHelper_priced claimed costs demand h Hpr) as (Hneed&_).
    split_and!; [done| |done|].
    + unfold priced in Hpr. by bool_simpl.
    + unfold helperStillNeedsItsOwnModel in Hneed.
      destruct (c_Loaded (h_candidate h)); [by left|right]. simpl in Hneed. by bool_simpl.
Qed.

(** ** The whole plan *)

Definition owner_key (candidate : lendingOwner) : string * string :=
  (c_NodeID (l_owner candidate), c_ModelID (l_owner candidate)).

Definition lease_owner (lease : offloadLease) : string * string := (OwnerNodeID lease, OwnerModelID lease).

Lemma plan_fold lane costs now policy owners plan claimed :
  let '(plan', claimed') := fold_left (planStep lane costs now policy) owners (plan, claimed) in
  ∃ new, leases plan' = leases plan ++ new ∧
    claimed' = list_to_set (HelperNodeID <$> new) ∪ claimed ∧
    NoDup (HelperNodeID <$> new) ∧ (∀ l, l ∈ new → HelperNodeID l ∉ claimed) ∧
    sublist (lease_owner <$> new) (owner_key <$> owners) ∧
    (∀ l, l ∈ new → Lane l = lane ∧ ExpiresAt l = now + ttl policy ∧
       ∃ candidate taken, candidate ∈ owners ∧ lease_owner l = owner_key candidate ∧
         justified taken costs policy candidate l).
Proof.
  revert plan claimed. induction owners as [|candidate owners IH]; intros plan claimed;
    cbn [fold_left].
  { exists []. rewrite app_nil_r. split_and!; simpl; [done|set_solver|constructor| |constructor|];
      intros l Hl; by apply not_elem_of_nil in Hl. }
  unfold planStep at 2. pose proof (planOwner_spec lane candidate costs claimed now policy) as Hown.
  destruct (planOwner lane candidate costs claimed now policy) as [[lease|] records].
  - destruct Hown as (_&_&Hl1&Hl2&Hl3&Hl4&Hj).
    set (plan1 := plan <| decisions := _ |> <| leases := _ |>).
    specialize (IH plan1 ({[HelperNodeID lease]} ∪ claimed)).
    destruct (fold_left _ owners _) as [plan' claimed'].
    destruct IH as (new&Hle&Hcl&Hnd&Hfresh&Hsub&Hall).
    destruct Hj as (helper&Hin&Hhn&Hj). exists (lease :: new). split_and!.
    + rewrite Hle. subst plan1. simpl. by rewrite <-app_assoc.
    + rewrite Hcl. simpl. set_solver.
    + simpl. constructor; [|done]. intros (l&Heq&Hl)%list_elem_of_fmap.
      apply (Hfresh l Hl). set_solver.
    + intros l [->|Hl]%elem_of_cons.
      * rewrite Hhn. apply Hj.
      * intros Hin'. apply (Hfresh l Hl). set_solver.
    + simpl. replace (lease_owner lease) with (owner_key candidate)
        by (unfold lease_owner, owner_key; by rewrite Hl2, Hl3). by constructor.
    + intros l [->|Hl]%elem_of_cons.
      * split_and!; [done|done|]. exists candidate, claimed.
        split_and!; [by left|unfold lease_owner, owner_key; by rewrite Hl2, Hl3|].
        exists helper. by split_and!.
      * destruct (Hall l Hl) as (?&?&c&t&?&?&?). split_and!; [done|done|].
        exists c, t. split_and!; [by right|done|done].
  - specialize (IH (probeDueIn (plan <| decisions := decisions plan ++ records |>)
      (soonestProbeFor (l_helpers candidate) claimed
         (largestContext (ownerDemandFor (l_owner candidate) costs)) (probeIdle policy))) claimed).
    destruct (fold_left _ owners _) as [plan' claimed'].
    destruct IH as (new&Hle&Hcl&Hnd&Hfresh&Hsub&Hall). exists new. split_and!; try done.
    + rewrite Hle. unfold probeDueIn. by case_match.
    + simpl. by constructor.
    + intros l Hl. destruct (Hall l Hl) as (?&?&c&t&?&?&?). split_and!; [done|done|].
      exists c, t. split_and!; [by right|done|done].
Qed.

(** ** What a plan records *)


Notation grant := (string * string * string * string * Z * bool)%type.







(** ** The book of leases *)

Lemma StronglySorted_weaken {A} (R S : A → A → Prop) l :
  (∀ a b, R a b → S a b) → StronglySorted R l → StronglySorted S l.
Proof. intros HRS. induction 1; constructor; [done|]. eapply Forall_impl; [done|]. by apply HRS. Qed.

(** The lease of a list that names a key last. *)
Definition last_for (key : string) (leases : list offloadLease) : option offloadLease :=
  last (filter (λ lease, lease_key lease = key) leases).

Lemma live_lookup leases key :
  fold_left (λ m lease, <[lease_key lease := lease]> m) leases (∅ : gmap string offloadLease) !! key =
  last_for key leases.
Proof.
  induction leases as [|lease leases IH] using rev_ind; [done|].
  rewrite fold_left_app. cbn [fold_left]. unfold last_for. rewrite filter_app, filter_cons.
  destruct (decide (lease_key lease = key)) as [<-|Hne].
  - rewrite lookup_insert_eq. by rewrite filter_nil, last_snoc.
  - rewrite lookup_insert_ne by done. rewrite filter_nil, app_nil_r. exact IH.
Qed.

(** ** Correctness *)

(** C20. The helper a plan chooses. When the owner is priced and some linked
    helper pays, the choice is a paying helper that no paying one undercuts (equal
    prices go to the smaller node name). Only otherwise is a probe considered: it
    goes to the longest idle of the helpers that may be probed, and none is sent
    when probing is off or no helper qualifies. *)
Theorem chooseHelper_spec evaluations demand bar
    (Hnum : ∀ e, e ∈ evaluations → pays demand e = true → is_num (totalMS e)) :
  match chooseHelper evaluations demand bar with
  | (Some i, false) => d_priced demand = true ∧ ∃ e, evaluations !! i = Some e ∧ pays demand e = true ∧
      ∀ j e', evaluations !! j = Some e' → pays demand e' = true → cheaper e' e = false
  | (None, false) => False
  | (choice, true) =>
      (d_priced demand = true → ∀ j e, evaluations !! j = Some e → pays demand e = false) ∧
      match choice with
      | Some i => 0 < bar ∧ ∃ e, evaluations !! i = Some e ∧ probeable bar e = true ∧
          ∀ j e', evaluations !! j = Some e' → probeable bar e' = true → longerIdle e' e = false
      | None => 0 < bar → ∀ j e, evaluations !! j = Some e → probeable bar e = false
      end
  end.
Proof.
  unfold chooseHelper. pose proof (cheapestPayingHelper_spec evaluations demand Hnum) as Hpay.
  destruct (cheapestPayingHelper evaluations demand) as [i|]; [done|].
  pose proof (longestIdleHelper_spec evaluations bar) as Hidle.
  destruct (longestIdleHelper evaluations bar); by split.
Qed.

(** C21. Every lease of a plan is justified: it belongs to an owner with pending
    work, names one of that owner's linked helpers, and meets the lending rules
    ([justified]). An owner gets at most one lease, in the order of the owners,
    and no two leases of a plan share a helper node, nor does a lease name a
    helper node an earlier one has claimed. *)
Theorem planOffloadLeases_sound `{GoSort} lane owners table now policy :
  let plan := planOffloadLeases lane owners (Some table) now policy in
  NoDup (HelperNodeID <$> leases plan) ∧
  sublist (lease_owner <$> leases plan) (owner_key <$> ownersWithPendingWork owners) ∧
  ∀ lease, lease ∈ leases plan →
    Lane lease = lane ∧ ExpiresAt lease = now + ttl policy ∧
    ∃ candidate claimed, candidate ∈ owners ∧ 0 < c_PendingCount (l_owner candidate) ∧
      lease_owner lease = owner_key candidate ∧ justified claimed (Some table) policy candidate lease.
Proof.
  intros plan. subst plan. unfold planOffloadLeases.
  pose proof (plan_fold lane (Some table) now policy (ownersWithPendingWork owners) emptyPlan ∅) as Hfold.
  destruct (fold_left _ _ _) as [plan claimed]. destruct Hfold as (new&Hl&_&Hnd&_&Hsub&Hall).
  simpl in *. rewrite Hl. split_and!; [done|done|]. intros lease Hin.
  destruct (Hall lease Hin) as (?&?&candidate&taken&Hc&?&?). split_and!; [done|done|].
  exists candidate, taken. unfold ownersWithPendingWork in Hc.
  rewrite sort_slice_perm, list_elem_of_In, List.filter_In, <-list_elem_of_In in Hc.
  destruct Hc as [? ?%Z.ltb_lt]. by split_and!.
Qed.


(** C23. The lease book. After the leases of a cycle are installed, the master
    recognises for an owner's model the last of them that names it, until it
    expires; a lease it issued before and did not plan again stays recognised
    until it expires, though [Live] no longer lists it: [Live] lists exactly the
    planned leases that have not expired, one per owner's model, in key order. *)
Theorem leaseBook_spec `{GoSort} (planned_now : list offloadLease) book now later
    (Hlater : now ≤ later) :
  let book' := Replace planned_now now book in
  (∀ lane node model,
    IssuedLease lane node model later book' =
    match last_for (offloadLeaseBookKey lane node model) planned_now with
    | Some lease => if live_at later lease then Some lease else None
    | None => IssuedLease lane node model later book
    end) ∧
  (∀ lease, lease ∈ Live later book' ↔
    last_for (lease_key lease) planned_now = Some lease ∧ later < ExpiresAt lease) ∧
  StronglySorted (λ a b, String.leb (lease_key a) (lease_key b) = true) (Live later book').
Proof.
  intros book'.
  assert (∀ key, planned book' !! key = last_for key planned_now) as Hplanned
    by (intros; apply live_lookup).
  split_and!.
  - intros lane node model. set (key := offloadLeaseBookKey lane node model).
    unfold IssuedLease. fold key. unfold book', Replace. simpl.
    destruct (last_for key planned_now) as [lease|] eqn:Hlast.
    + by rewrite (lookup_union_Some_l _ _ key lease) by (by rewrite live_lookup).
    + rewrite lookup_union_r by (by rewrite live_lookup). rewrite map_lookup_filter.
      destruct (issued book !! key) as [lease|]; [|done]. simpl. unfold live_at.
      case_guard as Hg; simpl; [done|]. destruct (Z.ltb_spec later (ExpiresAt lease)); [|done].
      exfalso. apply Hg. apply Z.ltb_lt. lia.
  - intros lease. unfold Live. rewrite sort_slice_perm.
    rewrite list_elem_of_In, List.filter_In, <-list_elem_of_In, list_elem_of_fmap.
    unfold live_at. rewrite Z.ltb_lt. split.
    + intros [([key l]&->&Hin%elem_of_map_to_list) ?]. simpl in *. rewrite Hplanned in Hin.
      assert (lease_key l = key) as ->; [|done].
      unfold last_for in Hin. apply last_Some_elem_of, list_elem_of_filter in Hin. apply Hin.
    + intros [Hin ?]. split; [|done]. exists (lease_key lease, lease). split; [done|].
      apply elem_of_map_to_list. by rewrite Hplanned.
  - unfold Live. eapply StronglySorted_weaken; [|apply sort_slice_sorted, strict_weak_key].
    intros a b Hab. cbv beta in Hab. unfold lease_before in Hab. rewrite string_ltb_leb in Hab. by apply negb_false_iff in Hab.
Qed.

(** ** Concrete instances: one owner with a backlog of three jobs of a second
    each, linked to two idle helpers that have the model loaded. *)
Definition ms (n : Z) : float64 := f_of_Z n.

Definition flat_rate (n : Z) : Estimate := mkEstimate (ms n) floats0 1 5 false floats0.

Definition sampleCosts : Table :=
  mkTable {[ ("owner", "m", "image") := flat_rate 1000; ("h1", "m", "image") := flat_rate 900;
             ("h2", "m", "image") := flat_rate 500 ]} ∅ ∅.

Definition candidate (node : string) (pendingCount : Z) : offloadCandidate :=
  mkCandidate node "m" "m.kcpps" "image" true false [] true 60000000000 0
    pendingCount (if 0 <? pendingCount then ImageWork (ms 7) else noWork) 0
    pendingCount (if 0 <? pendingCount then ImageWork (ms 7) else noWork).

Definition sampleOwners : list lendingOwner :=
  [mkOwner (candidate "owner" 3) [mkHelper (candidate "h1" 0) false false;
                                  mkHelper (candidate "h2" 0) false false]].

Definition samplePolicy : offloadPlanPolicy :=
  mkPolicy 90000000000 300000000000 (mkSlots 2 1 1) "tick".

Definition sampleDemand : ownerDemand := ownerDemandFor (candidate "owner" 3) (Some sampleCosts).

Definition sampleEvaluations : list helperEvaluation :=
  evaluateHelper ∅ (Some sampleCosts) sampleDemand <$>
    [mkHelper (candidate "h1" 0) false false; mkHelper (candidate "h2" 0) false false].

Lemma sample_totals :
  ∀ e, e ∈ sampleEvaluations → pays sampleDemand e = true → is_num (totalMS e).
Proof.
  assert (Forall (λ e, is_num (totalMS e)) sampleEvaluations) as Hall
    by (repeat constructor).
  intros e He _. rewrite Forall_forall in Hall. by apply Hall.
Qed.

(** The second helper is chosen: nothing undercuts it. *)
Lemma chooseHelper_spec_witness :
  chooseHelper sampleEvaluations sampleDemand (probeIdle samplePolicy) = (Some 1%nat, false) ∧
  d_priced sampleDemand = true.
Proof.
  pose proof (chooseHelper_spec sampleEvaluations sampleDemand (probeIdle samplePolicy) sample_totals)
    as H.
  assert (chooseHelper sampleEvaluations sampleDemand (probeIdle samplePolicy) = (Some 1%nat, false))
    as Hc by (vm_compute; reflexivity).
  rewrite Hc in H. split; [done|apply H].
Defined.

Example sample_plan :
  let plan := planOffloadLeases "image" sampleOwners (Some sampleCosts) 5 samplePolicy in
  (λ l, (HelperNodeID l, HelperSlots l, Probe l, ExpiresAt l)) <$> leases plan =
    [("h2", 2, false, 90000000005)] ∧
  (λ r, (r_HelperNodeID r, r_Outcome r, r_Reason r)) <$> decisions plan =
    [("h1", "skipped", "outranked"); ("h2", "granted", "")].
Proof. vm_compute. by split. Qed.

(** A lease that is planned once and then not again. *)
Definition sampleLease : offloadLease :=
  mkLease "image" "owner" "m" "h2" "m" false false 2 false 100 90000 f_zero f_zero f_zero.

Lemma leaseBook_spec_witness :
  IssuedLease "image" "owner" "m" 60 (Replace [] 50 (Replace [sampleLease] 10 newOffloadLeaseBook)) =
    Some sampleLease.
Proof.
  destruct (leaseBook_spec [] (Replace [sampleLease] 10 newOffloadLeaseBook) 50 60) as (H&_&_); [lia|].
  rewrite H. vm_compute. reflexivity.
Defined.
