(* ===== verification/Lending.v ===== *)
(** * Lending: the owner's side

    Model of [internal/proxy/offload_hold.go], [offload_lent.go],
    [offload_dispatch.go] and the lease handling of [offload_decide.go] and
    [offload_refresh.go]: the book of requests lent out, the hold that keeps a
    request waiting for a faster helper, and the dispatch of pending requests
    under a lease.

    The book is keyed by the lane's queue and the number of the entry in it.
    Decision records and the readmission alarm (a timer that calls [Readmit],
    which the queue may run at any time) are left out. *)

From stdpp Require Import gmap strings list sorting.
From Stdlib Require Import Ascii Bool ZArith Lia.
From S2P Require Import Prelude.
From S2P Require Import Lane.
From S2P Require Import Float64.
From S2P Require Import SchedulingCost.
From S2P Require Import OffloadQueue.
From S2P Require Import OffloadPlan.
Open Scope go_scope.
Open Scope Z_scope.

(** ** Lent requests ([offload_lent.go]) *)

Record lentRequest : Type := mkLent {
  lt_lane : string;
  lt_ownerNodeID : string;
  lt_modelID : string;
  lt_arrived : Z;
  lt_lentAt : Z;
  lt_helperNodeID : string;
  lt_helperModelID : string;
  lt_giveUpAfter : Z
}.

(** The text queue or the image queue, and an entry of it. *)
Notation entryRef := (bool * nat)%type.
Notation lentRequestBook := (gmap (bool * nat) lentRequest).

Definition lent_Remove (ref : entryRef) (book : lentRequestBook) : lentRequestBook * option lentRequest :=
  (delete ref book, book !! ref).

Definition GiveUpAfter (ref : entryRef) (book : lentRequestBook) : Z :=
  from_option lt_giveUpAfter 0 (book !! ref).

Definition lent_for (lane modelID : string) (request : lentRequest) : bool :=
  String.eqb (lt_lane request) lane && String.eqb (lt_modelID request) modelID.

Definition Count (lane modelID : string) (book : lentRequestBook) : Z :=
  Z.of_nat (length (List.filter (lent_for lane modelID) ((map_to_list book).*2))).

Definition Snapshot `{GoSort} (book : lentRequestBook) : list lentRequest :=
  sort_slice (λ left right, lt_arrived left <? lt_arrived right) ((map_to_list book).*2).

Definition InFlight `{GoSort} (lane modelID : string) (book : lentRequestBook) : list lentRequest :=
  sort_slice (λ left right, lt_lentAt left <? lt_lentAt right)
    (List.filter (lent_for lane modelID) ((map_to_list book).*2)).

(** ** Predictions ([offload_hold.go]) *)

Definition Second : Z := 1000000000.

Definition nextJobFinish (pipeline : ownerPipeline) (now : Z) (ownerJobMS : float64) : Z :=
  let job := durationFromMilliseconds ownerJobMS in
  let generatingDone := generatingSince pipeline + job in
  let generatingDone := if generatingDone <? now then now else generatingDone in
  let queuedBehind := int64_wrap ((inFlight pipeline - 1) * job) in
  generatingDone + queuedBehind + job.

Definition lentGiveUpFactor : Z := 3.
Definition lentGiveUpFloor : Z := 30 * Second.

Definition giveUpAfter (lease : offloadLease) : Z :=
  if negb (knowsBothSpeeds lease) then 0
  else
    let predicted := durationFromMilliseconds (f_add (HelperSwitchMS lease) (HelperServiceMS lease)) in
    int64_wrap (int64_wrap (lentGiveUpFactor * predicted) + lentGiveUpFloor).

Definition overrunsAt (lease : offloadLease) (request : lentRequest) : Z :=
  let service := durationFromMilliseconds (HelperServiceMS lease) in
  lt_lentAt request + durationFromMilliseconds (HelperSwitchMS lease) + int64_wrap (2 * service).

Definition helperOverran (lease : offloadLease) (lent : list lentRequest) (now : Z) : bool :=
  existsb (λ request, overrunsAt lease request <? now) lent.

Definition nextHoldRecheck (lease : offloadLease) (lent : list lentRequest) : Z :=
  fold_left (λ recheck request,
    if overrunsAt lease request <? recheck then overrunsAt lease request else recheck)
    lent (ExpiresAt lease).

(** [lent] is not empty where the source calls it. *)
Definition nextJobFinishAfter (lease : offloadLease) (lent : list lentRequest) (now : Z) : Z :=
  let service := durationFromMilliseconds (HelperServiceMS lease) in
  let first := from_option lt_lentAt 0 (head lent) + durationFromMilliseconds (HelperSwitchMS lease) in
  let busyUntil := fold_left (λ busyUntil request,
    (if busyUntil <? lt_lentAt request then lt_lentAt request else busyUntil) + service) lent first in
  (if busyUntil <? now then now else busyUntil) + service.

(** ** The scheduler's lending state *)

Record scheduler : Type := mkScheduler {
  HoldForFasterHelper : bool;
  imageQueue : offloadQueue;
  textQueue : offloadQueue;
  offloadLeases : gmap string offloadLease;
  lent : lentRequestBook
}.
#[export] Instance eta_scheduler : Eta scheduler :=
  λ s, mkScheduler (HoldForFasterHelper s) (imageQueue s) (textQueue s) (offloadLeases s) (lent s).

Definition RouteLaneText : string := "text".

(** The lane's queue: text, or image for every other name. *)
Definition isText (lane : string) : bool := String.eqb lane RouteLaneText.

Definition queueForLane (lane : string) (s : scheduler) : offloadQueue :=
  if isText lane then textQueue s else imageQueue s.

Definition setQueueForLane (lane : string) (queue : offloadQueue) (s : scheduler) : scheduler :=
  if isText lane then s <| textQueue := queue |> else s <| imageQueue := queue |>.

Definition laneModelKey (lane modelID : string) : string := (lane +:+ NUL +:+ modelID)%string.

Definition activeOffloadLease (lane modelID : string) (now : Z) (s : scheduler) : option offloadLease :=
  lease ← offloadLeases s !! laneModelKey lane modelID;
  if live_at now lease then Some lease else None.

(** What the hold installed on the lane's queue answers. *)
Definition holdForFasterHelper `{GoSort} (lane : string) (now : Z) (s : scheduler) : admissionHold :=
  λ next pipeline,
    if negb (HoldForFasterHelper s) then false
    else match activeOffloadLease lane (e_modelID next) now s with
         | None => false
         | Some lease =>
             if negb (knowsBothSpeeds lease) then false
             else
               let lent := InFlight lane (e_modelID next) (lent s) in
               if Z.of_nat (length lent) <? slots lease then false
               else if helperOverran lease lent now then false
               else nextJobFinishAfter lease lent now <? nextJobFinish pipeline now (OwnerJobMS lease)
         end.

(** ** Dispatch ([offload_dispatch.go]) *)

Definition newLent (lease : offloadLease) (now : Z) (entry : offloadEntry) : lentRequest :=
  mkLent (Lane lease) (OwnerNodeID lease) (OwnerModelID lease) (e_arrived entry) now
    (HelperNodeID lease) (HelperModelID lease) (giveUpAfter lease).

(** Withdraw one entry under the lease; it is registered as lent before the queue
    admits anything, so the hold already sees it. *)
Definition lendNewest `{GoSort} (lane modelID : string) (lease : offloadLease) (now : Z) (s : scheduler)
  : scheduler * list nat :=
  let queue := queueForLane lane s in
  let '(withdrawn, _) := withdrawLoop (lendable queue modelID) 1 (rev (pending queue)) in
  let book := fold_left (λ book id,
      match entries queue !! id with
      | Some entry => <[(isText lane, id) := newLent lease now entry]> book
      | None => book
      end) withdrawn (lent s) in
  let s := s <| lent := book |> in
  let '(queue, withdrawn) :=
    WithdrawNewest modelID 1 (Some (holdForFasterHelper lane now s)) now queue in
  (setQueueForLane lane queue s, withdrawn).

Fixpoint offloadLoop `{GoSort} (fuel : nat) (lane modelID : string) (lease : offloadLease) (now : Z)
    (s : scheduler) : scheduler :=
  match fuel with
  | O => s
  | S fuel =>
      if Count lane modelID (lent s) <? slots lease then
        let '(s, withdrawn) := lendNewest lane modelID lease now s in
        match withdrawn with
        | [] => s
        | _ :: _ => offloadLoop fuel lane modelID lease now s
        end
      else s
  end.

(** Every turn but the last takes an entry off the queue. *)
Definition maybeOffload `{GoSort} (lane modelID : string) (now : Z) (s : scheduler) : scheduler :=
  if String.eqb modelID "" then s
  else match activeOffloadLease lane modelID now s with
       | None => s
       | Some lease => offloadLoop (S (length (pending (queueForLane lane s)))) lane modelID lease now s
       end.

(** The lent request is over, or its client has gone. *)
Definition finishOffload (ref : entryRef) (s : scheduler) : scheduler :=
  s <| lent := (lent_Remove ref (lent s)).1 |>.

(** ** Leases from the master ([offload_decide.go]) *)

(** [isOwner] says that this node's routing links let the model lend. *)
Definition acceptOffloadLease `{GoSort} (lease : offloadLease) (isOwner : bool) (now : Z) (s : scheduler)
  : scheduler :=
  let key := laneModelKey (Lane lease) (OwnerModelID lease) in
  if isOwner then
    maybeOffload (Lane lease) (OwnerModelID lease) now
      (s <| offloadLeases := <[key := restartedOnOwnerClock lease now]> (offloadLeases s) |>)
  else
    let s := s <| offloadLeases := delete key (offloadLeases s) |> in
    setQueueForLane (Lane lease)
      (Readmit (Some (holdForFasterHelper (Lane lease) now s)) now (queueForLane (Lane lease) s)) s.

Definition applyDecidedLease `{GoSort} (lane modelID : string) (decided : option offloadLease)
    (isOwner : bool) (now : Z) (s : scheduler) : scheduler :=
  match decided with
  | Some lease => acceptOffloadLease lease isOwner now s
  | None =>
      let key := laneModelKey lane modelID in
      match offloadLeases s !! key with
      | None => s
      | Some _ =>
          let s := s <| offloadLeases := delete key (offloadLeases s) |> in
          setQueueForLane lane
            (Readmit (Some (holdForFasterHelper lane now s)) now (queueForLane lane s)) s
      end
  end.

(** Whether an event of the lane's queue is reported to the master. *)
Definition reportsQueueEvent (lane modelID : string) (clustered isOwner : bool) (s : scheduler) : bool :=
  clustered && isOwner
  && (HoldsPendingWork modelID (queueForLane lane s) || negb (Count lane modelID (lent s) =? 0)).
