(* ===== verification/LendingProofs.v ===== *)
(** * Theorems about lending

    A hold is justified and ends; dispatch respects the lease's slots; and a lent
    request is never run by its owner. *)

From stdpp Require Import gmap strings list sorting.
From Stdlib Require Import Ascii Bool ZArith Lia.
From S2P Require Import Prelude.
From S2P Require Import Lane.
From S2P Require Import Float64.
From S2P Require Import SchedulingCost.
From S2P Require Import OffloadQueue.
From S2P Require Import OffloadQueueProofs.
From S2P Require Import OffloadPlan.
From S2P Require Import Lending.
Open Scope go_scope.
Open Scope Z_scope.

(** ** Outcomes are never taken back

    Whatever happens to the queue, what an entry has been told stays told. *)
Definition told_more : offloadQueue → offloadQueue → Prop := λ q q',
  ∀ id e, entries q !! id = Some e →
    ∃ e', entries q' !! id = Some e' ∧ e_result e `prefix_of` e_result e'.

Lemma told_refl q : told_more q q.
Proof. intros id e He. by exists e. Qed.

Lemma told_same q q' : entries q' = entries q → told_more q q'.
Proof. intros Heq id e He. exists e. by rewrite Heq. Qed.

Lemma told_trans q1 q2 q3 : told_more q1 q2 → told_more q2 q3 → told_more q1 q3.
Proof.
  intros H12 H23 id e He. destruct (H12 id e He) as (e2&He2&Hp). destruct (H23 id e2 He2) as (e3&He3&Hp').
  exists e3. split; [done|by etrans].
Qed.

Lemma told_update id f q :
  (∀ e, e_result e `prefix_of` e_result (f e)) → told_more q (update_entry id f q).
Proof.
  intros Hf j e He. rewrite lookup_update_entry, He. case_decide; [|by exists e].
  by exists (f e).
Qed.

Lemma told_send id outcome q : told_more q (send id outcome q).
Proof. apply told_update. intros e. by apply prefix_app_r. Qed.

Lemma told_send_all outcome ids q : told_more q (fold_left (λ q id, send id outcome q) ids q).
Proof.
  revert q. induction ids as [|id ids IH]; intros q; [apply told_refl|]. cbn [fold_left].
  eapply told_trans; [apply told_send|apply IH].
Qed.

Lemma told_allocate e q : queue_core q → told_more q (allocate e q).1.
Proof.
  intros Hcore id e0 He0. destruct (allocate_fresh q Hcore) as (Hnone&_). exists e0. split; [|done].
  simpl. rewrite lookup_insert_ne; [done|]. intros <-. congruence.
Qed.

Lemma told_admitLoop fuel hold now q : told_more q (admitLoop fuel hold now q).
Proof.
  revert q. induction fuel as [|fuel IH]; intros q; cbn [admitLoop]; [apply told_refl|].
  destruct (pending q) as [|id rest]; [apply told_refl|]. case_match; [|apply told_refl].
  destruct (entries q !! id) as [e|]; [|apply told_refl].
  destruct (heldForHelperLocked hold q e) as [held b].
  set (q1 := update_entry id _ q). assert (told_more q q1) as H1 by (by apply told_update).
  destruct held; [done|]. eapply told_trans; [|apply IH].
  eapply told_trans; [|apply told_send]. eapply told_trans; [exact H1|].
  eapply told_trans; [by apply (told_same q1 (q1 <| pending := rest |>))|].
  eapply told_trans; [by apply (told_update id (λ e, e <| e_admittedAt := now |>))|]. by apply told_same.
Qed.

Lemma told_admit hold now q : told_more q (admitLocked hold now q).
Proof. apply told_admitLoop. Qed.

Lemma told_preempt q : told_more q (preemptBorrowedBeforeStartLocked q).
Proof.
  intros id e He. unfold preemptBorrowedBeforeStartLocked. simpl. rewrite map_lookup_imap, He. simpl.
  eexists. split; [done|]. by case_match.
Qed.

Lemma told_return q : told_more q (returnPendingBorrowedLocked q).1.
Proof.
  eapply told_trans; [apply (told_send_all offloadReturned (List.filter (borrowed_id q) (pending q)))|].
  by apply told_same.
Qed.

Lemma told_withdrawn q ids : told_more q (withdrawn_from q ids).
Proof.
  unfold withdrawn_from. eapply told_trans; [|apply told_send_all]. by apply told_same.
Qed.

Lemma told_event hold now ev q : queue_ok q → told_more q (apply_event hold now ev q).
Proof.
  intros Hok. assert (queue_core (next_sequence q)) as Hcore
    by (by destruct (proj1 (queue_ok_split _) (next_sequence_ok q Hok))).
  assert (∀ e, told_more q (allocate e (next_sequence q)).1) as Halloc.
  { intros e. eapply told_trans; [by apply (told_same q (next_sequence q))|]. by apply told_allocate. }
  destruct ev as [d| | |request idle|model work context arrived|id|id|model limit]; cbn [apply_event].
  - eapply told_trans; [by apply (told_same q (q <| depth := Z.max d 1 |>))|apply told_admit].
  - apply told_admit.
  - apply told_return.
  - destruct (q_origin request) eqn:Ho.
    + rewrite Enqueue_own by done. eapply told_trans; [|apply told_admit].
      eapply told_trans; [|apply told_preempt]. eapply told_trans; [|apply told_return].
      eapply told_trans; [apply Halloc|]. by apply told_same.
    + rewrite Enqueue_borrowed by done. case_match; [|apply Halloc].
      eapply told_trans; [|apply told_admit]. eapply told_trans; [apply Halloc|]. by apply told_same.
  - eapply told_trans; [|apply told_admit]. eapply told_trans; [apply Halloc|]. by apply told_same.
  - eapply told_trans; [|apply told_admit]. apply told_same. by case_match.
  - eapply told_trans; [|apply told_admit]. by apply told_same.
  - destruct (Z.leb_spec limit 0) as [Hle|Hlt].
    + unfold WithdrawNewest. rewrite (proj2 (Z.leb_le limit 0)) by done. apply told_refl.
    + rewrite WithdrawNewest_eq by done. eapply told_trans; [apply told_withdrawn|apply told_admit].
Qed.

(** An entry told something stays exactly so. *)
Lemma told_once q q' id e o :
  queue_ok q' → told_more q q' → entries q !! id = Some e → e_result e = [o] →
  ∃ e', entries q' !! id = Some e' ∧ e_result e' = [o].
Proof.
  intros Hok Hmore He Hr. destruct (Hmore id e He) as (e'&He'&Hp). exists e'. split; [done|].
  pose proof (ok_once q' Hok id e' He') as Hlen. rewrite Hr in Hp. destruct Hp as [k Hk].
  rewrite Hk in Hlen |- *. destruct k; [done|]. simpl in Hlen. lia.
Qed.

(** ** The invariant of lending *)

Definition queue_of (text : bool) (s : scheduler) : offloadQueue :=
  if text then textQueue s else imageQueue s.

Record lending_ok (s : scheduler) : Prop := {
  lend_queue : ∀ text, queue_ok (queue_of text s) ∧ quiescent (queue_of text s);
  lend_told : ∀ text id request, lent s !! (text, id) = Some request →
    ∃ e, entries (queue_of text s) !! id = Some e ∧ e_result e = [offloadWithdrawn]
}.

Lemma queueForLane_of lane s : queueForLane lane s = queue_of (isText lane) s.
Proof. done. Qed.

Lemma queue_of_set lane q s text :
  queue_of text (setQueueForLane lane q s) = if Bool.eqb text (isText lane) then q else queue_of text s.
Proof. unfold setQueueForLane, queue_of. by destruct text, (isText lane). Qed.

Lemma lent_set lane q s : lent (setQueueForLane lane q s) = lent s.
Proof. unfold setQueueForLane. by case_match. Qed.

(** A change of one queue that takes nothing back keeps the invariant. *)
Lemma lending_set lane q s :
  lending_ok s → queue_ok q → quiescent q → told_more (queueForLane lane s) q →
  lending_ok (setQueueForLane lane q s).
Proof.
  intros [Hq Ht] Hok Hqui Hmore. split.
  - intros text. rewrite queue_of_set. by destruct (Bool.eqb text (isText lane)).
  - intros text id request. rewrite lent_set, queue_of_set. intros Hl.
    destruct (Ht text id request Hl) as (e&He&Hr).
    destruct (Bool.eqb_spec text (isText lane)) as [->|]; [|by exists e].
    by eapply told_once.
Qed.

Lemma lending_event hold now ev lane s :
  lending_ok s → lending_ok (setQueueForLane lane (apply_event hold now ev (queueForLane lane s)) s).
Proof.
  intros Hok. destruct (lend_queue s Hok (isText lane)) as [Hq Hqui].
  destruct (step_ok hold now ev _ Hq Hqui). by apply lending_set, told_event.
Qed.

(** Leases and settings do not matter to it, nor does the end of a request. *)
Lemma lending_fields s s' :
  lending_ok s → imageQueue s' = imageQueue s → textQueue s' = textQueue s →
  (∀ ref r, lent s' !! ref = Some r → lent s !! ref = Some r) → lending_ok s'.
Proof.
  intros [Hq Ht] Hi Htx Hl.
  assert (∀ text, queue_of text s' = queue_of text s) as Hsame
    by (intros []; simpl; congruence).
  split; intros text; rewrite Hsame; [done|]. intros id r Hr. apply (Ht text id r). by apply Hl.
Qed.

(** *** Lending one entry *)

Lemma taken_by_one model q :
  queue_ok q →
  (taken_by model 1 q = [] ∧ List.filter (lendable q model) (pending q) = []) ∨
  ∃ id e, taken_by model 1 q = [id] ∧ id ∈ pending q ∧ entries q !! id = Some e ∧ e_result e = [].
Proof.
  intros Hok. pose proof (taken_by_spec model 1 q) as Hin. unfold taken_by in *.
  destruct (List.filter (lendable q model) (rev (pending q))) as [|id l] eqn:Hf; simpl in *.
  - left. split; [done|]. rewrite List_filter_rev in Hf.
    apply (f_equal (@rev nat)) in Hf. by rewrite rev_involutive in Hf.
  - right. destruct (Hin id) as [Hp _]; [by left|].
    destruct (ok_pending q Hok id Hp) as (_&e&He&Hr). by exists id, e.
Qed.

Lemma lendNewest_eq `{GoSort} lane modelID lease now s :
  queue_ok (queueForLane lane s) →
  let q := queueForLane lane s in
  let w := taken_by modelID 1 q in
  let book := fold_left (λ book id,
    match entries q !! id with
    | Some e => <[(isText lane, id) := newLent lease now e]> book | None => book end) w (lent s) in
  lendNewest lane modelID lease now s =
  (setQueueForLane lane (admitLocked (Some (holdForFasterHelper lane now (s <| lent := book |>))) now
     (withdrawn_from q w)) (s <| lent := book |>), w).
Proof.
  intros Hok. cbv zeta. unfold lendNewest. rewrite withdrawLoop_spec by (apply NoDup_rev, Hok).
  change (take 1 _) with (taken_by modelID 1 (queueForLane lane s)).
  by rewrite WithdrawNewest_eq by (done || lia).
Qed.

(** Withdrawing entries and admitting the next ones. *)
Lemma withdraw_then_admit hold now q w :
  queue_ok q → NoDup w → (∀ id, id ∈ w → id ∈ pending q) →
  let q' := admitLocked hold now (withdrawn_from q w) in
  queue_ok q' ∧ quiescent q' ∧ same_kinds q q' ∧ told_more q q' ∧
  sublist (pending q') (pending q) ∧
  (∀ id, id ∈ w → id ∉ pending q' ∧
     ∃ e, entries q' !! id = Some e ∧ e_result e = [offloadWithdrawn]).
Proof.
  intros Hq Hnd Hin q'. destruct (withdrawn_from_ok q w Hq Hnd Hin) as [Hq1 Hk1].
  destruct (send_all_fields offloadWithdrawn w
    (q <| pending := List.filter (λ id, negb (bool_decide (id ∈ w))) (pending q) |>)) as (_&_&Hp1&_).
  change (pending (withdrawn_from q w) = List.filter (λ id, negb (bool_decide (id ∈ w))) (pending q)) in Hp1.
  destruct (admitLocked_spec hold now _ Hq1) as [Hq2 Hk2 _ (taken&Ht&_) _ _ Hb].
  fold q' in Hq2, Hk2, Ht, Hb.
  assert (sublist (pending q') (pending (withdrawn_from q w))) as Hsub
    by (rewrite Ht; by apply sublist_inserts_l).
  split_and!; [done|by apply blocked_quiescent|by eapply same_kinds_trans| | |].
  - eapply told_trans; [apply told_withdrawn|apply told_admit].
  - etrans; [exact Hsub|]. rewrite Hp1. apply filter_sublist.
  - intros id Hid. split.
    + intros Hp. apply (elem_of_sublist _ _ _ Hp) in Hsub. rewrite Hp1 in Hsub.
      apply list_elem_of_In, List.filter_In in Hsub as [_ Hf]. by rewrite bool_decide_eq_true_2 in Hf.
    + destruct (ok_pending q Hq id (Hin id Hid)) as (_&e&He&Hr).
      eapply (told_once (withdrawn_from q w)); [done|apply told_admit| |].
      * unfold withdrawn_from. rewrite lookup_send_all by done. rewrite decide_True by done. simpl.
        by rewrite He.
      * simpl. by rewrite Hr.
Qed.

Lemma sublist_shorter {A} (l1 l2 : list A) x :
  sublist l1 l2 → x ∈ l2 → x ∉ l1 → (length l1 < length l2)%nat.
Proof.
  intros Hsub Hin Hnot. pose proof (sublist_length _ _ Hsub) as Hle.
  destruct (decide (length l2 ≤ length l1)%nat) as [Hge|]; [|lia]. exfalso. apply Hnot.
  rewrite (submseteq_length_Permutation l1 l2); [done|by apply sublist_submseteq|done].
Qed.

Lemma lendNewest_spec `{GoSort} lane modelID lease now s :
  lending_ok s →
  let '(s', w) := lendNewest lane modelID lease now s in
  lending_ok s' ∧ offloadLeases s' = offloadLeases s ∧
  same_kinds (queueForLane lane s) (queueForLane lane s') ∧
  sublist (pending (queueForLane lane s')) (pending (queueForLane lane s)) ∧
  ((w = [] ∧ lent s' = lent s ∧
    List.filter (lendable (queueForLane lane s) modelID) (pending (queueForLane lane s)) = []) ∨
   ∃ id e, w = [id] ∧ id ∈ pending (queueForLane lane s) ∧ lent s !! (isText lane, id) = None ∧
     lent s' = <[(isText lane, id) := newLent lease now e]> (lent s) ∧
     (length (pending (queueForLane lane s')) < length (pending (queueForLane lane s)))%nat).
Proof.
  intros Hok. destruct (lend_queue s Hok (isText lane)) as [Hq _].
  change (queue_of (isText lane) s) with (queueForLane lane s) in *.
  rewrite lendNewest_eq by done. set (q := queueForLane lane s) in *.
  set (w := taken_by modelID 1 q). set (book := fold_left _ w (lent s)). set (hold := Some _).
  destruct (withdraw_then_admit hold now q w Hq) as (Hq'&Hqui&Hk&Hmore&Hsub&Hw).
  { by apply taken_by_NoDup. }
  { intros id Hid. by apply taken_by_spec in Hid as [? _]. }
  set (q' := admitLocked hold now (withdrawn_from q w)) in *.
  pose proof (lending_set lane q' s Hok Hq' Hqui Hmore) as Hset.
  assert (∀ text, queue_of text (setQueueForLane lane q' (s <| lent := book |>)) =
    queue_of text (setQueueForLane lane q' s)) as Hsame by (intros; by rewrite !queue_of_set).
  assert (queueForLane lane (setQueueForLane lane q' (s <| lent := book |>)) = q') as Hqe
    by (by rewrite queueForLane_of, queue_of_set, Bool.eqb_reflx).
  rewrite Hqe, lent_set. change (lent (s <| lent := book |>)) with book.
  assert (lending_ok (setQueueForLane lane q' (s <| lent := book |>)) ↔
    ∀ text id r, book !! (text, id) = Some r → ∃ e,
      entries (queue_of text (setQueueForLane lane q' s)) !! id = Some e ∧
      e_result e = [offloadWithdrawn]) as Hiff.
  { split; [intros Hl text id r Hr; pose proof (lend_told _ Hl text id r) as Ht;
      rewrite lent_set, Hsame in Ht; by apply Ht|].
    intros Hb. split; intros text; rewrite Hsame; [apply (lend_queue _ Hset)|].
    intros id r. rewrite lent_set. apply Hb. }
  rewrite Hiff. pose proof (lend_told _ Hset) as Htold. rewrite lent_set in Htold.
  destruct (taken_by_one modelID q Hq) as [[Hw0 Hf]|(id&e&Hw0&Hid&He&Hr)]; fold w in Hw0.
  - assert (book = lent s) as -> by (subst book; by rewrite Hw0).
    split_and!; [done|unfold setQueueForLane; by case_match|done|done|left; by split_and!].
  - assert (book = <[(isText lane, id) := newLent lease now e]> (lent s)) as ->
      by (subst book; rewrite Hw0; cbn [fold_left]; by rewrite He).
    destruct (Hw id) as [Hgone Hres]; [rewrite Hw0; by left|].
    split_and!; [|unfold setQueueForLane; by case_match|done|done|right].
    + intros text i r. destruct (decide ((isText lane, id) = (text, i))) as [[= <- <-]|Hne].
      * intros _. by rewrite queue_of_set, Bool.eqb_reflx.
      * rewrite lookup_insert_ne by done. apply Htold.
    + exists id, e. split_and!; [done|done| |done|by eapply sublist_shorter].
      destruct (lent s !! (isText lane, id)) as [r|] eqn:E; [|done].
      destruct (lend_told s Hok _ _ _ E) as (e'&He'&Hr').
      change (queue_of (isText lane) s) with q in He'. simplify_eq. congruence.
Qed.

(** *** The dispatch loop *)

#[export] Instance List_filter_perm {A} (p : A → bool) :
  Proper (Permutation ==> Permutation) (List.filter p).
Proof.
  induction 1 as [|x l l' _ IH|x y l|]; simpl; [done| | |by etrans].
  - case_match; [by constructor|done].
  - destruct (p x), (p y); [apply perm_swap|done..].
Qed.

Lemma Count_insert lane modelID ref r book :
  book !! ref = None →
  Count lane modelID (<[ref := r]> book) =
  Count lane modelID book + (if lent_for lane modelID r then 1 else 0).
Proof.
  intros Hnone. unfold Count. rewrite (map_to_list_insert _ _ _ Hnone). rewrite fmap_cons. simpl.
  case_match; simpl; lia.
Qed.

Lemma lendable_kinds q q' model l :
  same_kinds q q' → sublist l (pending q) → List.filter (lendable q model) (pending q) = [] →
  List.filter (lendable q' model) l = [].
Proof.
  intros Hk Hsub Hf. destruct (List.filter (lendable q' model) l) as [|x l'] eqn:E; [done|].
  assert (x ∈ List.filter (lendable q' model) l) as Hx by (rewrite E; by left).
  apply list_elem_of_In, List.filter_In in Hx as [Hx Hl].
  assert (x ∈ List.filter (lendable q model) (pending q)) as Hin.
  { apply list_elem_of_In, List.filter_In. split.
    - apply list_elem_of_In. eapply elem_of_sublist; [|exact Hsub]. by apply list_elem_of_In.
    - specialize (Hk x). unfold lendable in *. destruct (entries q !! x), (entries q' !! x); try done.
      destruct Hk as (Hb&Hp&Hm&_). by rewrite <-Hb, <-Hp, <-Hm. }
  rewrite Hf in Hin. by apply not_elem_of_nil in Hin.
Qed.

Lemma offloadLoop_spec `{GoSort} fuel lane modelID lease now s :
  lending_ok s → (length (pending (queueForLane lane s)) < fuel)%nat →
  let s' := offloadLoop fuel lane modelID lease now s in
  lending_ok s' ∧ offloadLeases s' = offloadLeases s ∧
  same_kinds (queueForLane lane s) (queueForLane lane s') ∧
  (slots lease ≤ Count lane modelID (lent s') ∨
   List.filter (lendable (queueForLane lane s') modelID) (pending (queueForLane lane s')) = []) ∧
  Count lane modelID (lent s') ≤ Z.max (Count lane modelID (lent s)) (slots lease) ∧
  (∀ ref r, lent s' !! ref = Some r → lent s !! ref = Some r ∨
     ∃ e, r = newLent lease now e ∧ ref.1 = isText lane ∧ ref.2 ∈ pending (queueForLane lane s)).
Proof.
  revert s. induction fuel as [|fuel IH]; intros s Hok Hfuel; [lia|]. cbn [offloadLoop].
  destruct (Z.ltb_spec (Count lane modelID (lent s)) (slots lease)) as [Hlt|Hge].
  2: { split_and!; try done; [apply same_kinds_refl|by left|lia|by left]. }
  pose proof (lendNewest_spec lane modelID lease now s Hok) as Hspec.
  destruct (lendNewest lane modelID lease now s) as [s1 w].
  destruct Hspec as (Hok1&Hl1&Hk1&Hsub1&[(->&Hlent&Hf)|(id&e&->&Hid&Hnone&Hlent&Hlen)]).
  - split_and!; [done|done|done|right; by eapply lendable_kinds| |]; rewrite Hlent; [lia|by left].
  - destruct (IH s1 Hok1) as (Hok2&Hl2&Hk2&Hstop&Hcount&Hnew); [lia|].
    split_and!; [done|congruence|by eapply same_kinds_trans|done| |].
    + rewrite Hlent, Count_insert in Hcount by done. case_match; lia.
    + intros ref r Hr. destruct (Hnew ref r Hr) as [Hin|(e2&->&Hrt&Hrp)].
      * rewrite Hlent in Hin. destruct (decide (ref = (isText lane, id))) as [->|Hne].
        -- rewrite lookup_insert_eq in Hin. simplify_eq. right. by exists e.
        -- rewrite lookup_insert_ne in Hin by done. by left.
      * right. exists e2. split_and!; [done|done|]. by eapply elem_of_sublist.
Qed.

Lemma maybeOffload_ok `{GoSort} lane modelID now s :
  lending_ok s → lending_ok (maybeOffload lane modelID now s) ∧
  offloadLeases (maybeOffload lane modelID now s) = offloadLeases s.
Proof.
  intros Hok. unfold maybeOffload. case_match; [done|].
  destruct (activeOffloadLease lane modelID now s) as [lease|]; [|done].
  destruct (offloadLoop_spec (S (length (pending (queueForLane lane s)))) lane modelID lease now s Hok)
    as (?&?&_); [lia|done].
Qed.

(** ** The steps of lending *)

Inductive lendingStep `{GoSort} : scheduler → scheduler → Prop :=
| StepQueue hold now ev lane s :
    (∀ model limit, ev ≠ EvWithdraw model limit) →
    lendingStep s (setQueueForLane lane (apply_event hold now ev (queueForLane lane s)) s)
| StepOffload lane modelID now s : lendingStep s (maybeOffload lane modelID now s)
| StepAccept lease isOwner now s : lendingStep s (acceptOffloadLease lease isOwner now s)
| StepDecided lane modelID decided isOwner now s :
    lendingStep s (applyDecidedLease lane modelID decided isOwner now s)
| StepFinish ref s : lendingStep s (finishOffload ref s)
| StepSettings hold s : lendingStep s (s <| HoldForFasterHelper := hold |>).

Definition newScheduler (s : scheduler) : Prop :=
  ∃ hold depth, s = mkScheduler hold (newOffloadQueue depth) (newOffloadQueue depth) ∅ ∅.

Definition reachable_lending `{GoSort} : scheduler → Prop := reachable newScheduler lendingStep.

Lemma readmit_ok `{GoSort} lane hold now s :
  lending_ok s → lending_ok (setQueueForLane lane (Readmit hold now (queueForLane lane s)) s).
Proof. intros Hok. by apply (lending_event hold now EvReadmit). Qed.

Lemma accept_ok `{GoSort} lease isOwner now s :
  lending_ok s → lending_ok (acceptOffloadLease lease isOwner now s).
Proof.
  intros Hok. unfold acceptOffloadLease. destruct isOwner.
  - apply maybeOffload_ok. by apply (lending_fields s).
  - apply (readmit_ok _ _ _ (s <| offloadLeases := _ |>)). by apply (lending_fields s).
Qed.

Lemma lendingStep_ok `{GoSort} s s' : lending_ok s → lendingStep s s' → lending_ok s'.
Proof.
  intros Hok Hstep. destruct Hstep as [hold now ev lane s _|lane modelID now s|lease isOwner now s
    |lane modelID decided isOwner now s|ref s|hold s].
  - by apply lending_event.
  - by apply maybeOffload_ok.
  - by apply accept_ok.
  - destruct decided as [lease|]; unfold applyDecidedLease; [by apply accept_ok|].
    destruct (offloadLeases s !! laneModelKey lane modelID); [|done].
    eapply (readmit_ok lane _ now (s <| offloadLeases := delete (laneModelKey lane modelID) (offloadLeases s) |>)).
    by apply (lending_fields s).
  - apply (lending_fields s); [done|done|done|]. intros ref' r. simpl.
    intros Hr. by apply lookup_delete_Some in Hr as [_ Hr].
  - by apply (lending_fields s).
Qed.

Lemma reachable_lending_ok `{GoSort} s : reachable_lending s → lending_ok s.
Proof.
  induction 1 as [s (hold&d&->)|s s' _ Hok Hstep]; [|by eapply lendingStep_ok].
  split; [intros []; apply newOffloadQueue_ok|]. intros text id r Hr. simpl in Hr. by rewrite lookup_empty in Hr.
Qed.

(** ** Correctness *)

(** C24. A request lent out is never run by its owner as well: in every state that
    arrivals, completions, cancellations, leases, dispatches and settings can
    produce, an entry of the book of lent requests has been told exactly that it
    is withdrawn, and is neither pending nor admitted in its queue. *)
Theorem lent_never_local `{GoSort} s text id request (Hreach : reachable_lending s)
    (Hlent : lent s !! (text, id) = Some request) :
  (∃ e, entries (queue_of text s) !! id = Some e ∧ e_result e = [offloadWithdrawn]) ∧
  id ∉ pending (queue_of text s) ∧ id ∉ admitted (queue_of text s).
Proof.
  pose proof (reachable_lending_ok s Hreach) as Hok. destruct (lend_told s Hok _ _ _ Hlent) as (e&He&Hr).
  destruct (lend_queue s Hok text) as [Hq _]. split_and!; [by exists e| |].
  - intros Hin. destruct (ok_pending _ Hq id Hin) as (_&e'&He'&Hr'). congruence.
  - intros Hin. destruct (ok_admitted _ Hq id Hin) as (e'&He'&Hr'). congruence.
Qed.

(** C25. Dispatch under a live lease lends until the lease's slots are taken or no
    pending request of the model may be lent, never beyond the slots, and what it
    lends goes to the helper the lease names. *)
Theorem maybeOffload_spec `{GoSort} lane modelID now s lease (Hreach : reachable_lending s)
    (Hlease : activeOffloadLease lane modelID now s = Some lease) (Hmodel : modelID ≠ "") :
  let s' := maybeOffload lane modelID now s in
  (slots lease ≤ Count lane modelID (lent s') ∨
   List.filter (lendable (queueForLane lane s') modelID) (pending (queueForLane lane s')) = []) ∧
  Count lane modelID (lent s') ≤ Z.max (Count lane modelID (lent s)) (slots lease) ∧
  (∀ ref r, lent s' !! ref = Some r → lent s !! ref = Some r ∨
     lt_helperNodeID r = HelperNodeID lease ∧ lt_helperModelID r = HelperModelID lease ∧
     lt_lentAt r = now ∧ ref.1 = isText lane ∧ ref.2 ∈ pending (queueForLane lane s)).
Proof.
  pose proof (reachable_lending_ok s Hreach) as Hok. unfold maybeOffload.
  rewrite (proj2 (String.eqb_neq _ _) Hmodel), Hlease.
  destruct (offloadLoop_spec (S (length (pending (queueForLane lane s)))) lane modelID lease now s Hok)
    as (_&_&_&Hstop&Hcount&Hnew); [lia|].
  split_and!; [done|done|]. intros ref r Hr. destruct (Hnew ref r Hr) as [|(e&->&?&?)]; [by left|].
  right. by split_and!.
Qed.



(** ** Concrete instances: an owner of depth one with two requests of a model and a
    lease for one slot of a faster helper. *)
Definition fastLease : offloadLease :=
  mkLease "image" "owner" "m" "h2" "m" false false 1 false 0 90000
    (f_of_Z 10000) (f_of_Z 0) (f_of_Z 1000).

Definition emptyScheduler : scheduler :=
  mkScheduler true (newOffloadQueue 1) (newOffloadQueue 1) ∅ ∅.

Definition queued (now : Z) (s : scheduler) : scheduler :=
  setQueueForLane "image" (apply_event None now (EvEnqueue (own "m") true) (queueForLane "image" s)) s.

Definition waiting : scheduler := queued 7 (queued 5 emptyScheduler).
Definition lending : scheduler := acceptOffloadLease fastLease true 9 waiting.

Lemma waiting_reachable : reachable_lending waiting.
Proof.
  eapply reachable_step; [eapply reachable_step; [apply reachable_init; by do 2 eexists|]|];
    by apply StepQueue.
Qed.

Lemma lending_reachable : reachable_lending lending.
Proof. eapply reachable_step; [apply waiting_reachable|]. apply StepAccept. Qed.

(** The second request is lent: the owner does not run it. *)
Lemma lent_never_local_witness :
  is_Some (lent lending !! (false, 1%nat)) ∧ 1%nat ∉ admitted (imageQueue lending).
Proof.
  destruct (lent lending !! (false, 1%nat)) as [r|] eqn:E; [|vm_compute in E; discriminate].
  split; [by eexists|].
  destruct (lent_never_local lending false 1 r lending_reachable E) as (_&_&H). exact H.
Defined.

(** With its slot taken and nothing left to lend, dispatch lends no more. *)
Lemma maybeOffload_spec_witness :
  Count "image" "m" (lent (maybeOffload "image" "m" 10 lending)) ≤ 1.
Proof.
  destruct (activeOffloadLease "image" "m" 10 lending) as [lease|] eqn:E;
    [|vm_compute in E; discriminate].
  destruct (maybeOffload_spec "image" "m" 10 lending lease lending_reachable E) as (_&H&_); [done|].
  assert (slots lease = 1) as Hs by (vm_compute in E; by injection E as <-).
  rewrite Hs in H. assert (Count "image" "m" (lent lending) = 1) as Hc by (vm_compute; reflexivity).
  rewrite Hc in H. exact H.
Defined.



