(* ===== verification/ClusterRegistry.v ===== *)
(** * The cluster registry: one view of every node's models

    Model of [internal/cluster]: the local model records of [types.go], the
    public identifiers of [identity.go], and the registry of [registry.go] with
    its node table, view, busy counters and round robin.

    The record [Model] has the fields that routing reads ([m_Context] is the
    context window of its capabilities); [m_Rest] stands for the ones it only
    carries (sizes, options, the other capabilities, benchmark). The canonical
    form of a URL ([NormalizeBaseURL], which is Go's [net/url] apart from the
    scheme check) is a parameter. *)

From stdpp Require Import gmap strings list sorting pretty.
From Stdlib Require Import Ascii Bool ZArith Lia.
From S2P Require Import Prelude.
From S2P Require Import GoStrings.
From S2P Require Import UnloadPolicy.
Open Scope go_scope.
Open Scope Z_scope.
Open Scope list_scope.

(** ** Models and routes ([types.go]) *)

Definition RoleMaster : string := "master".
Definition SourceLocal : string := "local".
Definition SourceMaster : string := "master".
Definition SourceSlave : string := "slave".
Definition RouteLaneText : string := "text".
Definition RouteLaneImage : string := "image".
Definition RouteLaneVoice : string := "voice".
Definition RouteLaneMusic : string := "music".

Record Model : Type := mkModel {
  PublicID : string;
  LocalID : string;
  ImageID : string;
  PublicImageID : string;
  Filename : string;
  HasLLM : bool;
  HasImage : bool;
  HasEmbeddings : bool;
  HasVoice : bool;
  HasMusic : bool;
  MCPEnabled : bool;
  ModelHash : string;
  ConfigHash : string;
  BackendMode : string;
  Source : string;
  NodeID : string;
  NodeURL : string;
  Available : bool;
  EmbeddingsLoaded : bool;
  Disabled : bool;
  ServedNames : list string;
  m_Context : Z;
  m_Rest : Z
}.
#[export] Instance eta_Model : Eta Model :=
  λ m, mkModel (PublicID m) (LocalID m) (ImageID m) (PublicImageID m) (Filename m) (HasLLM m)
    (HasImage m) (HasEmbeddings m) (HasVoice m) (HasMusic m) (MCPEnabled m) (ModelHash m)
    (ConfigHash m) (BackendMode m) (Source m) (NodeID m) (NodeURL m) (Available m)
    (EmbeddingsLoaded m) (Disabled m) (ServedNames m) (m_Context m) (m_Rest m).

Record Route : Type := mkRoute {
  rt_PublicID : string;
  rt_LocalID : string;
  rt_PublicImageID : string;
  rt_LocalImageID : string;
  rt_Filename : string;
  rt_NodeID : string;
  rt_NodeURL : string;
  rt_Remote : bool;
  rt_Lane : string;
  rt_BackendMode : string
}.
#[export] Instance eta_Route : Eta Route :=
  λ r, mkRoute (rt_PublicID r) (rt_LocalID r) (rt_PublicImageID r) (rt_LocalImageID r) (rt_Filename r)
    (rt_NodeID r) (rt_NodeURL r) (rt_Remote r) (rt_Lane r) (rt_BackendMode r).

(** A [catalog.Model], with the fields a record takes from it. *)
Record CatalogModel : Type := mkCatalogModel {
  cat_ID : string; cat_ImageID : string; cat_Filename : string;
  cat_HasLLM : bool; cat_HasImage : bool; cat_HasEmbeddings : bool; cat_HasVoice : bool;
  cat_HasMusic : bool; cat_MCPEnabled : bool; cat_ModelHash : string; cat_ConfigHash : string;
  cat_BackendMode : string; cat_ServedNames : list string; cat_Context : Z; cat_Rest : Z
}.

Record localModelLocation : Type := mkLocation { loc_nodeID : string; loc_nodeURL : string; loc_source : string }.

Definition localModelRecord (model : CatalogModel) (backendMode : string) (location : localModelLocation)
  : Model :=
  mkModel (cat_ID model) (cat_ID model) (cat_ImageID model) (cat_ImageID model) (cat_Filename model)
    (cat_HasLLM model) (cat_HasImage model) (cat_HasEmbeddings model) (cat_HasVoice model)
    (cat_HasMusic model) (cat_MCPEnabled model) (cat_ModelHash model) (cat_ConfigHash model)
    backendMode (loc_source location) (loc_nodeID location) (loc_nodeURL location) true false false
    (cat_ServedNames model) (cat_Context model) (cat_Rest model).

(** How many models claim a served name; a model's own id and repetitions do not
    count. *)
Record servedNameIndex : Type := mkServedNames { primaryIDs : gset string; owners : gmap string Z }.

Definition claimedNames (model : CatalogModel) : list string :=
  remove_dups (List.filter (λ name, negb (String.eqb name "" || String.eqb name (cat_ID model)))
    (TrimSpace <$> cat_ServedNames model)).

Definition indexServedNames (models : list CatalogModel) : servedNameIndex :=
  mkServedNames (list_to_set (cat_ID <$> models))
    (fold_left (λ owners name, <[name := default 0 (owners !! name) + 1]> owners)
       (concat (claimedNames <$> models)) ∅).

Definition uniqueAlias (index : servedNameIndex) (servedName modelID : string) : bool :=
  if String.eqb servedName "" || String.eqb servedName modelID
     || negb (default 0 (owners index !! servedName) =? 1)
  then false else negb (bool_decide (servedName ∈ primaryIDs index)).

Definition LocalModelsWithBackendMode (models : list CatalogModel) (nodeID nodeURL source backendMode : string)
  : list Model :=
  let fallbackMode := default Kobold (mode_Resolve "" backendMode) in
  let index := indexServedNames models in
  let location := mkLocation nodeID nodeURL source in
  concat ((λ model,
    let mode := mode_Normalize (cat_BackendMode model) in
    let mode := if String.eqb mode "" then fallbackMode else mode in
    let record := localModelRecord model mode location in
    record :: ((λ name, record <| PublicID := name |>) <$>
      List.filter (λ name, uniqueAlias index name (cat_ID model)) (TrimSpace <$> cat_ServedNames model)))
    <$> models).

(** ** Public identifiers ([identity.go]) *)

Definition colon : string := ":".

Definition modelIdentity (model : Model) : string := (ModelHash model +:+ colon +:+ ConfigHash model)%string.

Definition routeSortKey (model : Model) : string := (NodeID model +:+ colon +:+ LocalID model)%string.

Definition identitySortKey (model : Model) : string :=
  ((if String.eqb (Source model) SourceMaster || String.eqb (Source model) SourceLocal then "0:" else "2:")
   +:+ routeSortKey model)%string.

Definition modelRouteKey (model : Model) : string :=
  (NodeID model +:+ colon +:+ LocalID model +:+ colon +:+ modelIdentity model)%string.

Definition routeKey (route : Route) : string :=
  let lane := if String.eqb (rt_Lane route) "" then RouteLaneText else rt_Lane route in
  (rt_NodeID route +:+ colon +:+ rt_LocalID route +:+ colon +:+ lane)%string.

Definition routeFromModel (model : Model) (remote : bool) (lane : string) : Route :=
  mkRoute (PublicID model) (LocalID model) (PublicImageID model) (ImageID model) (Filename model)
    (NodeID model) (NodeURL model) remote lane (BackendMode model).

(** The first group with the model's identity takes it; otherwise it starts one. *)
Fixpoint addToGroups (model : Model) (groups : list (list Model)) : list (list Model) :=
  match groups with
  | [] => [[model]]
  | group :: rest =>
      match group with
      | first :: _ =>
          if String.eqb (modelIdentity first) (modelIdentity model)
          then (group ++ [model]) :: rest else group :: addToGroups model rest
      | [] => group :: addToGroups model rest
      end
  end.

Definition identity_before (left right : Model) : bool :=
  String.ltb (identitySortKey left) (identitySortKey right).

Definition identityGroups `{GoSort} (models : list Model) : list (list Model) :=
  fold_left (λ groups model, addToGroups model groups) (sort_slice identity_before models) [].

(** [fmt.Sprintf("%s-%d", baseID, index+1)] for a group that is not the first. *)
Definition groupPublicID (baseID : string) (index : nat) : string :=
  match index with O => baseID | S _ => (baseID +:+ "-" +:+ pretty (N.of_nat (S index)))%string end.

Definition publicImageID (model : Model) : string :=
  if String.eqb (TrimSpace (ImageID model)) "" then ""
  else if String.eqb (TrimSpace (PublicID model)) "" then ImageID model
  else
    let prefix := (LocalID model +:+ "-")%string in
    if HasPrefix (ImageID model) prefix
    then (PublicID model +:+ "-" +:+ TrimPrefix (ImageID model) prefix)%string
    else if String.eqb (PublicID model) (LocalID model) then ImageID model
    else (PublicID model +:+ "-" +:+ ImageID model)%string.

Definition baseIDsOf `{GoSort} (models : list Model) : list string :=
  sort_slice String.ltb (remove_dups (LocalID <$> models)).

(** What [assignPublicIDs] writes, in the order it writes it: route keys with the
    public id of their group. *)
Definition publicIDWrites `{GoSort} (models : list Model) : list (string * string) :=
  concat ((λ baseID,
    concat (imap (λ index group, (λ model, (modelRouteKey model, groupPublicID baseID index)) <$> group)
      (identityGroups (List.filter (λ model, String.eqb (LocalID model) baseID) models))))
    <$> baseIDsOf models).

Definition publicIDByRoute `{GoSort} (models : list Model) : gmap string string :=
  fold_left (λ m kv, <[kv.1 := kv.2]> m) (publicIDWrites models) ∅.

Definition assignPublicIDs `{GoSort} (models : list Model) : list Model :=
  let byRoute := publicIDByRoute models in
  (λ model,
    let model := match byRoute !! modelRouteKey model with
                 | Some publicID => model <| PublicID := publicID |>
                 | None => model
                 end in
    model <| PublicImageID := publicImageID model |>) <$> models.

(** ** The registry ([registry.go]) *)

Record Snapshot : Type := mkSnapshot {
  sn_NodeID : string; sn_NodeURL : string; sn_Models : list Model; sn_ProtocolVersion : Z
}.

Record Registry : Type := mkRegistry {
  role : string;
  localID : string;
  localURL : string;
  local : list Model;
  nodes : gmap string Snapshot;
  unhealthy : gset string;
  busy : gmap string Z;
  next : gmap string Z;
  view : list Model;
  revision : Z
}.
#[export] Instance eta_Registry : Eta Registry :=
  λ r, mkRegistry (role r) (localID r) (localURL r) (local r) (nodes r) (unhealthy r) (busy r)
    (next r) (view r) (revision r).

Definition MinimumProtocolVersion : Z := 2.

Inductive UpdateError : Type :=
  NodeIDRequired | NodeURLInvalid | IncompatibleProtocol | DuplicateNode.

Definition localSource (registry : Registry) : string :=
  if String.eqb (role registry) RoleMaster then SourceMaster else SourceLocal.

Definition nodeIDs `{GoSort} (registry : Registry) : list string :=
  sort_slice String.ltb (elements (dom (nodes registry))).

Definition nodeCandidates (registry : Registry) (nodeID : string) : list Model :=
  match nodes registry !! nodeID with
  | None => []
  | Some snapshot =>
      (λ model, model <| Source := SourceSlave |> <| NodeID := sn_NodeID snapshot |>
                      <| NodeURL := sn_NodeURL snapshot |>
                      <| Available := negb (bool_decide (nodeID ∈ unhealthy registry)) |>)
        <$> sn_Models snapshot
  end.

Definition candidatesLocked `{GoSort} (registry : Registry) : list Model :=
  ((λ model, model <| Source := localSource registry |> <| NodeID := localID registry |>
                   <| NodeURL := localURL registry |> <| Available := true |>) <$> local registry)
  ++ concat (nodeCandidates registry <$> nodeIDs registry).

Definition view_before (left right : Model) : bool :=
  if String.eqb (PublicID left) (PublicID right)
  then String.ltb (routeSortKey left) (routeSortKey right)
  else String.ltb (PublicID left) (PublicID right).

Definition rebuildLocked `{GoSort} (registry : Registry) : Registry :=
  registry <| view := sort_slice view_before (assignPublicIDs (candidatesLocked registry)) |>
           <| revision := u64_succ (revision registry) |>.

Definition UpdateLocal `{GoSort} (models : list Model) (registry : Registry) : Registry :=
  rebuildLocked (registry <| local := models |>).

Definition normalizeNodeSnapshot (snapshot : Snapshot) : Snapshot :=
  mkSnapshot (sn_NodeID snapshot) (sn_NodeURL snapshot)
    ((λ model, model <| NodeID := sn_NodeID snapshot |> <| NodeURL := sn_NodeURL snapshot |>
                     <| PublicID := LocalID model |> <| PublicImageID := ImageID model |>
                     <| BackendMode := if String.eqb (BackendMode model) "" then Kobold
                                       else BackendMode model |>) <$> sn_Models snapshot)
    0.

Section with_urls.
Context (NormalizeBaseURL : string → option string).

Definition NewRegistry (role localID localURL : string) : Registry :=
  mkRegistry role (TrimSpace localID) (default (TrimSpace localURL) (NormalizeBaseURL localURL))
    [] ∅ ∅ ∅ ∅ [] 0.

Definition UpdateNode `{GoSort} (snapshot : Snapshot) (registry : Registry) : Registry + UpdateError :=
  let nodeID := TrimSpace (sn_NodeID snapshot) in
  if String.eqb nodeID "" then inr NodeIDRequired
  else match NormalizeBaseURL (sn_NodeURL snapshot) with
       | None => inr NodeURLInvalid
       | Some nodeURL =>
           if sn_ProtocolVersion snapshot <? MinimumProtocolVersion then inr IncompatibleProtocol
           else
             let snapshot := mkSnapshot nodeID nodeURL (sn_Models snapshot) (sn_ProtocolVersion snapshot) in
             if String.eqb nodeID (localID registry) then inr DuplicateNode
             else if negb (String.eqb (localURL registry) "") && String.eqb nodeURL (localURL registry)
             then inr DuplicateNode
             else if match nodes registry !! nodeID with
                     | Some existing => negb (String.eqb (sn_NodeURL existing) nodeURL)
                     | None => false end
             then inr DuplicateNode
             else if existsb (λ kv, negb (String.eqb kv.1 nodeID) && String.eqb (sn_NodeURL kv.2) nodeURL)
                       (map_to_list (nodes registry))
             then inr DuplicateNode
             else inl (rebuildLocked
                    (registry <| nodes := <[nodeID := normalizeNodeSnapshot snapshot]> (nodes registry) |>
                              <| unhealthy := unhealthy registry ∖ {[nodeID]} |>))
       end.

Definition MarkNodeHealth `{GoSort} (nodeID : string) (healthy : bool) (registry : Registry) : Registry :=
  rebuildLocked (registry <| unhealthy :=
    if healthy then unhealthy registry ∖ {[nodeID]} else unhealthy registry ∪ {[nodeID]} |>).

Definition MarkNodeURLHealth `{GoSort} (nodeURL : string) (healthy : bool) (registry : Registry) : Registry :=
  let nodeURL := default nodeURL (NormalizeBaseURL nodeURL) in
  let named := dom (filter (λ kv, sn_NodeURL kv.2 = nodeURL) (nodes registry)) in
  rebuildLocked (registry <| unhealthy :=
    if healthy then unhealthy registry ∖ named else unhealthy registry ∪ named |>).
End with_urls.

(** *** Lookups over the view *)

Definition find_model (p : Model → bool) (registry : Registry) : option Model :=
  List.find (λ model, negb (Disabled model) && p model) (view registry).

Definition embeddingModelSelectableLocked (publicID : string) (model : Model) : bool :=
  if String.eqb (PublicID model) publicID then HasEmbeddings model || HasLLM model
  else HasEmbeddings model && String.eqb (PublicImageID model) publicID.

Definition AllImageConfigs : string := "*".

Definition imageModelSelectableLocked (registry : Registry) (activeConfigFilename : string) (model : Model)
  : bool :=
  if negb (HasImage model) || String.eqb (PublicImageID model) "" then false
  else if negb (HasLLM model) then true
  else if String.eqb (BackendMode model) LlamaSDCPP then true
  else if String.eqb activeConfigFilename AllImageConfigs && String.eqb (BackendMode model) LlamaSDCPP
  then true
  else if negb (String.eqb (NodeID model) (localID registry)) then true
  else String.eqb (Filename model) activeConfigFilename.

Definition named (publicID : string) (model : Model) : bool := String.eqb (PublicID model) publicID.
Definition mcp_named (publicID : string) (model : Model) : bool := named publicID model && MCPEnabled model.
Definition voice_named (publicID : string) (model : Model) : bool := named publicID model && HasVoice model.
Definition music_named (publicID : string) (model : Model) : bool := named publicID model && HasMusic model.
Definition image_named (registry : Registry) (publicImageID activeConfigFilename : string) (model : Model)
  : bool :=
  imageModelSelectableLocked registry activeConfigFilename model
  && String.eqb (PublicImageID model) publicImageID.

Definition findModel (publicID : string) := find_model (named publicID).
Definition MCPModel (publicID : string) := find_model (mcp_named publicID).
Definition EmbeddingModel (publicID : string) := find_model (embeddingModelSelectableLocked publicID).
Definition VoiceModel (publicID : string) := find_model (voice_named publicID).
Definition MusicModel (publicID : string) := find_model (music_named publicID).
Definition ImageModel (publicImageID activeConfigFilename : string) (registry : Registry) : option Model :=
  find_model (image_named registry publicImageID activeConfigFilename) registry.

(** The loop of [ConfigDisabled]: the first record of the file decides. *)
Definition ConfigDisabled (nodeID filename : string) (registry : Registry) : bool :=
  from_option Disabled false
    (List.find (λ model, String.eqb (NodeID model) nodeID && String.eqb (Filename model) filename)
       (view registry)).

Definition NodeURLsByID (registry : Registry) : gmap string string :=
  let remote := omap (λ snapshot, if String.eqb (sn_NodeURL snapshot) "" then None
                                  else Some (sn_NodeURL snapshot)) (nodes registry) in
  if negb (String.eqb (localID registry) "") && negb (String.eqb (localURL registry) "")
  then remote ∪ {[localID registry := localURL registry]} else remote.

(** *** Replicas and the choice among them *)

Definition replica_before (left right : Model) : bool :=
  String.ltb (routeSortKey left) (routeSortKey right).

(** [replicasLocked] and its variants, by what they ask of a model. *)
Definition replicasLocked `{GoSort} (p : Model → bool) (registry : Registry) : list Model :=
  sort_slice replica_before (List.filter (λ model, negb (Disabled model) && p model) (view registry)).

Definition is_local (registry : Registry) (model : Model) : bool :=
  String.eqb (NodeID model) (localID registry).

Definition busy_count (registry : Registry) (key : string) : Z := default 0 (busy registry !! key).

Definition localServes (registry : Registry) (localHealthy : bool) (replica : Model) : bool :=
  is_local registry replica && Available replica && localHealthy.

Definition idleLocal (registry : Registry) (localHealthy : bool) (lane : string) (replica : Model) : bool :=
  localServes registry localHealthy replica
  && (busy_count registry (routeKey (routeFromModel replica false lane)) =? 0).

Definition remoteReplicas (registry : Registry) (replicas : list Model) : list Model :=
  List.filter (λ replica, negb (is_local registry replica) && Available replica) replicas.

Definition next_index (registry : Registry) (key : string) : Z := default 0 (next registry !! key).

Definition selectRouteLocked (publicID : string) (replicas : list Model) (localHealthy : bool)
    (lane : string) (registry : Registry) : Registry * option Route :=
  match List.find (idleLocal registry localHealthy lane) replicas with
  | Some replica => (registry, Some (routeFromModel replica false lane))
  | None =>
      let slaves := remoteReplicas registry replicas in
      match slaves with
      | _ :: _ =>
          let n := Z.of_nat (length slaves) in
          let index := Z.rem (next_index registry publicID) n in
          (registry <| next := <[publicID := Z.rem (next_index registry publicID + 1) n]> (next registry) |>,
           (λ slave, routeFromModel slave true lane) <$> slaves !! Z.to_nat index)
      | [] =>
          (registry, (λ replica, routeFromModel replica false lane)
             <$> List.find (localServes registry localHealthy) replicas)
      end
  end.

(** *** Acquiring and releasing

    The registry with the releases handed out and not yet called, numbered; a
    release runs once. *)
Record Routing : Type := mkRouting {
  registry_of : Registry;
  held : gmap nat string;
  handed : nat
}.
#[export] Instance eta_Routing : Eta Routing :=
  λ r, mkRouting (registry_of r) (held r) (handed r).

Definition acquireRouteLocked (route : Route) (state : Routing) : Routing * nat :=
  let key := routeKey route in
  let r := registry_of state in
  (mkRouting (r <| busy := <[key := busy_count r key + 1]> (busy r) |>)
     (<[handed state := key]> (held state)) (S (handed state)), handed state).

Definition release (handle : nat) (state : Routing) : Routing :=
  match held state !! handle with
  | None => state
  | Some key =>
      let r := registry_of state in
      let r := if 0 <? busy_count r key then r <| busy := <[key := busy_count r key - 1]> (busy r) |> else r in
      mkRouting r (delete handle (held state)) (handed state)
  end.

(** [Acquire] and its variants: the routing key, the replicas and the lane. *)
Definition acquireBy `{GoSort} (key : string) (p : Model → bool) (localHealthy : bool) (lane : string)
    (state : Routing) : Routing * option (Route * nat) :=
  let '(r, route) := selectRouteLocked key (replicasLocked p (registry_of state)) localHealthy lane
                       (registry_of state) in
  let state := state <| registry_of := r |> in
  match route with
  | None => (state, None)
  | Some route => let '(state, handle) := acquireRouteLocked route state in (state, Some (route, handle))
  end.

Definition Acquire `{GoSort} (publicID : string) (localHealthy : bool) :=
  acquireBy publicID (named publicID) localHealthy RouteLaneText.
Definition AcquireMCP `{GoSort} (publicID : string) (localHealthy : bool) :=
  acquireBy publicID (mcp_named publicID) localHealthy RouteLaneText.
Definition AcquireEmbedding `{GoSort} (publicID : string) (localHealthy : bool) :=
  acquireBy publicID (embeddingModelSelectableLocked publicID) localHealthy RouteLaneText.
Definition AcquireVoice `{GoSort} (publicID : string) (localHealthy : bool) :=
  acquireBy publicID (voice_named publicID) localHealthy RouteLaneVoice.
Definition AcquireMusic `{GoSort} (publicID : string) (localHealthy : bool) :=
  acquireBy publicID (music_named publicID) localHealthy RouteLaneMusic.
Definition AcquireImage `{GoSort} (publicImageID : string) (localHealthy : bool) (activeConfigFilename : string)
    (state : Routing) : Routing * option (Route * nat) :=
  acquireBy publicImageID (image_named (registry_of state) publicImageID activeConfigFilename)
    localHealthy RouteLaneImage state.

(** The loops of [AcquireSpecificEmbedding] and [AcquireSpecificVoice] over the
    view: [Some None] is a break. *)
Fixpoint specificLoop (wanted : Model → bool) (choose : Model → option (option Model)) (l : list Model)
  : option Model :=
  match l with
  | [] => None
  | model :: rest =>
      if negb (wanted model) then specificLoop wanted choose rest
      else match choose model with
           | Some answer => answer
           | None => specificLoop wanted choose rest
           end
  end.

Definition specificEmbedding (nodeID filename localID' : string) (localHealthy : bool) (r : Registry)
  : option Model :=
  specificLoop (λ model, negb (Disabled model) && String.eqb (NodeID model) nodeID
      && String.eqb (Filename model) filename && String.eqb (LocalID model) localID'
      && HasEmbeddings model && Available model)
    (λ model, if is_local r model then (if localHealthy then Some (Some model) else Some None)
              else if EmbeddingsLoaded model then Some (Some model) else None)
    (view r).

Definition specificVoice (publicID nodeID filename : string) (localHealthy : bool) (r : Registry)
  : option Model :=
  specificLoop (λ model, negb (Disabled model) && String.eqb (PublicID model) publicID
      && String.eqb (NodeID model) nodeID && String.eqb (Filename model) filename
      && HasVoice model && Available model)
    (λ model, if is_local r model && negb localHealthy then Some None else Some (Some model))
    (view r).

Definition acquireSpecific (chosen : option Model) (lane : string) (state : Routing)
  : Routing * option (Route * nat) :=
  match chosen with
  | None => (state, None)
  | Some model =>
      let route := routeFromModel model (negb (is_local (registry_of state) model)) lane in
      let '(state, handle) := acquireRouteLocked route state in (state, Some (route, handle))
  end.

Definition AcquireSpecificEmbedding (nodeID filename localID' : string) (localHealthy : bool) (state : Routing) :=
  acquireSpecific (specificEmbedding nodeID filename localID' localHealthy (registry_of state))
    RouteLaneText state.
Definition AcquireSpecificVoice (publicID nodeID filename : string) (localHealthy : bool) (state : Routing) :=
  acquireSpecific (specificVoice publicID nodeID filename localHealthy (registry_of state))
    RouteLaneVoice state.

Definition nextWebUIRouteLocked (selectionKey : string) (routes : list Route) (r : Registry)
  : Registry * option Route :=
  let n := Z.of_nat (length routes) in
  let index := Z.rem (next_index r selectionKey) n in
  (r <| next := <[selectionKey := Z.rem (next_index r selectionKey + 1) n]> (next r) |>,
   (λ route, route <| rt_Remote := negb (String.eqb (rt_NodeID route) (localID r)) |>)
     <$> routes !! Z.to_nat index).

Definition route_before (left right : Route) : bool := String.ltb (routeKey left) (routeKey right).

Definition selectWebUIRouteLocked `{GoSort} (selectionKey : string) (candidates : list Route) (r : Registry)
  : Registry * option Route :=
  match candidates with
  | [] => (r, None)
  | _ =>
      let routes := sort_slice route_before candidates in
      match List.find (λ route, String.eqb (rt_NodeID route) (localID r)) routes with
      | Some route => (r, Some (route <| rt_Remote := false |>))
      | None =>
          match List.filter (λ route, busy_count r (routeKey route) =? 0) routes with
          | [] => nextWebUIRouteLocked (selectionKey +:+ ":busy")%string routes r
          | idle => nextWebUIRouteLocked (selectionKey +:+ ":idle")%string idle r
          end
      end
  end.

Definition AcquireWebUI `{GoSort} (selectionKey : string) (candidates : list Route) (state : Routing)
  : Routing * option (Route * nat) :=
  let '(r, route) := selectWebUIRouteLocked selectionKey candidates (registry_of state) in
  let state := state <| registry_of := r |> in
  match route with
  | None => (state, None)
  | Some route => let '(state, handle) := acquireRouteLocked route state in (state, Some (route, handle))
  end.
