(* ===== verification/ClusterRegistryProofs.v ===== *)
(** * Theorems about the cluster registry

    Public identifiers, the table of nodes, the choice of a replica and the busy
    counters. *)

From stdpp Require Import gmap strings list sorting pretty.
From Stdlib Require Import Ascii Bool ZArith Lia.
From S2P Require Import Prelude.
From S2P Require Import GoStrings.
From S2P Require Import UnloadPolicy.
From S2P Require Import ClusterRegistry.
Open Scope go_scope.
Open Scope Z_scope.
Open Scope list_scope.

(** ** Maps built by a loop of writes *)

Lemma fold_insert_lookup {V} (writes : list (string * V)) (m : gmap string V) key :
  fold_left (λ m kv, <[kv.1 := kv.2]> m) writes m !! key =
  match last (filter (λ kv, kv.1 = key) writes) with Some kv => Some kv.2 | None => m !! key end.
Proof.
  induction writes as [|[k v] writes IH] using rev_ind; [done|].
  rewrite fold_left_app. cbn [fold_left fst snd]. rewrite filter_app, filter_cons. simpl.
  destruct (decide (k = key)) as [->|Hne].
  - rewrite lookup_insert_eq. by rewrite filter_nil, last_snoc.
  - rewrite lookup_insert_ne by done. rewrite filter_nil, app_nil_r. exact IH.
Qed.

Lemma fold_insert_some {V} (writes : list (string * V)) key :
  key ∈ writes.*1 → ∃ v, fold_left (λ m kv, <[kv.1 := kv.2]> m) writes (∅ : gmap string V) !! key = Some v ∧
    (key, v) ∈ writes.
Proof.
  intros Hin. rewrite fold_insert_lookup.
  destruct (last (filter (λ kv, kv.1 = key) writes)) as [[k v]|] eqn:E.
  - apply last_Some_elem_of, list_elem_of_filter in E as [<- Hv]. by exists v.
  - apply last_None in E. apply list_elem_of_fmap in Hin as ([k v]&->&Hin).
    assert ((k, v) ∈ filter (λ kv, kv.1 = k) writes) as Hf by (by apply list_elem_of_filter).
    simpl in E. rewrite E in Hf. by apply not_elem_of_nil in Hf.
Qed.

(** ** Groups of one identity *)

Definition groups_ok (groups : list (list Model)) : Prop :=
  (∀ g, g ∈ groups → ∃ first rest, g = first :: rest ∧
     Forall (λ m, modelIdentity m = modelIdentity first) g) ∧
  (∀ i j g g' m m', groups !! i = Some g → groups !! j = Some g' → m ∈ g → m' ∈ g' →
     modelIdentity m = modelIdentity m' → i = j).

Lemma addToGroups_perm model groups : concat (addToGroups model groups) ≡ₚ model :: concat groups.
Proof.
  induction groups as [|g groups IH]; [done|]. simpl. destruct g as [|first rest]; simpl.
  - exact IH.
  - case_match; simpl.
    + rewrite <-app_assoc. simpl. by rewrite <-Permutation_middle, Permutation_swap.
    + rewrite IH, <-Permutation_middle. apply Permutation_swap.
Qed.

(** What the loop does: join the group of the same identity, or start one. *)
Lemma addToGroups_cases model groups :
  groups_ok groups →
  (∃ i g, groups !! i = Some g ∧ (∀ m, m ∈ g → modelIdentity m = modelIdentity model) ∧
     addToGroups model groups = <[i := g ++ [model]]> groups) ∨
  ((∀ g m, g ∈ groups → m ∈ g → modelIdentity m ≠ modelIdentity model) ∧
   addToGroups model groups = groups ++ [[model]]).
Proof.
  intros [Hg _]. induction groups as [|g groups IH].
  { right. split; [|done]. intros g m Hin. by apply not_elem_of_nil in Hin. }
  destruct (Hg g) as (first&rest&->&Hall); [by left|]. rewrite Forall_forall in Hall.
  cbn [addToGroups]. destruct (String.eqb_spec (modelIdentity first) (modelIdentity model)) as [He|Hne].
  - left. exists 0%nat, (first :: rest). split_and!; [done| |done]. intros m Hm. by rewrite (Hall m Hm).
  - destruct IH as [(i&g&Hi&Hsame&->)|[Hno ->]].
    + intros g Hin. apply Hg. by right.
    + left. exists (S i), g. by split_and!.
    + right. split; [|done]. intros g m [->|Hin]%elem_of_cons Hm; [|by eapply Hno].
      by rewrite (Hall m Hm).
Qed.

Lemma addToGroups_ok model groups : groups_ok groups → groups_ok (addToGroups model groups).
Proof.
  intros Hok. destruct (addToGroups_cases model groups Hok) as [(i&g&Hi&Hsame&->)|[Hno ->]];
    destruct Hok as [Hg Hinj].
  - assert (∀ j g' m', (<[i:=g ++ [model]]> groups) !! j = Some g' → m' ∈ g' →
      ∃ g0 m0, groups !! j = Some g0 ∧ m0 ∈ g0 ∧ modelIdentity m0 = modelIdentity m') as Hback.
    { intros j g' m' Hj Hm. destruct (decide (j = i)) as [->|Hne].
      - rewrite list_lookup_insert_eq in Hj by (by eapply lookup_lt_Some). simplify_eq.
        destruct (Hg g) as (first&rest&->&Hall); [by eapply list_elem_of_lookup_2|].
        exists (first :: rest), first. split_and!; [done|by left|]. rewrite Forall_forall in Hall.
        apply elem_of_app in Hm as [Hm|Hm%list_elem_of_singleton]; [by rewrite (Hall m' Hm)|].
        subst m'. by apply Hsame; left.
      - rewrite list_lookup_insert_ne in Hj by done. by exists g', m'. }
    split.
    + intros g' Hin. apply list_elem_of_lookup in Hin as [j Hj]. destruct (decide (j = i)) as [->|Hne].
      * rewrite list_lookup_insert_eq in Hj by (by eapply lookup_lt_Some). simplify_eq.
        destruct (Hg g) as (first&rest&->&Hall); [by eapply list_elem_of_lookup_2|].
        exists first, (rest ++ [model]). split; [done|]. apply Forall_app. split; [done|].
        apply Forall_singleton. symmetry. by apply Hsame; left.
      * rewrite list_lookup_insert_ne in Hj by done. apply Hg. by eapply list_elem_of_lookup_2.
    + intros a b ga gb ma mb Ha Hb Hma Hmb Heq.
      destruct (Hback a ga ma Ha Hma) as (ga0&ma0&Ha0&Hma0&Hea).
      destruct (Hback b gb mb Hb Hmb) as (gb0&mb0&Hb0&Hmb0&Heb).
      eapply (Hinj a b); [exact Ha0|exact Hb0|exact Hma0|exact Hmb0|congruence].
  - split.
    + intros g [Hin|Hin%list_elem_of_singleton]%elem_of_app; [by apply Hg|]. subst g.
      exists model, []. split; [done|]. by apply Forall_singleton.
    + assert (∀ a g m, (groups ++ [[model]]) !! a = Some g → m ∈ g →
        (groups !! a = Some g) ∨ (a = length groups ∧ m = model)) as Hsplit.
      { intros a g m Ha Hm. apply lookup_app_Some in Ha as [|[Hle Ha]]; [by left|right].
        apply list_lookup_singleton_Some in Ha as [Hz <-]. split; [lia|].
        by apply list_elem_of_singleton in Hm. }
      intros a b ga gb ma mb Ha Hb Hma Hmb Heq.
      destruct (Hsplit a ga ma Ha Hma) as [Ha'|[-> ->]], (Hsplit b gb mb Hb Hmb) as [Hb'|[-> ->]].
      * by eapply (Hinj a b).
      * exfalso. eapply (Hno ga ma); [by eapply list_elem_of_lookup_2|done|done].
      * exfalso. eapply (Hno gb mb); [by eapply list_elem_of_lookup_2|done|by symmetry].
      * done.
Qed.

Lemma identityGroups_fold l groups :
  groups_ok groups →
  let gs := fold_left (λ groups model, addToGroups model groups) l groups in
  groups_ok gs ∧ concat gs ≡ₚ l ++ concat groups.
Proof.
  revert groups. induction l as [|m l IH]; intros groups Hok; [done|]. cbn [fold_left].
  destruct (IH _ (addToGroups_ok m groups Hok)) as [Hok' Hp]. split; [done|].
  cbv zeta in Hp. rewrite Hp, addToGroups_perm. by rewrite <-Permutation_middle.
Qed.

Lemma identityGroups_spec `{GoSort} models :
  groups_ok (identityGroups models) ∧ concat (identityGroups models) ≡ₚ models.
Proof.
  unfold identityGroups. destruct (identityGroups_fold (sort_slice identity_before models) [])
    as [Hok Hp].
  { split; [|intros i j g g' m m' Hi; by rewrite lookup_nil in Hi].
    intros g Hin. by apply not_elem_of_nil in Hin. }
  split; [done|]. rewrite Hp, app_nil_r. apply sort_slice_perm.
Qed.

(** ** Public identifiers *)

(** Route keys tell models apart. *)
Definition keys_distinct (models : list Model) : Prop :=
  ∀ a b, a ∈ models → b ∈ models → modelRouteKey a = modelRouteKey b →
    LocalID a = LocalID b ∧ modelIdentity a = modelIdentity b.

(** They do when neither node names nor local ids hold a colon. *)
Lemma colon_free_keys models :
  (∀ m, m ∈ models → byte_free ":" (NodeID m) = true ∧ byte_free ":" (LocalID m) = true) →
  keys_distinct models.
Proof.
  intros Hfree a b Ha Hb Hkey. destruct (Hfree a Ha) as [Hna Hla], (Hfree b Hb) as [Hnb Hlb].
  unfold modelRouteKey in Hkey. apply (f_equal (λ s, Cut s (String ":" ""))) in Hkey.
  assert (∀ x y, (x +:+ colon +:+ y)%string = (x +:+ String ":" y)%string) as Hcolon by done.
  rewrite !Hcolon, !Cut_byte in Hkey by done. injection Hkey as _ Hrest.
  apply (f_equal (λ s, Cut s (String ":" ""))) in Hrest. rewrite !Cut_byte in Hrest by done.
  by injection Hrest.
Qed.

Lemma elem_of_baseIDsOf `{GoSort} models base : base ∈ baseIDsOf models ↔ base ∈ LocalID <$> models.
Proof. unfold baseIDsOf. by rewrite sort_slice_perm, elem_of_remove_dups. Qed.

Definition groupsOf `{GoSort} (models : list Model) (base : string) : list (list Model) :=
  identityGroups (List.filter (λ m, String.eqb (LocalID m) base) models).

Lemma elem_of_groupsOf `{GoSort} models base m :
  (∃ k g, groupsOf models base !! k = Some g ∧ m ∈ g) ↔ m ∈ models ∧ LocalID m = base.
Proof.
  unfold groupsOf. destruct (identityGroups_spec (List.filter (λ m, String.eqb (LocalID m) base) models))
    as [_ Hp].
  trans (m ∈ concat (identityGroups (List.filter (λ m, String.eqb (LocalID m) base) models))).
  - rewrite list_elem_of_In, in_concat. split.
    + intros (k&g&Hk&Hm). exists g. split; [|by apply list_elem_of_In].
      apply list_elem_of_In. by eapply list_elem_of_lookup_2.
    + intros (g&Hg%list_elem_of_In&Hm%list_elem_of_In). apply list_elem_of_lookup in Hg as [k Hk]. eauto.
  - rewrite Hp, list_elem_of_In, List.filter_In, <-list_elem_of_In. by rewrite String.eqb_eq.
Qed.

Lemma elem_of_publicIDWrites `{GoSort} models key v :
  (key, v) ∈ publicIDWrites models ↔
  ∃ base k g m, groupsOf models base !! k = Some g ∧ m ∈ g ∧ key = modelRouteKey m ∧
    v = groupPublicID base k.
Proof.
  unfold publicIDWrites. rewrite list_elem_of_In, in_concat. split.
  - intros (l&Hl%list_elem_of_In&Hin%list_elem_of_In). apply list_elem_of_fmap in Hl as (base&->&_).
    apply list_elem_of_In, in_concat in Hin as (l&Hl%list_elem_of_In&Hin%list_elem_of_In).
    apply elem_of_lookup_imap in Hl as (k&g&->&Hk). apply list_elem_of_fmap in Hin as (m&[= -> ->]&Hm).
    by exists base, k, g, m.
  - intros (base&k&g&m&Hk&Hm&->&->). eexists. split.
    + apply list_elem_of_In, list_elem_of_fmap. exists base. split; [done|].
      apply elem_of_baseIDsOf, list_elem_of_fmap. exists m.
      destruct (proj1 (elem_of_groupsOf models base m)) as [? <-]; [by eauto|done].
    + apply list_elem_of_In, list_elem_of_In, in_concat. eexists. split.
      * apply list_elem_of_In, elem_of_lookup_imap. exists k, g. by split.
      * apply list_elem_of_In, list_elem_of_fmap. by exists m.
Qed.

(** The public id of a model is that of its group among the models of its local
    id. *)
Lemma publicID_of_group `{GoSort} models m :
  keys_distinct models → m ∈ models →
  ∃ k g, groupsOf models (LocalID m) !! k = Some g ∧ m ∈ g ∧
    publicIDByRoute models !! modelRouteKey m = Some (groupPublicID (LocalID m) k).
Proof.
  intros Hkeys Hm. destruct (proj2 (elem_of_groupsOf models (LocalID m) m)) as (k&g&Hk&Hg); [done|].
  destruct (fold_insert_some (publicIDWrites models) (modelRouteKey m)) as (v&Hv&Hin).
  { apply list_elem_of_fmap. exists (modelRouteKey m, groupPublicID (LocalID m) k). split; [done|].
    apply elem_of_publicIDWrites. by exists (LocalID m), k, g, m. }
  apply elem_of_publicIDWrites in Hin as (base&k'&g'&m'&Hk'&Hg'&Hkey&->).
  destruct (proj1 (elem_of_groupsOf models base m')) as [Hm' Hbase]; [by eauto|].
  destruct (Hkeys m m' Hm Hm' Hkey) as [Hl Hi]. rewrite <-Hbase, <-Hl in Hk'.
  destruct (identityGroups_spec (List.filter (λ x, String.eqb (LocalID x) (LocalID m)) models))
    as [[_ Hinj] _].
  assert (k = k') as -> by (by eapply (Hinj k k' g g' m m')).
  exists k', g. split_and!; [done|done|]. unfold publicIDByRoute. rewrite Hv. by rewrite <-Hbase, <-Hl.
Qed.

Lemma string_app_cancel_l a b c : (a +:+ b = a +:+ c)%string → b = c.
Proof. intros Heq. apply (f_equal (sdrop (String.length a))) in Heq. by rewrite !sdrop_app in Heq. Qed.

Lemma groupPublicID_inj base i j : groupPublicID base i = groupPublicID base j → i = j.
Proof.
  assert (∀ n, (base +:+ "-" +:+ pretty (N.of_nat (S n)))%string ≠ base) as Hne.
  { intros n Heq. apply (f_equal String.length) in Heq. rewrite string_app_length in Heq.
    simpl in Heq. lia. }
  destruct i as [|i], j as [|j]; cbn [groupPublicID]; intros Heq; [done| | |].
  - by destruct (Hne (S j)).
  - by destruct (Hne (S i)).
  - apply string_app_cancel_l in Heq. apply (string_app_cancel_l "-") in Heq.
    apply (inj pretty) in Heq. lia.
Qed.

(** The records of the view, before and after their public ids are assigned. *)
Definition assigned `{GoSort} (models : list Model) (m m' : Model) : Prop :=
  m ∈ models ∧ LocalID m' = LocalID m ∧ modelIdentity m' = modelIdentity m ∧ NodeID m' = NodeID m ∧
  Source m' = Source m ∧ PublicID m' = default (PublicID m) (publicIDByRoute models !! modelRouteKey m).

Lemma elem_of_assign `{GoSort} models m' :
  m' ∈ assignPublicIDs models → ∃ m, assigned models m m'.
Proof.
  unfold assignPublicIDs. intros (m&->&Hm)%list_elem_of_fmap. exists m.
  unfold assigned. by destruct (publicIDByRoute models !! modelRouteKey m).
Qed.

Lemma elem_of_view `{GoSort} r m :
  m ∈ view (rebuildLocked r) ↔ m ∈ assignPublicIDs (candidatesLocked r).
Proof. unfold rebuildLocked. simpl. by rewrite sort_slice_perm. Qed.

Lemma addToGroups_head model groups first rest groups' :
  groups = (first :: rest) :: groups' → ∃ rest' gs, addToGroups model groups = (first :: rest') :: gs.
Proof. intros ->. cbn [addToGroups]. case_match; eauto. Qed.

(** The first group starts with a model that no other sorts before. *)
Lemma identityGroups_head `{GoSort} models m :
  m ∈ models → ∃ first rest gs, identityGroups models = (first :: rest) :: gs ∧ first ∈ models ∧
    identity_before m first = false.
Proof.
  intros Hm. unfold identityGroups.
  assert (strict_weak identity_before) as Hweak by apply strict_weak_key.
  pose proof (sort_slice_sorted identity_before models Hweak) as Hsorted.
  pose proof (sort_slice_perm identity_before models) as Hperm.
  destruct (sort_slice identity_before models) as [|first l].
  { apply Permutation_nil_l in Hperm. subst. by apply not_elem_of_nil in Hm. }
  apply StronglySorted_inv in Hsorted as [_ Hall]. cbn [fold_left addToGroups].
  assert (∀ l groups rest gs, groups = (first :: rest) :: gs →
    ∃ rest' gs', fold_left (λ groups model, addToGroups model groups) l groups = (first :: rest') :: gs') as Hfold.
  { clear. induction l as [|x l IH]; intros groups rest gs Hg; cbn [fold_left]; [by eauto|].
    destruct (addToGroups_head x groups first rest gs Hg) as (rest'&gs'&Heq). by eapply IH. }
  destruct (Hfold l [[first]] [] []) as (rest&gs&Heq); [done|].
  exists first, rest, gs. split; [exact Heq|]. split; [rewrite <-Hperm; by left|].
  rewrite <-Hperm in Hm. apply elem_of_cons in Hm as [->|Hm].
  - destruct Hweak as [Hasym _]. destruct (identity_before first first) eqn:E; [|done].
    by rewrite (Hasym _ _ E) in E.
  - rewrite Forall_forall in Hall. by apply Hall.
Qed.

Definition own_source (m : Model) : bool :=
  String.eqb (Source m) SourceMaster || String.eqb (Source m) SourceLocal.

Lemma own_sorts_first a b : own_source a = true → own_source b = false → identity_before a b = true.
Proof.
  unfold own_source, identity_before, identitySortKey. intros -> ->. reflexivity.
Qed.

(** C27. Public identifiers after a rebuild, when route keys tell models apart.
    Models with one local id share a public id exactly when their hashes agree; the
    public id is the local id, or the local id with a number from 2 on; and a local
    id that this node serves itself stays the public id of one of its own models:
    another node's model never takes it over. *)
Theorem public_ids `{GoSort} registry (Hkeys : keys_distinct (candidatesLocked registry)) :
  let models := view (rebuildLocked registry) in
  (∀ a b, a ∈ models → b ∈ models → LocalID a = LocalID b →
     (PublicID a = PublicID b ↔ modelIdentity a = modelIdentity b)) ∧
  (∀ a, a ∈ models → ∃ k, PublicID a = groupPublicID (LocalID a) k) ∧
  (∀ a, a ∈ models → own_source a = true →
     ∃ b, b ∈ models ∧ own_source b = true ∧ LocalID b = LocalID a ∧ PublicID b = LocalID a).
Proof.
  set (cands := candidatesLocked registry) in *. cbv zeta.
  assert (∀ a, a ∈ view (rebuildLocked registry) → ∃ m k g, m ∈ cands ∧
    groupsOf cands (LocalID a) !! k = Some g ∧ m ∈ g ∧ modelIdentity a = modelIdentity m ∧
    PublicID a = groupPublicID (LocalID a) k) as Hview.
  { intros a Ha. apply elem_of_view, elem_of_assign in Ha as (m&Hm&Hl&Hi&_&_&Hp).
    destruct (publicID_of_group cands m Hkeys Hm) as (k&g&Hk&Hg&Hv). exists m, k, g.
    rewrite Hp, Hl. fold cands. rewrite Hv. by split_and!. }
  split_and!.
  - intros a b Ha Hb Hl. destruct (Hview a Ha) as (m&k&g&_&Hk&Hg&Hi&Hp).
    destruct (Hview b Hb) as (m'&k'&g'&_&Hk'&Hg'&Hi'&Hp'). rewrite Hp, Hp', Hi, Hi', Hl in *.
    destruct (identityGroups_spec (List.filter (λ x, String.eqb (LocalID x) (LocalID b)) cands))
      as [[Hgr Hinj] _]. split.
    + intros Heq%groupPublicID_inj. subst k'. unfold groupsOf in *. simplify_eq.
      destruct (Hgr g) as (first&rest&_&Hall); [by eapply list_elem_of_lookup_2|].
      rewrite Forall_forall in Hall. by rewrite (Hall m), (Hall m').
    + intros Heq. f_equal. by eapply (Hinj k k' g g' m m').
  - intros a Ha. destruct (Hview a Ha) as (m&k&g&_&_&_&_&Hp). by exists k.
  - intros a Ha Hown. apply elem_of_view, elem_of_assign in Ha as (m&Hm&Hl&_&_&Hs&_).
    destruct (identityGroups_head (List.filter (λ x, String.eqb (LocalID x) (LocalID m)) cands) m)
      as (first&rest&gs&Hgs&Hfirst&Hbefore).
    { apply list_elem_of_In, List.filter_In. split; [by apply list_elem_of_In|apply String.eqb_refl]. }
    apply list_elem_of_In, List.filter_In in Hfirst as [Hfirst Hlf].
    apply list_elem_of_In in Hfirst. apply String.eqb_eq in Hlf.
    assert (own_source first = true) as Hof.
    { apply not_false_iff_true. intros Hno. unfold own_source in Hown. rewrite Hs in Hown.
      rewrite (own_sorts_first m first Hown Hno) in Hbefore. done. }
    destruct (publicID_of_group cands first Hkeys Hfirst) as (k&g&Hk&Hg&Hv).
    assert (k = 0%nat) as ->.
    { destruct (identityGroups_spec (List.filter (λ x, String.eqb (LocalID x) (LocalID m)) cands))
        as [[_ Hinj] _]. rewrite Hlf in Hk. unfold groupsOf in Hk.
      apply (Hinj k 0%nat g (first :: rest) first first); [done|by rewrite Hgs|done|by left|done]. }
    exists (let x := first <| PublicID := groupPublicID (LocalID first) 0 |> in
            x <| PublicImageID := publicImageID x |>).
    split_and!; [|done|by rewrite Hl|by simpl; rewrite Hlf, Hl].
    apply elem_of_view. unfold assignPublicIDs. apply list_elem_of_fmap. exists first.
    fold cands. by rewrite Hv.
Qed.

(** C28. A served name is not a public id of the registry: once the view is
    rebuilt, a name that is no model's local id, numbered or not, finds no model,
    even when [LocalModelsWithBackendMode] listed a record under it. *)
Theorem served_name_not_found `{GoSort} registry name
    (Hkeys : keys_distinct (candidatesLocked registry))
    (Hname : ∀ m k, m ∈ candidatesLocked registry → name ≠ groupPublicID (LocalID m) k) :
  findModel name (rebuildLocked registry) = None.
Proof.
  destruct (findModel name (rebuildLocked registry)) as [a|] eqn:E; [|done]. exfalso.
  unfold findModel, find_model in E. apply List.find_some in E as [Ha E].
  apply andb_true_iff in E as [_ E]. apply String.eqb_eq in E. apply list_elem_of_In in Ha.
  apply elem_of_view, elem_of_assign in Ha as (m&Hm&_&_&_&_&Hp).
  destruct (publicID_of_group _ m Hkeys Hm) as (k&g&_&_&Hv). rewrite Hv in Hp. simpl in Hp.
  apply (Hname m k Hm). congruence.
Qed.

(** ** The table of nodes *)

Section urls.
Context (NormalizeBaseURL : string → option string).
Context `{GoSort}.

Inductive registryStep : Registry → Registry → Prop :=
| StepUpdateLocal models r : registryStep r (UpdateLocal models r)
| StepUpdateNode snapshot r r' :
    UpdateNode NormalizeBaseURL snapshot r = inl r' → registryStep r r'
| StepNodeHealth nodeID healthy r : registryStep r (MarkNodeHealth nodeID healthy r)
| StepURLHealth nodeURL healthy r : registryStep r (MarkNodeURLHealth NormalizeBaseURL nodeURL healthy r).

Definition newRegistry (r : Registry) : Prop :=
  ∃ role localID localURL, r = NewRegistry NormalizeBaseURL role localID localURL.

Definition reachable_registry : Registry → Prop := reachable newRegistry registryStep.

Record nodes_ok (r : Registry) : Prop := {
  node_named : ∀ id sn, nodes r !! id = Some sn → sn_NodeID sn = id ∧ id ≠ localID r ∧ id ≠ "";
  node_urls : ∀ id id' sn sn', nodes r !! id = Some sn → nodes r !! id' = Some sn' →
    sn_NodeURL sn = sn_NodeURL sn' → id = id';
  node_local_url : ∀ id sn, nodes r !! id = Some sn → localURL r ≠ "" → sn_NodeURL sn ≠ localURL r;
  node_models : ∀ id sn m, nodes r !! id = Some sn → m ∈ sn_Models sn →
    NodeID m = id ∧ NodeURL m = sn_NodeURL sn ∧ BackendMode m ≠ ""
}.

Lemma nodes_ok_same r r' :
  nodes_ok r → nodes r' = nodes r → localID r' = localID r → localURL r' = localURL r → nodes_ok r'.
Proof. intros [] H1 H2 H3. split; rewrite ?H1, ?H2, ?H3; done. Qed.

Lemma UpdateNode_inv snapshot r r' :
  UpdateNode NormalizeBaseURL snapshot r = inl r' →
  ∃ id url, id = TrimSpace (sn_NodeID snapshot) ∧ NormalizeBaseURL (sn_NodeURL snapshot) = Some url ∧
    id ≠ "" ∧ MinimumProtocolVersion ≤ sn_ProtocolVersion snapshot ∧ id ≠ localID r ∧
    (localURL r ≠ "" → url ≠ localURL r) ∧
    (∀ sn, nodes r !! id = Some sn → sn_NodeURL sn = url) ∧
    (∀ id' sn, nodes r !! id' = Some sn → id' ≠ id → sn_NodeURL sn ≠ url) ∧
    r' = rebuildLocked (r <| nodes := <[id := normalizeNodeSnapshot
             (mkSnapshot id url (sn_Models snapshot) (sn_ProtocolVersion snapshot))]> (nodes r) |>
           <| unhealthy := unhealthy r ∖ {[id]} |>).
Proof.
  unfold UpdateNode. set (id := TrimSpace _).
  destruct (String.eqb_spec id "") as [|Hid]; [done|].
  destruct (NormalizeBaseURL (sn_NodeURL snapshot)) as [url|] eqn:Hurl; [|done].
  destruct (Z.ltb_spec (sn_ProtocolVersion snapshot) MinimumProtocolVersion); [done|].
  destruct (String.eqb_spec id (localID r)) as [|Hlocal]; [done|].
  destruct (negb (String.eqb (localURL r) "") && String.eqb url (localURL r)) eqn:Hlu; [done|].
  destruct (match nodes r !! id with Some _ => _ | None => _ end) eqn:Hex; [done|].
  destruct (existsb _ _) eqn:Hdup; [done|]. intros [= <-]. exists id, url. split_and!; try done.
  - intros Hne ->. apply andb_false_iff in Hlu as [Hlu|Hlu]; bool_simpl; done.
  - intros sn Hsn. rewrite Hsn in Hex. by bool_simpl.
  - intros id' sn Hsn Hne Heq. apply not_true_iff_false in Hdup. apply Hdup.
    apply existsb_exists. exists (id', sn). split.
    + apply list_elem_of_In. by apply elem_of_map_to_list.
    + simpl. rewrite Heq, String.eqb_refl. by apply String.eqb_neq in Hne as ->.
Qed.

Lemma registryStep_ok r r' : nodes_ok r → registryStep r r' → nodes_ok r'.
Proof.
  intros Hok Hstep. destruct Hstep as [models r|snapshot r r' Hup|nodeID healthy r|nodeURL healthy r];
    try by apply (nodes_ok_same r).
  apply UpdateNode_inv in Hup as (id&url&_&_&Hne&_&Hlocal&Hlu&Hex&Hdup&->).
  destruct Hok as [Hn Hu Hl Hm]. split; simpl.
  - intros i sn [[<- <-]|[? Hsn]]%lookup_insert_Some; [done|by apply Hn].
  - intros i j sn sn' [[<- <-]|[Hi Hsn]]%lookup_insert_Some [[<- <-]|[Hj Hsn']]%lookup_insert_Some Heq;
      simpl in *; [done| | |by eapply Hu].
    + exfalso. by eapply (Hdup j sn').
    + exfalso. by eapply (Hdup i sn).
  - intros i sn [[<- <-]|[? Hsn]]%lookup_insert_Some; [done|by eapply Hl].
  - intros i sn m [[<- <-]|[? Hsn]]%lookup_insert_Some Hin; [|by apply (Hm i)].
    simpl in *. apply list_elem_of_fmap in Hin as (m0&->&_). split_and!; [done|done|]. simpl.
    by destruct (String.eqb_spec (BackendMode m0) "").
Qed.

(** C29. The table of nodes. However snapshots and health reports arrive, each
    entry stands under its own node's name, which is neither empty nor this
    node's; no two nodes share a URL, and none has this node's; and every model of
    an entry is marked with that node and a backend mode. *)
Theorem node_table_invariant r (Hreach : reachable_registry r) :
  (∀ id sn, nodes r !! id = Some sn → sn_NodeID sn = id ∧ id ≠ localID r ∧ id ≠ "") ∧
  (∀ id id' sn sn', nodes r !! id = Some sn → nodes r !! id' = Some sn' →
     sn_NodeURL sn = sn_NodeURL sn' → id = id') ∧
  (∀ id sn, nodes r !! id = Some sn → localURL r ≠ "" → sn_NodeURL sn ≠ localURL r) ∧
  (∀ id sn m, nodes r !! id = Some sn → m ∈ sn_Models sn →
     NodeID m = id ∧ NodeURL m = sn_NodeURL sn ∧ BackendMode m ≠ "").
Proof.
  assert (nodes_ok r) as []; [|by split_and!].
  induction Hreach as [r (role&id&url&->)|r r' _ IH Hstep]; [|by eapply registryStep_ok].
  split; simpl; intros *; by rewrite ?lookup_empty.
Qed.
End urls.

(** ** Acquiring routes *)

(** Handles that hold a routing key. *)
Definition holders (key : string) (state : Routing) : Z := count_map (String.eqb key) (held state).

Record routing_ok (state : Routing) : Prop := {
  ok_next : ∀ key, 0 ≤ next_index (registry_of state) key;
  ok_busy : ∀ key, busy_count (registry_of state) key = holders key state;
  ok_handed : ∀ handle, is_Some (held state !! handle) → (handle < handed state)%nat
}.

Lemma count_map_delete {V} (P : V → bool) (M : gmap nat V) k :
  count_map P (delete k M) = count_map P M - match M !! k with Some w => indicator (P w) | None => 0 end.
Proof.
  destruct (M !! k) as [w|] eqn:E; [|rewrite delete_id by done; lia].
  pose proof (count_map_insert P (delete k M) k w) as Hins.
  rewrite insert_delete_id, lookup_delete_eq in Hins by done. lia.
Qed.

(** Any change of the registry that leaves the counters alone keeps them right. *)
Lemma routing_registry state r :
  routing_ok state → (∀ key, 0 ≤ next_index r key) →
  (∀ key, busy_count r key = busy_count (registry_of state) key) →
  routing_ok (state <| registry_of := r |>).
Proof. intros [Hn Hb Hh] Hn' Hb'. split; simpl; [done| |done]. intros key. rewrite Hb'. apply Hb. Qed.

Lemma acquireRouteLocked_ok route state : routing_ok state → routing_ok (acquireRouteLocked route state).1.
Proof.
  intros [Hn Hb Hh]. split; simpl; [done| |].
  - intros key. unfold holders. simpl. rewrite count_map_insert.
    destruct (held state !! handed state) eqn:E.
    { exfalso. assert (handed state < handed state)%nat; [|lia]. apply Hh. by eexists. }
    unfold busy_count. simpl. destruct (String.eqb_spec key (routeKey route)) as [->|Hne].
    + rewrite lookup_insert_eq. simpl. specialize (Hb (routeKey route)). unfold busy_count, holders in Hb.
      simpl. unfold busy_count. lia.
    + rewrite lookup_insert_ne by done. specialize (Hb key). unfold busy_count, holders in Hb. simpl. lia.
  - intros handle [key Hk]. apply lookup_insert_Some in Hk as [[<- _]|[_ Hk]]; [lia|].
    specialize (Hh handle). assert (handle < handed state)%nat; [apply Hh; by eexists|lia].
Qed.

Lemma release_ok handle state : routing_ok state → routing_ok (release handle state).
Proof.
  intros Hok. unfold release. destruct (held state !! handle) as [key|] eqn:Hheld; [|done].
  destruct Hok as [Hn Hb Hh].
  assert (0 < busy_count (registry_of state) key) as Hpos.
  { rewrite Hb. unfold holders. eapply count_map_pos; [exact Hheld|apply String.eqb_refl]. }
  rewrite (proj2 (Z.ltb_lt 0 (busy_count (registry_of state) key)) Hpos). split; simpl.
  - done.
  - intros key'. unfold holders. simpl. rewrite count_map_delete, Hheld.
    specialize (Hb key'). unfold busy_count, holders in *. simpl.
    destruct (String.eqb_spec key' key) as [->|Hne]; simpl.
    + rewrite lookup_insert_eq. simpl. lia.
    + rewrite lookup_insert_ne by done. lia.
  - intros h [k Hk]. apply lookup_delete_Some in Hk as [_ Hk]. apply Hh. by eexists.
Qed.

Lemma Zrem_bounds a n : 0 ≤ a → 0 < n → 0 ≤ Z.rem a n < n.
Proof. intros. by apply Z.rem_bound_pos. Qed.

(** Moving one round robin on. *)
Lemma next_advance r key n key' :
  (∀ k, 0 ≤ next_index r k) → 0 < n →
  0 ≤ next_index (r <| next := <[key := Z.rem (next_index r key + 1) n]> (next r) |>) key'.
Proof.
  intros Hn Hpos. unfold next_index at 1. simpl. destruct (decide (key = key')) as [->|Hne].
  - rewrite lookup_insert_eq. simpl. specialize (Hn key').
    pose proof (Zrem_bounds (next_index r key' + 1) n). lia.
  - rewrite lookup_insert_ne by done. apply Hn.
Qed.

Lemma selectRouteLocked_counters publicID replicas healthy lane r :
  (∀ k, 0 ≤ next_index r k) →
  let r' := (selectRouteLocked publicID replicas healthy lane r).1 in
  (∀ k, 0 ≤ next_index r' k) ∧ busy r' = busy r.
Proof.
  intros Hn. unfold selectRouteLocked. destruct (List.find _ replicas); [done|].
  destruct (remoteReplicas r replicas) as [|slave slaves]; [done|]. split; [|done].
  intros k. apply next_advance; [done|simpl; lia].
Qed.

Lemma selectWebUIRouteLocked_counters `{GoSort} key candidates r :
  (∀ k, 0 ≤ next_index r k) →
  let r' := (selectWebUIRouteLocked key candidates r).1 in
  (∀ k, 0 ≤ next_index r' k) ∧ busy r' = busy r.
Proof.
  intros Hn. unfold selectWebUIRouteLocked. destruct candidates as [|c cs]; [done|].
  pose proof (sort_slice_perm route_before (c :: cs)) as Hp.
  set (routes := sort_slice route_before (c :: cs)) in *. destruct (List.find _ routes); [done|].
  destruct (List.filter _ routes) as [|i idle]; (split; [|done]); intros k; apply next_advance; try done.
  destruct routes; [by apply Permutation_nil_cons in Hp|simpl; lia].
Qed.

Section routing.
Context (NormalizeBaseURL : string → option string).
Context `{GoSort}.

Inductive routingStep : Routing → Routing → Prop :=
| StepRegistry state r : registryStep NormalizeBaseURL (registry_of state) r →
    routingStep state (state <| registry_of := r |>)
| StepAcquire key p healthy lane state : routingStep state (acquireBy key p healthy lane state).1
| StepSpecificEmbedding nodeID filename id healthy state :
    routingStep state (AcquireSpecificEmbedding nodeID filename id healthy state).1
| StepSpecificVoice publicID nodeID filename healthy state :
    routingStep state (AcquireSpecificVoice publicID nodeID filename healthy state).1
| StepWebUI key candidates state : routingStep state (AcquireWebUI key candidates state).1
| StepRelease handle state : routingStep state (release handle state).

Definition newRouting (state : Routing) : Prop :=
  ∃ r, newRegistry NormalizeBaseURL r ∧ state = mkRouting r ∅ 0.

Definition reachable_routing : Routing → Prop := reachable newRouting routingStep.

Lemma registryStep_counters r r' :
  registryStep NormalizeBaseURL r r' → busy r' = busy r ∧ next r' = next r.
Proof.
  intros [models s|snapshot s s' Hup|nodeID healthy s|nodeURL healthy s]; try done.
  by apply UpdateNode_inv in Hup as (id&url&_&_&_&_&_&_&_&_&->).
Qed.

Lemma acquireSpecific_ok chosen lane state :
  routing_ok state → routing_ok (acquireSpecific chosen lane state).1.
Proof.
  intros Hok. unfold acquireSpecific. destruct chosen as [m|]; [|done].
  pose proof (acquireRouteLocked_ok (routeFromModel m (negb (is_local (registry_of state) m)) lane) state Hok).
  by destruct (acquireRouteLocked _ state).
Qed.

Lemma routingStep_ok state state' : routing_ok state → routingStep state state' → routing_ok state'.
Proof.
  intros Hok Hstep. pose proof (ok_next state Hok) as Hn.
  destruct Hstep as [state r Hr|key p healthy lane state|nodeID filename id healthy state
    |publicID nodeID filename healthy state|key candidates state|handle state].
  - destruct (registryStep_counters _ _ Hr) as [Hb Hnx]. apply routing_registry; [done| |].
    + intros k. unfold next_index. rewrite Hnx. apply Hn.
    + intros k. unfold busy_count. by rewrite Hb.
  - unfold acquireBy. pose proof (selectRouteLocked_counters key (replicasLocked p (registry_of state))
      healthy lane (registry_of state) Hn) as [Hn' Hb'].
    destruct (selectRouteLocked _ _ _ _ _) as [r route]. simpl in Hn', Hb'.
    assert (routing_ok (state <| registry_of := r |>)) as Hok1
      by (apply routing_registry; [done|done|intros k; unfold busy_count; by rewrite Hb']).
    destruct route as [route|]; [|done]. by apply (acquireRouteLocked_ok route) in Hok1.
  - by apply acquireSpecific_ok.
  - by apply acquireSpecific_ok.
  - unfold AcquireWebUI. pose proof (selectWebUIRouteLocked_counters key candidates (registry_of state) Hn)
      as [Hn' Hb'].
    destruct (selectWebUIRouteLocked _ _ _) as [r route]. simpl in Hn', Hb'.
    assert (routing_ok (state <| registry_of := r |>)) as Hok1
      by (apply routing_registry; [done|done|intros k; unfold busy_count; by rewrite Hb']).
    destruct route as [route|]; [|done]. by apply (acquireRouteLocked_ok route) in Hok1.
  - by apply release_ok.
Qed.

Lemma reachable_routing_ok state : reachable_routing state → routing_ok state.
Proof.
  induction 1 as [state (r&(role&id&url&->)&->)|state state' _ IH Hstep]; [|by eapply routingStep_ok].
  split; simpl.
  - intros key. unfold next_index. simpl. by rewrite lookup_empty.
  - intros key. unfold busy_count, holders. simpl. by rewrite lookup_empty.
  - intros handle [key Hk]. by rewrite lookup_empty in Hk.
Qed.

(** *** Correctness *)

Definition is_replica (p : Model → bool) (r : Registry) (m : Model) : Prop :=
  m ∈ view r ∧ Disabled m = false ∧ p m = true.

Lemma elem_of_replicas p r m : m ∈ replicasLocked p r ↔ is_replica p r m.
Proof.
  unfold replicasLocked, is_replica. rewrite sort_slice_perm, list_elem_of_In, List.filter_In.
  rewrite <-list_elem_of_In, andb_true_iff, negb_true_iff. done.
Qed.

(** C30. A request routed by the registry goes to an enabled, available replica of
    what it asks for. An idle local replica is preferred; then remote replicas
    in turn; then the busy local one. The local replica is used only when the
    local backend is healthy; and a request is refused only when no replica can
    serve. *)
Theorem acquire_spec key p healthy lane state (Hreach : reachable_routing state) :
  let r := registry_of state in
  match (acquireBy key p healthy lane state).2 with
  | Some (route, _) => ∃ m, is_replica p r m ∧ Available m = true ∧
      route = routeFromModel m (negb (is_local r m)) lane ∧
      (is_local r m = true → healthy = true) ∧
      (is_local r m = false → ∀ m', is_replica p r m' → idleLocal r healthy lane m' = false) ∧
      (is_local r m = true → idleLocal r healthy lane m = false →
         ∀ m', is_replica p r m' → is_local r m' = false → Available m' = false)
  | None => ∀ m, is_replica p r m → Available m = true → is_local r m = true ∧ healthy = false
  end.
Proof.
  intros r. pose proof (ok_next state (reachable_routing_ok state Hreach)) as Hn. fold r in Hn.
  unfold acquireBy, selectRouteLocked. fold r. set (replicas := replicasLocked p r).
  destruct (List.find (idleLocal r healthy lane) replicas) as [m|] eqn:Hidle.
  { apply List.find_some in Hidle as [Hin%list_elem_of_In Hidle]. simpl.
    apply elem_of_replicas in Hin. exists m. pose proof Hidle as Hserves.
    unfold idleLocal, localServes in Hserves. apply andb_true_iff in Hserves as [Hserves _].
    apply andb_true_iff in Hserves as [Hserves Hh]. apply andb_true_iff in Hserves as [Hl Ha].
    rewrite Hl. split_and!; try done. intros _ Hno. congruence. }
  pose proof (List.find_none _ _ Hidle) as Hnone.
  assert (∀ m', is_replica p r m' → idleLocal r healthy lane m' = false) as Hnoidle
    by (intros m' Hm'; by apply Hnone, list_elem_of_In, elem_of_replicas).
  destruct (remoteReplicas r replicas) as [|s slaves] eqn:Hslaves.
  - assert (∀ m', is_replica p r m' → is_local r m' = false → Available m' = false) as Hnoremote.
    { intros m' Hm' Hl. apply not_true_iff_false. intros Ha.
      assert (m' ∈ remoteReplicas r replicas) as Hin; [|rewrite Hslaves in Hin; by apply not_elem_of_nil in Hin].
      apply list_elem_of_In, List.filter_In. split; [by apply list_elem_of_In, elem_of_replicas|].
      by rewrite Hl, Ha. }
    destruct (List.find (localServes r healthy) replicas) as [m|] eqn:Hlocal; simpl.
    + apply List.find_some in Hlocal as [Hin%list_elem_of_In Hlocal]. apply elem_of_replicas in Hin.
      exists m. unfold localServes in Hlocal. apply andb_true_iff in Hlocal as [Hlocal Hh].
      apply andb_true_iff in Hlocal as [Hl Ha]. rewrite Hl. by split_and!.
    + intros m Hm Ha. pose proof (List.find_none _ _ Hlocal m) as Hno.
      destruct (is_local r m) eqn:Hl; [|by rewrite Hnoremote in Ha]. split; [done|].
      unfold localServes in Hno. rewrite Hl, Ha in Hno. simpl in Hno. apply Hno.
      by apply list_elem_of_In, elem_of_replicas.
  - set (index := Z.rem _ _).
    assert (0 ≤ index < Z.of_nat (length (s :: slaves))) as Hindex
      by (apply Zrem_bounds; [apply Hn|simpl; lia]).
    destruct ((s :: slaves) !! Z.to_nat index) as [m|] eqn:Hm; simpl.
    2: { apply lookup_ge_None in Hm. lia. }
    apply list_elem_of_lookup_2 in Hm. rewrite <-Hslaves in Hm.
    apply list_elem_of_In, List.filter_In in Hm as [Hin Hm]. apply list_elem_of_In, elem_of_replicas in Hin.
    exists m. apply andb_true_iff in Hm as [Hl%negb_true_iff Ha]. rewrite Hl. by split_and!.
Qed.

(** C31. The busy counter of every routing key is the number of its acquired routes
    that have not been released; a second release of the same route changes
    nothing. *)
Theorem busy_counts_routes state (Hreach : reachable_routing state) :
  (∀ key, busy_count (registry_of state) key = holders key state) ∧
  (∀ handle, release handle (release handle state) = release handle state).
Proof.
  split; [apply (ok_busy _ (reachable_routing_ok state Hreach))|].
  intros handle. unfold release at 2 3. destruct (held state !! handle) as [key|] eqn:E.
  - unfold release. simpl. by rewrite lookup_delete_eq.
  - unfold release. by rewrite E.
Qed.

(** *** Round robin *)

Fixpoint acquireMany (n : nat) (key : string) (p : Model → bool) (healthy : bool) (lane : string)
    (state : Routing) : list (option Route) :=
  match n with
  | O => []
  | S n => let '(state', route) := acquireBy key p healthy lane state in
           (fst <$> route) :: acquireMany n key p healthy lane state'
  end.

(** While no local replica is idle, one acquire takes the remote replica whose
    turn it is, and the next one's turn comes. *)
Lemma acquire_remote key p healthy lane state slaves start :
  routing_ok state → remoteReplicas (registry_of state) (replicasLocked p (registry_of state)) = slaves →
  (∀ m, is_replica p (registry_of state) m → idleLocal (registry_of state) healthy lane m = false) →
  (0 < length slaves)%nat → Z.rem (next_index (registry_of state) key) (Z.of_nat (length slaves)) = Z.of_nat start →
  ∃ state' handle m, slaves !! start = Some m ∧
    acquireBy key p healthy lane state = (state', Some (routeFromModel m true lane, handle)) ∧
    routing_ok state' ∧
    remoteReplicas (registry_of state') (replicasLocked p (registry_of state')) = slaves ∧
    (∀ m, is_replica p (registry_of state') m → idleLocal (registry_of state') healthy lane m = false) ∧
    Z.rem (next_index (registry_of state') key) (Z.of_nat (length slaves)) =
      Z.of_nat ((start + 1) mod length slaves).
Proof.
  intros Hok Hslaves Hidle Hlen Hstart. set (r := registry_of state) in *.
  assert (0 ≤ next_index r key) as Hnext by apply (ok_next state Hok).
  assert (start < length slaves)%nat as Hlt
    by (pose proof (Zrem_bounds (next_index r key) (Z.of_nat (length slaves))); lia).
  destruct (lookup_lt_is_Some_2 slaves start Hlt) as [m Hm].
  assert (selectRouteLocked key (replicasLocked p r) healthy lane r =
    (r <| next := <[key := Z.rem (next_index r key + 1) (Z.of_nat (length slaves))]> (next r) |>,
     Some (routeFromModel m true lane))) as Hselect.
  { unfold selectRouteLocked. destruct (List.find _ _) as [m'|] eqn:Hf.
    { apply List.find_some in Hf as [Hin%list_elem_of_In Hf]. apply elem_of_replicas in Hin.
      by rewrite Hidle in Hf. }
    rewrite Hslaves. destruct slaves as [|s slaves']; [simpl in Hlen; lia|].
    rewrite Hstart, Nat2Z.id, Hm. done. }
  pose proof (routingStep_ok state _ Hok (StepAcquire key p healthy lane state)) as Hok'.
  unfold acquireBy in *. fold r in Hok' |- *. rewrite Hselect in *. simpl in Hok' |- *.
  eexists _, _, m. split; [done|]. split; [reflexivity|]. split; [exact Hok'|]. split; [exact Hslaves|].
  split.
  - intros m' Hm'. specialize (Hidle m' Hm'). unfold idleLocal, localServes in *. simpl.
    destruct (is_local r m' && Available m' && healthy) eqn:E; unfold is_local in *; simpl in *;
      rewrite E in *; [|done]. simpl in *. apply Z.eqb_neq in Hidle. apply Z.eqb_neq.
    unfold busy_count in *. simpl.
    pose proof (ok_busy state Hok (routeKey (routeFromModel m' false lane))) as Hb.
    fold r in Hb. unfold busy_count, holders in Hb.
    pose proof (count_map_nonneg (String.eqb (routeKey (routeFromModel m' false lane))) (held state)).
    destruct (decide (routeKey (routeFromModel m true lane) = routeKey (routeFromModel m' false lane)))
      as [->|Hne].
    + rewrite lookup_insert_eq. simpl. unfold busy_count. lia.
    + rewrite lookup_insert_ne by done. done.
  - unfold next_index at 1. simpl. rewrite lookup_insert_eq. simpl.
    assert (0 < Z.of_nat (length slaves)) as Hpos by lia.
    rewrite Z.rem_small by (apply Zrem_bounds; lia).
    rewrite Z.rem_mod_nonneg in Hstart |- * by lia.
    rewrite Nat2Z.inj_mod, Nat2Z.inj_add, <-Hstart. by rewrite Zplus_mod_idemp_l.
Qed.

Lemma acquireMany_turns n key p healthy lane state slaves start :
  routing_ok state → remoteReplicas (registry_of state) (replicasLocked p (registry_of state)) = slaves →
  (∀ m, is_replica p (registry_of state) m → idleLocal (registry_of state) healthy lane m = false) →
  (0 < length slaves)%nat → Z.rem (next_index (registry_of state) key) (Z.of_nat (length slaves)) = Z.of_nat start →
  acquireMany n key p healthy lane state =
  (λ i, (λ m, routeFromModel m true lane) <$> slaves !! ((start + i) mod length slaves)%nat) <$> seq 0 n.
Proof.
  revert state start. induction n as [|n IH]; intros state start Hok Hslaves Hidle Hlen Hstart; [done|].
  assert (start < length slaves)%nat as Hlt.
  { pose proof (ok_next state Hok key).
    pose proof (Zrem_bounds (next_index (registry_of state) key) (Z.of_nat (length slaves))). lia. }
  destruct (acquire_remote key p healthy lane state slaves start Hok Hslaves Hidle Hlen Hstart)
    as (state'&handle&m&Hm&Hacq&Hok'&Hslaves'&Hidle'&Hstart').
  cbn [acquireMany]. rewrite Hacq. rewrite (IH state' _ Hok' Hslaves' Hidle' Hlen Hstart').
  cbn [seq]. rewrite fmap_cons, Nat.add_0_r, (Nat.mod_small start), Hm by done. f_equal.
  rewrite <-fmap_S_seq, <-list_fmap_compose. apply list_fmap_ext. intros i x _. simpl.
  rewrite Nat.Div0.add_mod_idemp_l. do 3 f_equal. lia.
Qed.

Lemma rotation_perm n start :
  (start < n)%nat → (λ i, (start + i) mod n)%nat <$> seq 0 n ≡ₚ seq 0 n.
Proof.
  intros Hstart.
  assert (∀ i, (i < n)%nat → ((start + i) mod n = if decide (start + i < n) then start + i else start + i - n)%nat)
    as Hmod.
  { intros i Hi. case_decide; [by apply Nat.mod_small|].
    replace (start + i)%nat with ((start + i - n) + 1 * n)%nat at 1 by lia.
    rewrite Nat.Div0.mod_add. apply Nat.mod_small. lia. }
  apply submseteq_length_Permutation; [|by rewrite length_fmap].
  apply NoDup_submseteq.
  - apply NoDup_fmap_2_strong; [|apply NoDup_seq].
    intros i j Hi%elem_of_seq Hj%elem_of_seq. cbv beta.
    rewrite !Hmod by lia. do 2 case_decide; lia.
  - intros i Hi. apply list_elem_of_fmap in Hi as (j&->&_). apply elem_of_seq.
    pose proof (Nat.mod_upper_bound (start + j) n). lia.
Qed.

(** C32. Round robin. While no local replica of a model is idle, as many acquires
    in a row as there are available remote replicas take each of them exactly
    once. *)
Theorem round_robin key p healthy lane state (Hreach : reachable_routing state)
    (Hbusy : ∀ m, is_replica p (registry_of state) m →
       idleLocal (registry_of state) healthy lane m = false) :
  let slaves := remoteReplicas (registry_of state) (replicasLocked p (registry_of state)) in
  acquireMany (length slaves) key p healthy lane state ≡ₚ
  (λ m, Some (routeFromModel m true lane)) <$> slaves.
Proof.
  intros slaves. pose proof (reachable_routing_ok state Hreach) as Hok.
  destruct (decide (length slaves = 0%nat)) as [Hz|Hz].
  { rewrite Hz. apply nil_length_inv in Hz. by rewrite Hz. }
  set (n := length slaves) in *.
  pose proof (ok_next state Hok key) as Hnext.
  pose proof (Zrem_bounds (next_index (registry_of state) key) (Z.of_nat n) Hnext ltac:(lia)) as Hb.
  rewrite (acquireMany_turns n key p healthy lane state slaves
    (Z.to_nat (Z.rem (next_index (registry_of state) key) (Z.of_nat n))));
    [|done|done|done|lia|fold n; lia].
  fold n. set (start := Z.to_nat _).
  trans ((λ i, (λ m, routeFromModel m true lane) <$> slaves !! i) <$> ((λ i, (start + i) mod n)%nat <$> seq 0 n)).
  { by rewrite <-list_fmap_compose. }
  pose proof (rotation_perm n start ltac:(subst start; lia)) as Hperm.
  rewrite Hperm. clear. subst n. apply reflexive_eq. apply list_eq_same_length with (length slaves).
  - by rewrite length_fmap.
  - by rewrite length_fmap, length_seq.
  - intros i x y Hi Hx Hy. apply list_lookup_fmap_Some in Hx as (k&->&Hk).
    apply lookup_seq in Hk as [-> _]. apply list_lookup_fmap_Some in Hy as (m&->&Hm). simpl. by rewrite Hm.
Qed.
End routing.

(** ** Concrete instances: a master [n0] with a model [a], and two nodes with
    replicas of it. *)
Definition text_model (id hash : string) (served : list string) : Model :=
  mkModel id id "" "" (id +:+ ".kcpps") true false false false false false hash "" "kobold" "" "" ""
    true false false served 0 0.

Definition plain_url (url : string) : option string := Some url.

Definition master0 : Registry := NewRegistry plain_url "master" "n0" "http://n0".

Definition with_local (models : list Model) : Registry := UpdateLocal models master0.

Definition joined (id : string) (models : list Model) (r : Registry) : Registry :=
  match UpdateNode plain_url (mkSnapshot id ("http://" +:+ id) models 2) r with inl r' => r' | inr _ => r end.

Definition replicated : Registry :=
  joined "s2" [text_model "a" "h1" []] (joined "s1" [text_model "a" "h1" []]
    (with_local [text_model "a" "h1" []])).

Lemma with_local_reachable models : reachable_registry plain_url (with_local models).
Proof.
  eapply (reachable_step _ _ master0); [|exact (StepUpdateLocal plain_url models master0)].
  apply reachable_init. exists "master", "n0", "http://n0". reflexivity.
Qed.

Lemma joined_reachable id models r :
  reachable_registry plain_url r → reachable_registry plain_url (joined id models r).
Proof.
  intros Hr. unfold joined. destruct (UpdateNode _ _ _) eqn:E; [|done].
  eapply reachable_step; [done|]. by eapply StepUpdateNode.
Qed.

Lemma replicated_reachable : reachable_registry plain_url replicated.
Proof.
  exact (joined_reachable _ _ _ (joined_reachable _ _ _ (with_local_reachable _))).
Qed.

Definition colon_free (models : list Model) : bool :=
  forallb (λ m, byte_free ":" (NodeID m) && byte_free ":" (LocalID m)) models.

Lemma colon_free_distinct models : colon_free models = true → keys_distinct models.
Proof.
  intros H. apply colon_free_keys. intros m Hm. unfold colon_free in H. rewrite forallb_forall in H.
  specialize (H m). rewrite andb_true_iff in H. apply H. by apply list_elem_of_In.
Qed.

(** The replicas of one model share its id. *)
Lemma public_ids_witness :
  PublicID <$> view (rebuildLocked replicated) = ["a"; "a"; "a"] ∧
  ∀ a, a ∈ view (rebuildLocked replicated) → ∃ k, PublicID a = groupPublicID (LocalID a) k.
Proof.
  split; [vm_compute; reflexivity|].
  destruct (public_ids replicated) as (_&H&_); [|exact H].
  apply colon_free_distinct. vm_compute. reflexivity.
Defined.

(** A model with the served name [alias]: the record is listed under it, the
    registry does not find it. *)
Definition aliased : list Model :=
  LocalModelsWithBackendMode [mkCatalogModel "m" "" "m.kcpps" true false false false false false "h" ""
    "vllm" ["alias"] 0 0] "n0" "http://n0" "master" "kobold".

Lemma served_name_not_found_witness :
  PublicID <$> aliased = ["m"; "alias"] ∧ findModel "alias" (rebuildLocked (with_local aliased)) = None.
Proof.
  split; [vm_compute; reflexivity|]. apply served_name_not_found.
  - apply colon_free_distinct. vm_compute. reflexivity.
  - intros m k Hm.
    assert (LocalID <$> candidatesLocked (with_local aliased) = ["m"; "m"]) as Hids
      by (vm_compute; reflexivity).
    assert (LocalID m ∈ LocalID <$> candidatesLocked (with_local aliased)) as Hin
      by (apply list_elem_of_fmap; by exists m).
    rewrite Hids in Hin. clear Hm Hids.
    assert (LocalID m = "m") as -> by (by apply elem_of_cons in Hin as [|Hin%list_elem_of_singleton]).
    destruct k; discriminate.
Defined.

Lemma node_table_invariant_witness :
  ∃ sn, nodes replicated !! "s1" = Some sn ∧ sn_NodeID sn = "s1" ∧ "s1" ≠ localID replicated.
Proof.
  destruct (node_table_invariant plain_url replicated replicated_reachable) as (H&_).
  destruct (nodes replicated !! "s1") as [sn|] eqn:E; [|vm_compute in E; discriminate].
  exists sn. destruct (H "s1" sn E) as (H1&H2&_). by split_and!.
Defined.

(** The master's own replica is in use. *)
Definition routed : Routing := (Acquire "a" true (mkRouting replicated ∅ 0)).1.

Lemma idle_reachable : reachable_routing plain_url (mkRouting replicated ∅ 0).
Proof.
  assert (∀ r, reachable_registry plain_url r → ∀ s, newRegistry plain_url s →
    reachable_routing plain_url (mkRouting r ∅ 0)) as H.
  { intros r Hr s Hs. induction Hr as [r Hr|r r' _ IH Hstep].
    - apply reachable_init. by exists r.
    - eapply reachable_step; [exact IH|].
      exact (StepRegistry plain_url (mkRouting r ∅ 0) r' Hstep). }
  apply (H _ replicated_reachable master0). exists "master", "n0", "http://n0". reflexivity.
Qed.

Lemma routed_reachable : reachable_routing plain_url routed.
Proof.
  eapply (reachable_step _ _ (mkRouting replicated ∅ 0)); [exact idle_reachable|].
  exact (StepAcquire plain_url "a" (named "a") true RouteLaneText (mkRouting replicated ∅ 0)).
Qed.

Lemma acquire_spec_witness :
  ∃ m, is_replica (named "a") replicated m ∧ is_local replicated m = true ∧ Available m = true.
Proof.
  pose proof (acquire_spec plain_url "a" (named "a") true RouteLaneText (mkRouting replicated ∅ 0)
    idle_reachable) as H.
  cbv zeta in H. cbn [registry_of] in H.
  destruct (acquireBy "a" (named "a") true RouteLaneText (mkRouting replicated ∅ 0)).2
    as [[route handle]|] eqn:E; [|vm_compute in E; discriminate].
  assert (rt_NodeID route = "n0") as Hn by (vm_compute in E; injection E as <- <-; reflexivity).
  destruct H as (m&Hm&Ha&Hr&_). exists m. split; [exact Hm|]. split; [|exact Ha].
  rewrite Hr in Hn. cbn [rt_NodeID routeFromModel] in Hn. unfold is_local. rewrite Hn.
  vm_compute. reflexivity.
Defined.

Lemma busy_counts_routes_witness :
  busy_count (registry_of routed) "n0:a:text" = 1 ∧ holders "n0:a:text" routed = 1.
Proof.
  destruct (busy_counts_routes plain_url routed routed_reachable) as [H _].
  rewrite <-(H "n0:a:text"). split; vm_compute; reflexivity.
Defined.

Lemma round_robin_witness :
  rt_NodeID <$> omap id (acquireMany 2 "a" (named "a") true RouteLaneText routed) = ["s1"; "s2"] ∧
  length (remoteReplicas (registry_of routed) (replicasLocked (named "a") (registry_of routed))) = 2%nat ∧
  acquireMany (length (remoteReplicas (registry_of routed)
      (replicasLocked (named "a") (registry_of routed)))) "a" (named "a") true RouteLaneText routed ≡ₚ
    (λ m, Some (routeFromModel m true RouteLaneText)) <$>
      remoteReplicas (registry_of routed) (replicasLocked (named "a") (registry_of routed)).
Proof.
  split; [vm_compute; reflexivity|]. split; [vm_compute; reflexivity|].
  apply (round_robin plain_url "a" (named "a") true RouteLaneText routed routed_reachable).
  intros m Hm. apply elem_of_replicas in Hm.
  assert (forallb (λ m, negb (idleLocal (registry_of routed) true RouteLaneText m))
    (replicasLocked (named "a") (registry_of routed)) = true) as Hall by (vm_compute; reflexivity).
  rewrite forallb_forall in Hall. apply negb_true_iff, Hall. exact (proj1 (list_elem_of_In _ _) Hm).
Defined.

(** C33. Numbering a conflicting public id can hit another model's local id: with
    models [a] and [a-2] here and a different [a] elsewhere, two models with
    different hashes share the public id [a-2], and a request for it is routed to
    either. *)
Definition collided : Registry :=
  joined "s1" [text_model "a" "h2" []] (with_local [text_model "a" "h1" []; text_model "a-2" "h3" []]).

Theorem numbered_ids_collide :
  reachable_registry plain_url collided ∧ keys_distinct (candidatesLocked collided) ∧
  (λ m, (NodeID m, ModelHash m)) <$> replicasLocked (named "a-2") collided = [("n0", "h3"); ("s1", "h2")] ∧
  option_map rt_NodeID (selectRouteLocked "a-2" (replicasLocked (named "a-2") collided) false RouteLaneText
    collided).2 = Some "s1".
Proof.
  split; [exact (joined_reachable _ _ _ (with_local_reachable _))|].
  split; [apply colon_free_distinct; vm_compute; reflexivity|]. split; vm_compute; reflexivity.
Qed.
